(** * Maze generator: grid model, symmetric DFS carving, dead-end repair,
      statistics and the piece ("Tetris") pipeline.

    Shallow embedding of [geometry.py], [mazegen.py], [tetris_maze.py] and
    the maze construction of [main.py].

    Conventions of the embedding.
    - Python integers are [Z]; [%] and [//] with a positive divisor are
      [Z.modulo] and [Z.div].
    - A reference to a [Cell] object is its coordinate pair: [Maze.__init__]
      stores [Cell(x, y)] at [cells[x][y]] and nothing ever reassigns
      [cell.x] / [cell.y], so [cell.x], [cell.y] are the indices.
    - The wall set of a cell (a Python [set] of [Direction]s) is a record of
      four membership bits, one per direction.
    - In-place mutation is explicit state passing: every method takes the
      maze and returns the updated maze.
    - Calls to the [random] module draw from an explicit random source. *)

From Stdlib Require Import Ascii String.
From Stdlib Require Import ZArith Lia Bool List.
From stdpp Require Import base option list list_numbers relations.

Local Open Scope Z_scope.

(** ** geometry.py *)

Module Direction.

Inductive t : Type := UP | DOWN | LEFT | RIGHT.

Definition eqb (a b : t) : bool :=
  match a, b with
  | UP, UP | DOWN, DOWN | LEFT, LEFT | RIGHT, RIGHT => true
  | _, _ => false
  end.

(** [Direction.X.value] *)
Definition value (d : t) : Z * Z :=
  match d with
  | UP => (0, -1)
  | DOWN => (0, 1)
  | LEFT => (-1, 0)
  | RIGHT => (1, 0)
  end.

Definition opposite (d : t) : t :=
  match d with
  | UP => DOWN
  | DOWN => UP
  | LEFT => RIGHT
  | RIGHT => LEFT
  end.

Definition all : list t := [UP; DOWN; LEFT; RIGHT].

Definition from_vector (dx dy : Z) : option t :=
  if (dx =? 1) && (dy =? 0) then Some RIGHT
  else if (dx =? -1) && (dy =? 0) then Some LEFT
  else if (dx =? 0) && (dy =? 1) then Some DOWN
  else if (dx =? 0) && (dy =? -1) then Some UP
  else None.

End Direction.

(** The vector helpers, on integer vectors. *)
Definition vec_add (v1 v2 : Z * Z) : Z * Z := (fst v1 + fst v2, snd v1 + snd v2).

Definition vec_sub (v1 v2 : Z * Z) : Z * Z := (fst v1 - fst v2, snd v1 - snd v2).

Definition vec_mul (v : Z * Z) (scalar : Z) : Z * Z := (fst v * scalar, snd v * scalar).

Definition vec_equal (v1 v2 : Z * Z) : bool := (fst v1 =? fst v2) && (snd v1 =? snd v2).

Definition vec_dot (v1 v2 : Z * Z) : Z := fst v1 * fst v2 + snd v1 * snd v2.

(** A Python [set] whose elements are [Direction]s. *)
Module DirSet.

Record t : Type := mk { up : bool; down : bool; left : bool; right : bool }.

(** [set()] *)
Definition empty : t := mk false false false false.

(** [d in s] *)
Definition mem (d : Direction.t) (s : t) : bool :=
  match d with
  | Direction.UP => up s
  | Direction.DOWN => down s
  | Direction.LEFT => left s
  | Direction.RIGHT => right s
  end.

(** [s.add(d)] *)
Definition add (d : Direction.t) (s : t) : t :=
  match d with
  | Direction.UP => mk true (down s) (left s) (right s)
  | Direction.DOWN => mk (up s) true (left s) (right s)
  | Direction.LEFT => mk (up s) (down s) true (right s)
  | Direction.RIGHT => mk (up s) (down s) (left s) true
  end.

(** [s.discard(d)] *)
Definition discard (d : Direction.t) (s : t) : t :=
  match d with
  | Direction.UP => mk false (down s) (left s) (right s)
  | Direction.DOWN => mk (up s) false (left s) (right s)
  | Direction.LEFT => mk (up s) (down s) false (right s)
  | Direction.RIGHT => mk (up s) (down s) (left s) false
  end.

(** [set(l)] *)
Definition of_list (l : list Direction.t) : t := fold_right add empty l.

(** [list(s)], in one of the orders Python may iterate the set in. *)
Definition to_list (s : t) : list Direction.t :=
  filter (fun d => mem d s = true) Direction.all.

(** [len(s)] *)
Definition len (s : t) : Z := Z.of_nat (length (to_list s)).

End DirSet.

(** ** mazegen.py *)

Inductive Symmetry : Type := NONE | HORIZONTAL | VERTICAL | ROTATIONAL | BOTH.

Definition Symmetry_eqb (a b : Symmetry) : bool :=
  match a, b with
  | NONE, NONE | HORIZONTAL, HORIZONTAL | VERTICAL, VERTICAL
  | ROTATIONAL, ROTATIONAL | BOTH, BOTH => true
  | _, _ => false
  end.

(** A cell reference: the coordinates [(cell.x, cell.y)]. *)
Abbreviation pos := (Z * Z)%type.

Definition pos_eqb (p q : pos) : bool := (fst p =? fst q) && (snd p =? snd q).

Module Cell.

(** The fields of [Cell] that generation and statistics read or write
    ([type] and [distance] are only touched by the renderer). *)
Record t : Type := mk {
  walls : DirSet.t;
  visited : bool;
  is_intersection : bool;
  is_dead_end : bool
}.

(** [Cell(x, y)] *)
Definition init : t := mk DirSet.empty false false false.

Definition has_wall (c : t) (d : Direction.t) : bool := DirSet.mem d (walls c).

Definition add_wall (c : t) (d : Direction.t) : t :=
  mk (DirSet.add d (walls c)) (visited c) (is_intersection c) (is_dead_end c).

Definition remove_wall (c : t) (d : Direction.t) : t :=
  mk (DirSet.discard d (walls c)) (visited c) (is_intersection c) (is_dead_end c).

Definition wall_count (c : t) : Z := DirSet.len (walls c).

Definition exit_count (c : t) : Z := 4 - DirSet.len (walls c).

(** [is_corner]: exactly two walls, and they are not opposite. *)
Definition is_corner (c : t) : bool :=
  if negb (DirSet.len (walls c) =? 2) then false
  else
    match DirSet.to_list (walls c) with
    | d0 :: d1 :: _ => negb (Direction.eqb (Direction.opposite d0) d1)
    | _ => false
    end.

Definition set_walls (w : DirSet.t) (c : t) : t :=
  mk w (visited c) (is_intersection c) (is_dead_end c).

Definition set_visited (b : bool) (c : t) : t :=
  mk (walls c) b (is_intersection c) (is_dead_end c).

End Cell.

(** Outcome of a constructor that may raise. *)
Inductive result (A : Type) : Type :=
| Ok (a : A)
| ValueError.
Arguments Ok {A} a.
Arguments ValueError {A}.

(** The pseudorandom source behind the [random] module: a state and the
    two draws the generators make. *)
Class Random (R : Type) : Type := {
  (** index drawn by [random.choice(seq)] for a sequence of length [n] *)
  randbelow : R -> nat -> nat * R;
  (** outcome of the test [random.random() < 0.3] *)
  random_lt_03 : R -> bool * R;
  (** outcome of the test [random.random() < 0.5] *)
  random_lt_05 : R -> bool * R;
  (** positions picked by [random.sample(population, k)], given
      [len(population)] and [k] *)
  sample_indices : R -> nat -> nat -> list nat * R
}.

(** [random.choice(l)] on a non-empty list. *)
Definition random_choice {R} `{Random R} {A} (r : R) (l : list A) : option A * R :=
  let '(i, r') := randbelow r (length l) in
  (l !! (i mod length l)%nat, r').

(** A replayable source: the draws are read off a list. *)
#[export] Instance Random_list : Random (list nat) := {
  randbelow r n := (hd 0%nat r, tl r);
  random_lt_03 r := (Nat.eqb (hd 0%nat r) 0, tl r);
  random_lt_05 r := (Nat.eqb (hd 0%nat r) 0, tl r);
  sample_indices r n k := (firstn k r, skipn k r)
}.

(** [random.sample(l, k)] *)
Definition random_sample {R} `{Random R} {A} (r : R) (l : list A) (k : nat) : list A * R :=
  let '(idx, r') := sample_indices r (length l) k in
  (omap (fun i => l !! i) idx, r').

(** [random.choice(l)] where [l] is a literal, non-empty list; [d] stands
    for the value of the impossible empty case. *)
Definition random_choice_of {R} `{Random R} {A} (d : A) (r : R) (l : list A) : A * R :=
  let '(o, r') := random_choice r l in (default d o, r').

(** ** Lists of lists used as two-dimensional arrays *)

(** [g[x][y]]; every access the generators make is in range. *)
Definition grid_get {A} (d : A) (g : list (list A)) (x y : Z) : A :=
  default d (g !! Z.to_nat x ≫= fun col => col !! Z.to_nat y).

(** [g[x][y] = v] *)
Definition grid_set {A} (g : list (list A)) (x y : Z) (v : A) : list (list A) :=
  alter (fun col => <[Z.to_nat y := v]> col) (Z.to_nat x) g.

(** [[[v for _ in range(h)] for _ in range(w)]] *)
Definition grid_make {A} (w h : Z) (v : A) : list (list A) :=
  replicate (Z.to_nat w) (replicate (Z.to_nat h) v).

(** The index pairs of [for x in range(w): for y in range(h)]. *)
Definition range2 (w h : Z) : list (Z * Z) :=
  x ← seqZ 0 w; y ← seqZ 0 h; [(x, y)].

Module Maze.

Record t : Type := mk {
  width : Z;
  height : Z;
  wrap : bool;
  symmetry : Symmetry;
  cells : list (list Cell.t)
}.

Definition with_cells (m : t) (cs : list (list Cell.t)) : t :=
  mk (width m) (height m) (wrap m) (symmetry m) cs.

(** [[Cell(x, y) for y in range(height)] for x in range(width)] *)
Definition fresh_cells (w h : Z) : list (list Cell.t) :=
  replicate (Z.to_nat w) (replicate (Z.to_nat h) Cell.init).

Definition needs_even_width (s : Symmetry) : bool :=
  match s with HORIZONTAL | ROTATIONAL | BOTH => true | _ => false end.

Definition needs_even_height (s : Symmetry) : bool :=
  match s with VERTICAL | ROTATIONAL | BOTH => true | _ => false end.

(** [Maze.__init__] *)
Definition init (w h : Z) (wr : bool) (s : Symmetry) : result t :=
  let self := mk w h wr s (fresh_cells w h) in
  if needs_even_width s && negb (w mod 2 =? 0) then ValueError
  else if needs_even_height s && negb (h mod 2 =? 0) then ValueError
  else Ok self.

(** [self.cells[x][y]] for a cell reference. *)
Definition cell_at (m : t) (p : pos) : Cell.t :=
  default Cell.init
    (cells m !! Z.to_nat (fst p) ≫= fun col => col !! Z.to_nat (snd p)).

(** In-place update of the cell object at [p]. *)
Definition update (m : t) (p : pos) (f : Cell.t -> Cell.t) : t :=
  with_cells m (alter (alter f (Z.to_nat (snd p))) (Z.to_nat (fst p)) (cells m)).

(** [get_cell]: [None] is Python's [None]. *)
Definition get_cell (m : t) (x y : Z) : option pos :=
  if wrap m then Some (x mod width m, y mod height m)
  else if (x <? 0) || (x >=? width m) || (y <? 0) || (y >=? height m) then None
  else Some (x, y).

Definition get_neighbor (m : t) (cell : pos) (direction : Direction.t) : option pos :=
  let '(dx, dy) := Direction.value direction in
  get_cell m (fst cell + dx) (snd cell + dy).

Definition has_wall (m : t) (p : pos) (d : Direction.t) : bool :=
  Cell.has_wall (cell_at m p) d.

Definition remove_wall (m : t) (p : pos) (d : Direction.t) : t :=
  update m p (fun c => Cell.remove_wall c d).

Definition exit_count (m : t) (p : pos) : Z := Cell.exit_count (cell_at m p).

Definition visited (m : t) (p : pos) : bool := Cell.visited (cell_at m p).

(** [remove_wall_between] *)
Definition remove_wall_between (m : t) (cell1 cell2 : pos) : t :=
  let dx := fst cell2 - fst cell1 in
  let dy := snd cell2 - snd cell1 in
  match Direction.from_vector dx dy with
  | None =>
      if wrap m then
        let go d1 d2 := remove_wall (remove_wall m cell1 d1) cell2 d2 in
        if (dx =? width m - 1) && (dy =? 0) then go Direction.LEFT Direction.RIGHT
        else if (dx =? - (width m - 1)) && (dy =? 0) then go Direction.RIGHT Direction.LEFT
        else if (dx =? 0) && (dy =? height m - 1) then go Direction.UP Direction.DOWN
        else if (dx =? 0) && (dy =? - (height m - 1)) then go Direction.DOWN Direction.UP
        else m
      else m
  | Some direction =>
      let opposite := Direction.opposite direction in
      remove_wall (remove_wall m cell1 direction) cell2 opposite
  end.

(** [_get_symmetric_cell] *)
Definition _get_symmetric_cell (m : t) (x y : Z) : list pos :=
  let mirror_x := width m - 1 - x in
  let mirror_y := height m - 1 - y in
  [(x, y)] ++
  match symmetry m with
  | NONE => []
  | HORIZONTAL => if negb (mirror_x =? x) then [(mirror_x, y)] else []
  | VERTICAL => if negb (mirror_y =? y) then [(x, mirror_y)] else []
  | ROTATIONAL =>
      if negb (mirror_x =? x) || negb (mirror_y =? y) then [(mirror_x, mirror_y)] else []
  | BOTH =>
      (if negb (mirror_x =? x) then [(mirror_x, y)] else []) ++
      (if negb (mirror_y =? y) then [(x, mirror_y)] else []) ++
      (if negb (mirror_x =? x) && negb (mirror_y =? y) then [(mirror_x, mirror_y)] else [])
  end.

(** The direction list computed for one symmetric position in
    [_apply_symmetric_wall_removal]. *)
Definition symmetric_directions (cell p : pos) (direction : Direction.t) : list Direction.t :=
  if pos_eqb p cell then [direction]
  else
    let dx_transform := fst p - fst cell in
    let dy_transform := snd p - snd cell in
    if negb (dx_transform =? 0) then
      match direction with
      | Direction.LEFT => [Direction.RIGHT]
      | Direction.RIGHT => [Direction.LEFT]
      | _ => [direction]
      end
    else if negb (dy_transform =? 0) then
      match direction with
      | Direction.UP => [Direction.DOWN]
      | Direction.DOWN => [Direction.UP]
      | _ => [direction]
      end
    else [direction].

(** Body of the loop over [symmetric_positions]. *)
Definition symmetric_removal_at (cell : pos) (direction : Direction.t) (m : t) (p : pos) : t :=
  match get_cell m (fst p) (snd p) with
  | None => m
  | Some base_cell =>
      fold_left
        (fun m sym_dir =>
           match get_neighbor m base_cell sym_dir with
           | Some neighbor => remove_wall_between m base_cell neighbor
           | None => m
           end)
        (symmetric_directions cell p direction) m
  end.

(** [_apply_symmetric_wall_removal] *)
Definition _apply_symmetric_wall_removal (m : t) (cell : pos) (direction : Direction.t) : t :=
  fold_left (symmetric_removal_at cell direction)
    (_get_symmetric_cell m (fst cell) (snd cell)) m.

(** The positions visited by [for x in range(width): for y in range(height)]. *)
Definition positions (m : t) : list pos :=
  x ← seqZ 0 (width m); y ← seqZ 0 (height m); [(x, y)].

(** *** [generate] *)

(** Loop body of the initialisation: unvisited, all four walls. *)
Definition reset_cell (c : Cell.t) : Cell.t :=
  Cell.set_walls (DirSet.of_list Direction.all) (Cell.set_visited false c).

Definition reset_all (m : t) : t :=
  fold_left (fun m p => update m p reset_cell) (positions m) m.

(** The list [neighbors] built at the top of the DFS loop. *)
Definition unvisited_neighbors (m : t) (current : pos) : list (pos * Direction.t) :=
  flat_map
    (fun direction =>
       match get_neighbor m current direction with
       | Some neighbor => if negb (visited m neighbor) then [(neighbor, direction)] else []
       | None => []
       end)
    Direction.all.

(** One iteration of [while stack]; the top of the stack ([stack[-1]])
    is the head of the list. *)
Definition dfs_step {R} `{Random R} (m : t) (current : pos) (rest : list pos) (r : R)
  : option (t * list pos * R) :=
  let neighbors := unvisited_neighbors m current in
  match neighbors with
  | [] => Some (m, rest, r)
  | _ :: _ =>
      match random_choice r neighbors with
      | (Some (neighbor, direction), r') =>
          let m := _apply_symmetric_wall_removal m current direction in
          let m := update m neighbor (Cell.set_visited true) in
          Some (m, neighbor :: current :: rest, r')
      | (None, _) => None
      end
  end.

(** Result of running a loop with a bound on its number of iterations. *)
Inductive outcome (A : Type) : Type :=
| Done (a : A)
| Raised
| OutOfFuel.
Arguments Done {A} a.
Arguments Raised {A}.
Arguments OutOfFuel {A}.

Fixpoint dfs_loop {R} `{Random R} (fuel : nat) (m : t) (stack : list pos) (r : R)
  : outcome (t * R) :=
  match stack with
  | [] => Done (m, r)
  | current :: rest =>
      match fuel with
      | O => OutOfFuel
      | S fuel =>
          match dfs_step m current rest r with
          | Some (m, stack, r) => dfs_loop fuel m stack r
          | None => Raised
          end
      end
  end.

(** [base_cell] of the reconciliation post-pass. *)
Definition base_cell_of (m : t) (x y : Z) : option pos :=
  let base_x := if x <? width m / 2 then x else width m - 1 - x in
  let base_y := if y <? height m / 2 then y else height m - 1 - y in
  match symmetry m with
  | NONE => None
  | HORIZONTAL => get_cell m base_x y
  | VERTICAL => get_cell m x base_y
  | ROTATIONAL => get_cell m base_x base_y
  | BOTH => get_cell m base_x base_y
  end.

Definition reconcile_cell (m : t) (p : pos) : t :=
  if negb (visited m p) then
    match base_cell_of m (fst p) (snd p) with
    | Some base_cell =>
        if visited m base_cell then
          update m p (fun c =>
            Cell.set_visited true (Cell.set_walls (Cell.walls (cell_at m base_cell)) c))
        else m
    | None => m
    end
  else m.

(** The post-pass "Asegurar que todas las celdas simétricas estén visitadas". *)
Definition reconcile (m : t) : t :=
  if Symmetry_eqb (symmetry m) NONE then m
  else fold_left reconcile_cell (positions m) m.

Definition analyze_cell (c : Cell.t) : Cell.t :=
  let exits := Cell.exit_count c in
  Cell.mk (Cell.walls c) (Cell.visited c) (exits >? 2) (exits =? 1).

Definition _analyze_cells (m : t) : t :=
  fold_left (fun m p => update m p analyze_cell) (positions m) m.

(** First loop of the dead-end body: the first direction without wall. *)
Definition find_exit (m : t) (p : pos) : option Direction.t :=
  List.find (fun direction => negb (has_wall m p direction)) Direction.all.

(** Second loop: the neighbour behind the first eligible walled direction. *)
Fixpoint find_connection (m : t) (p : pos) (exit_dir : Direction.t)
    (dirs : list Direction.t) : option pos :=
  match dirs with
  | [] => None
  | direction :: dirs =>
      if negb (Direction.eqb direction exit_dir) && has_wall m p direction then
        match get_neighbor m p direction with
        | Some neighbor =>
            if exit_count m neighbor >=? 2 then Some neighbor
            else find_connection m p exit_dir dirs
        | None => find_connection m p exit_dir dirs
        end
      else find_connection m p exit_dir dirs
  end.

Definition sweep_cell (st : t * bool) (p : pos) : t * bool :=
  let '(m, changed) := st in
  if exit_count m p =? 1 then
    match find_exit m p with
    | Some exit_dir =>
        match find_connection m p exit_dir Direction.all with
        | Some neighbor => (remove_wall_between m p neighbor, true)
        | None => (m, changed)
        end
    | None => (m, changed)
    end
  else (m, changed).

(** One pass of the two nested [for] loops, started with [changed = False]. *)
Definition sweep (m : t) : t * bool :=
  fold_left sweep_cell (positions m) (m, false).

(** [_remove_dead_ends] *)
Fixpoint _remove_dead_ends (fuel : nat) (m : t) : outcome t :=
  match fuel with
  | O => OutOfFuel
  | S fuel =>
      let '(m, changed) := sweep m in
      if changed then _remove_dead_ends fuel m else Done m
  end.

(** "Ajustar punto de inicio para simetría": the start cell is clamped
    when a symmetry is active. *)
Definition adjust_start (m : t) (start_x start_y : Z) : Z * Z :=
  if negb (Symmetry_eqb (symmetry m) NONE)
  then (Z.min start_x (width m / 2), Z.min start_y (height m / 2))
  else (start_x, start_y).

(** The state reached when the [while stack] loop of [generate] exits. *)
Definition carve {R} `{Random R} (fuel : nat) (m : t) (start_x start_y : Z) (r : R)
  : outcome (t * R) :=
  let '(start_x, start_y) := adjust_start m start_x start_y in
  let m := reset_all m in
  match get_cell m start_x start_y with
  | None => Raised
  | Some start_cell =>
      let m := update m start_cell (Cell.set_visited true) in
      dfs_loop fuel m [start_cell] r
  end.

(** [generate]; [fuel] bounds the iterations of each [while] loop. *)
Definition generate {R} `{Random R} (fuel : nat) (m : t) (start_x start_y : Z) (r : R)
  : outcome (t * R) :=
  match carve fuel m start_x start_y r with
  | Done (m, r) =>
      let m := reconcile m in
      let m := _analyze_cells m in
      match _remove_dead_ends fuel m with
      | Done m => Done (m, r)
      | Raised => Raised
      | OutOfFuel => OutOfFuel
      end
  | Raised => Raised
  | OutOfFuel => OutOfFuel
  end.

(** *** [get_statistics] (the integer counters) *)

Record stats : Type := mk_stats {
  total_cells : Z;
  intersections : Z;
  dead_ends : Z;
  corridors : Z;
  total_walls : Z;
  walls_i : Z;
  walls_l : Z;
  walls_t : Z;
  walls_plus : Z
}.

Definition stats_cell (m : t) (s : stats) (p : pos) : stats :=
  let cell := cell_at m p in
  let s :=
    mk_stats (total_cells s) (intersections s) (dead_ends s) (corridors s)
      (total_walls s + Cell.wall_count cell)
      (walls_i s) (walls_l s) (walls_t s) (walls_plus s) in
  let s :=
    if Cell.is_intersection cell then
      mk_stats (total_cells s) (intersections s + 1) (dead_ends s) (corridors s)
        (total_walls s) (walls_i s) (walls_l s) (walls_t s) (walls_plus s)
    else if Cell.is_dead_end cell then
      mk_stats (total_cells s) (intersections s) (dead_ends s + 1) (corridors s)
        (total_walls s) (walls_i s) (walls_l s) (walls_t s) (walls_plus s)
    else
      mk_stats (total_cells s) (intersections s) (dead_ends s) (corridors s + 1)
        (total_walls s) (walls_i s) (walls_l s) (walls_t s) (walls_plus s) in
  if Cell.wall_count cell =? 4 then
    mk_stats (total_cells s) (intersections s) (dead_ends s) (corridors s)
      (total_walls s) (walls_i s + 1) (walls_l s) (walls_t s) (walls_plus s)
  else if Cell.is_corner cell then
    mk_stats (total_cells s) (intersections s) (dead_ends s) (corridors s)
      (total_walls s) (walls_i s) (walls_l s + 1) (walls_t s) (walls_plus s)
  else if Cell.is_intersection cell then
    if Cell.exit_count cell =? 1 then
      mk_stats (total_cells s) (intersections s) (dead_ends s) (corridors s)
        (total_walls s) (walls_i s) (walls_l s) (walls_t s + 1) (walls_plus s)
    else
      mk_stats (total_cells s) (intersections s) (dead_ends s) (corridors s)
        (total_walls s) (walls_i s) (walls_l s) (walls_t s) (walls_plus s + 1)
  else s.

Definition get_statistics (m : t) : stats :=
  fold_left (stats_cell m) (positions m)
    (mk_stats (width m * height m) 0 0 0 0 0 0 0 0).

(** *** [add_wall_between] *)

Definition add_wall (m : t) (p : pos) (d : Direction.t) : t :=
  update m p (fun c => Cell.add_wall c d).

Definition add_wall_between (m : t) (cell1 cell2 : pos) : t :=
  let dx := fst cell2 - fst cell1 in
  let dy := snd cell2 - snd cell1 in
  match Direction.from_vector dx dy with
  | None =>
      if wrap m then
        let go d1 d2 := add_wall (add_wall m cell1 d1) cell2 d2 in
        if (dx =? width m - 1) && (dy =? 0) then go Direction.LEFT Direction.RIGHT
        else if (dx =? - (width m - 1)) && (dy =? 0) then go Direction.RIGHT Direction.LEFT
        else if (dx =? 0) && (dy =? height m - 1) then go Direction.UP Direction.DOWN
        else if (dx =? 0) && (dy =? - (height m - 1)) then go Direction.DOWN Direction.UP
        else m
      else m
  | Some direction =>
      let opposite := Direction.opposite direction in
      add_wall (add_wall m cell1 direction) cell2 opposite
  end.

(** *** [get_cell_graph] *)

(** The list [neighbors] built for one cell. *)
Definition open_neighbors (m : t) (p : pos) : list pos :=
  flat_map
    (fun direction =>
       if negb (has_wall m p direction) then
         match get_neighbor m p direction with
         | Some neighbor => [neighbor]
         | None => []
         end
       else [])
    Direction.all.

(** The dictionary, as the list of its items in insertion order (the keys
    are the positions of distinct cells, so no item is overwritten). *)
Definition get_cell_graph (m : t) : list (pos * list pos) :=
  List.map (fun p => (p, open_neighbors m p)) (positions m).

(** [graph[p]]; [None] is Python's [KeyError]. *)
Definition graph_get (g : list (pos * list pos)) (p : pos) : option (list pos) :=
  snd <$> List.find (fun kv => pos_eqb (fst kv) p) g.

(** *** [to_simple_string] *)

(** The character appended for one cell. *)
Definition simple_char (c : Cell.t) : ascii :=
  if Cell.wall_count c =? 4 then "#"%char
  else if Cell.exit_count c =? 1 then "D"%char
  else if Cell.is_intersection c then "I"%char
  else "."%char.

(** The text of row [y]. *)
Definition simple_line (m : t) (y : Z) : string :=
  fold_left
    (fun line x => (line ++ String (simple_char (cell_at m (x, y))) EmptyString)%string)
    (seqZ 0 (width m)) EmptyString.

(** The list [result] of [to_simple_string]. *)
Definition simple_lines (m : t) : list string :=
  List.map (simple_line m) (seqZ 0 (height m)).

Definition to_simple_string (m : t) : string :=
  String.concat (String "010"%char EmptyString) (simple_lines m).

End Maze.

(** ** tetris_maze.py *)

Module TetrisPiece.

Inductive t : Type := I | L | T | PLUS | SQUARE.

End TetrisPiece.

Module TetrisMaze.

(** The orientation labels ['TL'], ['TR'], ['BL'], ['BR'] of a corner piece. *)
Inductive orientation : Type := TL | TR | BL | BR.

(** The labels ['up'], ['down'], ['left'], ['right'] of an intersection piece. *)
Inductive side : Type := up | down | left | right.

Definition side_eqb (a b : side) : bool :=
  match a, b with
  | up, up | down, down | left, left | right, right => true
  | _, _ => false
  end.

(** [TetrisMaze] extends [Maze]: [maze] holds the inherited fields. *)
Record t : Type := mk {
  maze : Maze.t;
  base_width : Z;
  base_height : Z;
  final_width : Z;
  final_height : Z;
  tetris_grid : list (list (option TetrisPiece.t));
  tile_grid : list (list Z)
}.

Definition with_maze (s : t) (m : Maze.t) : t :=
  mk m (base_width s) (base_height s) (final_width s) (final_height s)
     (tetris_grid s) (tile_grid s).

Definition with_tetris_grid (s : t) (g : list (list (option TetrisPiece.t))) : t :=
  mk (maze s) (base_width s) (base_height s) (final_width s) (final_height s)
     g (tile_grid s).

Definition with_tile_grid (s : t) (g : list (list Z)) : t :=
  mk (maze s) (base_width s) (base_height s) (final_width s) (final_height s)
     (tetris_grid s) g.

Definition width (s : t) : Z := Maze.width (maze s).
Definition height (s : t) : Z := Maze.height (maze s).

(** [TetrisMaze.__init__] *)
Definition init : result t :=
  let base_width := 5 in
  let base_height := 9 in
  let final_width := 28 in
  let final_height := 31 in
  let width := base_width * 3 + 13 in
  let height := base_height * 3 + 4 in
  match Maze.init width height false HORIZONTAL with
  | Ok m =>
      Ok (mk m base_width base_height final_width final_height
            (grid_make base_width base_height None)
            (grid_make width height 0))
  | ValueError => ValueError
  end.

(** "Elegir pieza aleatoria" *)
Definition draw_piece {R} `{Random R} (r : R) : TetrisPiece.t * R :=
  let '(b, r) := random_lt_03 r in
  if b then
    random_choice_of TetrisPiece.SQUARE r
      [TetrisPiece.I; TetrisPiece.L; TetrisPiece.T; TetrisPiece.PLUS]
  else (TetrisPiece.SQUARE, r).

(** Body of the loop "Generar piezas aleatorias pero simétricas". *)
Definition place_piece {R} `{Random R} (bw : Z)
    (st : list (list (option TetrisPiece.t)) * R) (p : Z * Z)
  : list (list (option TetrisPiece.t)) * R :=
  let '(g, r) := st in
  let '(x, y) := p in
  if (x =? 1) && ((y =? 6) || (y =? 7)) then (g, r)
  else
    let '(piece, r) := draw_piece r in
    let g := grid_set g x y (Some piece) in
    let g := if x <? bw / 2 then grid_set g (bw - 1 - x) y (Some piece) else g in
    (g, r).

(** [generate_tetris_grid] *)
Definition generate_tetris_grid {R} `{Random R} (s : t) (r : R) : t * R :=
  let bw := base_width s in
  let bh := base_height s in
  let g :=
    fold_left (fun g p => grid_set g (fst p) (snd p) (Some TetrisPiece.SQUARE))
      (range2 bw bh) (tetris_grid s) in
  let g :=
    if (bh >? 7) && (bw >? 1)
    then grid_set (grid_set g 1 6 (Some TetrisPiece.I)) 1 7 (Some TetrisPiece.I)
    else g in
  let '(g, r) := fold_left (place_piece bw) (range2 (bw / 2 + 1) bh) (g, r) in
  (with_tetris_grid s g, r).

(** A guarded assignment [if c: g[x][y] = v]. *)
Definition set_when (c : bool) (g : list (list Z)) (x y v : Z) : list (list Z) :=
  if c then grid_set g x y v else g.

(** Body of the loop of [tetris_to_tiles] for the piece at [(tx, ty)]. *)
Definition expand_piece {R} `{Random R} (tw th : Z)
    (pieces : list (list (option TetrisPiece.t)))
    (st : list (list Z) * R) (p : Z * Z) : list (list Z) * R :=
  let '(g, r) := st in
  let '(tx, ty) := p in
  let base_x := tx * 3 in
  let base_y := ty * 3 in
  match grid_get None pieces tx ty with
  | Some TetrisPiece.SQUARE =>
      (fold_left
         (fun g q =>
            set_when ((base_x + fst q <? tw) && (base_y + snd q <? th))
              g (base_x + fst q) (base_y + snd q) 1)
         (range2 3 3) g, r)
  | Some TetrisPiece.I =>
      let '(vertical, r) := random_lt_05 r in
      if vertical then
        (fold_left
           (fun g dy =>
              set_when ((base_x + 1 <? tw) && (base_y + dy <? th)) g (base_x + 1) (base_y + dy) 0)
           (seqZ 0 3) g, r)
      else
        (fold_left
           (fun g dx =>
              set_when ((base_x + dx <? tw) && (base_y + 1 <? th)) g (base_x + dx) (base_y + 1) 0)
           (seqZ 0 3) g, r)
  | Some TetrisPiece.L =>
      let g := set_when ((base_x + 1 <? tw) && (base_y + 1 <? th)) g (base_x + 1) (base_y + 1) 0 in
      let '(o, r) := random_choice_of TL r [TL; TR; BL; BR] in
      let g :=
        match o with
        | TL | TR =>
            fold_left
              (fun g dx => set_when ((base_x + dx <? tw) && (base_y <? th)) g (base_x + dx) base_y 0)
              (seqZ 0 3) g
        | _ => g
        end in
      let g :=
        match o with
        | TL | BL =>
            fold_left
              (fun g dy => set_when ((base_x <? tw) && (base_y + dy <? th)) g base_x (base_y + dy) 0)
              (seqZ 0 3) g
        | _ => g
        end in
      let g :=
        match o with
        | TR | BR =>
            fold_left
              (fun g dy =>
                 set_when ((base_x + 2 <? tw) && (base_y + dy <? th)) g (base_x + 2) (base_y + dy) 0)
              (seqZ 0 3) g
        | _ => g
        end in
      let g :=
        match o with
        | BL | BR =>
            fold_left
              (fun g dx =>
                 set_when ((base_x + dx <? tw) && (base_y + 2 <? th)) g (base_x + dx) (base_y + 2) 0)
              (seqZ 0 3) g
        | _ => g
        end in
      (g, r)
  | Some piece =>
      (* T or PLUS *)
      let g := set_when ((base_x + 1 <? tw) && (base_y + 1 <? th)) g (base_x + 1) (base_y + 1) 0 in
      let '(directions, r) :=
        match piece with
        | TetrisPiece.T =>
            random_choice_of [up; left; right] r
              [[up; left; right]; [up; left; down]; [up; right; down]; [left; right; down]]
        | _ => ([up; down; left; right], r)
        end in
      let has sd := existsb (side_eqb sd) directions in
      let g := set_when (has up && (base_y >? 0)) g (base_x + 1) base_y 0 in
      let g := set_when (has down && (base_y + 2 <? th)) g (base_x + 1) (base_y + 2) 0 in
      let g := set_when (has left && (base_x >? 0)) g base_x (base_y + 1) 0 in
      let g := set_when (has right && (base_x + 2 <? tw)) g (base_x + 2) (base_y + 1) 0 in
      (g, r)
  | None => (g, r)
  end.

(** [tetris_to_tiles]: the temporary grid and its dimensions. *)
Definition tetris_to_tiles {R} `{Random R} (s : t) (r : R) : list (list Z) * Z * Z * R :=
  let temp_width := base_width s * 3 in
  let temp_height := base_height s * 3 in
  let temp_grid := grid_make temp_width temp_height 0 in
  let '(temp_grid, r) :=
    fold_left (expand_piece temp_width temp_height (tetris_grid s))
      (range2 (base_width s) (base_height s)) (temp_grid, r) in
  (temp_grid, temp_width, temp_height, r).

(** [_can_adjust_height] *)
Definition _can_adjust_height (w h : Z) (g : list (list Z)) (x : Z) : bool :=
  if (x =? 0) || (x =? w - 1) then false
  else
    forallb
      (fun y =>
         negb ((grid_get 0 g (x - 1) y =? 1) && (grid_get 0 g (x + 1) y =? 1)
               && (grid_get 0 g x y =? 0)))
      (seqZ 1 (h - 2)).

(** [_can_adjust_width] *)
Definition _can_adjust_width (w h : Z) (g : list (list Z)) (y : Z) : bool :=
  if (y =? 0) || (y =? h - 1) then false
  else
    forallb
      (fun x =>
         negb ((grid_get 0 g x (y - 1) =? 1) && (grid_get 0 g x (y + 1) =? 1)
               && (grid_get 0 g x y =? 0)))
      (seqZ 1 (w - 2)).

(** [_apply_height_adjustments] *)
Definition _apply_height_adjustments (w h : Z) (g : list (list Z)) : list (list Z) :=
  fold_left
    (fun g x =>
       if _can_adjust_height w h g x then
         fold_left
           (fun g y =>
              if grid_get 0 g x y =? 0 then
                if (y >? 0) && (y <? h - 1)
                then grid_set (grid_set g x (y - 1) 0) x (y + 1) 0
                else g
              else g)
           (seqZ 1 (h - 2)) g
       else g)
    (seqZ 1 (w - 2)) g.

(** [_apply_width_adjustments] *)
Definition _apply_width_adjustments (w h : Z) (g : list (list Z)) : list (list Z) :=
  fold_left
    (fun g y =>
       if _can_adjust_width w h g y then
         fold_left
           (fun g x =>
              if grid_get 0 g x y =? 0 then
                if (x >? 0) && (x <? w - 1)
                then grid_set (grid_set g (x - 1) y 1) (x + 1) y 1
                else g
              else g)
           (seqZ 1 (w - 2)) g
       else g)
    (seqZ 1 (h - 2)) g.

(** The offsets [for dx in [-1, 0, 1]: for dy in [-1, 0, 1]]. *)
Definition offsets : list (Z * Z) :=
  dx ← [-1; 0; 1]; dy ← [-1; 0; 1]; [(dx, dy)].

Definition inside (w h nx ny : Z) : bool :=
  (0 <=? nx) && (nx <? w) && (0 <=? ny) && (ny <? h).

(** [_smooth_edges] *)
Definition _smooth_edges (w h : Z) (g : list (list Z)) : list (list Z) :=
  fold_left
    (fun g p =>
       let '(x, y) := p in
       if grid_get 0 g x y =? 1 then
         let wall_neighbors :=
           Z.of_nat (length (List.filter
             (fun o =>
                negb ((fst o =? 0) && (snd o =? 0))
                && inside w h (x + fst o) (y + snd o)
                && (grid_get 0 g (x + fst o) (y + snd o) =? 1))
             offsets)) in
         if wall_neighbors <? 2 then grid_set g x y 0
         else if wall_neighbors >? 6 then grid_set g x y 1
         else g
       else g)
    (x ← seqZ 1 (w - 2); y ← seqZ 1 (h - 2); [(x, y)]) g.

(** [apply_size_adjustments].  The source computes the sampled index as
    [int(x / (width / temp_width))] in floating point; for the dimensions
    the class fixes (28/15 and 31/27) the quotient is never within rounding
    error of an integer except at [x = 0], so it is the integer quotient
    [x * temp_width // width]. *)
Definition apply_size_adjustments (s : t) (temp_grid : list (list Z))
    (temp_width temp_height : Z) : t :=
  let w := width s in
  let h := height s in
  let g := grid_make w h 0 in
  let g :=
    fold_left
      (fun g p =>
         let '(x, y) := p in
         let src_x := Z.min (x * temp_width / w) (temp_width - 1) in
         let src_y := Z.min (y * temp_height / h) (temp_height - 1) in
         grid_set g x y (grid_get 0 temp_grid src_x src_y))
      (range2 w h) g in
  let g := _apply_height_adjustments w h g in
  let g := _apply_width_adjustments w h g in
  let g := _smooth_edges w h g in
  with_tile_grid s g.

(** [create_tunnels] *)
Definition create_tunnels {R} `{Random R} (s : t) (r : R) : t * R :=
  let w := width s in
  let h := height s in
  let g := tile_grid s in
  let tunnel_candidates :=
    flat_map
      (fun y =>
         (if (grid_get 0 g 0 y =? 1) && (grid_get 0 g 1 y =? 0) then [(0, y)] else [])
         ++ (if (grid_get 0 g (w - 1) y =? 1) && (grid_get 0 g (w - 2) y =? 0)
             then [(w - 1, y)] else []))
      (seqZ (h / 4) (3 * h / 4 - h / 4)) in
  let '(num_tunnels, r) := random_choice_of 1%nat r [1%nat; 2%nat] in
  let '(selected_tunnels, r) :=
    random_sample r tunnel_candidates (Nat.min num_tunnels (length tunnel_candidates)) in
  let g :=
    fold_left
      (fun g p =>
         let '(x, y) := p in
         let g := grid_set g x y 0 in
         if x =? 0 then grid_set g (w - 1) y 0
         else if x =? w - 1 then grid_set g 0 y 0
         else g)
      selected_tunnels g in
  (with_tile_grid s g, r).

(** [convert_to_paths] *)
Definition convert_to_paths (s : t) : t :=
  let w := width s in
  let h := height s in
  let g := tile_grid s in
  let path_grid :=
    fold_left
      (fun pg p =>
         let '(x, y) := p in
         let has_path :=
           existsb
             (fun o =>
                (Z.abs (fst o) + Z.abs (snd o) =? 1)
                && inside w h (x + fst o) (y + snd o)
                && (grid_get 0 g (x + fst o) (y + snd o) =? 0))
             offsets in
         if has_path then grid_set pg x y 1 else pg)
      (x ← seqZ 1 (w - 2); y ← seqZ 1 (h - 2); [(x, y)])
      (grid_make w h 0) in
  with_tile_grid s path_grid.

(** [convert_to_walls] *)
Definition convert_to_walls (s : t) : t :=
  let w := width s in
  let h := height s in
  let g := tile_grid s in
  let final_grid :=
    fold_left
      (fun fg p => if grid_get 0 g (fst p) (snd p) =? 1 then grid_set fg (fst p) (snd p) 0 else fg)
      (range2 w h) (grid_make w h 1) in
  let wall_grid :=
    fold_left
      (fun wg p =>
         let '(x, y) := p in
         if grid_get 0 final_grid x y =? 0 then
           fold_left
             (fun wg o =>
                if negb ((fst o =? 0) && (snd o =? 0)) && inside w h (x + fst o) (y + snd o)
                then grid_set wg (x + fst o) (y + snd o) 1
                else wg)
             offsets (grid_set wg x y 0)
         else wg)
      (range2 w h) (grid_make w h 1) in
  with_tile_grid s wall_grid.

(** Body of the second loop of [_convert_to_maze_structure]. *)
Definition open_tile (tiles : list (list Z)) (m : Maze.t) (p : Z * Z) : Maze.t :=
  let '(x, y) := p in
  if grid_get 0 tiles x y =? 0 then
    match Maze.get_cell m x y with
    | Some cell =>
        fold_left
          (fun m direction =>
             let '(dx, dy) := Direction.value direction in
             let nx := x + dx in
             let ny := y + dy in
             if inside (Maze.width m) (Maze.height m) nx ny then
               match Maze.get_cell m nx ny with
               | Some neighbor =>
                   if grid_get 0 tiles nx ny =? 0
                   then Maze.remove_wall_between m cell neighbor
                   else m
               | None => m
               end
             else m)
          Direction.all m
    | None => m
    end
  else m.

(** Body of the loop "Asegurar que los túneles funcionen (wrap)". *)
Definition stitch_row (tiles : list (list Z)) (m : Maze.t) (y : Z) : Maze.t :=
  if (grid_get 0 tiles 0 y =? 0) && (grid_get 0 tiles (Maze.width m - 1) y =? 0) then
    match Maze.get_cell m 0 y, Maze.get_cell m (Maze.width m - 1) y with
    | Some left_cell, Some right_cell => Maze.remove_wall_between m left_cell right_cell
    | _, _ => m
    end
  else m.

(** First loop of [_convert_to_maze_structure]: "Limpiar todas las celdas". *)
Definition wall_all (m : Maze.t) : Maze.t :=
  fold_left
    (fun m p =>
       match Maze.get_cell m (fst p) (snd p) with
       | Some cell => Maze.update m cell (Cell.set_walls (DirSet.of_list Direction.all))
       | None => m
       end)
    (Maze.positions m) m.

(** Second loop: "Crear pasillos basados en tile_grid". *)
Definition open_tiles (tiles : list (list Z)) (m : Maze.t) : Maze.t :=
  fold_left (open_tile tiles) (Maze.positions m) m.

(** Third loop, under [if self.wrap]. *)
Definition stitch_wrap (tiles : list (list Z)) (m : Maze.t) : Maze.t :=
  if Maze.wrap m
  then fold_left (stitch_row tiles) (seqZ 0 (Maze.height m)) m
  else m.

(** [_convert_to_maze_structure], on the inherited maze. *)
Definition bridge (tiles : list (list Z)) (m : Maze.t) : Maze.t :=
  stitch_wrap tiles (open_tiles tiles (wall_all m)).

Definition _convert_to_maze_structure (s : t) : t :=
  with_maze s (bridge (tile_grid s) (maze s)).

(** [TetrisMaze.generate] *)
Definition generate {R} `{Random R} (s : t) (r : R) : t * R :=
  let '(s, r) := generate_tetris_grid s r in
  let '(temp_grid, temp_width, temp_height, r) := tetris_to_tiles s r in
  let s := apply_size_adjustments s temp_grid temp_width temp_height in
  let '(s, r) := create_tunnels s r in
  let s := convert_to_paths s in
  let s := convert_to_walls s in
  let s := _convert_to_maze_structure s in
  (with_maze s (Maze._analyze_cells (maze s)), r).

End TetrisMaze.

(** ** main.py *)

Module Main.

(** "Ajustar dimensiones para simetría" in [main]: an odd dimension on an
    axis the symmetry constrains is raised by one. *)
Definition adjust_dimensions (symmetry : Symmetry) (width height : Z) : Z * Z :=
  let width :=
    if Maze.needs_even_width symmetry && negb (width mod 2 =? 0) then width + 1 else width in
  let height :=
    if Maze.needs_even_height symmetry && negb (height mod 2 =? 0) then height + 1 else height in
  (width, height).

(** The default branch of [main]: [Maze(width, height, args.wrap, symmetry)]
    with the adjusted dimensions, then [maze.generate()]. *)
Definition main_maze {R} `{Random R} (fuel : nat) (width height : Z) (wrap : bool)
    (symmetry : Symmetry) (r : R) : Maze.outcome (Maze.t * R) :=
  let '(width, height) := adjust_dimensions symmetry width height in
  match Maze.init width height wrap symmetry with
  | Ok maze => Maze.generate fuel maze 0 0 r
  | ValueError => Maze.Raised
  end.

(** [generate_random_maze] *)
Definition generate_random_maze {R} `{Random R} (fuel : nat) (r : R)
  : Maze.outcome (Maze.t * R) :=
  let sizes := [10; 12; 14; 16; 18; 20; 22; 24] in
  let '(width, r) := random_choice_of 10 r sizes in
  let '(height, r) := random_choice_of 10 r sizes in
  let '(wrap, r) := random_choice_of true r [true; false] in
  let '(symmetry, r) :=
    random_choice_of NONE r [NONE; HORIZONTAL; VERTICAL; ROTATIONAL; BOTH] in
  let width := if Maze.needs_even_width symmetry then (width / 2) * 2 else width in
  let height := if Maze.needs_even_height symmetry then (height / 2) * 2 else height in
  match Maze.init width height wrap symmetry with
  | Ok maze => Maze.generate fuel maze 0 0 r
  | ValueError => Maze.Raised
  end.

End Main.

(** * Facts about the embedding *)

Import Maze.

(** Turn boolean tests in the hypotheses into propositions. *)
Ltac bool_hyps :=
  repeat match goal with
    | H : _ && _ = true |- _ => apply andb_true_iff in H as [? ?]
    | H : _ || _ = false |- _ => apply orb_false_iff in H as [? ?]
    | H : negb _ = true |- _ => apply negb_true_iff in H
    | H : negb _ = false |- _ => apply negb_false_iff in H
    | H : (_ =? _) = true |- _ => apply Z.eqb_eq in H
    | H : (_ =? _) = false |- _ => apply Z.eqb_neq in H
    | H : (_ <? _) = true |- _ => apply Z.ltb_lt in H
    | H : (_ <? _) = false |- _ => apply Z.ltb_ge in H
    | H : (_ >=? _) = true |- _ => rewrite Z.geb_leb in H; apply Z.leb_le in H
    | H : (_ >=? _) = false |- _ => rewrite Z.geb_leb in H; apply Z.leb_gt in H
    | H : (_ >? _) = true |- _ => rewrite Z.gtb_ltb in H; apply Z.ltb_lt in H
    | H : (_ >? _) = false |- _ => rewrite Z.gtb_ltb in H; apply Z.ltb_ge in H
    end.

(** Case analysis on the outermost test of the goal. *)
Ltac case_if :=
  match goal with
  | |- context [if ?b then _ else _] => destruct b eqn:?
  end.


(** ** Directions and wall sets *)

Lemma Direction_eqb_eq a b : Direction.eqb a b = true <-> a = b.
Proof. destruct a, b; simpl; split; intros; congruence. Qed.

Lemma Direction_eqb_refl a : Direction.eqb a a = true.
Proof. now destruct a. Qed.

Lemma opposite_involutive d : Direction.opposite (Direction.opposite d) = d.
Proof. now destruct d. Qed.

Lemma opposite_neq d : Direction.opposite d <> d.
Proof. now destruct d. Qed.

Lemma DirSet_ext s1 s2 :
  (forall d, DirSet.mem d s1 = DirSet.mem d s2) -> s1 = s2.
Proof.
  intros E. destruct s1 as [a b c e], s2 as [a' b' c' e'].
  pose proof (E Direction.UP). pose proof (E Direction.DOWN).
  pose proof (E Direction.LEFT). pose proof (E Direction.RIGHT).
  simpl in *. congruence.
Qed.

Lemma mem_discard d d' s :
  DirSet.mem d' (DirSet.discard d s) = DirSet.mem d' s && negb (Direction.eqb d d').
Proof. destruct d, d', s as [[] [] [] []]; reflexivity. Qed.

Lemma mem_full d : DirSet.mem d (DirSet.of_list Direction.all) = true.
Proof. now destruct d. Qed.

Lemma len_full_iff s : DirSet.len s = 4 <-> s = DirSet.of_list Direction.all.
Proof. destruct s as [[] [] [] []]; vm_compute; split; congruence. Qed.

Lemma pos_eqb_eq p q : pos_eqb p q = true <-> p = q.
Proof.
  destruct p, q. unfold pos_eqb. simpl.
  rewrite andb_true_iff, !Z.eqb_eq. split; [intros []|intros [= -> ->]]; subst; auto.
Qed.

Lemma pos_eqb_refl p : pos_eqb p p = true.
Proof. now apply pos_eqb_eq. Qed.

Lemma pos_eqb_neq p q : pos_eqb p q = false <-> p <> q.
Proof.
  rewrite <- pos_eqb_eq. destruct (pos_eqb p q); split; congruence.
Qed.

(** ** Well-formed mazes and the cell store *)

(** [p] designates a cell of the dense array. *)
Definition in_bounds (m : Maze.t) (p : pos) : Prop :=
  0 <= fst p < width m /\ 0 <= snd p < height m.

(** The array has the dimensions the constructor gave it (and these are
    positive, as the interface requires). *)
Definition wf (m : Maze.t) : Prop :=
  0 < width m /\ 0 < height m /\
  length (cells m) = Z.to_nat (width m) /\
  Forall (fun col => length col = Z.to_nat (height m)) (cells m).

(** Mazes that differ in cell contents only. *)
Definition same_frame (m m' : Maze.t) : Prop :=
  width m' = width m /\ height m' = height m /\
  wrap m' = wrap m /\ symmetry m' = symmetry m /\ (wf m -> wf m').

Lemma same_frame_refl m : same_frame m m.
Proof. unfold same_frame; tauto. Qed.

Lemma same_frame_trans m1 m2 m3 :
  same_frame m1 m2 -> same_frame m2 m3 -> same_frame m1 m3.
Proof.
  unfold same_frame. intros (?&?&?&?&?) (?&?&?&?&?).
  split; [congruence|]. split; [congruence|]. split; [congruence|].
  split; [congruence|]. auto.
Qed.

Lemma same_frame_in_bounds m m' p : same_frame m m' -> in_bounds m' p <-> in_bounds m p.
Proof. intros (Hw & Hh & _). unfold in_bounds. now rewrite Hw, Hh. Qed.

Lemma update_frame m p f : same_frame m (update m p f).
Proof.
  unfold same_frame, update, with_cells, wf; simpl. repeat split; try tauto.
  - now rewrite length_alter.
  - destruct H as (_ & _ & _ & HF).
    rewrite Forall_lookup in HF |- *. intros i col Hi.
    rewrite list_lookup_alter in Hi.
    destruct (decide (Z.to_nat (fst p) = i)) as [->|].
    + destruct (cells m !! i) as [c|] eqn:E; simpl in Hi; [|discriminate].
      injection Hi as <-. rewrite length_alter. eauto.
    + eauto.
Qed.

Lemma fold_update_frame {A} (F : Maze.t -> A -> Maze.t) (l : list A) m :
  (forall m a, same_frame m (F m a)) -> same_frame m (fold_left F l m).
Proof.
  intros HF. revert m. induction l as [|a l IH]; intros m; simpl.
  - apply same_frame_refl.
  - eapply same_frame_trans; [apply HF | apply IH].
Qed.

Lemma wf_lookup m p :
  wf m -> in_bounds m p ->
  exists c, cells m !! Z.to_nat (fst p) ≫= (fun col => col !! Z.to_nat (snd p)) = Some c.
Proof.
  intros (Hw & Hh & Hl & HF) [Hx Hy].
  destruct (lookup_lt_is_Some_2 (cells m) (Z.to_nat (fst p))) as [col Hcol]; [lia|].
  rewrite Hcol. simpl.
  rewrite Forall_lookup in HF.
  assert (length col = Z.to_nat (height m)) as Hc by eauto.
  destruct (lookup_lt_is_Some_2 col (Z.to_nat (snd p))) as [c Hc']; [lia|].
  eauto.
Qed.

Lemma cell_at_update_eq m p f :
  wf m -> in_bounds m p -> cell_at (update m p f) p = f (cell_at m p).
Proof.
  intros Hwf Hp. destruct (wf_lookup m p Hwf Hp) as [c Hc].
  unfold cell_at, update, with_cells. simpl.
  rewrite list_lookup_alter_eq.
  destruct (cells m !! Z.to_nat (fst p)) as [col|]; simpl in *; [|discriminate].
  rewrite list_lookup_alter_eq, Hc. reflexivity.
Qed.

Lemma cell_at_update_ne m p q f :
  0 <= fst p -> 0 <= snd p -> 0 <= fst q -> 0 <= snd q -> p <> q ->
  cell_at (update m p f) q = cell_at m q.
Proof.
  intros ? ? ? ? Hne. unfold cell_at, update, with_cells. simpl.
  destruct (decide (Z.to_nat (fst p) = Z.to_nat (fst q))) as [E|E].
  - rewrite E, list_lookup_alter_eq.
    destruct (cells m !! Z.to_nat (fst q)) as [col|]; simpl; [|reflexivity].
    rewrite list_lookup_alter_ne; [reflexivity|].
    intros E'. apply Hne. destruct p, q; simpl in *. f_equal; lia.
  - rewrite list_lookup_alter_ne by assumption. reflexivity.
Qed.

Lemma cell_at_update m p q f :
  wf m -> in_bounds m p -> in_bounds m q ->
  cell_at (update m p f) q = if pos_eqb p q then f (cell_at m q) else cell_at m q.
Proof.
  intros Hwf Hp Hq. destruct (pos_eqb p q) eqn:E.
  - apply pos_eqb_eq in E as ->. now apply cell_at_update_eq.
  - apply pos_eqb_neq in E. destruct Hp, Hq. apply cell_at_update_ne; auto; lia.
Qed.

(** ** Cell lookup and neighbours *)

Lemma get_cell_frame m m' x y : same_frame m m' -> get_cell m' x y = get_cell m x y.
Proof. intros (Hw & Hh & Hr & _). unfold get_cell. now rewrite Hw, Hh, Hr. Qed.

Lemma get_neighbor_frame m m' u d :
  same_frame m m' -> get_neighbor m' u d = get_neighbor m u d.
Proof.
  intros F. unfold get_neighbor. destruct (Direction.value d). now apply get_cell_frame.
Qed.

Lemma positions_frame m m' : same_frame m m' -> positions m' = positions m.
Proof. intros (Hw & Hh & _). unfold positions. now rewrite Hw, Hh. Qed.

Lemma get_cell_in_bounds m x y p : wf m -> get_cell m x y = Some p -> in_bounds m p.
Proof.
  intros (Hw & Hh & _). unfold get_cell, in_bounds.
  destruct (wrap m).
  - intros [= <-]. simpl. split; apply Z.mod_pos_bound; assumption.
  - destruct (_ || _) eqn:E; [discriminate|]. intros [= <-]. simpl.
    rewrite !orb_false_iff in E. lia.
Qed.

Lemma get_cell_of_in_bounds m p : in_bounds m p -> get_cell m (fst p) (snd p) = Some p.
Proof.
  intros [Hx Hy]. unfold get_cell. destruct (wrap m).
  - rewrite !Z.mod_small by lia. now destruct p.
  - destruct (_ || _) eqn:E.
    + rewrite !orb_true_iff in E. lia.
    + now destruct p.
Qed.

Lemma get_neighbor_in_bounds m u d v :
  wf m -> get_neighbor m u d = Some v -> in_bounds m v.
Proof.
  unfold get_neighbor. destruct (Direction.value d). apply get_cell_in_bounds.
Qed.

(** A step that stays inside the array reaches the expected cell, with or
    without wrap. *)
Lemma get_neighbor_inside m u d :
  in_bounds m (fst u + fst (Direction.value d), snd u + snd (Direction.value d)) ->
  get_neighbor m u d
  = Some (fst u + fst (Direction.value d), snd u + snd (Direction.value d)).
Proof.
  intros H. unfold get_neighbor. destruct (Direction.value d) as [dx dy]. simpl in *.
  now apply (get_cell_of_in_bounds m (fst u + dx, snd u + dy)).
Qed.

Lemma mod_shift a r k w : 0 <= r < w -> a = r + k * w -> a mod w = r.
Proof. intros Hr ->. rewrite Z.mod_add by lia. apply Z.mod_small; lia. Qed.

Lemma mod_succ_pred x w : 0 <= x < w -> ((x + 1) mod w - 1) mod w = x.
Proof.
  intros Hx. destruct (Z.eq_dec (x + 1) w) as [E|E].
  - rewrite <- E at 1. rewrite Z.mod_same by lia.
    apply (mod_shift _ x (-1)); lia.
  - rewrite (Z.mod_small (x + 1)) by lia.
    replace (x + 1 - 1) with x by lia. apply Z.mod_small; lia.
Qed.

Lemma mod_pred_succ x w : 0 <= x < w -> ((x - 1) mod w + 1) mod w = x.
Proof.
  intros Hx. destruct (Z.eq_dec x 0) as [E|E].
  - subst x. rewrite (mod_shift (0 - 1) (w - 1) (-1)) by lia.
    replace (w - 1 + 1) with w by lia. apply Z.mod_same; lia.
  - rewrite (Z.mod_small (x - 1)) by lia.
    replace (x - 1 + 1) with x by lia. apply Z.mod_small; lia.
Qed.

(** Stepping back from a neighbour returns to the cell. *)
Lemma get_neighbor_opposite m u d v :
  wf m -> in_bounds m u -> get_neighbor m u d = Some v ->
  get_neighbor m v (Direction.opposite d) = Some u.
Proof.
  intros (Hw & Hh & _) [Hx Hy]. destruct u as [x y]. simpl in *.
  unfold get_neighbor, get_cell. destruct (wrap m).
  - destruct d; simpl; intros [= <-]; simpl; f_equal; f_equal;
      rewrite ?Z.add_0_r, ?Z.mod_mod by lia;
      try (apply Z.mod_small; lia);
      try (apply mod_succ_pred; lia);
      try (apply (mod_pred_succ y); lia); try (apply (mod_pred_succ x); lia).
  - destruct d; simpl;
      (destruct (_ || _) eqn:E; [discriminate|]); intros [= <-]; simpl;
      rewrite !orb_false_iff in E;
      (destruct (_ || _) eqn:E'; [rewrite !orb_true_iff in E'; lia|]);
      f_equal; f_equal; lia.
Qed.

Lemma elem_of_positions m p : p ∈ positions m <-> in_bounds m p.
Proof.
  unfold positions, in_bounds. rewrite list_elem_of_bind. split.
  - intros (x & Hy & Hx). apply list_elem_of_bind in Hy as (y & Hp & Hy).
    apply list_elem_of_singleton in Hp as ->. simpl.
    apply elem_of_seqZ in Hx, Hy. lia.
  - intros [Hx Hy]. exists (fst p). split; [|apply elem_of_seqZ; lia].
    apply list_elem_of_bind. exists (snd p). split; [|apply elem_of_seqZ; lia].
    destruct p. apply list_elem_of_singleton. reflexivity.
Qed.

Lemma NoDup_positions m : NoDup (positions m).
Proof.
  unfold positions. apply NoDup_bind.
  - intros x1 x2 p _ _ H1 H2.
    apply list_elem_of_bind in H1 as (y1 & E1 & _), H2 as (y2 & E2 & _).
    apply list_elem_of_singleton in E1, E2. congruence.
  - intros x _. apply NoDup_bind.
    + intros y1 y2 p _ _ H1 H2. apply list_elem_of_singleton in H1, H2. congruence.
    + intros. apply NoDup_singleton.
    + apply NoDup_seqZ.
  - apply NoDup_seqZ.
Qed.

(** ** Removing walls *)

Lemma remove_wall_frame m p d : same_frame m (remove_wall m p d).
Proof. apply update_frame. Qed.

Lemma has_wall_remove_wall m p d q d' :
  wf m -> in_bounds m p -> in_bounds m q ->
  has_wall (remove_wall m p d) q d'
  = has_wall m q d' && negb (pos_eqb p q && Direction.eqb d d').
Proof.
  intros Hwf Hp Hq. unfold has_wall, remove_wall.
  rewrite cell_at_update by assumption.
  destruct (pos_eqb p q); simpl.
  - unfold Cell.has_wall, Cell.remove_wall. simpl. apply mem_discard.
  - now rewrite andb_true_r.
Qed.

Lemma visited_remove_wall m p d q :
  wf m -> in_bounds m p -> in_bounds m q ->
  visited (remove_wall m p d) q = visited m q.
Proof.
  intros Hwf Hp Hq. unfold visited, remove_wall.
  rewrite cell_at_update by assumption. now destruct (pos_eqb p q).
Qed.

(** The direction in which [remove_wall_between] clears the wall of
    [cell1] (it clears the opposite one at [cell2]); [None] when it returns
    without touching the maze. *)
Definition carve_direction (m : Maze.t) (cell1 cell2 : pos) : option Direction.t :=
  let dx := fst cell2 - fst cell1 in
  let dy := snd cell2 - snd cell1 in
  match Direction.from_vector dx dy with
  | Some d => Some d
  | None =>
      if wrap m then
        if (dx =? width m - 1) && (dy =? 0) then Some Direction.LEFT
        else if (dx =? - (width m - 1)) && (dy =? 0) then Some Direction.RIGHT
        else if (dx =? 0) && (dy =? height m - 1) then Some Direction.UP
        else if (dx =? 0) && (dy =? - (height m - 1)) then Some Direction.DOWN
        else None
      else None
  end.

Lemma remove_wall_between_eq m c1 c2 :
  remove_wall_between m c1 c2
  = match carve_direction m c1 c2 with
    | Some d => remove_wall (remove_wall m c1 d) c2 (Direction.opposite d)
    | None => m
    end.
Proof.
  unfold remove_wall_between, carve_direction.
  destruct (Direction.from_vector _ _); [reflexivity|].
  destruct (wrap m); [|reflexivity].
  repeat (case_if; [reflexivity|]). reflexivity.
Qed.

Lemma from_vector_Some dx dy d :
  Direction.from_vector dx dy = Some d -> (dx, dy) = Direction.value d.
Proof.
  unfold Direction.from_vector.
  repeat (case_if; [bool_hyps; intros [= <-]; subst; reflexivity|]).
  discriminate.
Qed.

Lemma from_vector_value d :
  Direction.from_vector (fst (Direction.value d)) (snd (Direction.value d)) = Some d.
Proof. now destruct d. Qed.

(** [remove_wall_between] only ever opens the wall towards a neighbour. *)
Lemma carve_direction_neighbor m c1 c2 d :
  wf m -> in_bounds m c1 -> in_bounds m c2 ->
  carve_direction m c1 c2 = Some d -> get_neighbor m c1 d = Some c2.
Proof.
  intros (Hw & Hh & _) [Hx1 Hy1] [Hx2 Hy2]. unfold carve_direction.
  destruct c1 as [x1 y1], c2 as [x2 y2]. simpl in *.
  destruct (Direction.from_vector _ _) as [d'|] eqn:Hv.
  - intros [= ->]. apply from_vector_Some in Hv.
    rewrite get_neighbor_inside; rewrite <- Hv; simpl.
    + f_equal. f_equal; lia.
    + unfold in_bounds. simpl. lia.
  - destruct (wrap m) eqn:Hwrap; [|discriminate].
    unfold get_neighbor, get_cell. rewrite Hwrap.
    repeat (case_if;
      [bool_hyps; intros [= <-]; simpl; f_equal; f_equal;
       first [ apply (mod_shift _ _ 0); lia
             | apply (mod_shift _ _ (-1)); lia
             | apply (mod_shift _ _ 1); lia ] |]).
    discriminate.
Qed.

Lemma remove_wall_between_frame m c1 c2 : same_frame m (remove_wall_between m c1 c2).
Proof.
  rewrite remove_wall_between_eq. destruct (carve_direction m c1 c2).
  - eapply same_frame_trans; apply remove_wall_frame.
  - apply same_frame_refl.
Qed.

(** Effect of clearing the two sides of one wall. *)
Lemma has_wall_remove_pair m c1 d1 c2 d2 q d :
  wf m -> in_bounds m c1 -> in_bounds m c2 -> in_bounds m q ->
  has_wall (remove_wall (remove_wall m c1 d1) c2 d2) q d
  = has_wall m q d
    && negb (pos_eqb c1 q && Direction.eqb d1 d)
    && negb (pos_eqb c2 q && Direction.eqb d2 d).
Proof.
  intros Hwf H1 H2 Hq.
  pose proof (remove_wall_frame m c1 d1) as F.
  rewrite has_wall_remove_wall;
    [| apply F, Hwf | now apply (same_frame_in_bounds _ _ _ F)
     | now apply (same_frame_in_bounds _ _ _ F)].
  rewrite has_wall_remove_wall by assumption. reflexivity.
Qed.

Lemma visited_remove_wall_between m c1 c2 q :
  wf m -> in_bounds m c1 -> in_bounds m c2 -> in_bounds m q ->
  visited (remove_wall_between m c1 c2) q = visited m q.
Proof.
  intros Hwf H1 H2 Hq. rewrite remove_wall_between_eq.
  destruct (carve_direction m c1 c2) as [d|]; [|reflexivity].
  pose proof (remove_wall_frame m c1 d) as F.
  rewrite visited_remove_wall;
    [| apply F, Hwf | now apply (same_frame_in_bounds _ _ _ F)
     | now apply (same_frame_in_bounds _ _ _ F)].
  now apply visited_remove_wall.
Qed.

(** ** Wall consistency *)

(** Two cells that are neighbours (through the wrap too, when it is on)
    agree on the wall between them. *)
Definition wall_consistent (m : Maze.t) : Prop :=
  forall u d v,
    in_bounds m u -> get_neighbor m u d = Some v ->
    has_wall m u d = has_wall m v (Direction.opposite d).

Lemma remove_pair_consistent m c1 d1 c2 :
  wf m -> wall_consistent m -> in_bounds m c1 -> get_neighbor m c1 d1 = Some c2 ->
  wall_consistent (remove_wall (remove_wall m c1 d1) c2 (Direction.opposite d1)).
Proof.
  intros Hwf Hc H1 Hn u d v Hu Hv.
  pose proof (get_neighbor_in_bounds _ _ _ _ Hwf Hn) as H2.
  pose proof (get_neighbor_opposite _ _ _ _ Hwf H1 Hn) as Hn'.
  assert (same_frame m (remove_wall (remove_wall m c1 d1) c2 (Direction.opposite d1))) as F
    by (eapply same_frame_trans; apply remove_wall_frame).
  apply (proj1 (same_frame_in_bounds _ _ _ F)) in Hu.
  rewrite (get_neighbor_frame _ _ _ _ F) in Hv.
  pose proof (get_neighbor_in_bounds _ _ _ _ Hwf Hv) as Hv'.
  pose proof (get_neighbor_opposite _ _ _ _ Hwf Hu Hv) as Hvu.
  rewrite !has_wall_remove_pair by assumption.
  rewrite (Hc u d v Hu Hv).
  (* (u, d) is one side of the cleared wall iff (v, opposite d) is the other *)
  assert (pos_eqb c1 u && Direction.eqb d1 d
          = pos_eqb c2 v && Direction.eqb (Direction.opposite d1) (Direction.opposite d)) as ->.
  { destruct (pos_eqb c1 u && Direction.eqb d1 d) eqn:E; symmetry.
    - apply andb_true_iff in E as [E1 E2].
      apply pos_eqb_eq in E1 as ->. apply Direction_eqb_eq in E2 as ->.
      assert (v = c2) as -> by congruence.
      now rewrite pos_eqb_refl, Direction_eqb_refl.
    - apply not_true_is_false. intros E'.
      apply andb_true_iff in E' as [E1 E2].
      apply pos_eqb_eq in E1 as <-. apply Direction_eqb_eq in E2.
      assert (d1 = d) as <- by (destruct d, d1; simpl in *; congruence).
      assert (u = c1) as -> by congruence.
      now rewrite pos_eqb_refl, Direction_eqb_refl in E. }
  assert (pos_eqb c2 u && Direction.eqb (Direction.opposite d1) d
          = pos_eqb c1 v && Direction.eqb d1 (Direction.opposite d)) as ->.
  { destruct (pos_eqb c2 u && Direction.eqb (Direction.opposite d1) d) eqn:E; symmetry.
    - apply andb_true_iff in E as [E1 E2].
      apply pos_eqb_eq in E1 as ->. apply Direction_eqb_eq in E2 as <-.
      assert (v = c1) as -> by congruence.
      now rewrite pos_eqb_refl, opposite_involutive, Direction_eqb_refl.
    - apply not_true_is_false. intros E'.
      apply andb_true_iff in E' as [E1 E2].
      apply pos_eqb_eq in E1 as <-. apply Direction_eqb_eq in E2 as ->.
      rewrite opposite_involutive in *.
      assert (u = c2) as -> by congruence.
      now rewrite pos_eqb_refl, Direction_eqb_refl in E. }
  destruct (has_wall m v _), (pos_eqb c2 v && _), (pos_eqb c1 v && _); reflexivity.
Qed.

Lemma remove_wall_between_consistent m c1 c2 :
  wf m -> wall_consistent m -> in_bounds m c1 -> in_bounds m c2 ->
  wall_consistent (remove_wall_between m c1 c2).
Proof.
  intros Hwf Hc H1 H2. rewrite remove_wall_between_eq.
  destruct (carve_direction m c1 c2) as [d|] eqn:E; [|assumption].
  apply remove_pair_consistent; try assumption.
  now apply carve_direction_neighbor.
Qed.

(** ** Mazes reached by carving *)

(** [carved m m']: [m'] results from [m] by calls of
    [remove_wall_between] on cells of the array; every wall mutation made
    after the initialisation of [generate] has this form. *)
Inductive carved (m : Maze.t) : Maze.t -> Prop :=
| carved_refl : carved m m
| carved_step m' c1 c2 :
    carved m m' -> in_bounds m c1 -> in_bounds m c2 ->
    carved m (remove_wall_between m' c1 c2).

Lemma carved_frame m m' : carved m m' -> same_frame m m'.
Proof.
  induction 1.
  - apply same_frame_refl.
  - eapply same_frame_trans; [eassumption|apply remove_wall_between_frame].
Qed.

Lemma carved_trans m1 m2 m3 : carved m1 m2 -> carved m2 m3 -> carved m1 m3.
Proof.
  intros H12 H23. induction H23.
  - assumption.
  - pose proof (carved_frame _ _ H12) as F.
    apply carved_step; [assumption| |]; now apply (same_frame_in_bounds _ _ _ F).
Qed.

Lemma carved_wf m m' : carved m m' -> wf m -> wf m'.
Proof. intros H. apply (carved_frame _ _ H). Qed.

Lemma carved_consistent m m' :
  wf m -> carved m m' -> wall_consistent m -> wall_consistent m'.
Proof.
  intros Hwf H Hc. induction H; [assumption|].
  pose proof (carved_frame _ _ H) as F.
  apply remove_wall_between_consistent; auto.
  - now apply F.
  - now apply (same_frame_in_bounds _ _ _ F).
  - now apply (same_frame_in_bounds _ _ _ F).
Qed.

Lemma carved_visited m m' q :
  wf m -> carved m m' -> in_bounds m q -> visited m' q = visited m q.
Proof.
  intros Hwf H Hq. induction H; [reflexivity|].
  pose proof (carved_frame _ _ H) as F.
  rewrite visited_remove_wall_between; auto.
  - now apply F.
  - now apply (same_frame_in_bounds _ _ _ F).
  - now apply (same_frame_in_bounds _ _ _ F).
  - now apply (same_frame_in_bounds _ _ _ F).
Qed.

Lemma has_wall_remove_wall_between_mono m c1 c2 q d :
  wf m -> in_bounds m c1 -> in_bounds m c2 -> in_bounds m q ->
  has_wall (remove_wall_between m c1 c2) q d = true -> has_wall m q d = true.
Proof.
  intros Hwf H1 H2 Hq. rewrite remove_wall_between_eq.
  destruct (carve_direction m c1 c2); [|auto].
  rewrite has_wall_remove_pair by assumption.
  rewrite !andb_true_iff. tauto.
Qed.

(** Carving only ever removes walls. *)
Lemma carved_mono m m' q d :
  wf m -> carved m m' -> in_bounds m q ->
  has_wall m' q d = true -> has_wall m q d = true.
Proof.
  intros Hwf H Hq. induction H; [auto|].
  pose proof (carved_frame _ _ H) as F. intros Hw. apply IHcarved.
  eapply has_wall_remove_wall_between_mono; try eassumption.
  - now apply F.
  - now apply (same_frame_in_bounds _ _ _ F).
  - now apply (same_frame_in_bounds _ _ _ F).
  - now apply (same_frame_in_bounds _ _ _ F).
Qed.

Lemma fold_carved {A} (F : Maze.t -> A -> Maze.t) (l : list A) m0 m :
  (forall m a, carved m0 m -> carved m0 (F m a)) ->
  carved m0 m -> carved m0 (fold_left F l m).
Proof.
  intros HF. revert m. induction l as [|a l IH]; intros m Hm; simpl; auto.
Qed.

Lemma symmetric_removal_at_carved m0 m cell d p :
  wf m0 -> carved m0 m -> carved m0 (symmetric_removal_at cell d m p).
Proof.
  intros Hwf Hm. unfold symmetric_removal_at.
  pose proof (carved_frame _ _ Hm) as F.
  destruct (get_cell m (fst p) (snd p)) as [base|] eqn:Hb; [|assumption].
  rewrite (get_cell_frame _ _ _ _ F) in Hb. apply get_cell_in_bounds in Hb; [|assumption].
  apply fold_carved; [|assumption].
  intros m1 sym_dir Hm1. pose proof (carved_frame _ _ Hm1) as F1.
  destruct (get_neighbor m1 base sym_dir) as [n|] eqn:Hn; [|assumption].
  rewrite (get_neighbor_frame _ _ _ _ F1) in Hn.
  apply get_neighbor_in_bounds in Hn; [|assumption].
  now apply carved_step.
Qed.

Lemma apply_symmetric_carved m cell d :
  wf m -> carved m (_apply_symmetric_wall_removal m cell d).
Proof.
  intros Hwf. unfold _apply_symmetric_wall_removal.
  apply fold_carved; [|apply carved_refl].
  intros. now apply symmetric_removal_at_carved.
Qed.

(** ** Updates of the [visited] flag *)

Lemma set_visited_frame m p b : same_frame m (update m p (Cell.set_visited b)).
Proof. apply update_frame. Qed.

Lemma has_wall_set_visited m p b q d :
  wf m -> in_bounds m p -> in_bounds m q ->
  has_wall (update m p (Cell.set_visited b)) q d = has_wall m q d.
Proof.
  intros Hwf Hp Hq. unfold has_wall. rewrite cell_at_update by assumption.
  now destruct (pos_eqb p q).
Qed.

Lemma visited_set_visited m p b q :
  wf m -> in_bounds m p -> in_bounds m q ->
  visited (update m p (Cell.set_visited b)) q = if pos_eqb p q then b else visited m q.
Proof.
  intros Hwf Hp Hq. unfold visited. rewrite cell_at_update by assumption.
  now destruct (pos_eqb p q).
Qed.

Lemma set_visited_consistent m p b :
  wf m -> in_bounds m p -> wall_consistent m ->
  wall_consistent (update m p (Cell.set_visited b)).
Proof.
  intros Hwf Hp Hc u d v Hu Hv.
  pose proof (set_visited_frame m p b) as F.
  apply (proj1 (same_frame_in_bounds _ _ _ F)) in Hu.
  rewrite (get_neighbor_frame _ _ _ _ F) in Hv.
  rewrite !has_wall_set_visited; eauto using get_neighbor_in_bounds.
Qed.

(** ** Loops over all cells *)

Lemma cell_at_fold_update m (l : list pos) f q :
  wf m -> (forall p, p ∈ l -> in_bounds m p) -> NoDup l -> in_bounds m q ->
  cell_at (fold_left (fun m p => update m p f) l m) q
  = if decide (q ∈ l) then f (cell_at m q) else cell_at m q.
Proof.
  intros Hwf Hl Hnd Hq. revert m Hwf Hl Hq.
  induction Hnd as [|a l Ha Hnd IH]; intros m Hwf Hl Hq; simpl.
  - destruct (decide (q ∈ [])) as [H|_]; [inversion H|reflexivity].
  - pose proof (update_frame m a f) as F.
    assert (in_bounds m a) as Hina by (apply Hl; left).
    rewrite IH.
    + rewrite cell_at_update by assumption.
      destruct (decide (q ∈ l)) as [Hin|Hin], (decide (q ∈ a :: l)) as [Hin'|Hin'].
      * destruct (pos_eqb a q) eqn:E; [|reflexivity].
        apply pos_eqb_eq in E as ->. contradiction.
      * exfalso. apply Hin'. now right.
      * apply elem_of_cons in Hin' as [->|]; [|contradiction].
        now rewrite pos_eqb_refl.
      * destruct (pos_eqb a q) eqn:E; [|reflexivity].
        apply pos_eqb_eq in E as ->. exfalso. apply Hin'. left.
    + now apply F.
    + intros p Hp. apply (same_frame_in_bounds _ _ _ F). apply Hl. now right.
    + now apply (same_frame_in_bounds _ _ _ F).
Qed.

Lemma cell_at_update_all m f q :
  wf m -> in_bounds m q ->
  cell_at (fold_left (fun m p => update m p f) (positions m) m) q = f (cell_at m q).
Proof.
  intros Hwf Hq. rewrite cell_at_fold_update; auto using NoDup_positions.
  - destruct (decide (q ∈ positions m)) as [|H]; [reflexivity|].
    exfalso. apply H. now apply elem_of_positions.
  - intros p. apply elem_of_positions.
Qed.

Lemma update_all_frame m f :
  same_frame m (fold_left (fun m p => update m p f) (positions m) m).
Proof. apply fold_update_frame. intros. apply update_frame. Qed.

Lemma reset_all_frame m : same_frame m (reset_all m).
Proof. apply update_all_frame. Qed.

Lemma has_wall_reset_all m q d :
  wf m -> in_bounds m q -> has_wall (reset_all m) q d = true.
Proof.
  intros Hwf Hq. unfold has_wall, reset_all.
  rewrite cell_at_update_all by assumption. apply mem_full.
Qed.

Lemma visited_reset_all m q :
  wf m -> in_bounds m q -> visited (reset_all m) q = false.
Proof.
  intros Hwf Hq. unfold visited, reset_all.
  now rewrite cell_at_update_all by assumption.
Qed.

Lemma analyze_cells_frame m : same_frame m (_analyze_cells m).
Proof. apply update_all_frame. Qed.

Lemma has_wall_analyze_cells m q d :
  wf m -> in_bounds m q -> has_wall (_analyze_cells m) q d = has_wall m q d.
Proof.
  intros Hwf Hq. unfold has_wall, _analyze_cells.
  now rewrite cell_at_update_all by assumption.
Qed.

(** ** Counting cells *)

Lemma filter_length_ext {A} (f g : A -> bool) (l : list A) :
  (forall y, y ∈ l -> g y = f y) ->
  length (List.filter g l) = length (List.filter f l).
Proof.
  induction l as [|a l IH]; intros H; simpl; [reflexivity|].
  rewrite (H a) by left. destruct (f a); simpl; rewrite IH; auto.
  all: intros; apply H; now right.
Qed.

(** Switching the test off at one element of a duplicate-free list lowers
    the count by one. *)
Lemma filter_length_flip {A} (f g : A -> bool) (l : list A) x :
  NoDup l -> x ∈ l -> f x = true -> g x = false ->
  (forall y, y ∈ l -> y <> x -> g y = f y) ->
  length (List.filter f l) = S (length (List.filter g l)).
Proof.
  intros Hnd. induction Hnd as [|a l Ha Hnd IH]; intros Hx Hf Hg Hext.
  - inversion Hx.
  - simpl. apply elem_of_cons in Hx as [->|Hx].
    + rewrite Hf, Hg. simpl. f_equal. symmetry. apply filter_length_ext.
      intros y Hy. apply Hext; [now right|]. intros ->. contradiction.
    + rewrite (Hext a) by (try left; intros ->; contradiction).
      destruct (f a); simpl; rewrite IH; auto.
      all: intros; apply Hext; auto; now right.
Qed.

(** Number of cells not yet visited. *)
Definition unvisited_count (m : Maze.t) : nat :=
  length (List.filter (fun p => negb (visited m p)) (positions m)).

(** ** The DFS loop *)

Lemma elem_of_unvisited_neighbors m cur n d :
  (n, d) ∈ unvisited_neighbors m cur
  <-> get_neighbor m cur d = Some n /\ visited m n = false.
Proof.
  unfold unvisited_neighbors. rewrite list_elem_of_In, in_flat_map. split.
  - intros (d' & _ & H). destruct (get_neighbor m cur d') as [n'|] eqn:E; [|inversion H].
    destruct (visited m n') eqn:V; simpl in H; [inversion H|].
    destruct H as [[= -> ->]|[]]. auto.
  - intros [Hn Hv]. exists d. split; [destruct d; simpl; tauto|].
    rewrite Hn, Hv. simpl. now left.
Qed.

Lemma random_choice_elem {R} `{Random R} {A} (r : R) (l : list A) :
  l <> [] -> exists a, fst (random_choice r l) = Some a /\ a ∈ l.
Proof.
  intros Hl. unfold random_choice. destruct (randbelow r (length l)) as [i r'].
  simpl. destruct (lookup_lt_is_Some_2 l (i mod length l)%nat) as [a Ha].
  - apply Nat.mod_upper_bound. destruct l; simpl; [congruence|lia].
  - exists a. split; [assumption|]. apply list_elem_of_lookup. eauto.
Qed.

(** The two outcomes of an iteration: backtrack, or carve towards an
    unvisited neighbour and push it. *)
Lemma dfs_step_cases {R} `{Random R} m cur rest (r : R) :
  (unvisited_neighbors m cur = [] /\ dfs_step m cur rest r = Some (m, rest, r))
  \/ (exists n d r',
        (n, d) ∈ unvisited_neighbors m cur /\
        dfs_step m cur rest r
        = Some (update (_apply_symmetric_wall_removal m cur d) n (Cell.set_visited true),
                n :: cur :: rest, r')).
Proof.
  unfold dfs_step. destruct (unvisited_neighbors m cur) as [|x l] eqn:E.
  - left. auto.
  - right. destruct (random_choice_elem r (x :: l)) as ([n d] & Hc & Hin); [discriminate|].
    destruct (random_choice r (x :: l)) as [o r'] eqn:Er. simpl in Hc. subst o.
    exists n, d, r'. auto.
Qed.

(** The array is connected by neighbour steps: a set of cells that contains
    one cell and is closed under [get_neighbor] contains every cell. *)
Lemma walk_direction m (P : pos -> Prop) d :
  (forall p d v, in_bounds m p -> P p -> get_neighbor m p d = Some v -> P v) ->
  forall (n : nat) p,
    in_bounds m p -> P p ->
    in_bounds m (fst p + Z.of_nat n * fst (Direction.value d),
                 snd p + Z.of_nat n * snd (Direction.value d)) ->
    P (fst p + Z.of_nat n * fst (Direction.value d),
       snd p + Z.of_nat n * snd (Direction.value d)).
Proof.
  intros Hcl n. induction n as [|n IH]; intros p Hp HP Hq.
  - replace (_, _) with p; [assumption|].
    destruct p; simpl; f_equal; lia.
  - set (p' := (fst p + fst (Direction.value d), snd p + snd (Direction.value d))).
    assert (in_bounds m p') as Hp'.
    { unfold in_bounds in *. subst p'. destruct d; simpl in *; lia. }
    assert (P p') as HP'.
    { eapply Hcl; [exact Hp|exact HP|]. now apply get_neighbor_inside. }
    specialize (IH p' Hp' HP').
    replace (fst p + Z.of_nat (S n) * fst (Direction.value d),
             snd p + Z.of_nat (S n) * snd (Direction.value d))
      with (fst p' + Z.of_nat n * fst (Direction.value d),
            snd p' + Z.of_nat n * snd (Direction.value d)).
    + apply IH. unfold in_bounds in *. subst p'. destruct d; simpl in *; lia.
    + subst p'. simpl. f_equal; lia.
Qed.

Lemma grid_connected m (P : pos -> Prop) s :
  in_bounds m s -> P s ->
  (forall p d v, in_bounds m p -> P p -> get_neighbor m p d = Some v -> P v) ->
  forall q, in_bounds m q -> P q.
Proof.
  intros Hs HPs Hcl q Hq.
  (* first along the row of [s], then along the column of [q] *)
  assert (in_bounds m (fst q, snd s)) as Hmid by (unfold in_bounds in *; simpl; lia).
  assert (P (fst q, snd s)) as HPmid.
  { destruct (Z_le_gt_dec (fst s) (fst q)).
    - pose proof (walk_direction m P Direction.RIGHT Hcl (Z.to_nat (fst q - fst s)) s Hs HPs) as W.
      simpl in W. replace (fst s + Z.of_nat (Z.to_nat (fst q - fst s)) * 1) with (fst q) in W by lia.
      replace (snd s + Z.of_nat (Z.to_nat (fst q - fst s)) * 0) with (snd s) in W by lia. auto.
    - pose proof (walk_direction m P Direction.LEFT Hcl (Z.to_nat (fst s - fst q)) s Hs HPs) as W.
      simpl in W. replace (fst s + Z.of_nat (Z.to_nat (fst s - fst q)) * -1) with (fst q) in W by lia.
      replace (snd s + Z.of_nat (Z.to_nat (fst s - fst q)) * 0) with (snd s) in W by lia. auto. }
  replace q with (fst q, snd q) by now destruct q.
  destruct (Z_le_gt_dec (snd s) (snd q)).
  - pose proof (walk_direction m P Direction.DOWN Hcl (Z.to_nat (snd q - snd s)) _ Hmid HPmid) as W.
    simpl in W. replace (snd s + Z.of_nat (Z.to_nat (snd q - snd s)) * 1) with (snd q) in W by lia.
    replace (fst q + Z.of_nat (Z.to_nat (snd q - snd s)) * 0) with (fst q) in W by lia.
    apply W. unfold in_bounds in *; simpl; lia.
  - pose proof (walk_direction m P Direction.UP Hcl (Z.to_nat (snd s - snd q)) _ Hmid HPmid) as W.
    simpl in W. replace (snd s + Z.of_nat (Z.to_nat (snd s - snd q)) * -1) with (snd q) in W by lia.
    replace (fst q + Z.of_nat (Z.to_nat (snd s - snd q)) * 0) with (fst q) in W by lia.
    apply W. unfold in_bounds in *; simpl; lia.
Qed.

(** Invariant of the [while stack] loop. *)
Record dfs_inv (m : Maze.t) (stack : list pos) : Prop := {
  inv_wf : wf m;
  inv_start : exists s, in_bounds m s /\ visited m s = true;
  inv_stack : forall p, p ∈ stack -> in_bounds m p /\ visited m p = true;
  inv_closed :
    forall p, in_bounds m p -> visited m p = true ->
      p ∈ stack \/ forall d v, get_neighbor m p d = Some v -> visited m v = true
}.

(** When the stack is empty every cell has been visited. *)
Lemma dfs_inv_all_visited m :
  dfs_inv m [] -> forall q, in_bounds m q -> visited m q = true.
Proof.
  intros [Hwf (s & Hs & Hvs) _ Hcl].
  apply (grid_connected m (fun p => visited m p = true) s Hs Hvs).
  intros p d v Hp Hv Hn. destruct (Hcl p Hp Hv) as [H|H]; [inversion H|eauto].
Qed.

Lemma visited_after_push m cur d n q :
  wf m -> in_bounds m n -> in_bounds m q ->
  visited (update (_apply_symmetric_wall_removal m cur d) n (Cell.set_visited true)) q
  = if pos_eqb n q then true else visited m q.
Proof.
  intros Hwf Hn Hq.
  pose proof (apply_symmetric_carved m cur d Hwf) as C.
  pose proof (carved_frame _ _ C) as F.
  rewrite visited_set_visited;
    [| now apply F | now apply (same_frame_in_bounds _ _ _ F)
     | now apply (same_frame_in_bounds _ _ _ F)].
  now rewrite (carved_visited _ _ _ Hwf C Hq).
Qed.

Lemma push_frame m cur d n :
  wf m ->
  same_frame m (update (_apply_symmetric_wall_removal m cur d) n (Cell.set_visited true)).
Proof.
  intros Hwf. eapply same_frame_trans; [|apply update_frame].
  apply carved_frame, apply_symmetric_carved, Hwf.
Qed.

Lemma dfs_inv_pop m cur rest :
  dfs_inv m (cur :: rest) -> unvisited_neighbors m cur = [] -> dfs_inv m rest.
Proof.
  intros [Hwf Hs Hst Hcl] He. split; auto.
  - intros p Hp. apply Hst. now right.
  - intros p Hp Hv. destruct (Hcl p Hp Hv) as [Hin|H]; [|now right].
    apply elem_of_cons in Hin as [->|Hin]; [|now left].
    right. intros d v Hn. destruct (visited m v) eqn:V; [reflexivity|].
    assert ((v, d) ∈ unvisited_neighbors m cur) as Hin
      by now apply elem_of_unvisited_neighbors.
    rewrite He in Hin. inversion Hin.
Qed.

Lemma dfs_inv_push m cur rest n d :
  dfs_inv m (cur :: rest) -> (n, d) ∈ unvisited_neighbors m cur ->
  dfs_inv (update (_apply_symmetric_wall_removal m cur d) n (Cell.set_visited true))
          (n :: cur :: rest).
Proof.
  intros [Hwf (s & Hs & Hvs) Hst Hcl] Hin.
  apply elem_of_unvisited_neighbors in Hin as [Hn Hv].
  pose proof (get_neighbor_in_bounds _ _ _ _ Hwf Hn) as Hnb.
  pose proof (push_frame m cur d n Hwf) as F.
  assert (forall q, in_bounds m q -> visited m q = true ->
            visited (update (_apply_symmetric_wall_removal m cur d) n
                       (Cell.set_visited true)) q = true) as Hmono.
  { intros q Hq Hvq. rewrite visited_after_push by assumption.
    now destruct (pos_eqb n q). }
  split.
  - now apply F.
  - exists s. split; [now apply (same_frame_in_bounds _ _ _ F)|auto].
  - intros p Hp. apply elem_of_cons in Hp as [->|Hp].
    + split; [now apply (same_frame_in_bounds _ _ _ F)|].
      rewrite visited_after_push by assumption. now rewrite pos_eqb_refl.
    + destruct (Hst p Hp) as [Hpb Hpv].
      split; [now apply (same_frame_in_bounds _ _ _ F)|auto].
  - intros p Hp Hpv. apply (proj1 (same_frame_in_bounds _ _ _ F)) in Hp.
    rewrite visited_after_push in Hpv by assumption.
    destruct (pos_eqb n p) eqn:E.
    + apply pos_eqb_eq in E as ->. left. left.
    + destruct (Hcl p Hp Hpv) as [H|H]; [left; now right|].
      right. intros d' v Hv'. rewrite (get_neighbor_frame _ _ _ _ F) in Hv'.
      apply Hmono; eauto using get_neighbor_in_bounds.
Qed.

Lemma unvisited_count_push m cur d n :
  wf m -> in_bounds m n -> visited m n = false ->
  unvisited_count m
  = S (unvisited_count
         (update (_apply_symmetric_wall_removal m cur d) n (Cell.set_visited true))).
Proof.
  intros Hwf Hn Hv. unfold unvisited_count.
  rewrite (positions_frame _ _ (push_frame m cur d n Hwf)).
  apply (filter_length_flip _ _ _ n).
  - apply NoDup_positions.
  - now apply elem_of_positions.
  - now rewrite Hv.
  - rewrite visited_after_push by assumption. now rewrite pos_eqb_refl.
  - intros y Hy Hne. apply elem_of_positions in Hy.
    rewrite visited_after_push by assumption.
    destruct (pos_eqb n y) eqn:E; [|reflexivity].
    apply pos_eqb_eq in E. congruence.
Qed.

(** The loop terminates, within [2 * unvisited + |stack|] iterations, and
    carries any property preserved by its two kinds of iteration. *)
Lemma dfs_loop_invariant {R} `{Random R} (P : Maze.t -> list pos -> Prop) :
  (forall m cur rest,
      dfs_inv m (cur :: rest) -> P m (cur :: rest) ->
      unvisited_neighbors m cur = [] -> P m rest) ->
  (forall m cur rest n d,
      dfs_inv m (cur :: rest) -> P m (cur :: rest) ->
      (n, d) ∈ unvisited_neighbors m cur ->
      P (update (_apply_symmetric_wall_removal m cur d) n (Cell.set_visited true))
        (n :: cur :: rest)) ->
  forall fuel m stack (r : R),
    dfs_inv m stack -> P m stack ->
    (2 * unvisited_count m + length stack <= fuel)%nat ->
    exists m' r',
      dfs_loop fuel m stack r = Done (m', r') /\
      dfs_inv m' [] /\ P m' [] /\ same_frame m m'.
Proof.
  intros Hpop Hpush fuel. induction fuel as [|fuel IH]; intros m stack r Hinv HP Hfuel.
  - destruct stack; [|simpl in Hfuel; lia].
    exists m, r. simpl. auto using same_frame_refl.
  - destruct stack as [|cur rest].
    { exists m, r. simpl. auto using same_frame_refl. }
    simpl.
    destruct (dfs_step_cases m cur rest r) as [[He ->]|(n & d & r' & Hin & ->)].
    + apply IH.
      * now apply (dfs_inv_pop m cur).
      * now apply (Hpop m cur).
      * simpl in Hfuel. lia.
    + pose proof Hin as Hin'. apply elem_of_unvisited_neighbors in Hin' as [Hn Hv].
      pose proof (inv_wf _ _ Hinv) as Hwf.
      pose proof (get_neighbor_in_bounds _ _ _ _ Hwf Hn) as Hnb.
      destruct (IH (update (_apply_symmetric_wall_removal m cur d) n (Cell.set_visited true))
                  (n :: cur :: rest) r') as (m' & r'' & Hl & Hi & HP' & F).
      * now apply dfs_inv_push.
      * now apply Hpush.
      * rewrite (unvisited_count_push m cur d n Hwf Hnb Hv) in Hfuel.
        simpl in *. lia.
      * exists m', r''. split; [exact Hl|]. split; [exact Hi|]. split; [exact HP'|].
        eapply same_frame_trans; [apply (push_frame m cur d n Hwf)|exact F].
Qed.

(** ** The carving phase of [generate] *)

Lemma length_positions m :
  length (positions m) = (Z.to_nat (width m) * Z.to_nat (height m))%nat.
Proof.
  unfold positions. rewrite <- (length_seqZ 0 (width m)), <- (length_seqZ 0 (height m)).
  generalize (seqZ 0 (width m)) as xs. generalize (seqZ 0 (height m)) as ys.
  intros ys xs. induction xs as [|x xs IH]; [reflexivity|].
  rewrite bind_cons, length_app, IH. simpl. f_equal.
  clear. induction ys as [|y ys IH]; [reflexivity|].
  rewrite bind_cons. simpl. now rewrite IH.
Qed.

(** The start cell [generate] looks up exists: always under wrap, and
    otherwise when the (clamped) start coordinates lie in the array. *)
Definition valid_start (m : Maze.t) (start_x start_y : Z) : Prop :=
  wrap m = true \/ in_bounds m (adjust_start m start_x start_y).

Lemma get_cell_valid m x y :
  wf m -> wrap m = true \/ in_bounds m (x, y) ->
  exists p, get_cell m x y = Some p /\ in_bounds m p.
Proof.
  intros Hwf [Hw|Hb].
  - exists (x mod width m, y mod height m).
    assert (get_cell m x y = Some (x mod width m, y mod height m)) as E
      by (unfold get_cell; now rewrite Hw).
    split; [assumption|]. eapply get_cell_in_bounds; eassumption.
  - exists (x, y). split; [|assumption]. apply (get_cell_of_in_bounds m (x, y) Hb).
Qed.

(** The maze on which the DFS loop starts. *)
Definition dfs_start (m : Maze.t) (start : pos) : Maze.t :=
  update (reset_all m) start (Cell.set_visited true).

Lemma dfs_start_frame m s : same_frame m (dfs_start m s).
Proof. eapply same_frame_trans; [apply reset_all_frame|apply update_frame]. Qed.

Lemma has_wall_dfs_start m s q d :
  wf m -> in_bounds m s -> in_bounds m q -> has_wall (dfs_start m s) q d = true.
Proof.
  intros Hwf Hs Hq. pose proof (reset_all_frame m) as F. unfold dfs_start.
  rewrite has_wall_set_visited;
    [| now apply F | now apply (same_frame_in_bounds _ _ _ F)
     | now apply (same_frame_in_bounds _ _ _ F)].
  now apply has_wall_reset_all.
Qed.

Lemma visited_dfs_start m s q :
  wf m -> in_bounds m s -> in_bounds m q -> visited (dfs_start m s) q = pos_eqb s q.
Proof.
  intros Hwf Hs Hq. pose proof (reset_all_frame m) as F. unfold dfs_start.
  rewrite visited_set_visited;
    [| now apply F | now apply (same_frame_in_bounds _ _ _ F)
     | now apply (same_frame_in_bounds _ _ _ F)].
  rewrite visited_reset_all by assumption. now destruct (pos_eqb s q).
Qed.

Lemma dfs_start_inv m s : wf m -> in_bounds m s -> dfs_inv (dfs_start m s) [s].
Proof.
  intros Hwf Hs. pose proof (dfs_start_frame m s) as F.
  assert (visited (dfs_start m s) s = true) as Hv
    by (rewrite visited_dfs_start by assumption; apply pos_eqb_refl).
  split.
  - now apply F.
  - exists s. split; [now apply (same_frame_in_bounds _ _ _ F)|assumption].
  - intros p Hp. apply list_elem_of_singleton in Hp as ->.
    split; [now apply (same_frame_in_bounds _ _ _ F)|assumption].
  - intros p Hp Hvp. apply (proj1 (same_frame_in_bounds _ _ _ F)) in Hp.
    rewrite visited_dfs_start in Hvp by assumption.
    apply pos_eqb_eq in Hvp as ->. left. left.
Qed.

Lemma unvisited_count_dfs_start m s :
  wf m -> in_bounds m s ->
  S (unvisited_count (dfs_start m s)) = (Z.to_nat (width m) * Z.to_nat (height m))%nat.
Proof.
  intros Hwf Hs. rewrite <- length_positions. unfold unvisited_count.
  rewrite (positions_frame _ _ (dfs_start_frame m s)).
  rewrite <- (filter_length_flip (fun _ => true) _ (positions m) s).
  - clear. induction (positions m); simpl; congruence.
  - apply NoDup_positions.
  - now apply elem_of_positions.
  - reflexivity.
  - rewrite visited_dfs_start by assumption. now rewrite pos_eqb_refl.
  - intros y Hy Hne. apply elem_of_positions in Hy.
    rewrite visited_dfs_start by assumption.
    destruct (pos_eqb s y) eqn:E; [|reflexivity]. apply pos_eqb_eq in E. congruence.
Qed.

(** The carving phase terminates with every cell visited, and establishes
    any property that holds at the start of the loop and is preserved by
    its iterations. *)
Lemma carve_invariant {R} `{Random R} (P : Maze.t -> list pos -> Prop) m sx sy :
  wf m -> valid_start m sx sy ->
  (forall s, in_bounds m s -> P (dfs_start m s) [s]) ->
  (forall m cur rest,
      dfs_inv m (cur :: rest) -> P m (cur :: rest) ->
      unvisited_neighbors m cur = [] -> P m rest) ->
  (forall m cur rest n d,
      dfs_inv m (cur :: rest) -> P m (cur :: rest) ->
      (n, d) ∈ unvisited_neighbors m cur ->
      P (update (_apply_symmetric_wall_removal m cur d) n (Cell.set_visited true))
        (n :: cur :: rest)) ->
  forall fuel (r : R),
    (2 * (Z.to_nat (width m) * Z.to_nat (height m)) <= fuel)%nat ->
    exists m' r',
      carve fuel m sx sy r = Done (m', r') /\
      dfs_inv m' [] /\ P m' [] /\ same_frame m m'.
Proof.
  intros Hwf Hstart Hinit Hpop Hpush fuel r Hfuel. unfold carve.
  destruct (adjust_start m sx sy) as [x y] eqn:Ea.
  pose proof (reset_all_frame m) as F.
  destruct (get_cell_valid m x y Hwf) as (s & Hs & Hsb).
  { unfold valid_start in Hstart. now rewrite Ea in Hstart. }
  rewrite (get_cell_frame _ _ _ _ F), Hs.
  destruct (dfs_loop_invariant P Hpop Hpush fuel (dfs_start m s) [s] r)
    as (m' & r' & Hl & Hi & HP & F').
  - now apply dfs_start_inv.
  - now apply Hinit.
  - pose proof (unvisited_count_dfs_start m s Hwf Hsb). simpl. lia.
  - exists m', r'. split; [exact Hl|]. split; [exact Hi|]. split; [exact HP|].
    eapply same_frame_trans; [apply dfs_start_frame|exact F'].
Qed.

(** Partial-correctness form of the loop rule, for any iteration bound. *)
Lemma dfs_loop_sound {R} `{Random R} (P : Maze.t -> list pos -> Prop) :
  (forall m cur rest,
      dfs_inv m (cur :: rest) -> P m (cur :: rest) ->
      unvisited_neighbors m cur = [] -> P m rest) ->
  (forall m cur rest n d,
      dfs_inv m (cur :: rest) -> P m (cur :: rest) ->
      (n, d) ∈ unvisited_neighbors m cur ->
      P (update (_apply_symmetric_wall_removal m cur d) n (Cell.set_visited true))
        (n :: cur :: rest)) ->
  forall fuel m stack (r : R) m' r',
    dfs_inv m stack -> P m stack ->
    dfs_loop fuel m stack r = Done (m', r') ->
    dfs_inv m' [] /\ P m' [] /\ same_frame m m'.
Proof.
  intros Hpop Hpush fuel.
  induction fuel as [|fuel IH]; intros m stack r m' r' Hinv HP Hl.
  - destruct stack; simpl in Hl; [|discriminate].
    injection Hl as <- <-. auto using same_frame_refl.
  - destruct stack as [|cur rest]; simpl in Hl.
    { injection Hl as <- <-. auto using same_frame_refl. }
    destruct (dfs_step_cases m cur rest r) as [[He E]|(n & d & r1 & Hin & E)];
      rewrite E in Hl.
    + apply IH in Hl; [assumption| |].
      * now apply (dfs_inv_pop m cur).
      * now apply (Hpop m cur).
    + apply IH in Hl.
      * destruct Hl as (Hi & HP' & F). split; [exact Hi|]. split; [exact HP'|].
        eapply same_frame_trans; [apply push_frame, (inv_wf _ _ Hinv)|exact F].
      * now apply dfs_inv_push.
      * now apply Hpush.
Qed.

Lemma carve_sound {R} `{Random R} (P : Maze.t -> list pos -> Prop) m sx sy :
  wf m ->
  (forall s, in_bounds m s -> P (dfs_start m s) [s]) ->
  (forall m cur rest,
      dfs_inv m (cur :: rest) -> P m (cur :: rest) ->
      unvisited_neighbors m cur = [] -> P m rest) ->
  (forall m cur rest n d,
      dfs_inv m (cur :: rest) -> P m (cur :: rest) ->
      (n, d) ∈ unvisited_neighbors m cur ->
      P (update (_apply_symmetric_wall_removal m cur d) n (Cell.set_visited true))
        (n :: cur :: rest)) ->
  forall fuel (r : R) m' r',
    carve fuel m sx sy r = Done (m', r') ->
    dfs_inv m' [] /\ P m' [] /\ same_frame m m'.
Proof.
  intros Hwf Hinit Hpop Hpush fuel r m' r'. unfold carve.
  destruct (adjust_start m sx sy) as [x y].
  pose proof (reset_all_frame m) as F.
  destruct (get_cell (reset_all m) x y) as [s|] eqn:Hs; [|discriminate].
  pose proof Hs as Hsb. apply get_cell_in_bounds in Hsb; [|now apply F].
  apply (same_frame_in_bounds _ _ _ F) in Hsb.
  intros Hl. apply (dfs_loop_sound P Hpop Hpush) in Hl.
  - destruct Hl as (Hi & HP & F'). split; [exact Hi|]. split; [exact HP|].
    eapply same_frame_trans; [apply dfs_start_frame|exact F'].
  - now apply dfs_start_inv.
  - now apply Hinit.
Qed.

(** Wall consistency is an invariant of the carving loop. *)
Lemma dfs_start_consistent m s : wf m -> in_bounds m s -> wall_consistent (dfs_start m s).
Proof.
  intros Hwf Hs u d v Hu Hv. pose proof (dfs_start_frame m s) as F.
  apply (proj1 (same_frame_in_bounds _ _ _ F)) in Hu.
  rewrite (get_neighbor_frame _ _ _ _ F) in Hv.
  rewrite !has_wall_dfs_start; eauto using get_neighbor_in_bounds.
Qed.

Lemma push_consistent m cur d n :
  wf m -> in_bounds m n -> wall_consistent m ->
  wall_consistent (update (_apply_symmetric_wall_removal m cur d) n (Cell.set_visited true)).
Proof.
  intros Hwf Hn Hc. pose proof (apply_symmetric_carved m cur d Hwf) as C.
  pose proof (carved_frame _ _ C) as F.
  apply set_visited_consistent.
  - now apply F.
  - now apply (same_frame_in_bounds _ _ _ F).
  - now apply (carved_consistent m).
Qed.

Lemma carve_consistent {R} `{Random R} fuel m sx sy (r : R) m' r' :
  wf m -> carve fuel m sx sy r = Done (m', r') ->
  wf m' /\ wall_consistent m' /\ (forall q, in_bounds m' q -> visited m' q = true)
  /\ same_frame m m'.
Proof.
  intros Hwf Hc.
  apply (carve_sound (fun m _ => wall_consistent m)) in Hc; auto.
  - destruct Hc as (Hi & Hcons & F). split; [apply Hi|]. split; [exact Hcons|].
    split; [|exact F]. now apply dfs_inv_all_visited.
  - intros s Hs. now apply dfs_start_consistent.
  - intros m1 cur rest n d Hi Hcons Hin.
    apply elem_of_unvisited_neighbors in Hin as [Hn _].
    pose proof (inv_wf _ _ Hi) as Hwf1.
    apply push_consistent; auto. eapply get_neighbor_in_bounds; eassumption.
Qed.

(** ** The reconciliation post-pass *)

(** Every cell is visited when the DFS loop exits, so the post-pass finds
    nothing to copy. *)
Lemma reconcile_all_visited m :
  (forall q, in_bounds m q -> visited m q = true) -> reconcile m = m.
Proof.
  intros Hv. unfold reconcile. destruct (Symmetry_eqb _ _); [reflexivity|].
  assert (forall l, (forall p, p ∈ l -> in_bounds m p) -> fold_left reconcile_cell l m = m) as H.
  { induction l as [|p l IH]; intros Hl; simpl; [reflexivity|].
    unfold reconcile_cell at 2. rewrite Hv by (apply Hl; left). simpl.
    apply IH. intros q Hq. apply Hl. now right. }
  apply H. intros p. apply elem_of_positions.
Qed.

Lemma analyze_cells_consistent m : wf m -> wall_consistent m -> wall_consistent (_analyze_cells m).
Proof.
  intros Hwf Hc u d v Hu Hv. pose proof (analyze_cells_frame m) as F.
  apply (proj1 (same_frame_in_bounds _ _ _ F)) in Hu.
  rewrite (get_neighbor_frame _ _ _ _ F) in Hv.
  rewrite !has_wall_analyze_cells; eauto using get_neighbor_in_bounds.
Qed.

(** ** Dead-end elimination *)

Lemma find_connection_Some m p e dirs n :
  find_connection m p e dirs = Some n ->
  exists d, d ∈ dirs /\ d <> e /\ has_wall m p d = true /\
            get_neighbor m p d = Some n /\ 2 <= exit_count m n.
Proof.
  induction dirs as [|d dirs IH]; simpl; [discriminate|].
  assert (find_connection m p e dirs = Some n ->
          exists d0, d0 ∈ d :: dirs /\ d0 <> e /\ has_wall m p d0 = true /\
                     get_neighbor m p d0 = Some n /\ 2 <= exit_count m n) as IH'.
  { intros H. destruct (IH H) as (d0 & ? & ?). exists d0. split; [now right|assumption]. }
  destruct (negb (Direction.eqb d e) && has_wall m p d) eqn:E; [|exact IH'].
  destruct (get_neighbor m p d) as [n'|] eqn:Hn; [|exact IH'].
  destruct (exit_count m n' >=? 2) eqn:Hx; [|exact IH'].
  intros [= ->]. exists d. bool_hyps.
  split; [left|]. split.
  - intros Heq. apply Direction_eqb_eq in Heq. congruence.
  - auto.
Qed.

Lemma sweep_cell_carved m0 st p :
  wf m0 -> in_bounds m0 p -> carved m0 (fst st) -> carved m0 (fst (sweep_cell st p)).
Proof.
  intros Hwf Hp. destruct st as [m ch]. unfold sweep_cell. cbn [fst]. intros C.
  pose proof (carved_frame _ _ C) as F.
  destruct (exit_count m p =? 1); [|assumption].
  destruct (find_exit m p) as [e|]; [|assumption].
  destruct (find_connection m p e Direction.all) as [n|] eqn:E; [|assumption].
  apply find_connection_Some in E as (d & _ & _ & _ & Hn & _).
  rewrite (get_neighbor_frame _ _ _ _ F) in Hn.
  cbn [fst]. apply carved_step; eauto using get_neighbor_in_bounds.
Qed.

Lemma sweep_carved m : wf m -> carved m (fst (sweep m)).
Proof.
  intros Hwf. unfold sweep.
  assert (forall l st, (forall p, p ∈ l -> in_bounds m p) -> carved m (fst st) ->
                       carved m (fst (fold_left sweep_cell l st))) as H.
  { induction l as [|p l IH]; intros st Hl C; simpl; [assumption|].
    apply IH; [intros q Hq; apply Hl; now right|].
    apply sweep_cell_carved; auto. apply Hl. left. }
  apply H; [intros p; apply elem_of_positions|apply carved_refl].
Qed.

Lemma remove_dead_ends_carved fuel m m' :
  wf m -> _remove_dead_ends fuel m = Done m' -> carved m m'.
Proof.
  revert m. induction fuel as [|fuel IH]; intros m Hwf; simpl; [discriminate|].
  pose proof (sweep_carved m Hwf) as C.
  destruct (sweep m) as [m1 ch]. simpl in C. destruct ch.
  - intros H. apply IH in H; [|now apply (carved_wf m)].
    now apply (carved_trans m m1).
  - now intros [= <-].
Qed.

(** [generate] leaves a wall-consistent maze. *)
Lemma generate_consistent {R} `{Random R} fuel m sx sy (r : R) m' r' :
  wf m -> generate fuel m sx sy r = Done (m', r') ->
  wf m' /\ wall_consistent m' /\ same_frame m m'.
Proof.
  intros Hwf. unfold generate.
  destruct (carve fuel m sx sy r) as [[m1 r1]| |] eqn:Hc; try discriminate.
  apply carve_consistent in Hc as (Hwf1 & Hc1 & Hv1 & F1); [|assumption].
  rewrite (reconcile_all_visited m1 Hv1).
  pose proof (analyze_cells_frame m1) as F2.
  destruct (_remove_dead_ends fuel (_analyze_cells m1)) as [m2| |] eqn:Hd; try discriminate.
  intros [= <- <-].
  apply remove_dead_ends_carved in Hd; [|now apply F2].
  pose proof (carved_frame _ _ Hd) as F3.
  split; [apply F3, F2, Hwf1|]. split.
  - apply (carved_consistent (_analyze_cells m1)); auto; [now apply F2|].
    now apply analyze_cells_consistent.
  - eapply same_frame_trans; [exact F1|]. eapply same_frame_trans; eassumption.
Qed.

(** ** Construction *)

Lemma init_Ok w h wr s m :
  Maze.init w h wr s = Ok m -> m = Maze.mk w h wr s (fresh_cells w h).
Proof.
  unfold Maze.init. repeat (case_if; [discriminate|]). now intros [= <-].
Qed.

Lemma init_wf w h wr s m : 0 < w -> 0 < h -> Maze.init w h wr s = Ok m -> wf m.
Proof.
  intros Hw Hh Hi. apply init_Ok in Hi as ->. unfold wf, fresh_cells. simpl.
  split; [assumption|]. split; [assumption|]. split.
  - apply length_replicate.
  - apply Forall_replicate, length_replicate.
Qed.

(** C5. A maze 8 x 8 with horizontal symmetry is constructed, with the
    dimensions asked for; width 7 with the same symmetry is refused; and in
    general construction raises [ValueError] (returning no maze at all)
    whenever the symmetry constrains an axis to be even and the dimension
    supplied on that axis is odd.  A maze that is constructed has exactly
    the dimensions supplied: nothing is adjusted. *)
Theorem init_validation :
  (forall wr, exists m,
      Maze.init 8 8 wr HORIZONTAL = Ok m /\ width m = 8 /\ height m = 8) /\
  (forall wr, Maze.init 7 8 wr HORIZONTAL = ValueError) /\
  (forall w h wr s,
      (needs_even_width s = true /\ Z.odd w = true) \/
      (needs_even_height s = true /\ Z.odd h = true) ->
      Maze.init w h wr s = ValueError) /\
  (forall w h wr s m,
      Maze.init w h wr s = Ok m ->
      width m = w /\ height m = h /\ wrap m = wr /\ symmetry m = s).
Proof.
  split; [|split; [|split]].
  - intros wr. eexists. split; [reflexivity|]. split; reflexivity.
  - reflexivity.
  - intros w h wr s Hodd. unfold Maze.init.
    assert (forall z, Z.odd z = true -> negb (z mod 2 =? 0) = true) as Hm.
    { intros z Hz. rewrite Zmod_odd, Hz. reflexivity. }
    destruct Hodd as [[Hs Hw]|[Hs Hh]].
    + now rewrite Hs, (Hm w Hw).
    + rewrite Hs, (Hm h Hh). simpl. now destruct (needs_even_width s && _).
  - intros w h wr s m Hi. apply init_Ok in Hi as ->. simpl. auto.
Qed.

Lemma init_validation_witness :
  ((needs_even_width HORIZONTAL = true /\ Z.odd 7 = true) \/
   (needs_even_height HORIZONTAL = true /\ Z.odd 8 = true)) /\
  Maze.init 7 8 false HORIZONTAL = ValueError.
Proof.
  assert ((needs_even_width HORIZONTAL = true /\ Z.odd 7 = true) \/
          (needs_even_height HORIZONTAL = true /\ Z.odd 8 = true)) as H
    by (left; split; reflexivity).
  split; [exact H|].
  exact (proj1 (proj2 (proj2 init_validation)) 7 8 false HORIZONTAL H).
Defined.

(** ** Border walls *)

(** [remove_wall_between] never opens a wall that faces out of the array. *)
Lemma has_wall_remove_wall_between_border m c1 c2 q d :
  wf m -> in_bounds m c1 -> in_bounds m c2 -> in_bounds m q ->
  get_neighbor m q d = None ->
  has_wall (remove_wall_between m c1 c2) q d = has_wall m q d.
Proof.
  intros Hwf H1 H2 Hq Hn. rewrite remove_wall_between_eq.
  destruct (carve_direction m c1 c2) as [D|] eqn:E; [|reflexivity].
  apply carve_direction_neighbor in E; try assumption.
  pose proof (get_neighbor_opposite _ _ _ _ Hwf H1 E) as E'.
  rewrite has_wall_remove_pair by assumption.
  assert (pos_eqb c1 q && Direction.eqb D d = false) as ->.
  { apply not_true_is_false. intros T. apply andb_true_iff in T as [T1 T2].
    apply pos_eqb_eq in T1. apply Direction_eqb_eq in T2. congruence. }
  assert (pos_eqb c2 q && Direction.eqb (Direction.opposite D) d = false) as ->.
  { apply not_true_is_false. intros T. apply andb_true_iff in T as [T1 T2].
    apply pos_eqb_eq in T1. apply Direction_eqb_eq in T2. congruence. }
  simpl. now rewrite !andb_true_r.
Qed.

Lemma carved_border m m' q d :
  wf m -> carved m m' -> in_bounds m q -> get_neighbor m q d = None ->
  has_wall m' q d = has_wall m q d.
Proof.
  intros Hwf C Hq Hn. induction C; [reflexivity|].
  pose proof (carved_frame _ _ C) as F.
  rewrite has_wall_remove_wall_between_border; auto.
  - now apply F.
  - now apply (same_frame_in_bounds _ _ _ F).
  - now apply (same_frame_in_bounds _ _ _ F).
  - now apply (same_frame_in_bounds _ _ _ F).
  - now rewrite (get_neighbor_frame _ _ _ _ F).
Qed.

(** ** The bridge of the piece pipeline *)

Lemma wall_all_eq m :
  TetrisMaze.wall_all m
  = fold_left (fun m p => update m p (Cell.set_walls (DirSet.of_list Direction.all)))
      (positions m) m.
Proof.
  unfold TetrisMaze.wall_all.
  assert (forall l m0, (forall p, p ∈ l -> in_bounds m0 p) ->
            fold_left
              (fun m p =>
                 match get_cell m (fst p) (snd p) with
                 | Some cell => update m cell (Cell.set_walls (DirSet.of_list Direction.all))
                 | None => m
                 end) l m0
            = fold_left
                (fun m p => update m p (Cell.set_walls (DirSet.of_list Direction.all))) l m0) as H.
  { induction l as [|p l IH]; intros m0 Hl; simpl; [reflexivity|].
    rewrite (get_cell_of_in_bounds m0 p) by (apply Hl; left).
    apply IH. intros q Hq.
    apply (same_frame_in_bounds _ _ _ (update_frame m0 p _)). apply Hl. now right. }
  apply H. intros p. apply elem_of_positions.
Qed.

Lemma wall_all_frame m : same_frame m (TetrisMaze.wall_all m).
Proof. rewrite wall_all_eq. apply update_all_frame. Qed.

Lemma has_wall_wall_all m q d :
  wf m -> in_bounds m q -> has_wall (TetrisMaze.wall_all m) q d = true.
Proof.
  intros Hwf Hq. rewrite wall_all_eq. unfold has_wall.
  rewrite cell_at_update_all by assumption. apply mem_full.
Qed.

Lemma open_tile_carved tiles m0 m p :
  wf m0 -> carved m0 m -> carved m0 (TetrisMaze.open_tile tiles m p).
Proof.
  intros Hwf C. unfold TetrisMaze.open_tile. destruct p as [x y].
  pose proof (carved_frame _ _ C) as F.
  destruct (grid_get 0 tiles x y =? 0); [|assumption].
  destruct (get_cell m x y) as [cell|] eqn:Hc; [|assumption].
  rewrite (get_cell_frame _ _ _ _ F) in Hc. apply get_cell_in_bounds in Hc; [|assumption].
  apply fold_carved; [|assumption].
  intros m1 dir C1. pose proof (carved_frame _ _ C1) as F1.
  destruct (Direction.value dir) as [dx dy].
  destruct (TetrisMaze.inside _ _ _ _); [|assumption].
  destruct (get_cell m1 (x + dx) (y + dy)) as [n|] eqn:Hn; [|assumption].
  rewrite (get_cell_frame _ _ _ _ F1) in Hn. apply get_cell_in_bounds in Hn; [|assumption].
  destruct (grid_get 0 tiles (x + dx) (y + dy) =? 0); [|assumption].
  now apply carved_step.
Qed.

Lemma stitch_row_carved tiles m0 m y :
  wf m0 -> carved m0 m -> carved m0 (TetrisMaze.stitch_row tiles m y).
Proof.
  intros Hwf C. unfold TetrisMaze.stitch_row.
  pose proof (carved_frame _ _ C) as F.
  destruct (_ && _); [|assumption].
  destruct (get_cell m 0 y) as [l|] eqn:Hl; [|assumption].
  destruct (get_cell m (width m - 1) y) as [r|] eqn:Hr; [|assumption].
  rewrite (get_cell_frame _ _ _ _ F) in Hl. rewrite (get_cell_frame _ _ _ _ F) in Hr.
  apply get_cell_in_bounds in Hl; [|assumption].
  apply get_cell_in_bounds in Hr; [|assumption].
  now apply carved_step.
Qed.

(** After the walls are reset, the bridge only carves. *)
Lemma bridge_carved tiles m :
  wf m -> carved (TetrisMaze.wall_all m) (TetrisMaze.bridge tiles m).
Proof.
  intros Hwf. pose proof (wall_all_frame m) as F.
  assert (wf (TetrisMaze.wall_all m)) as Hwf' by now apply F.
  unfold TetrisMaze.bridge, TetrisMaze.stitch_wrap, TetrisMaze.open_tiles.
  assert (carved (TetrisMaze.wall_all m)
            (fold_left (TetrisMaze.open_tile tiles)
               (positions (TetrisMaze.wall_all m)) (TetrisMaze.wall_all m))) as C.
  { apply fold_carved; [|apply carved_refl]. intros. now apply open_tile_carved. }
  destruct (wrap _); [|assumption].
  apply fold_carved; [|assumption]. intros. now apply stitch_row_carved.
Qed.

Lemma bridge_frame tiles m : wf m -> same_frame m (TetrisMaze.bridge tiles m).
Proof.
  intros Hwf. eapply same_frame_trans; [apply wall_all_frame|].
  apply carved_frame, bridge_carved, Hwf.
Qed.

Lemma bridge_consistent tiles m : wf m -> wall_consistent (TetrisMaze.bridge tiles m).
Proof.
  intros Hwf. pose proof (wall_all_frame m) as F.
  apply (carved_consistent (TetrisMaze.wall_all m)).
  - now apply F.
  - now apply bridge_carved.
  - intros u d v Hu Hv.
    apply (proj1 (same_frame_in_bounds _ _ _ F)) in Hu.
    rewrite (get_neighbor_frame _ _ _ _ F) in Hv.
    rewrite !has_wall_wall_all; eauto using get_neighbor_in_bounds.
Qed.

Lemma bridge_border tiles m q d :
  wf m -> in_bounds m q -> get_neighbor m q d = None ->
  has_wall (TetrisMaze.bridge tiles m) q d = true.
Proof.
  intros Hwf Hq Hn. pose proof (wall_all_frame m) as F.
  rewrite (carved_border (TetrisMaze.wall_all m)).
  - now apply has_wall_wall_all.
  - now apply F.
  - now apply bridge_carved.
  - now apply (same_frame_in_bounds _ _ _ F).
  - now rewrite (get_neighbor_frame _ _ _ _ F).
Qed.

(** The stages before the bridge leave the inherited maze alone. *)
Lemma generate_tetris_grid_maze {R} `{Random R} s (r : R) :
  TetrisMaze.maze (fst (TetrisMaze.generate_tetris_grid s r)) = TetrisMaze.maze s.
Proof.
  unfold TetrisMaze.generate_tetris_grid. now destruct (fold_left _ _ _).
Qed.

Lemma create_tunnels_maze {R} `{Random R} s (r : R) :
  TetrisMaze.maze (fst (TetrisMaze.create_tunnels s r)) = TetrisMaze.maze s.
Proof.
  unfold TetrisMaze.create_tunnels.
  destruct (random_choice_of _ _ _). now destruct (random_sample _ _ _).
Qed.

(** The maze left by the piece pipeline: the classifier run over the
    bridge of some tile grid into the maze built by the constructor. *)
Lemma tetris_generate_maze {R} `{Random R} s (r : R) :
  exists tiles,
    TetrisMaze.maze (fst (TetrisMaze.generate s r))
    = _analyze_cells (TetrisMaze.bridge tiles (TetrisMaze.maze s)).
Proof.
  unfold TetrisMaze.generate.
  pose proof (generate_tetris_grid_maze s r) as E1.
  destruct (TetrisMaze.generate_tetris_grid s r) as [s1 r1]. simpl in E1.
  destruct (TetrisMaze.tetris_to_tiles s1 r1) as [[[tg tw] th] r2].
  pose proof (create_tunnels_maze (TetrisMaze.apply_size_adjustments s1 tg tw th) r2) as E2.
  destruct (TetrisMaze.create_tunnels _ r2) as [s4 r4]. simpl in E2.
  eexists. simpl. rewrite E2. simpl. rewrite E1. reflexivity.
Qed.

Lemma tetris_init_Ok s :
  TetrisMaze.init = Ok s ->
  wf (TetrisMaze.maze s) /\
  width (TetrisMaze.maze s) = 28 /\ height (TetrisMaze.maze s) = 31 /\
  wrap (TetrisMaze.maze s) = false /\ symmetry (TetrisMaze.maze s) = HORIZONTAL.
Proof.
  intros [= <-]. simpl. split; [|auto].
  apply (init_wf 28 31 false HORIZONTAL); [lia|lia|reflexivity].
Qed.

(** C10. The maze of the piece pipeline is constructed with wrap disabled
    and keeps it disabled, so the wrap-stitching loop of the bridge never
    runs; after [TetrisMaze.generate] every border cell still has its
    outward-facing wall, so the tunnel tiles opened on the left and right
    borders never become open wrap edges of the maze. *)
Theorem piece_pipeline_border {R} `{Random R} (s : TetrisMaze.t) (r : R) :
  TetrisMaze.init = Ok s ->
  let m := TetrisMaze.maze (fst (TetrisMaze.generate s r)) in
  wrap (TetrisMaze.maze s) = false /\
  (width m = 28 /\ height m = 31 /\ wrap m = false) /\
  (forall tiles m', same_frame (TetrisMaze.maze s) m' ->
                    TetrisMaze.stitch_wrap tiles m' = m') /\
  (forall x y,
      0 <= x < 28 -> 0 <= y < 31 ->
      (x = 0 -> has_wall m (x, y) Direction.LEFT = true) /\
      (x = 27 -> has_wall m (x, y) Direction.RIGHT = true) /\
      (y = 0 -> has_wall m (x, y) Direction.UP = true) /\
      (y = 30 -> has_wall m (x, y) Direction.DOWN = true)).
Proof.
  intros Hs m. destruct (tetris_init_Ok s Hs) as (Hwf & Hw & Hh & Hwrap & _).
  destruct (tetris_generate_maze s r) as [tiles Hm]. fold m in Hm.
  pose proof (bridge_frame tiles _ Hwf) as F1.
  pose proof (analyze_cells_frame (TetrisMaze.bridge tiles (TetrisMaze.maze s))) as F2.
  rewrite <- Hm in F2. pose proof (same_frame_trans _ _ _ F1 F2) as F.
  destruct F as (Fw & Fh & Fr & _).
  split; [assumption|]. split; [repeat split; congruence|]. split.
  - intros tl m' (_ & _ & Fr' & _). unfold TetrisMaze.stitch_wrap.
    now rewrite Fr', Hwrap.
  - intros x y Hx Hy.
    assert (in_bounds (TetrisMaze.maze s) (x, y)) as Hb
      by (unfold in_bounds; simpl; lia).
    assert (forall d, get_neighbor (TetrisMaze.maze s) (x, y) d = None ->
                      has_wall m (x, y) d = true) as Hout.
    { intros d Hn. rewrite Hm, has_wall_analyze_cells.
      - now apply bridge_border.
      - now apply F1.
      - now apply (same_frame_in_bounds _ _ _ F1). }
    repeat split; intros ->; apply Hout; unfold get_neighbor, get_cell; simpl;
      rewrite Hwrap, ?Hw, ?Hh;
      first [reflexivity | case_if; [reflexivity|exfalso; bool_hyps; simpl in *; lia]].
Qed.

Lemma piece_pipeline_border_witness :
  exists s,
    TetrisMaze.init = Ok s /\
    has_wall (TetrisMaze.maze (fst (TetrisMaze.generate s ([] : list nat))))
      (0, 15) Direction.LEFT = true.
Proof.
  eexists. split; [reflexivity|].
  refine (proj1 (proj2 (proj2 (proj2 (piece_pipeline_border _ [] eq_refl))) 0 15 _ _) eq_refl);
    lia.
Defined.

(** C1. Wall consistency.  Neighbouring cells (through the wrap too, when
    it is enabled) agree on the wall between them: [u] has a wall in
    direction [d] iff its neighbour in direction [d] has one in the
    opposite direction.  The property is kept by every call of
    [remove_wall_between], the only wall mutation made after
    initialisation; it holds when the DFS loop exits, for the maze returned
    by [generate], and for the maze returned by the piece pipeline. *)
Theorem wall_consistency :
  (forall m c1 c2,
      wf m -> in_bounds m c1 -> in_bounds m c2 ->
      wall_consistent m -> wall_consistent (remove_wall_between m c1 c2)) /\
  (forall R (H : Random R) fuel m sx sy (r : R) m' r',
      wf m -> carve fuel m sx sy r = Done (m', r') -> wall_consistent m') /\
  (forall R (H : Random R) fuel m sx sy (r : R) m' r',
      wf m -> Maze.generate fuel m sx sy r = Done (m', r') -> wall_consistent m') /\
  (forall R (H : Random R) s (r : R),
      TetrisMaze.init = Ok s ->
      wall_consistent (TetrisMaze.maze (fst (TetrisMaze.generate s r)))).
Proof.
  split; [|split; [|split]].
  - intros. now apply remove_wall_between_consistent.
  - intros R H fuel m sx sy r m' r' Hwf Hc.
    now apply carve_consistent in Hc as (_ & Hc & _).
  - intros R H fuel m sx sy r m' r' Hwf Hg.
    now apply generate_consistent in Hg as (_ & Hc & _).
  - intros R H s r Hs. destruct (tetris_init_Ok s Hs) as (Hwf & _).
    destruct (tetris_generate_maze s r) as [tiles ->].
    apply analyze_cells_consistent.
    + now apply (bridge_frame tiles).
    + now apply bridge_consistent.
Qed.

Lemma wall_consistency_witness :
  exists m m' r',
    Maze.init 3 3 false NONE = Ok m /\
    Maze.generate 100 m 1 0 ([] : list nat) = Done (m', r') /\
    wall_consistent m'.
Proof.
  eexists. eexists. eexists. split; [reflexivity|]. split; [vm_compute; reflexivity|].
  refine (proj1 (proj2 (proj2 wall_consistency)) _ _ 100%nat _ 1 0 [] _ _ _ _).
  - apply (init_wf 3 3 false NONE); [lia|lia|reflexivity].
  - vm_compute. reflexivity.
Defined.

(** ** Two-dimensional arrays *)

Lemma grid_get_set_ne {A} (d : A) g x y v x' y' :
  0 <= x -> 0 <= y -> 0 <= x' -> 0 <= y' -> (x, y) <> (x', y') ->
  grid_get d (grid_set g x y v) x' y' = grid_get d g x' y'.
Proof.
  intros ? ? ? ? Hne. unfold grid_get, grid_set.
  destruct (decide (Z.to_nat x = Z.to_nat x')) as [E|E].
  - rewrite E, list_lookup_alter_eq.
    destruct (g !! Z.to_nat x') as [col|]; simpl; [|reflexivity].
    rewrite list_lookup_insert_ne; [reflexivity|].
    intros E'. apply Hne. f_equal; lia.
  - now rewrite list_lookup_alter_ne.
Qed.

(** ** Piece-grid synthesis *)

(** The cells the random loop leaves alone when it handles [p]: it skips
    the fixed cells, and otherwise writes [p] and, left of the middle
    column, the mirror image of [p]. *)
Definition untouched_by (bw : Z) (q p : Z * Z) : bool :=
  ((fst p =? 1) && ((snd p =? 6) || (snd p =? 7)))
  || (negb (pos_eqb p q)
      && (negb (fst p <? bw / 2) || negb (pos_eqb (bw - 1 - fst p, snd p) q))).

Lemma place_piece_untouched {R} `{Random R} bw
    (st : list (list (option TetrisPiece.t)) * R) p q :
  0 <= fst p < bw -> 0 <= snd p -> 0 <= fst q -> 0 <= snd q ->
  untouched_by bw q p = true ->
  grid_get None (fst (TetrisMaze.place_piece bw st p)) (fst q) (snd q)
  = grid_get None (fst st) (fst q) (snd q).
Proof.
  intros Hx Hy Hqx Hqy Hu. unfold TetrisMaze.place_piece, untouched_by in *.
  destruct st as [g r], p as [x y], q as [qx qy]. simpl in *.
  destruct ((x =? 1) && ((y =? 6) || (y =? 7))); [reflexivity|]. simpl in Hu.
  destruct (TetrisMaze.draw_piece r) as [piece r']. simpl.
  apply andb_true_iff in Hu as [Hp Hm].
  apply negb_true_iff, pos_eqb_neq in Hp.
  destruct (x <? bw / 2) eqn:E; simpl in Hm.
  - apply negb_true_iff, pos_eqb_neq in Hm.
    rewrite !grid_get_set_ne; auto; lia.
  - rewrite grid_get_set_ne; auto; lia.
Qed.

Lemma fold_place_piece_untouched {R} `{Random R} bw l
    (st : list (list (option TetrisPiece.t)) * R) q :
  0 <= fst q -> 0 <= snd q ->
  forallb (fun p => (0 <=? fst p) && (fst p <? bw) && (0 <=? snd p)
                    && untouched_by bw q p) l = true ->
  grid_get None (fst (fold_left (TetrisMaze.place_piece bw) l st)) (fst q) (snd q)
  = grid_get None (fst st) (fst q) (snd q).
Proof.
  intros Hqx Hqy. revert st. induction l as [|p l IH]; intros st Hl; simpl; [reflexivity|].
  simpl in Hl. apply andb_true_iff in Hl as [Hp Hl].
  rewrite IH by assumption.
  apply andb_true_iff in Hp as [Hp Hu]. apply andb_true_iff in Hp as [Hp Hy].
  apply andb_true_iff in Hp as [Hx0 Hx1].
  apply place_piece_untouched; auto; lia.
Qed.

(** C9 (defect in the code). Whatever the random draws, stage 1 of the
    piece pipeline leaves the straight piece at the fixed cells (1, 6) and
    (1, 7), and a solid piece at their mirror images (3, 6) and (3, 7): the
    seed grid is not horizontally symmetric. *)
Theorem generate_tetris_grid_fixed_cells_not_mirrored {R} `{Random R} (s : TetrisMaze.t) (r : R) :
  TetrisMaze.init = Ok s ->
  let g := TetrisMaze.tetris_grid (fst (TetrisMaze.generate_tetris_grid s r)) in
  TetrisMaze.base_width s - 1 - 1 = 3 /\
  grid_get None g 1 6 = Some TetrisPiece.I /\
  grid_get None g 1 7 = Some TetrisPiece.I /\
  grid_get None g 3 6 = Some TetrisPiece.SQUARE /\
  grid_get None g 3 7 = Some TetrisPiece.SQUARE.
Proof.
  intros [= <-]. unfold TetrisMaze.generate_tetris_grid.
  cbn [TetrisMaze.base_width TetrisMaze.base_height TetrisMaze.tetris_grid].
  destruct (fold_left _ _ _) as [g r'] eqn:E.
  cbn [fst TetrisMaze.with_tetris_grid TetrisMaze.tetris_grid].
  replace g with (fst (g, r')) by reflexivity. rewrite <- E. clear E.
  split; [reflexivity|].
  repeat split.
  - rewrite (fold_place_piece_untouched 5 _ _ (1, 6));
      [reflexivity|simpl; lia|simpl; lia|vm_compute; reflexivity].
  - rewrite (fold_place_piece_untouched 5 _ _ (1, 7));
      [reflexivity|simpl; lia|simpl; lia|vm_compute; reflexivity].
  - rewrite (fold_place_piece_untouched 5 _ _ (3, 6));
      [reflexivity|simpl; lia|simpl; lia|vm_compute; reflexivity].
  - rewrite (fold_place_piece_untouched 5 _ _ (3, 7));
      [reflexivity|simpl; lia|simpl; lia|vm_compute; reflexivity].
Qed.

Lemma generate_tetris_grid_fixed_cells_not_mirrored_witness :
  exists s,
    TetrisMaze.init = Ok s /\
    grid_get None
      (TetrisMaze.tetris_grid (fst (TetrisMaze.generate_tetris_grid s ([] : list nat)))) 3 6
    = Some TetrisPiece.SQUARE.
Proof.
  eexists. split; [reflexivity|].
  exact (proj1 (proj2 (proj2 (proj2
           (generate_tetris_grid_fixed_cells_not_mirrored _ ([] : list nat) eq_refl))))).
Defined.

(** ** Statistics *)

(** Number of cells of the maze that satisfy a test. *)
Definition count_cells (m : Maze.t) (f : Cell.t -> bool) : Z :=
  Z.of_nat (length (List.filter (fun p => f (cell_at m p)) (positions m))).

Lemma filter_length_cons {A} (f : A -> bool) a l :
  Z.of_nat (length (List.filter f (a :: l)))
  = Z.b2z (f a) + Z.of_nat (length (List.filter f l)).
Proof. simpl. destruct (f a); simpl; lia. Qed.

(** What one cell adds to the wall-shape counters, when its intersection
    flag is the one [_analyze_cells] computes from its walls. *)
Lemma stats_cell_shapes m s p :
  Cell.is_intersection (cell_at m p) = (Cell.exit_count (cell_at m p) >? 2) ->
  walls_i (stats_cell m s p) = walls_i s + Z.b2z (Cell.wall_count (cell_at m p) =? 4) /\
  walls_l (stats_cell m s p) = walls_l s + Z.b2z (Cell.is_corner (cell_at m p)) /\
  walls_t (stats_cell m s p) = walls_t s /\
  walls_plus (stats_cell m s p) = walls_plus s + Z.b2z (Cell.exit_count (cell_at m p) >? 2).
Proof.
  unfold stats_cell. destruct (cell_at m p) as [w v i e].
  unfold Cell.wall_count, Cell.exit_count.
  cbn [Cell.walls Cell.is_intersection Cell.is_dead_end]. intros ->.
  destruct w as [[] [] [] []];
    match goal with
    | |- context [Cell.is_corner ?c] =>
        let b := eval vm_compute in (Cell.is_corner c) in
        change (Cell.is_corner c) with b
    end;
    match goal with
    | |- context [DirSet.len ?w] =>
        let n := eval vm_compute in (DirSet.len w) in
        change (DirSet.len w) with n
    end;
    repeat match goal with
      | |- context [Z.gtb ?a ?b] =>
          let v := eval vm_compute in (Z.gtb a b) in progress change (Z.gtb a b) with v
      | |- context [Z.eqb ?a ?b] =>
          let v := eval vm_compute in (Z.eqb a b) in progress change (Z.eqb a b) with v
      end;
    destruct e; cbn; repeat split; lia.
Qed.

Lemma stats_fold_shapes m l s :
  (forall p, p ∈ l ->
     Cell.is_intersection (cell_at m p) = (Cell.exit_count (cell_at m p) >? 2)) ->
  let s' := fold_left (stats_cell m) l s in
  walls_i s'
  = walls_i s + Z.of_nat (length (List.filter (fun p => Cell.wall_count (cell_at m p) =? 4) l)) /\
  walls_l s'
  = walls_l s + Z.of_nat (length (List.filter (fun p => Cell.is_corner (cell_at m p)) l)) /\
  walls_t s' = walls_t s /\
  walls_plus s'
  = walls_plus s + Z.of_nat (length (List.filter (fun p => Cell.exit_count (cell_at m p) >? 2) l)).
Proof.
  revert s. induction l as [|p l IH]; intros s Hl.
  - simpl. repeat split; lia.
  - cbv zeta. cbn [fold_left].
    destruct (IH (stats_cell m s p)) as (Hi & Hc & Ht & Hp);
      [intros q Hq; apply Hl; now right|].
    destruct (stats_cell_shapes m s p) as (Hi' & Hc' & Ht' & Hp'); [apply Hl; left|].
    rewrite !filter_length_cons. repeat split; lia.
Qed.

(** C8 (defect in the code). On a maze whose flags are those
    [_analyze_cells] computes, [walls_i] counts the cells with four walls
    and [walls_l] the corner cells, but [walls_t] is always 0 and
    [walls_plus] counts every intersection, with three exits or with four:
    the test [exit_count() == 1] that should separate the two shapes is
    never true for an intersection.  The same happens on the maze
    [generate] returns for a 3 x 3 grid started at (1, 0): its single
    intersection has exactly three exits, no cell has four, and yet
    [walls_t] is 0 and [walls_plus] is 1. *)
Theorem statistics_wall_shapes :
  (forall m0,
      wf m0 ->
      let m := _analyze_cells m0 in
      let s := get_statistics m in
      walls_i s = count_cells m (fun c => Cell.wall_count c =? 4) /\
      walls_l s = count_cells m Cell.is_corner /\
      walls_t s = 0 /\
      walls_plus s = count_cells m (fun c => Cell.exit_count c >? 2)) /\
  (exists m0 m r',
      Maze.init 3 3 false NONE = Ok m0 /\
      Maze.generate 100 m0 1 0 ([] : list nat) = Done (m, r') /\
      count_cells m (fun c => Cell.is_intersection c && (Cell.exit_count c =? 3)) = 1 /\
      count_cells m (fun c => Cell.exit_count c =? 4) = 0 /\
      walls_t (get_statistics m) = 0 /\
      walls_plus (get_statistics m) = 1).
Proof.
  split.
  - intros m0 Hwf m s.
    pose proof (analyze_cells_frame m0) as F.
    destruct (stats_fold_shapes m (positions m) (mk_stats (width m * height m) 0 0 0 0 0 0 0 0))
      as (Hi & Hc & Ht & Hp).
    + intros p Hp. apply elem_of_positions in Hp.
      apply (same_frame_in_bounds _ _ _ F) in Hp.
      unfold m, _analyze_cells. rewrite cell_at_update_all by assumption. reflexivity.
    + unfold s, get_statistics, count_cells. simpl in *. repeat split; lia.
  - eexists. eexists. eexists. split; [reflexivity|]. split; [vm_compute; reflexivity|].
    vm_compute. repeat split; reflexivity.
Qed.

Lemma statistics_wall_shapes_witness :
  exists m0,
    Maze.init 2 2 false NONE = Ok m0 /\
    walls_t (get_statistics (_analyze_cells m0)) = 0.
Proof.
  eexists. split; [reflexivity|].
  refine (proj1 (proj2 (proj2 (proj1 statistics_wall_shapes _ _)))).
  apply (init_wf 2 2 false NONE); [lia|lia|reflexivity].
Defined.

(** ** Extensionality of mazes *)

Lemma cell_ext (c1 c2 : Cell.t) :
  (forall d, Cell.has_wall c1 d = Cell.has_wall c2 d) ->
  Cell.visited c1 = Cell.visited c2 ->
  Cell.is_intersection c1 = Cell.is_intersection c2 ->
  Cell.is_dead_end c1 = Cell.is_dead_end c2 ->
  c1 = c2.
Proof.
  destruct c1, c2. unfold Cell.has_wall. simpl. intros Hw -> -> ->.
  f_equal. now apply DirSet_ext.
Qed.

(** Two well-formed mazes with the same parameters and the same cell
    contents are the same maze. *)
Lemma maze_ext m1 m2 :
  wf m1 -> wf m2 ->
  width m2 = width m1 -> height m2 = height m1 ->
  wrap m2 = wrap m1 -> symmetry m2 = symmetry m1 ->
  (forall p, in_bounds m1 p -> cell_at m1 p = cell_at m2 p) ->
  m1 = m2.
Proof.
  intros (Hw1 & Hh1 & Hl1 & HF1) (Hw2 & Hh2 & Hl2 & HF2) Ew Eh Er Es Hc.
  destruct m1 as [w h wr sy cs1], m2 as [w2 h2 wr2 sy2 cs2]. simpl in *. subst.
  f_equal. rewrite Forall_lookup in HF1, HF2.
  apply list_eq. intros i.
  destruct (cs1 !! i) as [col1|] eqn:E1.
  - pose proof (lookup_lt_Some _ _ _ E1) as Hi.
    destruct (lookup_lt_is_Some_2 cs2 i) as [col2 E2]; [lia|]. rewrite E2. f_equal.
    apply list_eq. intros j.
    destruct (col1 !! j) as [c1|] eqn:F1.
    + pose proof (lookup_lt_Some _ _ _ F1) as Hj.
      rewrite (HF1 _ _ E1) in Hj.
      destruct (lookup_lt_is_Some_2 col2 j) as [c2 F2]; [rewrite (HF2 _ _ E2); lia|].
      rewrite F2. f_equal.
      specialize (Hc (Z.of_nat i, Z.of_nat j)). unfold cell_at, in_bounds in Hc.
      simpl in Hc. rewrite !Nat2Z.id, E1, E2 in Hc. simpl in Hc. rewrite F1, F2 in Hc.
      simpl in Hc. apply Hc. lia.
    + symmetry. apply lookup_ge_None. apply lookup_ge_None in F1.
      rewrite (HF2 _ _ E2). rewrite (HF1 _ _ E1) in F1. exact F1.
  - symmetry. apply lookup_ge_None. apply lookup_ge_None in E1. lia.
Qed.

(** ** Carving a list of cell pairs *)

Definition carve_pairs (l : list (pos * pos)) (m : Maze.t) : Maze.t :=
  fold_left (fun m pr => remove_wall_between m (fst pr) (snd pr)) l m.

(** Whether clearing the wall between the cells of [pr] clears the wall
    of [q] in direction [d]. *)
Definition removed_by (m : Maze.t) (pr : pos * pos) (q : pos) (d : Direction.t) : bool :=
  match carve_direction m (fst pr) (snd pr) with
  | Some D =>
      (pos_eqb (fst pr) q && Direction.eqb D d)
      || (pos_eqb (snd pr) q && Direction.eqb (Direction.opposite D) d)
  | None => false
  end.

Definition pairs_in_bounds (m : Maze.t) (l : list (pos * pos)) : Prop :=
  Forall (fun pr => in_bounds m (fst pr) /\ in_bounds m (snd pr)) l.

Lemma carve_direction_frame m m' c1 c2 :
  same_frame m m' -> carve_direction m' c1 c2 = carve_direction m c1 c2.
Proof. intros (Hw & Hh & Hr & _). unfold carve_direction. now rewrite Hw, Hh, Hr. Qed.

Lemma carve_pairs_frame l m : same_frame m (carve_pairs l m).
Proof. apply fold_update_frame. intros. apply remove_wall_between_frame. Qed.

Lemma carve_pairs_carved l m : pairs_in_bounds m l -> carved m (carve_pairs l m).
Proof.
  intros Hl. unfold carve_pairs.
  assert (forall m1, carved m m1 ->
            carved m (fold_left (fun m pr => remove_wall_between m (fst pr) (snd pr)) l m1)) as H.
  { induction Hl as [|pr l [H1 H2] Hl IH]; intros m1 C; simpl; [assumption|].
    apply IH. now apply carved_step. }
  apply H, carved_refl.
Qed.

Lemma has_wall_remove_wall_between m c1 c2 q d :
  wf m -> in_bounds m c1 -> in_bounds m c2 -> in_bounds m q ->
  has_wall (remove_wall_between m c1 c2) q d
  = has_wall m q d && negb (removed_by m (c1, c2) q d).
Proof.
  intros Hwf H1 H2 Hq. rewrite remove_wall_between_eq. unfold removed_by. simpl.
  destruct (carve_direction m c1 c2) as [D|].
  - rewrite has_wall_remove_pair by assumption.
    rewrite negb_orb. now rewrite andb_assoc.
  - now rewrite andb_true_r.
Qed.

Lemma has_wall_carve_pairs l m q d :
  wf m -> pairs_in_bounds m l -> in_bounds m q ->
  has_wall (carve_pairs l m) q d
  = has_wall m q d && forallb (fun pr => negb (removed_by m pr q d)) l.
Proof.
  intros Hwf Hl Hq. unfold carve_pairs.
  assert (forall m1, same_frame m m1 -> wf m1 ->
            has_wall (fold_left (fun m pr => remove_wall_between m (fst pr) (snd pr)) l m1) q d
            = has_wall m1 q d && forallb (fun pr => negb (removed_by m pr q d)) l) as H.
  { induction Hl as [|[c1 c2] l [H1 H2] Hl IH]; intros m1 F Hwf1; simpl in *.
    - now rewrite andb_true_r.
    - rewrite IH.
      + rewrite has_wall_remove_wall_between; try assumption;
          try (now apply (same_frame_in_bounds _ _ _ F)).
        unfold removed_by at 1. simpl. rewrite (carve_direction_frame _ _ _ _ F).
        unfold removed_by at 2. simpl. now rewrite andb_assoc.
      + eapply same_frame_trans; [exact F|apply remove_wall_between_frame].
      + now apply remove_wall_between_frame. }
  apply H; [apply same_frame_refl|assumption].
Qed.

(** Carving leaves the other fields of every cell alone. *)
Lemma cell_at_remove_wall m p d q :
  wf m -> in_bounds m p -> in_bounds m q ->
  Cell.visited (cell_at (remove_wall m p d) q) = Cell.visited (cell_at m q) /\
  Cell.is_intersection (cell_at (remove_wall m p d) q) = Cell.is_intersection (cell_at m q) /\
  Cell.is_dead_end (cell_at (remove_wall m p d) q) = Cell.is_dead_end (cell_at m q).
Proof.
  intros Hwf Hp Hq. unfold remove_wall. rewrite cell_at_update by assumption.
  now destruct (pos_eqb p q).
Qed.

Lemma carved_flags m m' q :
  wf m -> carved m m' -> in_bounds m q ->
  Cell.visited (cell_at m' q) = Cell.visited (cell_at m q) /\
  Cell.is_intersection (cell_at m' q) = Cell.is_intersection (cell_at m q) /\
  Cell.is_dead_end (cell_at m' q) = Cell.is_dead_end (cell_at m q).
Proof.
  intros Hwf C Hq. induction C; [auto|].
  pose proof (carved_frame _ _ C) as F.
  assert (wf m') as Hwf' by now apply F.
  assert (in_bounds m' c1) as H1 by now apply (same_frame_in_bounds _ _ _ F).
  assert (in_bounds m' c2) as H2 by now apply (same_frame_in_bounds _ _ _ F).
  assert (in_bounds m' q) as Hq' by now apply (same_frame_in_bounds _ _ _ F).
  rewrite remove_wall_between_eq. destruct (carve_direction m' c1 c2) as [D|]; [|assumption].
  pose proof (remove_wall_frame m' c1 D) as F1.
  destruct (cell_at_remove_wall (remove_wall m' c1 D) c2 (Direction.opposite D) q)
    as (-> & -> & ->);
    [now apply F1 | now apply (same_frame_in_bounds _ _ _ F1)
     | now apply (same_frame_in_bounds _ _ _ F1) |].
  destruct (cell_at_remove_wall m' c1 D q) as (-> & -> & ->); assumption.
Qed.

(** ** Symmetric wall removal as a list of carved pairs *)

(** The calls [remove_wall_between(base_cell, neighbor)] that
    [_apply_symmetric_wall_removal] makes, in order. *)
Definition symmetric_pairs (m : Maze.t) (cell : pos) (d : Direction.t) : list (pos * pos) :=
  flat_map
    (fun p =>
       match get_cell m (fst p) (snd p) with
       | Some base =>
           flat_map
             (fun sd =>
                match get_neighbor m base sd with
                | Some n => [(base, n)]
                | None => []
                end)
             (symmetric_directions cell p d)
       | None => []
       end)
    (_get_symmetric_cell m (fst cell) (snd cell)).

Lemma symmetric_removal_at_eq m m' cell d p :
  same_frame m m' ->
  symmetric_removal_at cell d m' p
  = carve_pairs
      match get_cell m (fst p) (snd p) with
      | Some base =>
          flat_map
            (fun sd =>
               match get_neighbor m base sd with
               | Some n => [(base, n)]
               | None => []
               end)
            (symmetric_directions cell p d)
      | None => []
      end m'.
Proof.
  intros F. unfold symmetric_removal_at. rewrite (get_cell_frame _ _ _ _ F).
  destruct (get_cell m (fst p) (snd p)) as [base|]; [|reflexivity].
  revert m' F. induction (symmetric_directions cell p d) as [|sd l IH]; intros m' F;
    simpl; [reflexivity|].
  rewrite (get_neighbor_frame _ _ _ _ F).
  destruct (get_neighbor m base sd) as [n|]; simpl.
  - apply IH. eapply same_frame_trans; [exact F|apply remove_wall_between_frame].
  - now apply IH.
Qed.

Lemma apply_symmetric_eq m cell d :
  _apply_symmetric_wall_removal m cell d = carve_pairs (symmetric_pairs m cell d) m.
Proof.
  unfold _apply_symmetric_wall_removal, symmetric_pairs.
  generalize (_get_symmetric_cell m (fst cell) (snd cell)) as l.
  assert (forall l m', same_frame m m' ->
            fold_left (symmetric_removal_at cell d) l m'
            = carve_pairs
                (flat_map
                   (fun p =>
                      match get_cell m (fst p) (snd p) with
                      | Some base =>
                          flat_map
                            (fun sd =>
                               match get_neighbor m base sd with
                               | Some n => [(base, n)]
                               | None => []
                               end)
                            (symmetric_directions cell p d)
                      | None => []
                      end) l) m') as H.
  { induction l as [|p l IH]; intros m' F; simpl; [reflexivity|].
    unfold carve_pairs. rewrite fold_left_app. fold (carve_pairs).
    rewrite (symmetric_removal_at_eq m m' cell d p F).
    apply IH. eapply same_frame_trans; [exact F|apply carve_pairs_frame]. }
  intros l. apply H, same_frame_refl.
Qed.

Lemma symmetric_pairs_frame m m' cell d :
  same_frame m m' -> symmetric_pairs m' cell d = symmetric_pairs m cell d.
Proof.
  intros F. unfold symmetric_pairs, _get_symmetric_cell.
  destruct F as (Hw & Hh & Hr & Hs & Hwf). rewrite Hw, Hh, Hs.
  assert (same_frame m m') as F by (unfold same_frame; auto).
  apply flat_map_ext. intros p. rewrite (get_cell_frame _ _ _ _ F).
  destruct (get_cell m (fst p) (snd p)); [|reflexivity].
  apply flat_map_ext. intros sd. now rewrite (get_neighbor_frame _ _ _ _ F).
Qed.

Lemma symmetric_pairs_in_bounds m cell d :
  wf m -> pairs_in_bounds m (symmetric_pairs m cell d).
Proof.
  intros Hwf. unfold pairs_in_bounds, symmetric_pairs.
  apply Forall_forall. intros [b n] Hin.
  apply list_elem_of_In, in_flat_map in Hin as (p & _ & Hin).
  destruct (get_cell m (fst p) (snd p)) as [base|] eqn:Hb; [|inversion Hin].
  apply in_flat_map in Hin as (sd & _ & Hin).
  destruct (get_neighbor m base sd) as [n'|] eqn:Hn; [|inversion Hin].
  destruct Hin as [[= <- <-]|[]]. simpl.
  split; [eapply get_cell_in_bounds|eapply get_neighbor_in_bounds]; eassumption.
Qed.

(** Carving the same pairs once more changes nothing. *)
Lemma carve_pairs_idempotent l m :
  wf m -> pairs_in_bounds m l -> carve_pairs l (carve_pairs l m) = carve_pairs l m.
Proof.
  intros Hwf Hl.
  pose proof (carve_pairs_frame l m) as F.
  pose proof (carve_pairs_carved l m Hl) as C.
  assert (wf (carve_pairs l m)) as Hwf1 by now apply F.
  assert (pairs_in_bounds (carve_pairs l m) l) as Hl1.
  { eapply Forall_impl; [exact Hl|]. intros pr [H1 H2].
    split; now apply (same_frame_in_bounds _ _ _ F). }
  pose proof (carve_pairs_frame l (carve_pairs l m)) as F2.
  pose proof (carve_pairs_carved l _ Hl1) as C2.
  destruct F2 as (Fw & Fh & Fr & Fs & Fwf).
  symmetry. apply maze_ext; auto.
  intros p Hp.
  destruct (carved_flags _ _ p Hwf1 C2 Hp) as (Ev & Ei & Ee).
  apply cell_ext; auto.
  intros d.
  change (has_wall (carve_pairs l m) p d
          = has_wall (carve_pairs l (carve_pairs l m)) p d).
  rewrite (has_wall_carve_pairs l (carve_pairs l m)) by assumption.
  rewrite (has_wall_carve_pairs l m); try assumption;
    [|now apply (same_frame_in_bounds _ _ _ F)].
  assert (forall l', forallb (fun pr => negb (removed_by (carve_pairs l m) pr p d)) l'
                     = forallb (fun pr => negb (removed_by m pr p d)) l') as E.
  { induction l' as [|pr l' IH]; simpl; [reflexivity|]. rewrite IH.
    unfold removed_by. now rewrite (carve_direction_frame _ _ _ _ F). }
  rewrite E.
  destruct (has_wall m p d), (forallb _ l); reflexivity.
Qed.

(** C7. The symmetric carve is idempotent: calling
    [_apply_symmetric_wall_removal] a second time with the same cell and
    direction leaves the maze as the first call left it; so is
    [remove_wall_between], and [Cell.remove_wall] on a wall that is already
    removed returns the cell unchanged. *)
Theorem symmetric_carve_idempotent :
  (forall m cell d,
      wf m ->
      _apply_symmetric_wall_removal (_apply_symmetric_wall_removal m cell d) cell d
      = _apply_symmetric_wall_removal m cell d) /\
  (forall m c1 c2,
      wf m -> in_bounds m c1 -> in_bounds m c2 ->
      remove_wall_between (remove_wall_between m c1 c2) c1 c2 = remove_wall_between m c1 c2) /\
  (forall c d, Cell.has_wall c d = false -> Cell.remove_wall c d = c).
Proof.
  split; [|split].
  - intros m cell d Hwf. rewrite !apply_symmetric_eq.
    rewrite (symmetric_pairs_frame _ _ cell d (carve_pairs_frame _ m)).
    apply carve_pairs_idempotent; [assumption|now apply symmetric_pairs_in_bounds].
  - intros m c1 c2 Hwf H1 H2.
    apply (carve_pairs_idempotent [(c1, c2)] m Hwf).
    constructor; [split; assumption|constructor].
  - intros [[u dn l r] v i e] d. unfold Cell.has_wall, Cell.remove_wall. simpl.
    destruct d; simpl; intros ->; reflexivity.
Qed.

Lemma symmetric_carve_idempotent_witness :
  exists m0 m,
    Maze.init 4 2 false HORIZONTAL = Ok m0 /\ m = reset_all m0 /\
    has_wall m (0, 0) Direction.RIGHT = true /\
    has_wall m (3, 0) Direction.LEFT = true /\
    has_wall (_apply_symmetric_wall_removal m (0, 0) Direction.RIGHT) (0, 0) Direction.RIGHT
    = false /\
    has_wall (_apply_symmetric_wall_removal m (0, 0) Direction.RIGHT) (3, 0) Direction.LEFT
    = false /\
    _apply_symmetric_wall_removal
      (_apply_symmetric_wall_removal m (0, 0) Direction.RIGHT) (0, 0) Direction.RIGHT
    = _apply_symmetric_wall_removal m (0, 0) Direction.RIGHT /\
    remove_wall_between (remove_wall_between m (0, 0) (1, 0)) (0, 0) (1, 0)
    = remove_wall_between m (0, 0) (1, 0) /\
    Cell.remove_wall (cell_at (remove_wall_between m (0, 0) (1, 0)) (0, 0)) Direction.RIGHT
    = cell_at (remove_wall_between m (0, 0) (1, 0)) (0, 0).
Proof.
  set (m0 := Maze.mk 4 2 false HORIZONTAL (fresh_cells 4 2)).
  assert (wf m0) as Hwf0 by (apply (init_wf 4 2 false HORIZONTAL); [lia|lia|reflexivity]).
  assert (wf (reset_all m0)) as Hwf by (now apply reset_all_frame).
  exists m0, (reset_all m0).
  split; [reflexivity|]. split; [reflexivity|].
  split; [vm_compute; reflexivity|]. split; [vm_compute; reflexivity|].
  split; [vm_compute; reflexivity|]. split; [vm_compute; reflexivity|].
  destruct symmetric_carve_idempotent as (Hcarve & Hbetween & Hcell).
  split; [now apply Hcarve|]. split.
  - apply Hbetween; [assumption| |]; apply (same_frame_in_bounds _ _ _ (reset_all_frame m0));
      unfold in_bounds; cbn; lia.
  - apply Hcell. vm_compute. reflexivity.
Defined.

(** ** Determinism *)

Lemma same_frame_intro m m' :
  width m' = width m -> height m' = height m ->
  wrap m' = wrap m -> symmetry m' = symmetry m -> wf m' -> same_frame m m'.
Proof. unfold same_frame. auto. Qed.

(** Mazes with the same parameters whose cells agree on walls and on the
    visited flag (the classification flags may differ). *)
Definition same_carving (m1 m2 : Maze.t) : Prop :=
  same_frame m1 m2 /\ wf m1 /\
  (forall p d, in_bounds m1 p -> has_wall m1 p d = has_wall m2 p d) /\
  (forall p, in_bounds m1 p -> visited m1 p = visited m2 p).

Lemma has_wall_after_push m cur d n q d' :
  wf m -> in_bounds m n -> in_bounds m q ->
  has_wall (update (_apply_symmetric_wall_removal m cur d) n (Cell.set_visited true)) q d'
  = has_wall m q d'
    && forallb (fun pr => negb (removed_by m pr q d')) (symmetric_pairs m cur d).
Proof.
  intros Hwf Hn Hq.
  pose proof (apply_symmetric_carved m cur d Hwf) as C.
  pose proof (carved_frame _ _ C) as F.
  rewrite has_wall_set_visited;
    [| now apply F | now apply (same_frame_in_bounds _ _ _ F)
     | now apply (same_frame_in_bounds _ _ _ F)].
  rewrite apply_symmetric_eq.
  apply has_wall_carve_pairs; auto using symmetric_pairs_in_bounds.
Qed.

Lemma same_carving_neighbors m1 m2 cur :
  same_carving m1 m2 -> unvisited_neighbors m1 cur = unvisited_neighbors m2 cur.
Proof.
  intros (F & Hwf & _ & Hv). unfold unvisited_neighbors.
  apply flat_map_ext. intros d. rewrite (get_neighbor_frame _ _ _ _ F).
  destruct (get_neighbor m1 cur d) as [n|] eqn:Hn; [|reflexivity].
  rewrite (Hv n); [reflexivity|]. eapply get_neighbor_in_bounds; eassumption.
Qed.

Lemma same_carving_push m1 m2 cur d n :
  same_carving m1 m2 -> in_bounds m1 n ->
  same_carving
    (update (_apply_symmetric_wall_removal m1 cur d) n (Cell.set_visited true))
    (update (_apply_symmetric_wall_removal m2 cur d) n (Cell.set_visited true)).
Proof.
  intros (F & Hwf & Hw & Hv) Hn.
  assert (wf m2) as Hwf2 by now apply F.
  pose proof (push_frame m1 cur d n Hwf) as F1.
  pose proof (push_frame m2 cur d n Hwf2) as F2.
  assert (forall q, in_bounds m1 q -> in_bounds m2 q) as Hb
    by (intros q; apply (same_frame_in_bounds _ _ _ F)).
  split; [|split; [now apply F1|split]].
  - destruct F as (Fw & Fh & Fr & Fs & _), F1 as (F1w & F1h & F1r & F1s & _),
      F2 as (F2w & F2h & F2r & F2s & F2wf).
    apply same_frame_intro; try congruence. auto.
  - intros q d' Hq. apply (proj1 (same_frame_in_bounds _ _ _ F1)) in Hq.
    rewrite !has_wall_after_push; auto.
    rewrite (symmetric_pairs_frame _ _ _ _ F), (Hw q d' Hq). f_equal.
    induction (symmetric_pairs m1 cur d) as [|pr l IH]; simpl; [reflexivity|].
    rewrite IH. unfold removed_by. now rewrite (carve_direction_frame _ _ _ _ F).
  - intros q Hq. apply (proj1 (same_frame_in_bounds _ _ _ F1)) in Hq.
    rewrite !visited_after_push; auto. now rewrite (Hv q Hq).
Qed.

(** Outcomes that agree up to the classification flags. *)
Definition same_outcome {R} (o1 o2 : outcome (Maze.t * R)) : Prop :=
  match o1, o2 with
  | Done (m1, r1), Done (m2, r2) => same_carving m1 m2 /\ r1 = r2
  | Raised, Raised => True
  | OutOfFuel, OutOfFuel => True
  | _, _ => False
  end.

Lemma same_carving_dfs_loop {R} `{Random R} fuel m1 m2 stack (r : R) :
  same_carving m1 m2 ->
  (forall p, p ∈ stack -> in_bounds m1 p) ->
  same_outcome (dfs_loop fuel m1 stack r) (dfs_loop fuel m2 stack r).
Proof.
  revert m1 m2 stack r. induction fuel as [|fuel IH]; intros m1 m2 stack r S Hst.
  - destruct stack; simpl; auto.
  - destruct stack as [|cur rest]; simpl; [auto|].
    unfold dfs_step. rewrite <- (same_carving_neighbors m1 m2 cur S).
    destruct (unvisited_neighbors m1 cur) as [|x l] eqn:E.
    + apply IH; [assumption|]. intros p Hp. apply Hst. now right.
    + destruct (random_choice_elem r (x :: l)) as ([n d] & Hc & Hin); [discriminate|].
      destruct (random_choice r (x :: l)) as [o r'] eqn:Er. simpl in Hc. subst o.
      rewrite <- E in Hin. apply elem_of_unvisited_neighbors in Hin as [Hn _].
      assert (in_bounds m1 n) as Hnb
        by (eapply get_neighbor_in_bounds; [apply S|eassumption]).
      apply IH; [now apply same_carving_push|].
      intros p Hp. apply (same_frame_in_bounds _ _ _ (push_frame m1 cur d n (proj1 (proj2 S)))).
      apply elem_of_cons in Hp as [->|Hp]; [assumption|now apply Hst].
Qed.

Lemma same_carving_dfs_start m1 m2 s :
  wf m1 -> wf m2 ->
  width m2 = width m1 -> height m2 = height m1 ->
  wrap m2 = wrap m1 -> symmetry m2 = symmetry m1 ->
  in_bounds m1 s ->
  same_carving (dfs_start m1 s) (dfs_start m2 s).
Proof.
  intros Hwf1 Hwf2 Ew Eh Er Es Hs.
  pose proof (dfs_start_frame m1 s) as F1. pose proof (dfs_start_frame m2 s) as F2.
  assert (forall q, in_bounds m1 q -> in_bounds m2 q) as Hb
    by (unfold in_bounds; intros q; now rewrite Ew, Eh).
  split; [|split; [now apply F1|split]].
  - destruct F1 as (F1w & F1h & F1r & F1s & _), F2 as (F2w & F2h & F2r & F2s & F2wf).
    apply same_frame_intro; try congruence. auto.
  - intros q d Hq. apply (proj1 (same_frame_in_bounds _ _ _ F1)) in Hq.
    rewrite !has_wall_dfs_start; auto.
  - intros q Hq. apply (proj1 (same_frame_in_bounds _ _ _ F1)) in Hq.
    rewrite !visited_dfs_start; auto.
Qed.

Lemma same_carving_carve {R} `{Random R} fuel m1 m2 sx sy (r : R) :
  wf m1 -> wf m2 ->
  width m2 = width m1 -> height m2 = height m1 ->
  wrap m2 = wrap m1 -> symmetry m2 = symmetry m1 ->
  same_outcome (carve fuel m1 sx sy r) (carve fuel m2 sx sy r).
Proof.
  intros Hwf1 Hwf2 Ew Eh Er Es. unfold carve, adjust_start.
  rewrite Ew, Eh, Es.
  destruct (if negb (Symmetry_eqb (symmetry m1) NONE) then _ else _) as [x y].
  assert (get_cell (reset_all m2) x y = get_cell (reset_all m1) x y) as ->.
  { rewrite (get_cell_frame _ _ _ _ (reset_all_frame m2)),
      (get_cell_frame _ _ _ _ (reset_all_frame m1)).
    unfold get_cell. now rewrite Ew, Eh, Er. }
  destruct (get_cell (reset_all m1) x y) as [s|] eqn:Hs; [|exact Logic.I].
  assert (in_bounds m1 s) as Hsb.
  { apply (same_frame_in_bounds _ _ _ (reset_all_frame m1)).
    eapply get_cell_in_bounds; [|exact Hs]. now apply reset_all_frame. }
  apply (same_carving_dfs_loop fuel (dfs_start m1 s) (dfs_start m2 s)).
  - now apply same_carving_dfs_start.
  - intros p Hp. apply list_elem_of_singleton in Hp as ->.
    now apply (same_frame_in_bounds _ _ _ (dfs_start_frame m1 s)).
Qed.

Lemma same_carving_analyze m1 m2 :
  same_carving m1 m2 -> _analyze_cells m1 = _analyze_cells m2.
Proof.
  intros (F & Hwf & Hw & Hv).
  assert (wf m2) as Hwf2 by now apply F.
  pose proof (analyze_cells_frame m1) as F1. pose proof (analyze_cells_frame m2) as F2.
  destruct F as (Fw & Fh & Fr & Fs & _).
  destruct F1 as (F1w & F1h & F1r & F1s & F1wf), F2 as (F2w & F2h & F2r & F2s & F2wf).
  apply maze_ext; auto; try congruence.
  intros p Hp. unfold in_bounds in Hp. rewrite F1w, F1h in Hp.
  unfold _analyze_cells. rewrite !cell_at_update_all; auto.
  - assert (Cell.walls (cell_at m1 p) = Cell.walls (cell_at m2 p)) as Ewalls
      by (apply DirSet_ext; intros d; apply (Hw p d Hp)).
    specialize (Hv p Hp). unfold visited in Hv.
    unfold analyze_cell, Cell.exit_count. now rewrite Ewalls, Hv.
  - unfold in_bounds. now rewrite Fw, Fh.
Qed.

(** C6. Determinism: [generate] is a function of the construction
    parameters, the start cell and the state of the random source.  Two
    runs on mazes with the same width, height, wrap and symmetry, whatever
    their cells held before, from the same start and the same source state
    end alike (both return, both raise or both exceed the same iteration
    bound), and when they return, the two mazes are equal, wall for wall,
    and so are the final states of the source. *)
Theorem generate_deterministic {R} `{Random R} fuel m1 m2 sx sy (r : R) :
  wf m1 -> wf m2 ->
  width m2 = width m1 -> height m2 = height m1 ->
  wrap m2 = wrap m1 -> symmetry m2 = symmetry m1 ->
  Maze.generate fuel m1 sx sy r = Maze.generate fuel m2 sx sy r.
Proof.
  intros Hwf1 Hwf2 Ew Eh Er Es. unfold Maze.generate.
  pose proof (same_carving_carve fuel m1 m2 sx sy r Hwf1 Hwf2 Ew Eh Er Es) as S.
  destruct (carve fuel m1 sx sy r) as [[a ra]| |] eqn:E1,
           (carve fuel m2 sx sy r) as [[b rb]| |] eqn:E2;
    simpl in S; try contradiction; try reflexivity.
  destruct S as [S <-].
  apply carve_consistent in E1 as (_ & _ & Hv1 & _); [|assumption].
  apply carve_consistent in E2 as (_ & _ & Hv2 & _); [|assumption].
  rewrite (reconcile_all_visited a Hv1), (reconcile_all_visited b Hv2).
  now rewrite (same_carving_analyze a b S).
Qed.

Lemma generate_deterministic_witness :
  exists m1 m2,
    Maze.init 3 3 false NONE = Ok m1 /\
    m2 = update m1 (1, 1) (fun c => Cell.add_wall (Cell.set_visited true c) Direction.UP) /\
    Maze.generate 100 m1 0 0 ([2; 0; 1] : list nat)%nat
    = Maze.generate 100 m2 0 0 ([2; 0; 1] : list nat)%nat.
Proof.
  eexists. eexists. split; [reflexivity|]. split; [reflexivity|].
  apply generate_deterministic; try reflexivity.
  - apply (init_wf 3 3 false NONE); [lia|lia|reflexivity].
  - apply update_frame. apply (init_wf 3 3 false NONE); [lia|lia|reflexivity].
Defined.

(** ** Dead-end elimination: fixpoint and termination *)

Lemma sweep_cell_false st p : snd (sweep_cell st p) = false -> sweep_cell st p = st.
Proof.
  destruct st as [m ch]. unfold sweep_cell.
  destruct (exit_count m p =? 1); [|reflexivity].
  destruct (find_exit m p); [|reflexivity].
  destruct (find_connection m p _ _); [discriminate|reflexivity].
Qed.

Lemma sweep_cell_true m p : snd (sweep_cell (m, true) p) = true.
Proof.
  unfold sweep_cell. destruct (exit_count m p =? 1); [|reflexivity].
  destruct (find_exit m p); [|reflexivity].
  now destruct (find_connection m p _ _).
Qed.

Lemma fold_sweep_cell_false l st :
  snd (fold_left sweep_cell l st) = false -> fold_left sweep_cell l st = st.
Proof.
  revert st. induction l as [|p l IH]; intros st Hf; simpl in *; [reflexivity|].
  pose proof (IH _ Hf) as E. rewrite E in Hf |- *. now apply sweep_cell_false.
Qed.

(** A sweep that reports no change has not touched the maze. *)
Lemma sweep_false m : snd (sweep m) = false -> sweep m = (m, false).
Proof. apply fold_sweep_cell_false. Qed.

(** The maze [_remove_dead_ends] returns is one on which a sweep changes
    nothing. *)
Lemma remove_dead_ends_fixpoint fuel m m' :
  _remove_dead_ends fuel m = Done m' -> sweep m' = (m', false).
Proof.
  revert m. induction fuel as [|fuel IH]; intros m; simpl; [discriminate|].
  destruct (sweep m) as [m1 ch] eqn:E. destruct ch.
  - apply IH.
  - intros [= <-]. pose proof (sweep_false m) as Hs. rewrite E in Hs.
    specialize (Hs eq_refl). injection Hs as ->. exact E.
Qed.

(** Running the eliminator again on its own result returns at once, with
    the maze unchanged. *)
Lemma remove_dead_ends_idempotent fuel fuel' m m' :
  _remove_dead_ends fuel m = Done m' ->
  _remove_dead_ends (S fuel') m' = Done m'.
Proof.
  intros Hd. apply remove_dead_ends_fixpoint in Hd. simpl. now rewrite Hd.
Qed.

Lemma filter_length_le {A} (f g : A -> bool) (l : list A) :
  (forall y, y ∈ l -> g y = true -> f y = true) ->
  (length (List.filter g l) <= length (List.filter f l))%nat.
Proof.
  induction l as [|a l IH]; intros H; simpl; [lia|].
  assert (length (List.filter g l) <= length (List.filter f l))%nat as IH'
    by (apply IH; intros; apply H; auto; now right).
  destruct (g a) eqn:Eg.
  - rewrite (H a) by (auto; left). simpl. lia.
  - destruct (f a); simpl; lia.
Qed.

Lemma filter_length_lt {A} (f g : A -> bool) (l : list A) x :
  (forall y, y ∈ l -> g y = true -> f y = true) ->
  x ∈ l -> f x = true -> g x = false ->
  (length (List.filter g l) < length (List.filter f l))%nat.
Proof.
  induction l as [|a l IH]; intros H Hx Hf Hg; [inversion Hx|].
  assert (forall y, y ∈ l -> g y = true -> f y = true) as H'
    by (intros; apply H; auto; now right).
  simpl. apply elem_of_cons in Hx as [<-|Hx].
  - rewrite Hf, Hg. simpl. pose proof (filter_length_le f g l H'). lia.
  - specialize (IH H' Hx Hf Hg). destruct (g a) eqn:Eg.
    + rewrite (H a) by (auto; left). simpl. lia.
    + destruct (f a); simpl; lia.
Qed.

(** The wall slots of the maze, and how many of them hold a wall. *)
Definition wall_slots (m : Maze.t) : list (pos * Direction.t) :=
  p ← positions m; d ← Direction.all; [(p, d)].

Definition wall_total (m : Maze.t) : nat :=
  length (List.filter (fun pd => has_wall m (fst pd) (snd pd)) (wall_slots m)).

Lemma elem_of_wall_slots m p d : (p, d) ∈ wall_slots m <-> in_bounds m p.
Proof.
  unfold wall_slots. rewrite list_elem_of_bind. split.
  - intros (p' & Hin & Hp). apply list_elem_of_bind in Hin as (d' & Hin & _).
    apply list_elem_of_singleton in Hin as [= -> ->]. now apply elem_of_positions.
  - intros Hp. exists p. split; [|now apply elem_of_positions].
    apply list_elem_of_bind. exists d. split; [now apply list_elem_of_singleton|].
    destruct d; repeat constructor.
Qed.

Lemma wall_slots_frame m m' : same_frame m m' -> wall_slots m' = wall_slots m.
Proof. intros F. unfold wall_slots. now rewrite (positions_frame _ _ F). Qed.

Lemma carved_wall_total m m' : wf m -> carved m m' -> (wall_total m' <= wall_total m)%nat.
Proof.
  intros Hwf C. unfold wall_total. rewrite (wall_slots_frame _ _ (carved_frame _ _ C)).
  apply filter_length_le. intros [p d] Hin Hw. apply elem_of_wall_slots in Hin.
  simpl in *. eapply carved_mono; eassumption.
Qed.

(** Without wrap the direction recovered from the coordinates of a
    neighbour is the direction of the step that led to it. *)
Lemma carve_direction_of_neighbor m p d n :
  wrap m = false -> get_neighbor m p d = Some n -> carve_direction m p n = Some d.
Proof.
  intros Hr. unfold get_neighbor, get_cell, carve_direction. rewrite Hr.
  destruct (Direction.value d) as [dx dy] eqn:Ev.
  destruct (_ || _); [discriminate|]. intros [= <-]. simpl.
  replace (fst p + dx - fst p) with dx by lia.
  replace (snd p + dy - snd p) with dy by lia.
  pose proof (from_vector_value d) as Hv. rewrite Ev in Hv. simpl in Hv. now rewrite Hv.
Qed.

Lemma remove_wall_between_wall_total m p d n :
  wf m -> wrap m = false -> in_bounds m p ->
  get_neighbor m p d = Some n -> has_wall m p d = true ->
  (wall_total (remove_wall_between m p n) < wall_total m)%nat.
Proof.
  intros Hwf Hr Hp Hn Hw.
  pose proof (get_neighbor_in_bounds _ _ _ _ Hwf Hn) as Hnb.
  unfold wall_total. rewrite (wall_slots_frame _ _ (remove_wall_between_frame m p n)).
  apply (filter_length_lt _ _ _ (p, d)).
  - intros [q d'] Hin Hq. apply elem_of_wall_slots in Hin. simpl in *.
    apply (has_wall_remove_wall_between_mono m p n q d'); assumption.
  - now apply elem_of_wall_slots.
  - assumption.
  - simpl. rewrite has_wall_remove_wall_between by assumption.
    unfold removed_by. simpl. rewrite (carve_direction_of_neighbor m p d n Hr Hn).
    rewrite pos_eqb_refl, Direction_eqb_refl. simpl. apply andb_false_r.
Qed.

Lemma sweep_cell_wall_total m0 st p :
  wf m0 -> wrap m0 = false -> in_bounds m0 p ->
  carved m0 (fst st) /\ (snd st = true -> (wall_total (fst st) < wall_total m0)%nat) ->
  carved m0 (fst (sweep_cell st p)) /\
  (snd (sweep_cell st p) = true -> (wall_total (fst (sweep_cell st p)) < wall_total m0)%nat).
Proof.
  intros Hwf Hr Hp [C Hlt]. split; [now apply sweep_cell_carved|].
  destruct st as [m ch]. unfold sweep_cell. cbn [fst snd] in *.
  pose proof (carved_frame _ _ C) as F.
  destruct (exit_count m p =? 1); [|assumption].
  destruct (find_exit m p) as [e|]; [|assumption].
  destruct (find_connection m p e Direction.all) as [n|] eqn:E; [|assumption].
  apply find_connection_Some in E as (d & _ & _ & Hw & Hn & _).
  cbn [fst snd]. intros _.
  assert (wall_total (remove_wall_between m p n) < wall_total m)%nat.
  { apply (remove_wall_between_wall_total m p d n); auto.
    - now apply F.
    - destruct F as (_ & _ & -> & _). assumption.
    - now apply (same_frame_in_bounds _ _ _ F). }
  pose proof (carved_wall_total _ _ Hwf C). lia.
Qed.

(** Without wrap, a sweep that reports a change has removed a wall. *)
Lemma sweep_wall_total m :
  wf m -> wrap m = false -> snd (sweep m) = true ->
  (wall_total (fst (sweep m)) < wall_total m)%nat.
Proof.
  intros Hwf Hr. unfold sweep.
  assert (forall l st, (forall p, p ∈ l -> in_bounds m p) ->
            carved m (fst st) /\ (snd st = true -> (wall_total (fst st) < wall_total m)%nat) ->
            carved m (fst (fold_left sweep_cell l st)) /\
            (snd (fold_left sweep_cell l st) = true ->
             (wall_total (fst (fold_left sweep_cell l st)) < wall_total m)%nat)) as H.
  { induction l as [|p l IH]; intros st Hl Hst; simpl; [assumption|].
    apply IH; [intros q Hq; apply Hl; now right|].
    apply sweep_cell_wall_total; auto. apply Hl. left. }
  apply H.
  - intros p. apply elem_of_positions.
  - simpl. split; [apply carved_refl|discriminate].
Qed.

(** Without wrap, dead-end elimination terminates: every sweep but the
    last removes a wall. *)
Lemma remove_dead_ends_terminates m :
  wf m -> wrap m = false ->
  forall fuel, (wall_total m < fuel)%nat -> exists m', _remove_dead_ends fuel m = Done m'.
Proof.
  intros Hwf Hr fuel. revert m Hwf Hr.
  induction fuel as [|fuel IH]; intros m Hwf Hr Hlt; [lia|].
  simpl. pose proof (sweep_wall_total m Hwf Hr) as Hs.
  pose proof (sweep_carved m Hwf) as C.
  destruct (sweep m) as [m1 ch]. simpl in *. destruct ch; [|eauto].
  pose proof (carved_frame _ _ C) as F.
  apply IH.
  - now apply F.
  - destruct F as (_ & _ & -> & _). assumption.
  - specialize (Hs eq_refl). lia.
Qed.

Lemma dfs_loop_fuel_mono {R} `{Random R} fuel k m stack (r : R) x :
  dfs_loop fuel m stack r = Done x -> dfs_loop (fuel + k) m stack r = Done x.
Proof.
  revert m stack r. induction fuel as [|fuel IH]; intros m stack r.
  - destruct stack; simpl; [|discriminate]. intros <-. now destruct k.
  - destruct stack as [|cur rest]; simpl; [auto|].
    destruct (dfs_step m cur rest r) as [[[m1 st1] r1]|]; [apply IH|discriminate].
Qed.

Lemma carve_fuel_mono {R} `{Random R} fuel k m sx sy (r : R) x :
  carve fuel m sx sy r = Done x -> carve (fuel + k) m sx sy r = Done x.
Proof.
  unfold carve. destruct (adjust_start m sx sy) as [a b].
  destruct (get_cell (reset_all m) a b); [apply dfs_loop_fuel_mono|discriminate].
Qed.

Lemma remove_dead_ends_stuck m :
  sweep m = (m, true) -> forall fuel, _remove_dead_ends fuel m = OutOfFuel.
Proof.
  intros Hs fuel. induction fuel as [|fuel IH]; simpl; [reflexivity|]. now rewrite Hs.
Qed.

(** C4 (defect in the code). Whenever [_remove_dead_ends] returns, a
    second run returns at once and changes nothing, and without wrap it
    always returns: each sweep but the last removes a wall.  With wrap and
    a dimension of 2 it does not: on the 2 x 2 wrapped maze, [generate]
    reaches a maze on which a full sweep carves no wall and still reports a
    change, so the loop never exits and [generate] never returns. *)
Theorem remove_dead_ends_fixpoint_and_divergence :
  (forall fuel fuel' m m',
      _remove_dead_ends fuel m = Done m' ->
      sweep m' = (m', false) /\ _remove_dead_ends (S fuel') m' = Done m') /\
  (forall m fuel,
      wf m -> wrap m = false -> (wall_total m < fuel)%nat ->
      exists m', _remove_dead_ends fuel m = Done m') /\
  (exists m0 m r',
      Maze.init 2 2 true NONE = Ok m0 /\
      carve 8 m0 0 0 ([] : list nat) = Done (m, r') /\
      sweep (_analyze_cells (reconcile m)) = (_analyze_cells (reconcile m), true) /\
      (forall fuel, _remove_dead_ends fuel (_analyze_cells (reconcile m)) = OutOfFuel) /\
      (forall fuel, Maze.generate fuel m0 0 0 ([] : list nat) = OutOfFuel)).
Proof.
  split; [|split].
  - intros fuel fuel' m m' Hd. split.
    + now apply remove_dead_ends_fixpoint in Hd.
    + exact (remove_dead_ends_idempotent fuel fuel' m m' Hd).
  - intros m fuel Hwf Hr Hlt. now apply remove_dead_ends_terminates.
  - eexists. eexists. eexists. split; [reflexivity|]. split; [vm_compute; reflexivity|].
    match goal with
    | |- sweep ?m1 = _ /\ _ =>
        assert (sweep m1 = (m1, true)) as Hs by (vm_compute; reflexivity)
    end.
    split; [exact Hs|]. split; [exact (remove_dead_ends_stuck _ Hs)|].
    intros fuel. destruct (le_lt_dec 8 fuel) as [Hge|Hlt].
    + replace fuel with (8 + (fuel - 8))%nat by lia.
      unfold Maze.generate. erewrite carve_fuel_mono; [|vm_compute; reflexivity].
      cbv beta iota zeta. now rewrite (remove_dead_ends_stuck _ Hs).
    + do 8 (destruct fuel as [|fuel]; [vm_compute; reflexivity|]). lia.
Qed.

Lemma remove_dead_ends_fixpoint_and_divergence_witness :
  exists m0 m1,
    Maze.init 3 3 false NONE = Ok m0 /\
    _remove_dead_ends 40 (reset_all m0) = Done m1 /\
    _remove_dead_ends 1 m1 = Done m1.
Proof.
  eexists. eexists. split; [reflexivity|].
  match goal with
  | |- ?run = Done ?m1 /\ _ => assert (run = Done m1) as Hd by (vm_compute; reflexivity)
  end.
  split; [exact Hd|].
  exact (proj2 (proj1 remove_dead_ends_fixpoint_and_divergence 40%nat 0%nat _ _ Hd)).
Defined.

(** ** The open-edge graph *)

(** [u] and [v] are adjacent cells with no wall between them. *)
Definition open_between (m : Maze.t) (u v : pos) : Prop :=
  in_bounds m u /\
  exists d, get_neighbor m u d = Some v /\
            has_wall m u d = false /\ has_wall m v (Direction.opposite d) = false.

(** Every unordered pair of adjacent cells is named once, by its upper or
    left cell and the direction [DOWN] or [RIGHT]. *)
Definition edge_slots (m : Maze.t) : list (pos * Direction.t) :=
  p ← positions m; d ← [Direction.DOWN; Direction.RIGHT]; [(p, d)].

Definition is_open_slot (m : Maze.t) (e : pos * Direction.t) : bool :=
  match get_neighbor m (fst e) (snd e) with
  | Some v => negb (has_wall m (fst e) (snd e))
              && negb (has_wall m v (Direction.opposite (snd e)))
  | None => false
  end.

(** Number of open edges. *)
Definition open_edge_count (m : Maze.t) : nat :=
  length (List.filter (is_open_slot m) (edge_slots m)).

(** Any two cells are joined by a path of open edges. *)
Definition connected (m : Maze.t) : Prop :=
  forall u v, in_bounds m u -> in_bounds m v -> rtc (open_between m) u v.

(** A cycle: at least three distinct cells, each joined to the next, and
    the last to the first. *)
Definition is_cycle (E : pos -> pos -> Prop) (c : list pos) : Prop :=
  (3 <= length c)%nat /\ NoDup c /\
  forall i u v, c !! i = Some u -> c !! ((i + 1) mod length c)%nat = Some v -> E u v.

Definition acyclic (m : Maze.t) : Prop := forall c, ~ is_cycle (open_between m) c.

Lemma open_between_sym m u v : wf m -> open_between m u v -> open_between m v u.
Proof.
  intros Hwf (Hu & d & Hn & H1 & H2). split.
  - eapply get_neighbor_in_bounds; eassumption.
  - exists (Direction.opposite d). split; [now apply get_neighbor_opposite|].
    now rewrite opposite_involutive.
Qed.

(** A cell on a cycle has two distinct neighbours on it. *)
Lemma cycle_two_neighbors (E : pos -> pos -> Prop) c x :
  (forall u v, E u v -> E v u) -> is_cycle E c -> x ∈ c ->
  exists a b, a <> b /\ E x a /\ E x b.
Proof.
  intros Hsym (Hlen & Hnd & Hedge) Hx.
  apply list_elem_of_lookup in Hx as [i Hi].
  pose proof (lookup_lt_Some _ _ _ Hi) as Hlt.
  set (n := length c) in *.
  set (j := ((i + 1) mod n)%nat).
  set (k := ((i + n - 1) mod n)%nat).
  assert (j < n)%nat as Hj by (apply Nat.mod_upper_bound; lia).
  assert (k < n)%nat as Hk by (apply Nat.mod_upper_bound; lia).
  assert (((k + 1) mod n)%nat = i) as Hki.
  { subst k. destruct (Nat.eq_dec i 0%nat) as [->|Hne].
    - replace (0 + n - 1)%nat with (n - 1)%nat by lia.
      rewrite (Nat.mod_small (n - 1)) by lia.
      replace (n - 1 + 1)%nat with n by lia. apply Nat.Div0.mod_same.
    - replace (i + n - 1)%nat with ((i - 1) + 1 * n)%nat by lia.
      rewrite Nat.Div0.mod_add, (Nat.mod_small (i - 1)) by lia.
      replace (i - 1 + 1)%nat with i by lia. apply Nat.mod_small; lia. }
  assert (j <> k) as Hjk.
  { subst j k. destruct (Nat.eq_dec i 0%nat) as [->|Hne].
    - replace (0 + n - 1)%nat with (n - 1)%nat by lia.
      rewrite !Nat.mod_small by lia. lia.
    - replace (i + n - 1)%nat with ((i - 1) + 1 * n)%nat by lia.
      rewrite Nat.Div0.mod_add, (Nat.mod_small (i - 1)) by lia.
      destruct (Nat.eq_dec (i + 1)%nat n) as [E1|E1].
      + rewrite E1, Nat.Div0.mod_same. lia.
      + rewrite Nat.mod_small by lia. lia. }
  destruct (lookup_lt_is_Some_2 c j Hj) as [a Ha].
  destruct (lookup_lt_is_Some_2 c k Hk) as [b Hb].
  exists a, b. split; [|split].
  - intros <-. apply Hjk. eapply NoDup_lookup; eassumption.
  - eapply Hedge; eassumption.
  - apply Hsym. apply (Hedge k b x Hb). fold n. now rewrite Hki.
Qed.

Lemma rtc_mono {A} (R1 R2 : A -> A -> Prop) x y :
  (forall a b, R1 a b -> R2 a b) -> rtc R1 x y -> rtc R2 x y.
Proof. intros Hsub. induction 1; [constructor|econstructor; eauto]. Qed.

Lemma rtc_sym {A} (R : A -> A -> Prop) x y :
  (forall a b, R a b -> R b a) -> rtc R x y -> rtc R y x.
Proof.
  intros Hsym. induction 1 as [|a b c Hab _ IH]; [constructor|].
  eapply rtc_r; [exact IH|now apply Hsym].
Qed.

(** ** DFS carving without symmetry and without wrap *)

Lemma symmetric_pairs_none m cur d n :
  symmetry m = NONE -> in_bounds m cur -> get_neighbor m cur d = Some n ->
  symmetric_pairs m cur d = [(cur, n)].
Proof.
  intros Hs Hc Hn. unfold symmetric_pairs, _get_symmetric_cell. rewrite Hs. simpl.
  rewrite (get_cell_of_in_bounds m cur Hc). unfold symmetric_directions.
  replace (fst cur, snd cur) with cur by now destruct cur.
  rewrite pos_eqb_refl. simpl. now rewrite Hn.
Qed.

(** The walls after one carving step of the plain DFS: the two sides of the
    wall between [cur] and [n] are gone, nothing else changes. *)
Lemma has_wall_push_none m cur d n q d' :
  wf m -> wrap m = false -> symmetry m = NONE ->
  in_bounds m cur -> get_neighbor m cur d = Some n -> in_bounds m q ->
  has_wall (update (_apply_symmetric_wall_removal m cur d) n (Cell.set_visited true)) q d'
  = has_wall m q d'
    && negb ((pos_eqb cur q && Direction.eqb d d')
             || (pos_eqb n q && Direction.eqb (Direction.opposite d) d')).
Proof.
  intros Hwf Hr Hs Hc Hn Hq.
  pose proof (get_neighbor_in_bounds _ _ _ _ Hwf Hn) as Hnb.
  rewrite has_wall_after_push by assumption.
  rewrite (symmetric_pairs_none m cur d n Hs Hc Hn). simpl.
  unfold removed_by. simpl. rewrite (carve_direction_of_neighbor m cur d n Hr Hn).
  now rewrite andb_true_r.
Qed.

(** What the plain DFS maintains, for the start cell [s]: unvisited cells
    are fully walled; visited cells are joined to [s]; there is no cycle;
    and there is one open edge less than there are visited cells. *)
Record tree_inv (s : pos) (m : Maze.t) : Prop := {
  ti_wrap : wrap m = false;
  ti_symmetry : symmetry m = NONE;
  ti_walled : forall p d, in_bounds m p -> visited m p = false -> has_wall m p d = true;
  ti_reach : forall p, in_bounds m p -> visited m p = true -> rtc (open_between m) s p;
  ti_acyclic : acyclic m;
  ti_count :
    (open_edge_count m + unvisited_count m + 1
     = Z.to_nat (width m) * Z.to_nat (height m))%nat
}.

Lemma elem_of_edge_slots m p d :
  (p, d) ∈ edge_slots m <-> in_bounds m p /\ (d = Direction.DOWN \/ d = Direction.RIGHT).
Proof.
  unfold edge_slots. rewrite list_elem_of_bind. split.
  - intros (p' & Hin & Hp). apply list_elem_of_bind in Hin as (d' & Hin & Hd).
    apply list_elem_of_singleton in Hin as [= -> ->].
    split; [now apply elem_of_positions|].
    apply elem_of_cons in Hd as [->|Hd]; [now left|].
    apply list_elem_of_singleton in Hd as ->. now right.
  - intros [Hp Hd]. exists p. split; [|now apply elem_of_positions].
    apply list_elem_of_bind. exists d. split; [now apply list_elem_of_singleton|].
    destruct Hd as [->| ->]; repeat constructor.
Qed.

Lemma NoDup_edge_slots m : NoDup (edge_slots m).
Proof.
  unfold edge_slots. apply NoDup_bind.
  - intros p1 p2 e _ _ H1 H2.
    apply list_elem_of_bind in H1 as (d1 & E1 & _), H2 as (d2 & E2 & _).
    apply list_elem_of_singleton in E1, E2. congruence.
  - intros p _. apply NoDup_bind.
    + intros d1 d2 e _ _ H1 H2. apply list_elem_of_singleton in H1, H2. congruence.
    + intros. apply NoDup_singleton.
    + repeat constructor; rewrite ?list_elem_of_singleton; try discriminate.
      intros H; inversion H.
  - apply NoDup_positions.
Qed.

Lemma edge_slots_frame m m' : same_frame m m' -> edge_slots m' = edge_slots m.
Proof. intros F. unfold edge_slots. now rewrite (positions_frame _ _ F). Qed.

Lemma tree_inv_start m s :
  wf m -> wrap m = false -> symmetry m = NONE -> in_bounds m s ->
  tree_inv s (dfs_start m s).
Proof.
  intros Hwf Hr Hs Hsb. pose proof (dfs_start_frame m s) as F.
  assert (forall u v, ~ open_between (dfs_start m s) u v) as Hno.
  { intros u v (Hu & d & _ & Hw & _).
    apply (proj1 (same_frame_in_bounds _ _ _ F)) in Hu.
    rewrite has_wall_dfs_start in Hw by assumption. discriminate. }
  split.
  - destruct F as (_ & _ & -> & _). assumption.
  - destruct F as (_ & _ & _ & -> & _). assumption.
  - intros p d Hp _. apply (proj1 (same_frame_in_bounds _ _ _ F)) in Hp.
    now apply has_wall_dfs_start.
  - intros p Hp Hv. apply (proj1 (same_frame_in_bounds _ _ _ F)) in Hp.
    rewrite visited_dfs_start in Hv by assumption.
    apply pos_eqb_eq in Hv as ->. constructor.
  - intros c (Hlen & _ & Hedge).
    destruct (lookup_lt_is_Some_2 c 0) as [u Hu]; [lia|].
    destruct (lookup_lt_is_Some_2 c ((0 + 1) mod length c)) as [v Hv];
      [apply Nat.mod_upper_bound; lia|].
    exact (Hno u v (Hedge 0%nat u v Hu Hv)).
  - pose proof (unvisited_count_dfs_start m s Hwf Hsb) as Hc.
    assert (open_edge_count (dfs_start m s) = 0%nat) as ->.
    { unfold open_edge_count.
      rewrite (filter_length_ext (fun _ => false)).
      - induction (edge_slots (dfs_start m s)); simpl; auto.
      - intros [p d] Hin. apply elem_of_edge_slots in Hin as [Hp _].
        apply (proj1 (same_frame_in_bounds _ _ _ F)) in Hp.
        unfold is_open_slot. simpl. destruct (get_neighbor _ p d); [|reflexivity].
        now rewrite has_wall_dfs_start. }
    destruct F as (-> & -> & _). lia.
Qed.

Section PlainPush.

(** One carving step of the plain DFS: from [cur] through its wall in
    direction [d] to the unvisited neighbour [n]. *)
Variables (m : Maze.t) (cur n : pos) (d : Direction.t).
Hypothesis Hwf : wf m.
Hypothesis Hwrap : wrap m = false.
Hypothesis Hsym : symmetry m = NONE.
Hypothesis Hcur : in_bounds m cur.
Hypothesis Hcur_visited : visited m cur = true.
Hypothesis Hn : get_neighbor m cur d = Some n.
Hypothesis Hn_unvisited : visited m n = false.
Hypothesis Hwalled :
  forall p d, in_bounds m p -> visited m p = false -> has_wall m p d = true.

#[local] Abbreviation m2 :=
  (update (_apply_symmetric_wall_removal m cur d) n (Cell.set_visited true)).

(** The two wall slots the step clears. *)
Definition cleared (q : pos) (d' : Direction.t) : bool :=
  (pos_eqb cur q && Direction.eqb d d')
  || (pos_eqb n q && Direction.eqb (Direction.opposite d) d').

Lemma push_n_in_bounds : in_bounds m n.
Proof. eapply get_neighbor_in_bounds; eassumption. Qed.

Lemma push_back : get_neighbor m n (Direction.opposite d) = Some cur.
Proof. now apply get_neighbor_opposite. Qed.

Lemma push_cur_neq : cur <> n.
Proof. intros E. rewrite E in Hcur_visited. congruence. Qed.

Lemma push_has_wall q d' :
  in_bounds m q -> has_wall m2 q d' = has_wall m q d' && negb (cleared q d').
Proof. intros Hq. now apply has_wall_push_none. Qed.

Lemma push_visited q :
  in_bounds m q -> visited m2 q = if pos_eqb n q then true else visited m q.
Proof. intros Hq. apply visited_after_push; auto using push_n_in_bounds. Qed.

Lemma push_in_bounds q : in_bounds m2 q <-> in_bounds m q.
Proof. apply same_frame_in_bounds, push_frame, Hwf. Qed.

Lemma push_neighbor q d' : get_neighbor m2 q d' = get_neighbor m q d'.
Proof. apply get_neighbor_frame, push_frame, Hwf. Qed.

Lemma cleared_cur : cleared cur d = true.
Proof. unfold cleared. now rewrite pos_eqb_refl, Direction_eqb_refl. Qed.

Lemma cleared_n : cleared n (Direction.opposite d) = true.
Proof. unfold cleared. rewrite pos_eqb_refl, Direction_eqb_refl. apply orb_true_r. Qed.

Lemma cleared_inv q d' :
  cleared q d' = true -> (q = cur /\ d' = d) \/ (q = n /\ d' = Direction.opposite d).
Proof.
  unfold cleared. rewrite orb_true_iff, !andb_true_iff, !pos_eqb_eq, !Direction_eqb_eq.
  intros [[-> ->]|[-> ->]]; auto.
Qed.

Lemma push_open_mono u v : open_between m u v -> open_between m2 u v.
Proof.
  intros (Hu & d0 & Hn0 & H1 & H2).
  pose proof (get_neighbor_in_bounds _ _ _ _ Hwf Hn0) as Hv.
  split; [now apply push_in_bounds|]. exists d0.
  rewrite push_neighbor, !push_has_wall, H1, H2 by assumption. auto.
Qed.

Lemma push_open_new : open_between m2 cur n.
Proof.
  split; [now apply push_in_bounds|]. exists d.
  rewrite push_neighbor, !push_has_wall, cleared_cur, cleared_n
    by auto using push_n_in_bounds.
  rewrite !andb_false_r. auto.
Qed.

(** The new cell hangs on the tree by the new edge only. *)
Lemma push_open_at_n v : open_between m2 n v -> v = cur.
Proof.
  intros (_ & d0 & Hn0 & H1 & _). rewrite push_neighbor in Hn0.
  rewrite push_has_wall in H1 by apply push_n_in_bounds.
  rewrite (Hwalled n d0 push_n_in_bounds Hn_unvisited) in H1. simpl in H1.
  apply negb_false_iff, cleared_inv in H1 as [[E _]|[_ ->]].
  - exfalso. now apply push_cur_neq.
  - pose proof push_back. congruence.
Qed.

(** Away from the new cell the open edges are the old ones. *)
Lemma push_open_old u v :
  u <> n -> v <> n -> open_between m2 u v -> open_between m u v.
Proof.
  intros Hu Hv (Hub & d0 & Hn0 & H1 & H2).
  apply push_in_bounds in Hub. rewrite push_neighbor in Hn0.
  pose proof (get_neighbor_in_bounds _ _ _ _ Hwf Hn0) as Hvb.
  pose proof (get_neighbor_opposite _ _ _ _ Hwf Hub Hn0) as Hback.
  rewrite push_has_wall in H1, H2 by assumption.
  split; [assumption|]. exists d0. split; [assumption|]. split.
  - destruct (has_wall m u d0); [|reflexivity]. simpl in H1.
    apply negb_false_iff, cleared_inv in H1 as [[-> ->]|[-> _]]; [|congruence].
    exfalso. apply Hv. congruence.
  - destruct (has_wall m v (Direction.opposite d0)); [|reflexivity]. simpl in H2.
    apply negb_false_iff, cleared_inv in H2 as [[-> E]|[-> _]]; [|congruence].
    exfalso. apply Hu. rewrite <- E in Hn. congruence.
Qed.

Lemma push_acyclic : acyclic m -> acyclic m2.
Proof.
  intros Hac c Hc.
  assert (wf m2) as Hwf2 by (apply push_frame; assumption).
  destruct (decide (n ∈ c)) as [Hin|Hout].
  - destruct (cycle_two_neighbors _ c n (fun u v => open_between_sym m2 u v Hwf2) Hc Hin)
      as (a & b & Hab & Ha & Hb).
    apply push_open_at_n in Ha, Hb. congruence.
  - apply (Hac c). destruct Hc as (Hlen & Hnd & Hedge).
    split; [assumption|]. split; [assumption|].
    intros i u v Hu Hv. apply push_open_old.
    + intros ->. apply Hout. apply list_elem_of_lookup. eauto.
    + intros ->. apply Hout. apply list_elem_of_lookup. eauto.
    + eapply Hedge; eassumption.
Qed.

(** The slot that names the new edge. *)
Definition new_slot : pos * Direction.t :=
  match d with
  | Direction.DOWN | Direction.RIGHT => (cur, d)
  | _ => (n, Direction.opposite d)
  end.

Lemma new_slot_cases :
  (new_slot = (cur, d) /\ (d = Direction.DOWN \/ d = Direction.RIGHT)) \/
  (new_slot = (n, Direction.opposite d) /\
   (Direction.opposite d = Direction.DOWN \/ Direction.opposite d = Direction.RIGHT)).
Proof. unfold new_slot. destruct d eqn:E; simpl; auto. Qed.

Lemma push_opened_cur : has_wall m2 cur d = false.
Proof. rewrite push_has_wall, cleared_cur by assumption. apply andb_false_r. Qed.

Lemma push_opened_n : has_wall m2 n (Direction.opposite d) = false.
Proof. rewrite push_has_wall, cleared_n by apply push_n_in_bounds. apply andb_false_r. Qed.

Lemma push_open_edge_count : open_edge_count m2 = S (open_edge_count m).
Proof.
  unfold open_edge_count. rewrite (edge_slots_frame _ _ (push_frame m cur d n Hwf)).
  pose proof push_back as Hb. pose proof push_n_in_bounds as Hnb.
  pose proof (Hwalled n (Direction.opposite d) Hnb Hn_unvisited) as Hw.
  apply (filter_length_flip _ _ _ new_slot).
  - apply NoDup_edge_slots.
  - destruct new_slot_cases as [[-> Hd]|[-> Hd]]; apply elem_of_edge_slots; auto.
  - unfold is_open_slot.
    destruct new_slot_cases as [[-> _]|[-> _]]; cbn [fst snd]; rewrite push_neighbor.
    + now rewrite Hn, push_opened_cur, push_opened_n.
    + now rewrite Hb, opposite_involutive, push_opened_cur, push_opened_n.
  - unfold is_open_slot.
    destruct new_slot_cases as [[-> _]|[-> _]]; cbn [fst snd].
    + rewrite Hn, Hw. apply andb_false_r.
    + now rewrite Hb, Hw.
  - intros [p d0] Hin Hne. apply elem_of_edge_slots in Hin as [Hp Hd0].
    unfold is_open_slot. cbn [fst snd]. rewrite push_neighbor.
    destruct (get_neighbor m p d0) as [v|] eqn:Hv; [|reflexivity].
    pose proof (get_neighbor_in_bounds _ _ _ _ Hwf Hv) as Hvb.
    pose proof (get_neighbor_opposite _ _ _ _ Hwf Hp Hv) as Hback.
    rewrite !push_has_wall by assumption.
    assert (cleared p d0 = false) as ->.
    { apply not_true_is_false. intros C. apply Hne.
      apply cleared_inv in C as [[-> ->]|[-> ->]].
      - destruct new_slot_cases as [[-> _]|[_ [E|E]]]; [reflexivity| |];
          destruct Hd0 as [E'|E']; rewrite E' in E; discriminate.
      - destruct new_slot_cases as [[_ [E|E]]|[-> _]]; [| |reflexivity];
          destruct Hd0 as [E'|E']; rewrite E in E'; discriminate. }
    assert (cleared v (Direction.opposite d0) = false) as ->.
    { apply not_true_is_false. intros C. apply Hne.
      apply cleared_inv in C as [[-> E]|[-> E]].
      - (* the slot is the new edge seen from [n] *)
        assert (Direction.opposite d = d0) as Ed
          by (rewrite <- E; apply opposite_involutive).
        assert (p = n) as -> by (rewrite E in Hback; congruence).
        rewrite <- Ed.
        destruct new_slot_cases as [[_ [E1|E1]]|[-> _]]; [| |reflexivity];
          destruct Hd0 as [E'|E']; rewrite <- Ed, E1 in E'; discriminate.
      - (* the slot is the new edge seen from [cur] *)
        assert (d0 = d) as ->.
        { rewrite <- (opposite_involutive d0), E. apply opposite_involutive. }
        assert (p = cur) as -> by congruence.
        destruct new_slot_cases as [[-> _]|[_ [E1|E1]]]; [reflexivity| |];
          destruct Hd0 as [E'|E']; rewrite E' in E1; discriminate. }
    now rewrite !andb_true_r.
Qed.

Lemma push_tree_inv s : tree_inv s m -> tree_inv s m2.
Proof.
  intros [_ _ _ Hreach Hac Hcount].
  pose proof (push_frame m cur d n Hwf) as F.
  pose proof push_n_in_bounds as Hnb.
  split.
  - destruct F as (_ & _ & -> & _). assumption.
  - destruct F as (_ & _ & _ & -> & _). assumption.
  - intros p d' Hp Hpv. apply push_in_bounds in Hp.
    rewrite push_visited in Hpv by assumption.
    destruct (pos_eqb n p) eqn:E; [discriminate|]. apply pos_eqb_neq in E.
    rewrite push_has_wall by assumption.
    rewrite (Hwalled p d' Hp Hpv). simpl. apply negb_true_iff, not_true_is_false.
    intros C. apply cleared_inv in C as [[-> _]|[-> _]]; congruence.
  - intros p Hp Hpv. apply push_in_bounds in Hp.
    rewrite push_visited in Hpv by assumption.
    destruct (pos_eqb n p) eqn:E.
    + apply pos_eqb_eq in E as <-. eapply rtc_r.
      * eapply rtc_mono; [|apply (Hreach cur Hcur Hcur_visited)].
        intros a b. apply push_open_mono.
      * apply push_open_new.
    + eapply rtc_mono; [|apply (Hreach p Hp Hpv)].
      intros a b. apply push_open_mono.
  - now apply push_acyclic.
  - rewrite push_open_edge_count.
    rewrite (unvisited_count_push m cur d n Hwf Hnb Hn_unvisited) in Hcount.
    destruct F as (-> & -> & _). lia.
Qed.

End PlainPush.

Lemma tree_inv_push s m cur rest n d :
  dfs_inv m (cur :: rest) -> tree_inv s m -> (n, d) ∈ unvisited_neighbors m cur ->
  tree_inv s (update (_apply_symmetric_wall_removal m cur d) n (Cell.set_visited true)).
Proof.
  intros [Hwf _ Hst _] Ht Hin.
  apply elem_of_unvisited_neighbors in Hin as [Hn Hv].
  destruct (Hst cur) as [Hc Hcv]; [left|].
  apply push_tree_inv; auto; apply Ht.
Qed.

Lemma unvisited_count_zero m :
  (forall q, in_bounds m q -> visited m q = true) -> unvisited_count m = 0%nat.
Proof.
  intros Hv. unfold unvisited_count.
  rewrite (filter_length_ext (fun _ => false)).
  - induction (positions m); simpl; auto.
  - intros p Hp. apply elem_of_positions in Hp. now rewrite (Hv p Hp).
Qed.

(** C3. Spanning tree.  On a maze without symmetry and without wrap, from
    a start cell of the array, the DFS carving loop terminates (within
    [2 * width * height] iterations), and when it exits, before dead-end
    elimination, the maze has [width * height - 1] open edges and its
    open-edge graph is connected and has no cycle. *)
Theorem dfs_spanning_tree {R} `{Random R} fuel m sx sy (r : R) :
  wf m -> symmetry m = NONE -> wrap m = false -> in_bounds m (sx, sy) ->
  (2 * (Z.to_nat (width m) * Z.to_nat (height m)) <= fuel)%nat ->
  exists m' r',
    carve fuel m sx sy r = Done (m', r') /\
    Z.of_nat (open_edge_count m') = width m * height m - 1 /\
    connected m' /\ acyclic m'.
Proof.
  intros Hwf Hs Hr Hstart Hfuel.
  destruct (carve_invariant (fun m _ => exists s, tree_inv s m) m sx sy Hwf)
    with (fuel := fuel) (r := r) as (m' & r' & Hc & Hi & (s & Ht) & F); auto.
  - right. unfold adjust_start. now rewrite Hs.
  - intros s Hsb. exists s. now apply tree_inv_start.
  - intros m1 cur rest n d Hi [s Ht] Hin. exists s. now apply (tree_inv_push s m1 cur rest).
  - exists m', r'. split; [exact Hc|].
    pose proof (dfs_inv_all_visited m' Hi) as Hall.
    destruct Ht as [_ _ _ Hreach Hac Hcount].
    assert (wf m') as Hwf' by apply Hi.
    split; [|split; [|exact Hac]].
    + rewrite (unvisited_count_zero m' Hall) in Hcount.
      destruct F as (Fw & Fh & _). rewrite Fw, Fh in Hcount.
      destruct Hwf as (Hw & Hh & _).
      assert (Z.of_nat (open_edge_count m') + 1
              = Z.of_nat (Z.to_nat (width m) * Z.to_nat (height m))) as E by lia.
      rewrite Nat2Z.inj_mul, !Z2Nat.id in E by lia. lia.
    + intros u v Hu Hv. eapply rtc_trans.
      * apply rtc_sym; [intros a b; now apply open_between_sym|].
        now apply Hreach; [|apply Hall].
      * now apply Hreach; [|apply Hall].
Qed.

Lemma dfs_spanning_tree_witness :
  exists m m' r',
    Maze.init 3 2 false NONE = Ok m /\
    carve 12 m 1 1 ([1; 0; 2] : list nat)%nat = Done (m', r') /\
    Z.of_nat (open_edge_count m') = 3 * 2 - 1 /\
    connected m' /\ acyclic m'.
Proof.
  eexists.
  assert (wf {| width := 3; height := 2; wrap := false; symmetry := NONE;
                cells := fresh_cells 3 2 |}) as Hwf
    by (apply (init_wf 3 2 false NONE); [lia|lia|reflexivity]).
  destruct (dfs_spanning_tree 12 _ 1 1 ([1; 0; 2] : list nat)%nat Hwf eq_refl eq_refl)
    as (m' & r' & Hc & He & Hconn & Hac).
  - unfold in_bounds. simpl. lia.
  - simpl. lia.
  - exists m', r'. split; [reflexivity|]. split; [exact Hc|]. split; [exact He|].
    split; [exact Hconn|exact Hac].
Defined.

(** ** Mirror symmetry of the carved maze *)

Section Reflection.

(** A reflection of the array: [M] on cells, [f] on directions, for the
    mazes that share the parameters of [m0]. *)
Variables (m0 : Maze.t) (M : pos -> pos) (f : Direction.t -> Direction.t).
Hypothesis Hwf0 : wf m0.
Hypothesis M_inv : forall p, M (M p) = p.
Hypothesis M_bounds : forall p, in_bounds m0 p -> in_bounds m0 (M p).
Hypothesis f_inv : forall d, f (f d) = d.
Hypothesis f_opp : forall d, Direction.opposite (f d) = f (Direction.opposite d).
Hypothesis M_carve :
  forall c1 c2, in_bounds m0 c1 -> in_bounds m0 c2 ->
    carve_direction m0 (M c1) (M c2) = f <$> carve_direction m0 c1 c2.
(** The symmetric carve opens a wall and its mirror image. *)
Hypothesis M_pairs :
  forall cur d n, in_bounds m0 cur -> get_neighbor m0 cur d = Some n ->
    symmetric_pairs m0 cur d = [(cur, n); (M cur, M n)].

(** Every wall has its mirror image. *)
Definition reflected (m : Maze.t) : Prop :=
  forall p d, in_bounds m0 p -> has_wall m p d = has_wall m (M p) (f d).

Lemma M_eqb p q : pos_eqb (M p) (M q) = pos_eqb p q.
Proof.
  destruct (pos_eqb p q) eqn:E.
  - apply pos_eqb_eq in E as ->. apply pos_eqb_refl.
  - apply pos_eqb_neq. apply pos_eqb_neq in E. intros E'. apply E.
    rewrite <- (M_inv p), <- (M_inv q). now f_equal.
Qed.

Lemma f_eqb a b : Direction.eqb (f a) (f b) = Direction.eqb a b.
Proof.
  destruct (Direction.eqb a b) eqn:E.
  - apply Direction_eqb_eq in E as ->. apply Direction_eqb_refl.
  - apply not_true_is_false. intros E'. apply Direction_eqb_eq in E'.
    assert (a = b) as -> by (rewrite <- (f_inv a), <- (f_inv b); now f_equal).
    now rewrite Direction_eqb_refl in E.
Qed.

Lemma removed_by_reflect c1 c2 q d :
  in_bounds m0 c1 -> in_bounds m0 c2 ->
  removed_by m0 (M c1, M c2) (M q) (f d) = removed_by m0 (c1, c2) q d.
Proof.
  intros H1 H2. unfold removed_by. cbn [fst snd]. rewrite (M_carve c1 c2 H1 H2).
  destruct (carve_direction m0 c1 c2) as [D|]; [|reflexivity]. simpl.
  now rewrite f_opp, !M_eqb, !f_eqb.
Qed.

Lemma reflected_push m cur d n :
  same_frame m0 m -> wf m -> reflected m ->
  in_bounds m0 cur -> get_neighbor m0 cur d = Some n ->
  reflected (update (_apply_symmetric_wall_removal m cur d) n (Cell.set_visited true)).
Proof.
  intros F Hwf Hrefl Hcur Hn p d' Hp.
  pose proof (get_neighbor_in_bounds _ _ _ _ Hwf0 Hn) as Hnb.
  assert (forall q, in_bounds m0 q -> in_bounds m q) as Hb
    by (intros q; apply (same_frame_in_bounds _ _ _ F)).
  rewrite !has_wall_after_push by auto.
  rewrite (symmetric_pairs_frame _ _ _ _ F), (M_pairs cur d n Hcur Hn).
  rewrite (Hrefl p d' Hp). cbn [forallb].
  assert (forall pr q0 d0, removed_by m pr q0 d0 = removed_by m0 pr q0 d0) as E.
  { intros pr q0 d0. unfold removed_by. now rewrite (carve_direction_frame _ _ _ _ F). }
  rewrite !E.
  rewrite (removed_by_reflect cur n p d') by assumption.
  rewrite <- (removed_by_reflect (M cur) (M n) p d') by auto.
  rewrite !M_inv.
  destruct (has_wall m (M p) (f d')), (removed_by m0 (cur, n) p d'),
    (removed_by m0 (cur, n) (M p) (f d')); reflexivity.
Qed.

(** The reflection is an invariant of the carving phase. *)
Lemma carve_reflected {R} `{Random R} fuel sx sy (r : R) m' r' :
  carve fuel m0 sx sy r = Done (m', r') -> reflected m'.
Proof.
  intros Hc.
  apply (carve_sound (fun m _ => same_frame m0 m /\ reflected m)) in Hc; auto.
  - apply Hc.
  - intros s Hs. split; [apply dfs_start_frame|].
    intros p d Hp. rewrite !has_wall_dfs_start; auto.
  - intros m cur rest n d Hi [F Hrefl] Hin.
    apply elem_of_unvisited_neighbors in Hin as [Hn _].
    pose proof (inv_wf _ _ Hi) as Hwf.
    rewrite (get_neighbor_frame _ _ _ _ F) in Hn.
    destruct (inv_stack _ _ Hi cur) as [Hcur _]; [left|].
    apply (same_frame_in_bounds _ _ _ F) in Hcur.
    split.
    + eapply same_frame_trans; [exact F|now apply push_frame].
    + now apply reflected_push.
Qed.

End Reflection.

(** ** The two axial reflections *)

(** Left and right exchanged. *)
Definition hflip (d : Direction.t) : Direction.t :=
  match d with
  | Direction.LEFT => Direction.RIGHT
  | Direction.RIGHT => Direction.LEFT
  | _ => d
  end.

(** Up and down exchanged. *)
Definition vflip (d : Direction.t) : Direction.t :=
  match d with
  | Direction.UP => Direction.DOWN
  | Direction.DOWN => Direction.UP
  | _ => d
  end.

Definition hmirror (m : Maze.t) (p : pos) : pos := (width m - 1 - fst p, snd p).
Definition vmirror (m : Maze.t) (p : pos) : pos := (fst p, height m - 1 - snd p).

(** A wall set with every direction replaced by its image. *)
Definition swap_walls (f : Direction.t -> Direction.t) (s : DirSet.t) : DirSet.t :=
  DirSet.of_list (List.map f (DirSet.to_list s)).

(** The law of the specification, on wall sets. *)
Definition horizontal_law (m : Maze.t) : Prop :=
  forall x y, in_bounds m (x, y) ->
    Cell.walls (cell_at m (x, y))
    = swap_walls hflip (Cell.walls (cell_at m (width m - 1 - x, y))).

Definition vertical_law (m : Maze.t) : Prop :=
  forall x y, in_bounds m (x, y) ->
    Cell.walls (cell_at m (x, y))
    = swap_walls vflip (Cell.walls (cell_at m (x, height m - 1 - y))).

Definition rotational_law (m : Maze.t) : Prop :=
  forall x y, in_bounds m (x, y) ->
    Cell.walls (cell_at m (x, y))
    = swap_walls Direction.opposite
        (Cell.walls (cell_at m (width m - 1 - x, height m - 1 - y))).

Lemma mem_swap_hflip d s : DirSet.mem d (swap_walls hflip s) = DirSet.mem (hflip d) s.
Proof. destruct s as [[] [] [] []], d; reflexivity. Qed.

Lemma mem_swap_vflip d s : DirSet.mem d (swap_walls vflip s) = DirSet.mem (vflip d) s.
Proof. destruct s as [[] [] [] []], d; reflexivity. Qed.

Lemma mod_wrap a w :
  0 < w -> -1 <= a <= w ->
  a mod w = if a =? -1 then w - 1 else if a =? w then 0 else a.
Proof.
  intros Hw Ha. repeat case_if; bool_hyps.
  - apply (mod_shift _ _ (-1)); lia.
  - apply (mod_shift _ _ 1); lia.
  - apply Z.mod_small; lia.
Qed.

Lemma from_vector_hflip dx dy :
  Direction.from_vector (- dx) dy = hflip <$> Direction.from_vector dx dy.
Proof.
  destruct (Direction.from_vector dx dy) as [d|] eqn:E.
  - apply from_vector_Some in E. destruct d; injection E as -> ->; reflexivity.
  - destruct (Direction.from_vector (- dx) dy) as [d|] eqn:E'; [|reflexivity].
    apply from_vector_Some in E'. rewrite <- (Z.opp_involutive dx) in E.
    destruct d; injection E' as H1 H2; rewrite H1, H2 in E; discriminate E.
Qed.

Lemma from_vector_vflip dx dy :
  Direction.from_vector dx (- dy) = vflip <$> Direction.from_vector dx dy.
Proof.
  destruct (Direction.from_vector dx dy) as [d|] eqn:E.
  - apply from_vector_Some in E. destruct d; injection E as -> ->; reflexivity.
  - destruct (Direction.from_vector dx (- dy)) as [d|] eqn:E'; [|reflexivity].
    apply from_vector_Some in E'. rewrite <- (Z.opp_involutive dy) in E.
    destruct d; injection E' as H1 H2; rewrite H1, H2 in E; discriminate E.
Qed.

Lemma eqb_opp a b : (- a =? b) = (a =? - b).
Proof. destruct (Z.eqb_spec (- a) b), (Z.eqb_spec a (- b)); (reflexivity || lia). Qed.

(** Case analysis on the four wrap tests of [remove_wall_between]. *)
Ltac wrap_cases :=
  match goal with
  | |- context [if ?a then Some Direction.LEFT
                else if ?b then Some Direction.RIGHT
                else if ?c then Some Direction.UP
                else if ?d then _ else _] =>
      destruct a eqn:?, b eqn:?, c eqn:?, d eqn:?
  end.

Lemma carve_direction_hmirror m c1 c2 :
  width m <> 1 ->
  carve_direction m (hmirror m c1) (hmirror m c2) = hflip <$> carve_direction m c1 c2.
Proof.
  intros Hw. unfold carve_direction, hmirror. cbn [fst snd].
  replace (width m - 1 - fst c2 - (width m - 1 - fst c1)) with (- (fst c2 - fst c1)) by lia.
  rewrite from_vector_hflip, !eqb_opp, Z.opp_involutive.
  change (- 0) with 0.
  destruct (Direction.from_vector _ _); [reflexivity|]. cbn [fmap option_fmap option_map].
  destruct (wrap m); [|reflexivity].
  wrap_cases; try reflexivity; exfalso; bool_hyps; lia.
Qed.

Lemma carve_direction_vmirror m c1 c2 :
  height m <> 1 ->
  carve_direction m (vmirror m c1) (vmirror m c2) = vflip <$> carve_direction m c1 c2.
Proof.
  intros Hh. unfold carve_direction, vmirror. cbn [fst snd].
  replace (height m - 1 - snd c2 - (height m - 1 - snd c1)) with (- (snd c2 - snd c1)) by lia.
  rewrite from_vector_vflip, !eqb_opp, Z.opp_involutive.
  change (- 0) with 0.
  destruct (Direction.from_vector _ _); [reflexivity|]. cbn [fmap option_fmap option_map].
  destruct (wrap m); [|reflexivity].
  wrap_cases; try reflexivity; exfalso; bool_hyps; lia.
Qed.

Lemma hmirror_involutive m p : hmirror m (hmirror m p) = p.
Proof. destruct p. unfold hmirror. cbn [fst snd]. f_equal. lia. Qed.

Lemma vmirror_involutive m p : vmirror m (vmirror m p) = p.
Proof. destruct p. unfold vmirror. cbn [fst snd]. f_equal. lia. Qed.

Lemma in_bounds_hmirror m p : in_bounds m p -> in_bounds m (hmirror m p).
Proof. unfold in_bounds, hmirror. cbn [fst snd]. lia. Qed.

Lemma in_bounds_vmirror m p : in_bounds m p -> in_bounds m (vmirror m p).
Proof. unfold in_bounds, vmirror. cbn [fst snd]. lia. Qed.

Lemma hflip_involutive d : hflip (hflip d) = d.
Proof. now destruct d. Qed.

Lemma vflip_involutive d : vflip (vflip d) = d.
Proof. now destruct d. Qed.

Lemma opposite_hflip d : Direction.opposite (hflip d) = hflip (Direction.opposite d).
Proof. now destruct d. Qed.

Lemma opposite_vflip d : Direction.opposite (vflip d) = vflip (Direction.opposite d).
Proof. now destruct d. Qed.

(** Bounds tests that failed, as arithmetic disjunctions. *)
Ltac bounds_disj :=
  repeat match goal with
    | H : _ || _ = true |- _ =>
        rewrite !orb_true_iff, !Z.ltb_lt, !Z.geb_le in H
    end.

Ltac neighbor_mirror :=
  cbn [fmap option_fmap option_map fst snd];
  first
    [ f_equal; f_equal; try reflexivity; rewrite !mod_wrap by lia;
      repeat case_if; bool_hyps; lia
    | repeat case_if; cbn [fmap option_fmap option_map fst snd];
      try reflexivity; try (f_equal; f_equal; lia);
      exfalso; bool_hyps; bounds_disj; lia ].

(** The neighbour of the mirror cell in the mirrored direction is the
    mirror of the neighbour. *)
Lemma get_neighbor_hmirror m p d :
  wf m -> in_bounds m p ->
  get_neighbor m (hmirror m p) (hflip d) = hmirror m <$> get_neighbor m p d.
Proof.
  intros (Hw & Hh & _) [Hx Hy]. unfold get_neighbor, get_cell, hmirror.
  destruct d; cbn [hflip Direction.value fst snd]; destruct (wrap m); neighbor_mirror.
Qed.

Lemma get_neighbor_vmirror m p d :
  wf m -> in_bounds m p ->
  get_neighbor m (vmirror m p) (vflip d) = vmirror m <$> get_neighbor m p d.
Proof.
  intros (Hw & Hh & _) [Hx Hy]. unfold get_neighbor, get_cell, vmirror.
  destruct d; cbn [vflip Direction.value fst snd]; destruct (wrap m); neighbor_mirror.
Qed.

Lemma even_not_centre w x : w mod 2 = 0 -> w - 1 - x <> x.
Proof. intros E. pose proof (Z_div_mod_eq_full w 2). lia. Qed.

Lemma symmetric_directions_self cell d : symmetric_directions cell cell d = [d].
Proof. unfold symmetric_directions. now rewrite pos_eqb_refl. Qed.

Lemma symmetric_directions_hmirror m x y d :
  width m - 1 - x <> x ->
  symmetric_directions (x, y) (width m - 1 - x, y) d = [hflip d].
Proof.
  intros Hne. unfold symmetric_directions.
  assert (pos_eqb (width m - 1 - x, y) (x, y) = false) as ->
    by (apply pos_eqb_neq; intros [= E]; contradiction).
  cbn [fst snd].
  destruct (Z.eqb_spec (width m - 1 - x - x) 0) as [E|_]; [lia|].
  now destruct d.
Qed.

Lemma symmetric_directions_vmirror m x y d :
  height m - 1 - y <> y ->
  symmetric_directions (x, y) (x, height m - 1 - y) d = [vflip d].
Proof.
  intros Hne. unfold symmetric_directions.
  assert (pos_eqb (x, height m - 1 - y) (x, y) = false) as ->
    by (apply pos_eqb_neq; intros [= E]; contradiction).
  cbn [fst snd].
  destruct (Z.eqb_spec (x - x) 0) as [_|E]; [|lia].
  destruct (Z.eqb_spec (height m - 1 - y - y) 0) as [E|_]; [lia|].
  now destruct d.
Qed.

(** With an even width the symmetric carve makes exactly two calls: the
    wall itself and its mirror image. *)
Lemma symmetric_pairs_horizontal m cur d n :
  wf m -> symmetry m = HORIZONTAL -> width m mod 2 = 0 ->
  in_bounds m cur -> get_neighbor m cur d = Some n ->
  symmetric_pairs m cur d = [(cur, n); (hmirror m cur, hmirror m n)].
Proof.
  intros Hwf Hs Hev Hcur Hn. destruct cur as [x y].
  pose proof (even_not_centre _ x Hev) as Hne.
  pose proof (get_cell_of_in_bounds m _ Hcur) as Hg1.
  pose proof (get_cell_of_in_bounds m _ (in_bounds_hmirror _ _ Hcur)) as Hg2.
  pose proof (get_neighbor_hmirror m (x, y) d Hwf Hcur) as Hm. rewrite Hn in Hm.
  unfold hmirror in Hg2, Hm at 1. cbn [fst snd] in Hg1, Hg2, Hm.
  unfold symmetric_pairs, _get_symmetric_cell. rewrite Hs. cbn [fst snd].
  destruct (Z.eqb_spec (width m - 1 - x) x) as [E|_]; [contradiction|].
  cbn [negb app flat_map fst snd].
  rewrite Hg1, Hg2, symmetric_directions_self, symmetric_directions_hmirror by assumption.
  cbn [flat_map]. rewrite Hn, Hm. reflexivity.
Qed.

(** The same with an even height. *)
Lemma symmetric_pairs_vertical m cur d n :
  wf m -> symmetry m = VERTICAL -> height m mod 2 = 0 ->
  in_bounds m cur -> get_neighbor m cur d = Some n ->
  symmetric_pairs m cur d = [(cur, n); (vmirror m cur, vmirror m n)].
Proof.
  intros Hwf Hs Hev Hcur Hn. destruct cur as [x y].
  pose proof (even_not_centre _ y Hev) as Hne.
  pose proof (get_cell_of_in_bounds m _ Hcur) as Hg1.
  pose proof (get_cell_of_in_bounds m _ (in_bounds_vmirror _ _ Hcur)) as Hg2.
  pose proof (get_neighbor_vmirror m (x, y) d Hwf Hcur) as Hm. rewrite Hn in Hm.
  unfold vmirror in Hg2, Hm at 1. cbn [fst snd] in Hg1, Hg2, Hm.
  unfold symmetric_pairs, _get_symmetric_cell. rewrite Hs. cbn [fst snd].
  destruct (Z.eqb_spec (height m - 1 - y) y) as [E|_]; [contradiction|].
  cbn [negb app flat_map fst snd].
  rewrite Hg1, Hg2, symmetric_directions_self, symmetric_directions_vmirror by assumption.
  cbn [flat_map]. rewrite Hn, Hm. reflexivity.
Qed.

(** A reflected maze satisfies the law on wall sets. *)
Lemma reflected_horizontal_law m m1 :
  same_frame m m1 -> reflected m (hmirror m) hflip m1 -> horizontal_law m1.
Proof.
  intros F Hr x y Hb. apply DirSet_ext. intros d. rewrite mem_swap_hflip.
  apply (same_frame_in_bounds _ _ _ F) in Hb.
  specialize (Hr (x, y) d Hb). destruct F as (-> & _). exact Hr.
Qed.

Lemma reflected_vertical_law m m1 :
  same_frame m m1 -> reflected m (vmirror m) vflip m1 -> vertical_law m1.
Proof.
  intros F Hr x y Hb. apply DirSet_ext. intros d. rewrite mem_swap_vflip.
  apply (same_frame_in_bounds _ _ _ F) in Hb.
  specialize (Hr (x, y) d Hb). destruct F as (_ & -> & _). exact Hr.
Qed.

Lemma reflected_analyze_cells m M f m1 :
  same_frame m m1 -> wf m1 ->
  (forall p, in_bounds m p -> in_bounds m (M p)) ->
  reflected m M f m1 -> reflected m M f (_analyze_cells m1).
Proof.
  intros F Hwf HM Hr p d Hp.
  rewrite !has_wall_analyze_cells; auto; apply (same_frame_in_bounds _ _ _ F); auto.
Qed.

Lemma even_not_one w : w mod 2 = 0 -> w <> 1.
Proof. intros E ->. discriminate E. Qed.

Lemma carve_horizontal {R} `{Random R} fuel m sx sy (r : R) m' r' :
  wf m -> symmetry m = HORIZONTAL -> width m mod 2 = 0 ->
  carve fuel m sx sy r = Done (m', r') ->
  horizontal_law m' /\ horizontal_law (_analyze_cells (reconcile m')).
Proof.
  intros Hwf Hs Hev Hc.
  destruct (carve_consistent _ _ _ _ _ _ _ Hwf Hc) as (Hwf' & _ & Hall & F).
  assert (reflected m (hmirror m) hflip m') as Hr.
  { apply (carve_reflected m (hmirror m) hflip Hwf (hmirror_involutive m)
             (in_bounds_hmirror m) hflip_involutive opposite_hflip) in Hc; [exact Hc| |].
    - intros c1 c2 _ _. apply carve_direction_hmirror. now apply even_not_one.
    - intros cur d n. now apply symmetric_pairs_horizontal. }
  rewrite (reconcile_all_visited m' Hall). split.
  - now apply (reflected_horizontal_law m).
  - apply (reflected_horizontal_law m).
    + eapply same_frame_trans; [exact F|apply analyze_cells_frame].
    + apply reflected_analyze_cells; auto. apply in_bounds_hmirror.
Qed.

Lemma carve_vertical {R} `{Random R} fuel m sx sy (r : R) m' r' :
  wf m -> symmetry m = VERTICAL -> height m mod 2 = 0 ->
  carve fuel m sx sy r = Done (m', r') ->
  vertical_law m' /\ vertical_law (_analyze_cells (reconcile m')).
Proof.
  intros Hwf Hs Hev Hc.
  destruct (carve_consistent _ _ _ _ _ _ _ Hwf Hc) as (Hwf' & _ & Hall & F).
  assert (reflected m (vmirror m) vflip m') as Hr.
  { apply (carve_reflected m (vmirror m) vflip Hwf (vmirror_involutive m)
             (in_bounds_vmirror m) vflip_involutive opposite_vflip) in Hc; [exact Hc| |].
    - intros c1 c2 _ _. apply carve_direction_vmirror. now apply even_not_one.
    - intros cur d n. now apply symmetric_pairs_vertical. }
  rewrite (reconcile_all_visited m' Hall). split.
  - now apply (reflected_vertical_law m).
  - apply (reflected_vertical_law m).
    + eapply same_frame_trans; [exact F|apply analyze_cells_frame].
    + apply reflected_analyze_cells; auto. apply in_bounds_vmirror.
Qed.

Lemma adjust_start_in_bounds m sx sy :
  wf m -> in_bounds m (sx, sy) -> in_bounds m (adjust_start m sx sy).
Proof.
  intros (Hw & Hh & _) [Hx Hy]. unfold adjust_start. cbn [fst snd] in Hx, Hy.
  destruct (negb _); [|now split].
  pose proof (Z.div_pos (width m) 2). pose proof (Z.div_pos (height m) 2).
  unfold in_bounds. cbn [fst snd]. lia.
Qed.

(** The carving is mirror-symmetric for Horizontal and Vertical, from
    every start cell the code accepts. *)
Lemma carve_mirror_law {R} `{Random R} fuel m sx sy (r : R) :
  wf m -> valid_start m sx sy ->
  (2 * (Z.to_nat (width m) * Z.to_nat (height m)) <= fuel)%nat ->
  exists m' r',
    carve fuel m sx sy r = Done (m', r') /\
    (symmetry m = HORIZONTAL -> width m mod 2 = 0 ->
       horizontal_law m' /\ horizontal_law (_analyze_cells (reconcile m'))) /\
    (symmetry m = VERTICAL -> height m mod 2 = 0 ->
       vertical_law m' /\ vertical_law (_analyze_cells (reconcile m'))).
Proof.
  intros Hwf Hstart Hfuel.
  destruct (carve_invariant (fun _ _ => True) m sx sy Hwf)
    with (fuel := fuel) (r := r) as (m' & r' & Hc & _); auto.
  exists m', r'. split; [exact Hc|]. split; intros Hs Hev.
  - now apply (carve_horizontal fuel m sx sy r m' r').
  - now apply (carve_vertical fuel m sx sy r m' r').
Qed.

(** The direction [_apply_symmetric_wall_removal] uses at a symmetric
    position in another column: Left and Right exchanged, Up and Down kept,
    also at the point-mirror position, where the [elif] branch that
    exchanges Up and Down is not reached. *)
Lemma symmetric_directions_other_column cell p d :
  fst p <> fst cell -> symmetric_directions cell p d = [hflip d].
Proof.
  intros Hne. unfold symmetric_directions.
  destruct (pos_eqb p cell) eqn:E; [apply pos_eqb_eq in E; now subst|].
  destruct (Z.eqb_spec (fst p - fst cell) 0) as [E0|_]; [lia|].
  destruct d; reflexivity.
Qed.

(** Dead-end elimination breaks the mirror law: on an 8 x 3 maze with
    symmetry Horizontal, the run below ends with walls Up and Right both at
    cell (2, 0) and at its mirror cell (5, 0). *)
Lemma generate_breaks_horizontal_symmetry :
  exists m0 m r',
    Maze.init 8 3 false HORIZONTAL = Ok m0 /\
    Maze.generate 100 m0 3 0
      ([2; 0; 0; 1; 1; 1; 0; 0; 0; 0; 0; 0; 0; 1; 1; 1; 0; 0; 0; 0; 0; 0; 0] : list nat)%nat
    = Done (m, r') /\
    ~ horizontal_law m.
Proof.
  eexists. eexists. eexists. split; [reflexivity|].
  split; [vm_compute; reflexivity|].
  intros Hlaw. specialize (Hlaw 2 0).
  assert (DirSet.mk true false false true = DirSet.mk true false true false) as E.
  { apply Hlaw. unfold in_bounds. cbn [width height fst snd]. lia. }
  discriminate E.
Qed.

(** The point mirror used for symmetry Rotational only exchanges Left and
    Right, so the carving itself already breaks the rotational law: on a
    2 x 2 maze, cell (0, 0) ends with walls Up, Down and Left while its
    image (1, 1) has walls Down and Right. *)
Lemma rotational_carve_not_symmetric :
  exists m0 m r',
    Maze.init 2 2 false ROTATIONAL = Ok m0 /\
    carve 8 m0 0 0 ([1] : list nat)%nat = Done (m, r') /\
    ~ rotational_law m.
Proof.
  eexists. eexists. eexists. split; [reflexivity|].
  split; [vm_compute; reflexivity|].
  intros Hlaw. specialize (Hlaw 0 0).
  assert (DirSet.mk true true true false = DirSet.mk true false true false) as E.
  { apply Hlaw. unfold in_bounds. cbn [width height fst snd]. lia. }
  discriminate E.
Qed.

(** The same on a 4 x 4 maze, at loop exit and in the maze [generate]
    returns: cell (0, 1) has walls Up, Left and Right after the carving and
    wall Left alone at the end, while its image (3, 2) has walls Left and
    Right throughout. *)
Lemma rotational_generate_not_symmetric :
  exists m0 mc rc mg rg,
    Maze.init 4 4 false ROTATIONAL = Ok m0 /\
    carve 32 m0 0 0 ([1] : list nat)%nat = Done (mc, rc) /\
    ~ rotational_law mc /\
    Maze.generate 32 m0 0 0 ([1] : list nat)%nat = Done (mg, rg) /\
    ~ rotational_law mg.
Proof.
  eexists. eexists. eexists. eexists. eexists. split; [reflexivity|].
  split; [vm_compute; reflexivity|]. split.
  - intros Hlaw. specialize (Hlaw 0 1).
    assert (DirSet.mk true false true true = DirSet.mk false false true true) as E.
    { apply Hlaw. unfold in_bounds. cbn [width height fst snd]. lia. }
    discriminate E.
  - split; [vm_compute; reflexivity|].
    intros Hlaw. specialize (Hlaw 0 1).
    assert (DirSet.mk false false true false = DirSet.mk false false true true) as E.
    { apply Hlaw. unfold in_bounds. cbn [width height fst snd]. lia. }
    discriminate E.
Qed.

(** With symmetry Both the position mirrored in both axes gets the same
    treatment, and the horizontal law fails: on a 4 x 4 maze cell (1, 1)
    keeps its wall Down while its mirror cell (2, 1) has no wall left, at
    loop exit and in the maze [generate] returns. *)
Lemma both_generate_not_symmetric :
  exists m0 mc rc mg rg,
    Maze.init 4 4 false BOTH = Ok m0 /\
    carve 32 m0 0 0 ([0; 1; 0; 1; 0; 1; 0; 1] : list nat)%nat = Done (mc, rc) /\
    ~ horizontal_law mc /\
    Maze.generate 32 m0 0 0 ([0; 1; 0; 1; 0; 1; 0; 1] : list nat)%nat = Done (mg, rg) /\
    ~ horizontal_law mg.
Proof.
  eexists. eexists. eexists. eexists. eexists. split; [reflexivity|].
  split; [vm_compute; reflexivity|]. split.
  - intros Hlaw. specialize (Hlaw 1 1).
    assert (DirSet.mk false true false false = DirSet.mk false false false false) as E.
    { apply Hlaw. unfold in_bounds. cbn [width height fst snd]. lia. }
    discriminate E.
  - split; [vm_compute; reflexivity|].
    intros Hlaw. specialize (Hlaw 1 1).
    assert (DirSet.mk false true false false = DirSet.mk false false false false) as E.
    { apply Hlaw. unfold in_bounds. cbn [width height fst snd]. lia. }
    discriminate E.
Qed.

(** C2. Symmetry-orbit equality holds only for part of what [generate]
    does.  The DFS carving loop terminates from every start cell the code
    accepts, and at its exit (and still in the maze handed to dead-end
    elimination) the wall set of every cell [(x, y)] equals that of cell
    [(width - 1 - x, y)] with Left and Right swapped under symmetry
    Horizontal, and that of cell [(x, height - 1 - y)] with Up and Down
    swapped under symmetry Vertical.  It fails in the maze [generate]
    returns:
    - at a symmetric position in another column the carve exchanges Left
      and Right only, so the point-mirror position of Rotational and of
      Both never gets Up and Down exchanged, and the rotational law (4 x 4,
      Rotational) and the horizontal law (4 x 4, Both) are broken at loop
      exit already and in the maze returned;
    - dead-end elimination removes walls without the symmetric carve, so
      under Horizontal a maze that satisfies the law at loop exit can lose
      it in the maze returned (8 x 3). *)
Theorem symmetry_orbit_laws {R} `{Random R} fuel m sx sy (r : R) :
  wf m -> valid_start m sx sy ->
  (2 * (Z.to_nat (width m) * Z.to_nat (height m)) <= fuel)%nat ->
  (exists m' r',
     carve fuel m sx sy r = Done (m', r') /\
     (symmetry m = HORIZONTAL -> width m mod 2 = 0 ->
        horizontal_law m' /\ horizontal_law (_analyze_cells (reconcile m'))) /\
     (symmetry m = VERTICAL -> height m mod 2 = 0 ->
        vertical_law m' /\ vertical_law (_analyze_cells (reconcile m')))) /\
  (forall cell d,
     width m - 1 - fst cell <> fst cell ->
     symmetric_directions cell (width m - 1 - fst cell, height m - 1 - snd cell) d
     = [hflip d]) /\
  (exists m0 mc rc mg rg,
     Maze.init 4 4 false ROTATIONAL = Ok m0 /\
     carve 32 m0 0 0 ([1] : list nat)%nat = Done (mc, rc) /\
     ~ rotational_law mc /\
     Maze.generate 32 m0 0 0 ([1] : list nat)%nat = Done (mg, rg) /\
     ~ rotational_law mg) /\
  (exists m0 mc rc mg rg,
     Maze.init 4 4 false BOTH = Ok m0 /\
     carve 32 m0 0 0 ([0; 1; 0; 1; 0; 1; 0; 1] : list nat)%nat = Done (mc, rc) /\
     ~ horizontal_law mc /\
     Maze.generate 32 m0 0 0 ([0; 1; 0; 1; 0; 1; 0; 1] : list nat)%nat = Done (mg, rg) /\
     ~ horizontal_law mg) /\
  (exists m0 mc rc mg rg,
     Maze.init 8 3 false HORIZONTAL = Ok m0 /\
     carve 100 m0 3 0
       ([2; 0; 0; 1; 1; 1; 0; 0; 0; 0; 0; 0; 0; 1; 1; 1; 0; 0; 0; 0; 0; 0; 0] : list nat)%nat
     = Done (mc, rc) /\
     horizontal_law mc /\
     Maze.generate 100 m0 3 0
       ([2; 0; 0; 1; 1; 1; 0; 0; 0; 0; 0; 0; 0; 1; 1; 1; 0; 0; 0; 0; 0; 0; 0] : list nat)%nat
     = Done (mg, rg) /\
     ~ horizontal_law mg).
Proof.
  intros Hwf Hstart Hfuel. split; [|split; [|split; [|split]]].
  - now apply carve_mirror_law.
  - intros cell d Hne. now apply symmetric_directions_other_column.
  - exact rotational_generate_not_symmetric.
  - exact both_generate_not_symmetric.
  - destruct generate_breaks_horizontal_symmetry as (m0 & mg & rg & Hi & Hg & Hn).
    assert (wf m0) as Hwf0 by (apply (init_wf 8 3 false HORIZONTAL); [lia|lia|exact Hi]).
    apply init_Ok in Hi as E. 
    assert (exists x, carve 100 m0 3 0
              ([2; 0; 0; 1; 1; 1; 0; 0; 0; 0; 0; 0; 0; 1; 1; 1; 0; 0; 0; 0; 0; 0; 0]
                 : list nat)%nat = Done x) as [[mc rc] Hc]
      by (subst m0; eexists; vm_compute; reflexivity).
    exists m0, mc, rc, mg, rg. split; [exact Hi|]. split; [exact Hc|].
    split; [|split; [exact Hg|exact Hn]].
    apply (carve_horizontal _ _ _ _ _ _ _ Hwf0) in Hc as [Hl _]; [exact Hl| |];
      subst m0; reflexivity.
Qed.

Lemma symmetry_orbit_laws_witness :
  exists m m' r',
    Maze.init 4 2 false HORIZONTAL = Ok m /\
    carve 16 m 3 0 ([1; 0; 1] : list nat)%nat = Done (m', r') /\
    horizontal_law m' /\ horizontal_law (_analyze_cells (reconcile m')).
Proof.
  eexists.
  assert (wf {| width := 4; height := 2; wrap := false; symmetry := HORIZONTAL;
                cells := fresh_cells 4 2 |}) as Hwf
    by (apply (init_wf 4 2 false HORIZONTAL); [lia|lia|reflexivity]).
  destruct (symmetry_orbit_laws 16 _ 3 0 ([1; 0; 1] : list nat)%nat Hwf)
    as ((m' & r' & Hc & Hh & _) & _).
  - right. vm_compute. repeat split; first [reflexivity|discriminate].
  - simpl. lia.
  - exists m', r'. split; [reflexivity|]. split; [exact Hc|].
    apply Hh; reflexivity.
Defined.

(** * Further properties of the code *)

(** ** Directions and vectors *)

(** X1. [Direction.from_vector] inverts [.value]: it returns a direction
    exactly on that direction's vector, and [None] on every other vector. *)
Theorem from_vector_inverts_value :
  (forall dx dy d, Direction.from_vector dx dy = Some d <-> (dx, dy) = Direction.value d) /\
  (forall dx dy, Direction.from_vector dx dy = None <->
                 forall d, (dx, dy) <> Direction.value d).
Proof.
  assert (forall dx dy d,
            Direction.from_vector dx dy = Some d <-> (dx, dy) = Direction.value d) as H.
  { intros dx dy d. split; [apply from_vector_Some|].
    intros E. pose proof (from_vector_value d) as Hv. rewrite <- E in Hv. exact Hv. }
  split; [exact H|]. intros dx dy. split.
  - intros E d Hd. apply H in Hd. congruence.
  - intros Hn. destruct (Direction.from_vector dx dy) as [d|] eqn:E; [|reflexivity].
    apply H in E. now apply Hn in E.
Qed.

(** X2. [Direction.opposite] negates the vector of a direction, is its own
    inverse and has no fixed point; a step followed by the opposite step
    returns to the origin. *)
Theorem opposite_negates_vector d :
  Direction.value (Direction.opposite d) = vec_mul (Direction.value d) (-1) /\
  Direction.opposite (Direction.opposite d) = d /\
  Direction.opposite d <> d /\
  vec_add (Direction.value d) (Direction.value (Direction.opposite d)) = (0, 0) /\
  Direction.from_vector (- fst (Direction.value d)) (- snd (Direction.value d))
  = Some (Direction.opposite d).
Proof. destruct d; repeat split; discriminate. Qed.

(** X3. The vector helpers on integer vectors: [vec_sub] undoes [vec_add],
    [vec_equal] decides equality, [vec_dot] is symmetric and [vec_mul]
    distributes over [vec_add]. *)
Theorem vector_helpers v w k :
  vec_sub (vec_add v w) w = v /\
  vec_add (vec_sub v w) w = v /\
  (vec_equal v w = true <-> v = w) /\
  vec_dot v w = vec_dot w v /\
  vec_mul (vec_add v w) k = vec_add (vec_mul v k) (vec_mul w k).
Proof.
  destruct v as [a b], w as [c e]. unfold vec_sub, vec_add, vec_equal, vec_dot, vec_mul.
  cbn [fst snd]. repeat split.
  - f_equal; lia.
  - f_equal; lia.
  - intros E. apply andb_true_iff in E as [E1 E2].
    apply Z.eqb_eq in E1, E2. congruence.
  - intros [= -> ->]. now rewrite !Z.eqb_refl.
  - lia.
  - f_equal; lia.
Qed.

(** ** Cells *)

(** X4. [is_corner] holds exactly when the cell has one of its two
    vertical walls (up or down) and one of its two horizontal walls (left
    or right): the answer does not depend on the order in which the wall
    set is listed. *)
Theorem is_corner_iff c :
  Cell.is_corner c
  = xorb (Cell.has_wall c Direction.UP) (Cell.has_wall c Direction.DOWN)
    && xorb (Cell.has_wall c Direction.LEFT) (Cell.has_wall c Direction.RIGHT).
Proof. destruct c as [[[] [] [] []] v i e]; reflexivity. Qed.

(** X5. Walls of one cell: adding then removing a wall (or removing then
    adding it) has the effect of the last operation alone, the other
    directions are untouched, walls and exits always add up to four, and
    [remove_wall] lowers the wall count by one exactly when the wall was
    there. *)
Theorem cell_wall_operations c d d' :
  Cell.remove_wall (Cell.add_wall c d) d = Cell.remove_wall c d /\
  Cell.add_wall (Cell.remove_wall c d) d = Cell.add_wall c d /\
  Cell.has_wall (Cell.add_wall c d) d' = Cell.has_wall c d' || Direction.eqb d d' /\
  Cell.has_wall (Cell.remove_wall c d) d' = Cell.has_wall c d' && negb (Direction.eqb d d') /\
  Cell.wall_count c + Cell.exit_count c = 4 /\
  0 <= Cell.wall_count c <= 4 /\
  Cell.wall_count (Cell.remove_wall c d)
  = Cell.wall_count c - (if Cell.has_wall c d then 1 else 0) /\
  Cell.wall_count (Cell.add_wall c d)
  = Cell.wall_count c + (if Cell.has_wall c d then 0 else 1).
Proof.
  destruct c as [[[] [] [] []] v i e], d, d'; repeat split; discriminate.
Qed.

(** ** Cell lookup *)

Lemma get_cell_cases m x y :
  wf m ->
  (forall p, get_cell m x y = Some p ->
     in_bounds m p /\ (fst p - x) mod width m = 0 /\ (snd p - y) mod height m = 0) /\
  (in_bounds m (x, y) -> get_cell m x y = Some (x, y)) /\
  (get_cell m x y = None <-> wrap m = false /\ ~ in_bounds m (x, y)) /\
  (wrap m = true -> exists p, get_cell m x y = Some p).
Proof.
  intros Hwf. pose proof Hwf as (Hw & Hh & _). split; [|split; [|split]].
  - intros p Hp. split; [now apply (get_cell_in_bounds m x y)|].
    revert Hp. unfold get_cell. destruct (wrap m).
    + intros [= <-]. cbn [fst snd]. split.
      * rewrite Zminus_mod, Z.mod_mod, Z.sub_diag by lia. now apply Z.mod_0_l; lia.
      * rewrite Zminus_mod, Z.mod_mod, Z.sub_diag by lia. now apply Z.mod_0_l; lia.
    + case_if; [discriminate|]. intros [= <-]. cbn [fst snd].
      rewrite !Z.sub_diag. split; apply Z.mod_0_l; lia.
  - intros Hb. exact (get_cell_of_in_bounds m (x, y) Hb).
  - unfold get_cell, in_bounds. cbn [fst snd]. destruct (wrap m).
    + split; [discriminate|]. now intros [? _].
    + case_if.
      * split; [|reflexivity]. intros _. split; [reflexivity|].
        intros Hb. bounds_disj. lia.
      * split; [discriminate|]. intros [_ Hn]. exfalso. apply Hn. bool_hyps. lia.
  - intros Hr. unfold get_cell. rewrite Hr. eauto.
Qed.

(** X6. [get_cell] always returns a cell of the array.  Inside the array
    it returns the cell at the coordinates given, with or without wrap;
    outside it returns [None] without wrap and reduces the coordinates
    modulo the dimensions with wrap. *)
Theorem get_cell_bounds m x y :
  wf m ->
  (forall p, get_cell m x y = Some p ->
     in_bounds m p /\ (fst p - x) mod width m = 0 /\ (snd p - y) mod height m = 0) /\
  (in_bounds m (x, y) -> get_cell m x y = Some (x, y)) /\
  (get_cell m x y = None <-> wrap m = false /\ ~ in_bounds m (x, y)) /\
  (wrap m = true -> exists p, get_cell m x y = Some p).
Proof. apply get_cell_cases. Qed.

Lemma get_cell_bounds_witness :
  exists m,
    Maze.init 3 2 true NONE = Ok m /\
    get_cell m (-1) 2 = Some (2, 0) /\
    in_bounds m (2, 0).
Proof.
  eexists. split; [reflexivity|]. split; [reflexivity|].
  refine (proj1 (proj1 (get_cell_bounds _ (-1) 2 _) (2, 0) _)).
  - apply (init_wf 3 2 true NONE); [lia|lia|reflexivity].
  - reflexivity.
Defined.

(** X7. Stepping to a neighbour and then in the opposite direction leads
    back to the cell one started from, through the wrap too. *)
Theorem get_neighbor_round_trip m u d v :
  wf m -> in_bounds m u -> get_neighbor m u d = Some v ->
  in_bounds m v /\ get_neighbor m v (Direction.opposite d) = Some u.
Proof.
  intros Hwf Hu Hn. split.
  - exact (get_neighbor_in_bounds m u d v Hwf Hn).
  - exact (get_neighbor_opposite m u d v Hwf Hu Hn).
Qed.

Lemma get_neighbor_round_trip_witness :
  exists m,
    Maze.init 3 2 true NONE = Ok m /\
    get_neighbor m (0, 1) Direction.LEFT = Some (2, 1) /\
    get_neighbor m (2, 1) Direction.RIGHT = Some (0, 1).
Proof.
  eexists. split; [reflexivity|]. split; [reflexivity|].
  refine (proj2 (get_neighbor_round_trip _ (0, 1) Direction.LEFT (2, 1) _ _ _)).
  - apply (init_wf 3 2 true NONE); [lia|lia|reflexivity].
  - unfold in_bounds. simpl. lia.
  - reflexivity.
Defined.

(** ** Walls between two cells *)

(** Mazes in which the coordinates of two neighbours determine the
    direction of the step between them: no wrap, or at least three cells
    along each axis. *)
Definition roomy (m : Maze.t) : Prop :=
  wrap m = false \/ (3 <= width m /\ 3 <= height m).

Ltac eqb_cases :=
  repeat match goal with
    | |- context [?a =? ?b] => destruct (Z.eqb_spec a b); try lia; cbn [andb]
    end.

Lemma carve_direction_of_step m c1 c2 d :
  wrap m = true -> 3 <= width m -> 3 <= height m ->
  (fst c2 - fst c1 = fst (Direction.value d)
   \/ fst c2 - fst c1 = fst (Direction.value d) - width m * fst (Direction.value d)) ->
  (snd c2 - snd c1 = snd (Direction.value d)
   \/ snd c2 - snd c1 = snd (Direction.value d) - height m * snd (Direction.value d)) ->
  carve_direction m c1 c2 = Some d.
Proof.
  intros Hr Hw Hh Hx Hy. unfold carve_direction, Direction.from_vector. rewrite Hr.
  destruct d; cbn [Direction.value fst snd] in Hx, Hy;
    destruct Hx as [Hx|Hx], Hy as [Hy|Hy]; rewrite Hx, Hy; eqb_cases; reflexivity.
Qed.

(** In a roomy maze the direction recovered from the coordinates of a
    neighbour is the direction of the step that led to it. *)
Lemma carve_direction_of_neighbor_roomy m p d n :
  wf m -> roomy m -> in_bounds m p ->
  get_neighbor m p d = Some n -> carve_direction m p n = Some d.
Proof.
  intros (Hw & Hh & _) Hroomy [Hx Hy] Hn. destruct (wrap m) eqn:Hr.
  - destruct Hroomy as [?|[Hw3 Hh3]]; [congruence|].
    apply carve_direction_of_step; try assumption;
      revert Hn; unfold get_neighbor, get_cell; rewrite Hr;
      destruct d; cbn [Direction.value fst snd]; intros [= <-]; cbn [fst snd];
      rewrite mod_wrap by lia; repeat case_if; bool_hyps; lia.
  - now apply carve_direction_of_neighbor.
Qed.

Lemma remove_wall_between_step m p d n q d' :
  wf m -> roomy m -> in_bounds m p -> in_bounds m q ->
  get_neighbor m p d = Some n ->
  has_wall (remove_wall_between m p n) q d'
  = has_wall m q d'
    && negb (pos_eqb p q && Direction.eqb d d'
             || pos_eqb n q && Direction.eqb (Direction.opposite d) d') /\
  visited (remove_wall_between m p n) q = visited m q.
Proof.
  intros Hwf Hroomy Hp Hq Hn.
  pose proof (get_neighbor_in_bounds _ _ _ _ Hwf Hn) as Hnb. split.
  - rewrite has_wall_remove_wall_between by assumption. unfold removed_by. cbn [fst snd].
    now rewrite (carve_direction_of_neighbor_roomy m p d n).
  - now apply visited_remove_wall_between.
Qed.

(** X8. In a maze without wrap, or with at least three cells along each
    axis, [remove_wall_between] called on a cell and its neighbour in
    direction [d] removes the wall [d] of the cell and the opposite wall of
    the neighbour, and nothing else: every other wall and every visited
    flag is as before. *)
Theorem remove_wall_between_neighbours m p d n q d' :
  wf m -> roomy m -> in_bounds m p -> in_bounds m q ->
  get_neighbor m p d = Some n ->
  has_wall (remove_wall_between m p n) q d'
  = has_wall m q d'
    && negb (pos_eqb p q && Direction.eqb d d'
             || pos_eqb n q && Direction.eqb (Direction.opposite d) d') /\
  visited (remove_wall_between m p n) q = visited m q.
Proof. apply remove_wall_between_step. Qed.

Lemma remove_wall_between_neighbours_witness :
  exists m,
    Maze.init 3 3 true NONE = Ok m /\
    get_neighbor (reset_all m) (0, 1) Direction.LEFT = Some (2, 1) /\
    has_wall (remove_wall_between (reset_all m) (0, 1) (2, 1)) (2, 1) Direction.RIGHT = false.
Proof.
  set (m := Maze.mk 3 3 true NONE (fresh_cells 3 3)).
  assert (wf m) as Hwf by (apply (init_wf 3 3 true NONE); [lia|lia|reflexivity]).
  exists m. split; [reflexivity|]. split; [reflexivity|].
  refine (eq_trans
    (proj1 (remove_wall_between_neighbours (reset_all m) (0, 1) Direction.LEFT (2, 1)
              (2, 1) Direction.RIGHT _ _ _ _ _)) _).
  - apply (reset_all_frame m), Hwf.
  - right. simpl. lia.
  - unfold in_bounds. simpl. lia.
  - unfold in_bounds. simpl. lia.
  - reflexivity.
  - reflexivity.
Defined.

(** *** [add_wall_between] *)

Lemma add_wall_between_eq m c1 c2 :
  add_wall_between m c1 c2
  = match carve_direction m c1 c2 with
    | Some d => add_wall (add_wall m c1 d) c2 (Direction.opposite d)
    | None => m
    end.
Proof.
  unfold add_wall_between, carve_direction.
  destruct (Direction.from_vector _ _); [reflexivity|].
  destruct (wrap m); [|reflexivity].
  repeat (case_if; [reflexivity|]). reflexivity.
Qed.

Lemma add_wall_frame m p d : same_frame m (add_wall m p d).
Proof. apply update_frame. Qed.

Lemma add_wall_between_frame m c1 c2 : same_frame m (add_wall_between m c1 c2).
Proof.
  rewrite add_wall_between_eq. destruct (carve_direction m c1 c2); [|apply same_frame_refl].
  eapply same_frame_trans; apply add_wall_frame.
Qed.

(** The cell at [q] after a sequence of in-place updates. *)
Lemma cell_at_updates m (l : list (pos * (Cell.t -> Cell.t))) q :
  wf m -> Forall (fun pf => in_bounds m (fst pf)) l -> in_bounds m q ->
  cell_at (fold_left (fun m pf => update m (fst pf) (snd pf)) l m) q
  = fold_left (fun c pf => if pos_eqb (fst pf) q then snd pf c else c) l (cell_at m q).
Proof.
  intros Hwf Hl Hq. revert m Hwf Hl Hq.
  induction l as [|[p f] l IH]; intros m Hwf Hl Hq; [reflexivity|].
  apply Forall_cons in Hl as [Hp Hl]. cbn [fold_left fst snd] in *.
  pose proof (update_frame m p f) as F.
  rewrite IH.
  - now rewrite cell_at_update by assumption.
  - now apply F.
  - eapply Forall_impl; [exact Hl|]. intros pf Hpf. now apply (same_frame_in_bounds _ _ _ F).
  - now apply (same_frame_in_bounds _ _ _ F).
Qed.

Lemma has_wall_add_wall_between m c1 c2 q d :
  wf m -> in_bounds m c1 -> in_bounds m c2 -> in_bounds m q ->
  has_wall (add_wall_between m c1 c2) q d = has_wall m q d || removed_by m (c1, c2) q d.
Proof.
  intros Hwf H1 H2 Hq. rewrite add_wall_between_eq. unfold removed_by. cbn [fst snd].
  destruct (carve_direction m c1 c2) as [D|]; [|now rewrite orb_false_r].
  unfold has_wall.
  change (add_wall (add_wall m c1 D) c2 (Direction.opposite D))
    with (fold_left (fun m pf => update m (fst pf) (snd pf))
            [(c1, fun c => Cell.add_wall c D);
             (c2, fun c => Cell.add_wall c (Direction.opposite D))] m).
  rewrite cell_at_updates by (auto; repeat constructor; assumption).
  cbn [fold_left fst snd].
  destruct (pos_eqb c1 q), (pos_eqb c2 q), (cell_at m q) as [[[] [] [] []] v i e], D, d;
    reflexivity.
Qed.

(** The two sides of a wall are named by the same pair of cells. *)
Lemma removed_by_opposite m c1 c2 u d v :
  wf m -> in_bounds m c1 -> in_bounds m c2 -> in_bounds m u ->
  get_neighbor m u d = Some v ->
  removed_by m (c1, c2) u d = removed_by m (c1, c2) v (Direction.opposite d).
Proof.
  intros Hwf H1 H2 Hu Hv. unfold removed_by. cbn [fst snd].
  destruct (carve_direction m c1 c2) as [D|] eqn:E; [|reflexivity].
  apply carve_direction_neighbor in E; try assumption.
  pose proof (get_neighbor_opposite _ _ _ _ Hwf H1 E) as E'.
  pose proof (get_neighbor_opposite _ _ _ _ Hwf Hu Hv) as Hvu.
  assert (forall a b, Direction.eqb (Direction.opposite a) (Direction.opposite b)
                      = Direction.eqb a b) as Eo by (intros [] []; reflexivity).
  rewrite Eo.
  assert (pos_eqb c1 u && Direction.eqb D d
          = pos_eqb c2 v && Direction.eqb D d) as ->.
  { destruct (Direction.eqb D d) eqn:Ed; [|now rewrite !andb_false_r].
    apply Direction_eqb_eq in Ed as <-. rewrite !andb_true_r.
    destruct (pos_eqb c1 u) eqn:E1; symmetry.
    - apply pos_eqb_eq in E1 as <-. apply pos_eqb_eq. congruence.
    - apply pos_eqb_neq. apply pos_eqb_neq in E1. intros <-.
      rewrite ?opposite_involutive in *. congruence. }
  assert (pos_eqb c2 u && Direction.eqb (Direction.opposite D) d
          = pos_eqb c1 v && Direction.eqb D (Direction.opposite d)) as ->.
  { assert (Direction.eqb D (Direction.opposite d)
            = Direction.eqb (Direction.opposite D) d) as -> by (destruct D, d; reflexivity).
    destruct (Direction.eqb (Direction.opposite D) d) eqn:Ed; [|now rewrite !andb_false_r].
    apply Direction_eqb_eq in Ed as <-. rewrite !andb_true_r.
    destruct (pos_eqb c2 u) eqn:E1; symmetry.
    - apply pos_eqb_eq in E1 as <-. apply pos_eqb_eq. congruence.
    - apply pos_eqb_neq. apply pos_eqb_neq in E1. intros <-.
      rewrite ?opposite_involutive in *. congruence. }
  apply orb_comm.
Qed.

Lemma cell_at_wall_between m c1 c2 q :
  wf m -> in_bounds m c1 -> in_bounds m c2 -> in_bounds m q ->
  (Cell.visited (cell_at (add_wall_between m c1 c2) q) = Cell.visited (cell_at m q) /\
   Cell.is_intersection (cell_at (add_wall_between m c1 c2) q)
   = Cell.is_intersection (cell_at m q) /\
   Cell.is_dead_end (cell_at (add_wall_between m c1 c2) q) = Cell.is_dead_end (cell_at m q)) /\
  (Cell.visited (cell_at (remove_wall_between m c1 c2) q) = Cell.visited (cell_at m q) /\
   Cell.is_intersection (cell_at (remove_wall_between m c1 c2) q)
   = Cell.is_intersection (cell_at m q) /\
   Cell.is_dead_end (cell_at (remove_wall_between m c1 c2) q) = Cell.is_dead_end (cell_at m q)).
Proof.
  intros Hwf H1 H2 Hq. split.
  - rewrite add_wall_between_eq. destruct (carve_direction m c1 c2) as [D|]; [|auto].
    change (add_wall (add_wall m c1 D) c2 (Direction.opposite D))
      with (fold_left (fun m pf => update m (fst pf) (snd pf))
              [(c1, fun c => Cell.add_wall c D);
               (c2, fun c => Cell.add_wall c (Direction.opposite D))] m).
    rewrite cell_at_updates by (auto; repeat constructor; assumption).
    cbn [fold_left fst snd]. now destruct (pos_eqb c1 q), (pos_eqb c2 q).
  - apply carved_flags; [assumption| |assumption].
    apply carved_step; [apply carved_refl|assumption|assumption].
Qed.

(** X9. [add_wall_between] and [remove_wall_between] act on the same two
    walls: adding after removing is the same as adding, removing after
    adding is the same as removing, each is idempotent, and
    [add_wall_between] keeps the two sides of every wall in agreement. *)
Theorem wall_between_round_trip m c1 c2 :
  wf m -> in_bounds m c1 -> in_bounds m c2 ->
  remove_wall_between (add_wall_between m c1 c2) c1 c2 = remove_wall_between m c1 c2 /\
  add_wall_between (remove_wall_between m c1 c2) c1 c2 = add_wall_between m c1 c2 /\
  add_wall_between (add_wall_between m c1 c2) c1 c2 = add_wall_between m c1 c2 /\
  remove_wall_between (remove_wall_between m c1 c2) c1 c2 = remove_wall_between m c1 c2 /\
  (wall_consistent m -> wall_consistent (add_wall_between m c1 c2)).
Proof.
  intros Hwf H1 H2.
  pose proof (add_wall_between_frame m c1 c2) as Fa.
  pose proof (remove_wall_between_frame m c1 c2) as Fr.
  assert (forall m1 m2, same_frame m m1 -> same_frame m m2 ->
            (forall q d, in_bounds m q -> has_wall m1 q d = has_wall m2 q d) ->
            (forall q, in_bounds m q ->
               Cell.visited (cell_at m1 q) = Cell.visited (cell_at m2 q) /\
               Cell.is_intersection (cell_at m1 q) = Cell.is_intersection (cell_at m2 q) /\
               Cell.is_dead_end (cell_at m1 q) = Cell.is_dead_end (cell_at m2 q)) ->
            m1 = m2) as Hext.
  { intros m1 m2 F1 F2 Hw Hf.
    destruct F1 as (Ew1 & Eh1 & Er1 & Es1 & Wf1), F2 as (Ew2 & Eh2 & Er2 & Es2 & Wf2).
    apply maze_ext; auto; try congruence.
    intros q Hq. assert (in_bounds m q) as Hq' by (unfold in_bounds in *; now rewrite <- Ew1, <- Eh1).
    destruct (Hf q Hq') as (E1 & E2 & E3). apply cell_ext; auto.
    intros d. apply (Hw q d Hq'). }
  assert (forall ma, same_frame m ma -> wf ma /\ in_bounds ma c1 /\ in_bounds ma c2 /\
            (forall q, in_bounds m q -> in_bounds ma q) /\
            (forall pr q d, removed_by ma pr q d = removed_by m pr q d)) as Hfr.
  { intros ma F. split; [now apply F|].
    split; [now apply (same_frame_in_bounds _ _ _ F)|].
    split; [now apply (same_frame_in_bounds _ _ _ F)|].
    split; [intros q; apply (same_frame_in_bounds _ _ _ F)|].
    intros pr q d. unfold removed_by. now rewrite (carve_direction_frame _ _ _ _ F). }
  destruct (Hfr _ Fa) as (Wa & A1 & A2 & Ab & Ea).
  destruct (Hfr _ Fr) as (Wr & R1 & R2 & Rb & Er).
  assert (forall ma, same_frame m ma ->
            same_frame m (add_wall_between ma c1 c2) /\
            same_frame m (remove_wall_between ma c1 c2)) as Hfr2.
  { intros ma F. split; (eapply same_frame_trans; [exact F|]);
      [apply add_wall_between_frame|apply remove_wall_between_frame]. }
  split; [|split; [|split; [|split]]].
  - apply Hext; [apply Hfr2, Fa|exact Fr| |].
    + intros q d Hq.
      rewrite has_wall_remove_wall_between, has_wall_add_wall_between, Ea by auto.
      rewrite has_wall_remove_wall_between by auto.
      now destruct (has_wall m q d), (removed_by m (c1, c2) q d).
    + intros q Hq.
      destruct (cell_at_wall_between (add_wall_between m c1 c2) c1 c2 q) as [_ (-> & -> & ->)];
        auto.
      destruct (cell_at_wall_between m c1 c2 q) as [(-> & -> & ->) (-> & -> & ->)]; auto.
  - apply Hext; [apply Hfr2, Fr|exact Fa| |].
    + intros q d Hq.
      rewrite has_wall_add_wall_between, has_wall_remove_wall_between, Er by auto.
      rewrite has_wall_add_wall_between by auto.
      now destruct (has_wall m q d), (removed_by m (c1, c2) q d).
    + intros q Hq.
      destruct (cell_at_wall_between (remove_wall_between m c1 c2) c1 c2 q)
        as [(-> & -> & ->) _]; auto.
      destruct (cell_at_wall_between m c1 c2 q) as [(-> & -> & ->) (-> & -> & ->)]; auto.
  - apply Hext; [apply Hfr2, Fa|exact Fa| |].
    + intros q d Hq.
      rewrite !has_wall_add_wall_between, Ea by auto.
      now destruct (has_wall m q d), (removed_by m (c1, c2) q d).
    + intros q Hq.
      destruct (cell_at_wall_between (add_wall_between m c1 c2) c1 c2 q)
        as [(-> & -> & ->) _]; auto.
  - apply Hext; [apply Hfr2, Fr|exact Fr| |].
    + intros q d Hq.
      rewrite !has_wall_remove_wall_between, Er by auto.
      now destruct (has_wall m q d), (removed_by m (c1, c2) q d).
    + intros q Hq.
      destruct (cell_at_wall_between (remove_wall_between m c1 c2) c1 c2 q)
        as [_ (-> & -> & ->)]; auto.
  - intros Hc u d v Hu Hv.
    apply (same_frame_in_bounds _ _ _ Fa) in Hu.
    rewrite (get_neighbor_frame _ _ _ _ Fa) in Hv.
    pose proof (get_neighbor_in_bounds _ _ _ _ Hwf Hv) as Hvb.
    rewrite !has_wall_add_wall_between by assumption.
    rewrite (Hc u d v Hu Hv). f_equal. now apply removed_by_opposite.
Qed.

Lemma wall_between_round_trip_witness :
  exists m,
    Maze.init 3 2 false NONE = Ok m /\
    remove_wall_between (add_wall_between m (0, 0) (1, 0)) (0, 0) (1, 0)
    = remove_wall_between m (0, 0) (1, 0).
Proof.
  set (m := Maze.mk 3 2 false NONE (fresh_cells 3 2)).
  assert (wf m) as Hwf by (apply (init_wf 3 2 false NONE); [lia|lia|reflexivity]).
  exists m. split; [reflexivity|].
  refine (proj1 (wall_between_round_trip m (0, 0) (1, 0) Hwf _ _)).
  - unfold in_bounds. simpl. lia.
  - unfold in_bounds. simpl. lia.
Defined.

(** X10. Called on two cells that are not neighbours in any direction,
    [remove_wall_between] and [add_wall_between] leave the maze as it is. *)
Theorem wall_between_not_neighbours m c1 c2 :
  wf m -> in_bounds m c1 -> in_bounds m c2 ->
  (forall d, get_neighbor m c1 d <> Some c2) ->
  remove_wall_between m c1 c2 = m /\ add_wall_between m c1 c2 = m.
Proof.
  intros Hwf H1 H2 Hn. rewrite remove_wall_between_eq, add_wall_between_eq.
  destruct (carve_direction m c1 c2) as [d|] eqn:E; [|auto].
  apply carve_direction_neighbor in E; try assumption. now apply Hn in E.
Qed.

Lemma wall_between_not_neighbours_witness :
  exists m,
    Maze.init 3 3 true NONE = Ok m /\
    remove_wall_between (reset_all m) (0, 0) (1, 1) = reset_all m.
Proof.
  set (m := Maze.mk 3 3 true NONE (fresh_cells 3 3)).
  assert (wf m) as Hwf by (apply (init_wf 3 3 true NONE); [lia|lia|reflexivity]).
  exists m. split; [reflexivity|].
  refine (proj1 (wall_between_not_neighbours (reset_all m) (0, 0) (1, 1) _ _ _ _)).
  - apply (reset_all_frame m), Hwf.
  - unfold in_bounds. simpl. lia.
  - unfold in_bounds. simpl. lia.
  - intros []; vm_compute; discriminate.
Defined.

(** ** Symmetric positions *)

Ltac list_mem :=
  rewrite ?NoDup_cons, ?elem_of_cons, ?elem_of_nil, ?pair_equal_spec;
  cbn [fst snd].

(** Membership in the list [_get_symmetric_cell] returns. *)
Lemma elem_of_symmetric_cell m x y q :
  q ∈ _get_symmetric_cell m x y <->
  match symmetry m with
  | NONE => fst q = x /\ snd q = y
  | HORIZONTAL => (fst q = x \/ fst q = width m - 1 - x) /\ snd q = y
  | VERTICAL => fst q = x /\ (snd q = y \/ snd q = height m - 1 - y)
  | ROTATIONAL =>
      (fst q = x /\ snd q = y) \/ (fst q = width m - 1 - x /\ snd q = height m - 1 - y)
  | BOTH =>
      (fst q = x \/ fst q = width m - 1 - x) /\ (snd q = y \/ snd q = height m - 1 - y)
  end.
Proof.
  destruct q as [a b]. unfold _get_symmetric_cell.
  destruct (symmetry m); cbn [app negb]; repeat case_if; cbn [app];
    list_mem; bool_hyps; try bounds_disj; lia.
Qed.

Lemma NoDup_symmetric_cell m x y : NoDup (_get_symmetric_cell m x y).
Proof.
  unfold _get_symmetric_cell.
  destruct (symmetry m); cbn [app negb]; repeat case_if; cbn [app];
    list_mem; bool_hyps; try bounds_disj; repeat split; try apply NoDup_nil_2; lia.
Qed.

(** X11. The positions [_get_symmetric_cell] returns for a cell form its
    orbit: they are distinct, start with the cell itself, lie in the array
    when the cell does, and each of them has the same list of symmetric
    positions up to order. *)
Theorem symmetric_cells_orbit m x y q :
  q ∈ _get_symmetric_cell m x y ->
  (forall q', q' ∈ _get_symmetric_cell m (fst q) (snd q) <-> q' ∈ _get_symmetric_cell m x y) /\
  (in_bounds m (x, y) -> in_bounds m q) /\
  NoDup (_get_symmetric_cell m x y) /\
  head (_get_symmetric_cell m x y) = Some (x, y).
Proof.
  intros Hq. split; [|split; [|split]].
  - intros q'. rewrite !elem_of_symmetric_cell in *. destruct (symmetry m); lia.
  - apply elem_of_symmetric_cell in Hq. unfold in_bounds. cbn [fst snd].
    destruct (symmetry m); lia.
  - apply NoDup_symmetric_cell.
  - reflexivity.
Qed.

Lemma symmetric_cells_orbit_witness :
  exists m,
    Maze.init 4 4 false BOTH = Ok m /\
    (3, 1) ∈ _get_symmetric_cell m 0 2 /\
    (0, 2) ∈ _get_symmetric_cell m 3 1.
Proof.
  set (m := Maze.mk 4 4 false BOTH (fresh_cells 4 4)).
  exists m. split; [reflexivity|].
  assert ((3, 1) ∈ _get_symmetric_cell m 0 2) as Hq
    by (vm_compute; do 3 right; left).
  split; [exact Hq|].
  apply (proj1 (symmetric_cells_orbit m 0 2 (3, 1) Hq) (0, 2)).
  vm_compute. left.
Defined.

(** ** The phases of [generate] *)

(** A run of [generate] that returns is a carving, followed by the
    classification of the carved maze and by dead-end elimination, which
    only removes walls. *)
Lemma generate_phases {R} `{Random R} fuel m sx sy (r : R) m' r' :
  wf m -> generate fuel m sx sy r = Done (m', r') ->
  exists mc,
    carve fuel m sx sy r = Done (mc, r') /\
    wf mc /\ same_frame m mc /\ wall_consistent mc /\
    (forall q, in_bounds mc q -> visited mc q = true) /\
    _remove_dead_ends fuel (_analyze_cells mc) = Done m' /\
    carved (_analyze_cells mc) m'.
Proof.
  intros Hwf. unfold generate.
  destruct (carve fuel m sx sy r) as [[mc r1]| |] eqn:Hc; try discriminate.
  pose proof (carve_consistent _ _ _ _ _ _ _ Hwf Hc) as (Hwfc & Hcons & Hall & F).
  rewrite (reconcile_all_visited mc Hall).
  destruct (_remove_dead_ends fuel (_analyze_cells mc)) as [m2| |] eqn:Hd; try discriminate.
  intros [= <- <-]. exists mc. split; [reflexivity|].
  repeat (split; [assumption|]).
  apply (remove_dead_ends_carved fuel); [|exact Hd].
  now apply (analyze_cells_frame mc).
Qed.

(** Walls of the returned maze are walls of the carved maze. *)
Lemma generate_walls_mono mc m' q d :
  wf mc -> carved (_analyze_cells mc) m' -> in_bounds mc q ->
  has_wall m' q d = true -> has_wall mc q d = true.
Proof.
  intros Hwf C Hq Hw. pose proof (analyze_cells_frame mc) as F.
  rewrite <- (has_wall_analyze_cells mc q d Hwf Hq).
  apply (carved_mono _ m'); auto; [now apply F|now apply (same_frame_in_bounds _ _ _ F)].
Qed.

(** X12. [generate] never opens the outside of the array: every wall that
    faces a missing neighbour (the outer walls of a maze without wrap) is
    present in the maze returned, whatever walls the maze had before. *)
Theorem generate_keeps_outer_walls {R} `{Random R} fuel m sx sy (r : R) m' r' :
  wf m -> generate fuel m sx sy r = Done (m', r') ->
  forall q d, in_bounds m q -> get_neighbor m q d = None -> has_wall m' q d = true.
Proof.
  intros Hwf Hg q d Hq Hn.
  destruct (generate_phases _ _ _ _ _ _ _ Hwf Hg) as (mc & Hc & Hwfc & F & _ & _ & _ & C).
  pose proof (analyze_cells_frame mc) as Fa.
  assert (in_bounds mc q) as Hqc by now apply (same_frame_in_bounds _ _ _ F).
  rewrite (carved_border (_analyze_cells mc) m' q d); auto.
  - rewrite has_wall_analyze_cells by assumption.
    apply (carve_sound
             (fun m1 _ => forall q d, in_bounds m1 q -> get_neighbor m1 q d = None ->
                                      has_wall m1 q d = true)) in Hc; auto.
    + destruct Hc as (_ & HP & _). apply HP; [assumption|].
      now rewrite (get_neighbor_frame _ _ _ _ F).
    + intros s Hs q0 d0 Hq0 _.
      apply has_wall_dfs_start; auto.
      now apply (same_frame_in_bounds _ _ _ (dfs_start_frame m s)).
    + intros m1 cur rest n d0 Hi HP Hin q0 d1 Hq0 Hn0.
      apply elem_of_unvisited_neighbors in Hin as [Hnb _].
      pose proof (inv_wf _ _ Hi) as Hwf1.
      pose proof (push_frame m1 cur d0 n Hwf1) as Fp.
      pose proof (apply_symmetric_carved m1 cur d0 Hwf1) as C1.
      pose proof (carved_frame _ _ C1) as F1.
      apply (same_frame_in_bounds _ _ _ Fp) in Hq0.
      rewrite (get_neighbor_frame _ _ _ _ Fp) in Hn0.
      rewrite has_wall_set_visited;
        [| now apply F1 | apply (same_frame_in_bounds _ _ _ F1);
                          eapply get_neighbor_in_bounds; eassumption
         | now apply (same_frame_in_bounds _ _ _ F1)].
      rewrite (carved_border m1 _ q0 d1); auto.
  - now apply Fa.
  - now apply (same_frame_in_bounds _ _ _ Fa).
  - now rewrite (get_neighbor_frame _ _ _ _ Fa), (get_neighbor_frame _ _ _ _ F).
Qed.

Lemma generate_keeps_outer_walls_witness :
  exists m m' r',
    Maze.init 3 3 false NONE = Ok m /\
    Maze.generate 100 m 1 0 ([] : list nat) = Done (m', r') /\
    has_wall m' (0, 2) Direction.LEFT = true.
Proof.
  set (m := Maze.mk 3 3 false NONE (fresh_cells 3 3)).
  assert (wf m) as Hwf by (apply (init_wf 3 3 false NONE); [lia|lia|reflexivity]).
  exists m. eexists. eexists. split; [reflexivity|].
  assert (forall x, Maze.generate 100 m 1 0 ([] : list nat) = Done x ->
                    Maze.generate 100 m 1 0 ([] : list nat) = Done (fst x, snd x) /\
                    has_wall (fst x) (0, 2) Direction.LEFT = true) as Hx.
  { intros [m' r'] Hg. split; [exact Hg|].
    apply (generate_keeps_outer_walls 100 m 1 0 [] m' r' Hwf Hg).
    - unfold in_bounds. simpl. lia.
    - reflexivity. }
  apply Hx. vm_compute. reflexivity.
Defined.

(** ** Every cell gets an exit *)

(** In an array of at least two cells every cell has a neighbour other
    than itself. *)
Lemma exists_other_neighbor m q :
  wf m -> 2 <= width m \/ 2 <= height m -> in_bounds m q ->
  exists d n, get_neighbor m q d = Some n /\ n <> q.
Proof.
  intros (Hw & Hh & _) Hdim [Hx Hy]. destruct q as [x y]. cbn [fst snd] in *.
  assert (forall a b, in_bounds m (a, b) -> (a, b) <> (x, y) ->
                      forall d, Direction.value d = (a - x, b - y) ->
                      exists d n, get_neighbor m (x, y) d = Some n /\ n <> (x, y)) as Hstep.
  { intros a b Hab Hne d Hd. exists d, (a, b). split; [|assumption].
    rewrite get_neighbor_inside; rewrite Hd; cbn [fst snd];
      replace (x + (a - x)) with a by lia; replace (y + (b - y)) with b by lia; auto. }
  destruct Hdim as [Hd|Hd].
  - destruct (Z_lt_dec (x + 1) (width m)).
    + apply (Hstep (x + 1) y) with (d := Direction.RIGHT).
      * unfold in_bounds. cbn [fst snd]. lia.
      * intros [= E]. lia.
      * cbn. f_equal; lia.
    + apply (Hstep (x - 1) y) with (d := Direction.LEFT).
      * unfold in_bounds. cbn [fst snd]. lia.
      * intros [= E]. lia.
      * cbn. f_equal; lia.
  - destruct (Z_lt_dec (y + 1) (height m)).
    + apply (Hstep x (y + 1)) with (d := Direction.DOWN).
      * unfold in_bounds. cbn [fst snd]. lia.
      * intros [= E]. lia.
      * cbn. f_equal; lia.
    + apply (Hstep x (y - 1)) with (d := Direction.UP).
      * unfold in_bounds. cbn [fst snd]. lia.
      * intros [= E]. lia.
      * cbn. f_equal; lia.
Qed.

(** [remove_wall_between] finds a wall to remove between a cell and any
    neighbour other than the cell itself, whatever the dimensions. *)
Lemma carve_direction_distinct m p d n :
  wf m -> in_bounds m p -> get_neighbor m p d = Some n -> n <> p ->
  exists D, carve_direction m p n = Some D.
Proof.
  intros Hwf Hp Hn Hne. destruct (wrap m) eqn:Hr.
  - destruct Hwf as (Hw & Hh & _). destruct Hp as [Hx Hy].
    destruct p as [x y], n as [a b]. cbn [fst snd] in *.
    assert (a <> x \/ b <> y) as Hne' by (destruct (Z.eq_dec a x); [right|left]; congruence).
    revert Hn. unfold get_neighbor, get_cell. rewrite Hr.
    unfold carve_direction, Direction.from_vector. rewrite Hr. cbn [fst snd].
    destruct d; cbn [Direction.value fst snd]; intros [= Ea Eb];
      rewrite mod_wrap in Ea, Eb by lia;
      repeat match goal with
        | H : context [?u =? ?v] |- _ => destruct (Z.eqb_spec u v); try lia
        end;
      eqb_cases; first [eexists; reflexivity | exfalso; lia].
  - exists d. now apply carve_direction_of_neighbor.
Qed.

(** The symmetric carve starts with the wall it was asked to open. *)
Lemma symmetric_pairs_head m cur d n :
  in_bounds m cur -> get_neighbor m cur d = Some n ->
  exists rest, symmetric_pairs m cur d = (cur, n) :: rest.
Proof.
  intros Hcur Hn. unfold symmetric_pairs, _get_symmetric_cell.
  cbn [app flat_map fst snd].
  rewrite <- surjective_pairing, (get_cell_of_in_bounds m cur Hcur).
  rewrite symmetric_directions_self. cbn [flat_map]. rewrite Hn. cbn [app]. eauto.
Qed.

(** A push opens the two sides of a wall between the current cell and the
    neighbour it moves to. *)
Lemma push_opens_both m cur d n :
  wf m -> in_bounds m cur -> get_neighbor m cur d = Some n -> n <> cur ->
  let m2 := update (_apply_symmetric_wall_removal m cur d) n (Cell.set_visited true) in
  exists D,
    get_neighbor m cur D = Some n /\
    has_wall m2 cur D = false /\ has_wall m2 n (Direction.opposite D) = false.
Proof.
  intros Hwf Hcur Hn Hne m2.
  pose proof (get_neighbor_in_bounds _ _ _ _ Hwf Hn) as Hnb.
  destruct (carve_direction_distinct m cur d n Hwf Hcur Hn Hne) as [D HD].
  destruct (symmetric_pairs_head m cur d n Hcur Hn) as [rest Hrest].
  exists D. split; [now apply carve_direction_neighbor|].
  split; unfold m2;
    rewrite has_wall_after_push, Hrest by assumption; cbn [forallb];
    unfold removed_by; cbn [fst snd]; rewrite HD, pos_eqb_refl, Direction_eqb_refl;
    cbn [andb orb negb]; rewrite ?orb_true_r; cbn [negb andb]; now rewrite andb_false_r.
Qed.

(** The invariant: every visited cell has an exit, except the start cell
    while it is alone on the stack and nothing else has been visited. *)
Definition exits_inv (m : Maze.t) (stack : list pos) : Prop :=
  (2 <= width m \/ 2 <= height m) /\
  forall q, in_bounds m q -> visited m q = true ->
    (exists D, has_wall m q D = false) \/
    (stack = [q] /\ forall q', in_bounds m q' -> q' <> q -> visited m q' = false).

Lemma exits_inv_pop m cur rest :
  dfs_inv m (cur :: rest) -> exits_inv m (cur :: rest) ->
  unvisited_neighbors m cur = [] -> exits_inv m rest.
Proof.
  intros Hi [Hdim HP] He. split; [assumption|]. intros q Hq Hv.
  destruct (HP q Hq Hv) as [?|[[= -> ->] Hothers]]; [now left|]. exfalso.
  destruct (exists_other_neighbor m q (inv_wf _ _ Hi) Hdim Hq) as (d & n & Hn & Hne).
  assert ((n, d) ∈ unvisited_neighbors m q) as Hin.
  { apply elem_of_unvisited_neighbors. split; [assumption|].
    apply Hothers; [|assumption]. eapply get_neighbor_in_bounds; [apply Hi|eassumption]. }
  rewrite He in Hin. inversion Hin.
Qed.

Lemma exits_inv_push m cur rest n d :
  dfs_inv m (cur :: rest) -> exits_inv m (cur :: rest) ->
  (n, d) ∈ unvisited_neighbors m cur ->
  exits_inv (update (_apply_symmetric_wall_removal m cur d) n (Cell.set_visited true))
    (n :: cur :: rest).
Proof.
  intros Hi [Hdim HP] Hin.
  apply elem_of_unvisited_neighbors in Hin as [Hn Hnv].
  pose proof (inv_wf _ _ Hi) as Hwf.
  destruct (inv_stack _ _ Hi cur) as [Hcur Hcv]; [left|].
  pose proof (get_neighbor_in_bounds _ _ _ _ Hwf Hn) as Hnb.
  assert (n <> cur) as Hne by (intros ->; congruence).
  pose proof (push_frame m cur d n Hwf) as F.
  destruct (push_opens_both m cur d n Hwf Hcur Hn Hne) as (D0 & _ & Hoc & Hon).
  split.
  { destruct F as (-> & -> & _). assumption. }
  intros q Hq Hv. left.
  apply (same_frame_in_bounds _ _ _ F) in Hq.
  rewrite visited_after_push in Hv by assumption.
  destruct (pos_eqb n q) eqn:E.
  - apply pos_eqb_eq in E as <-. eauto.
  - destruct (HP q Hq Hv) as [[D HD]|[[= -> ->] _]]; [|eauto].
    exists D. rewrite has_wall_after_push, HD by assumption. reflexivity.
Qed.

Lemma exit_count_positive c D : Cell.has_wall c D = false -> 1 <= Cell.exit_count c.
Proof. destruct c as [[[] [] [] []] v i e], D; cbn; intros; (discriminate || lia). Qed.

Lemma generate_no_walled_in_cell_aux {R} `{Random R} fuel m sx sy (r : R) m' r' :
  wf m -> 2 <= width m \/ 2 <= height m ->
  generate fuel m sx sy r = Done (m', r') ->
  forall q, in_bounds m q -> 1 <= exit_count m' q /\ Cell.wall_count (cell_at m' q) <= 3.
Proof.
  intros Hwf Hdim Hg q Hq.
  destruct (generate_phases _ _ _ _ _ _ _ Hwf Hg) as (mc & Hc & Hwfc & F & _ & Hall & _ & C).
  assert (in_bounds mc q) as Hqc by now apply (same_frame_in_bounds _ _ _ F).
  apply (carve_sound exits_inv) in Hc; auto.
  - destruct Hc as (_ & [_ HP] & _).
    destruct (HP q Hqc (Hall q Hqc)) as [[D HD]|[[=] _]].
    assert (has_wall m' q D = false) as HD'.
    { apply not_true_is_false. intros Hw.
      apply (generate_walls_mono mc m' q D Hwfc C Hqc) in Hw. congruence. }
    apply exit_count_positive in HD'. unfold exit_count.
    split; [assumption|]. unfold Cell.exit_count, Cell.wall_count in *. lia.
  - intros s Hs. pose proof (dfs_start_frame m s) as Fs. split.
    + destruct Fs as (-> & -> & _). assumption.
    + intros q0 Hq0 Hv. right.
      apply (same_frame_in_bounds _ _ _ Fs) in Hq0.
      rewrite visited_dfs_start in Hv by assumption. apply pos_eqb_eq in Hv as ->.
      split; [reflexivity|]. intros q' Hq' Hne.
      apply (same_frame_in_bounds _ _ _ Fs) in Hq'.
      rewrite visited_dfs_start by assumption. apply pos_eqb_neq. congruence.
  - apply exits_inv_pop.
  - apply exits_inv_push.
Qed.

(** X13. In an array of at least two cells, [generate] leaves no cell
    walled in: every cell of the maze returned has at least one exit, and
    so fewer than four walls. *)
Theorem generate_no_walled_in_cell {R} `{Random R} fuel m sx sy (r : R) m' r' :
  wf m -> 2 <= width m \/ 2 <= height m ->
  generate fuel m sx sy r = Done (m', r') ->
  forall q, in_bounds m q -> 1 <= exit_count m' q /\ Cell.wall_count (cell_at m' q) <= 3.
Proof. apply generate_no_walled_in_cell_aux. Qed.

Lemma generate_no_walled_in_cell_witness :
  exists m m' r',
    Maze.init 2 1 true NONE = Ok m /\
    Maze.generate 100 m 0 0 ([] : list nat) = Done (m', r') /\
    1 <= exit_count m' (1, 0).
Proof.
  set (m := Maze.mk 2 1 true NONE (fresh_cells 2 1)).
  assert (wf m) as Hwf by (apply (init_wf 2 1 true NONE); [lia|lia|reflexivity]).
  exists m. eexists. eexists. split; [reflexivity|].
  assert (forall x, Maze.generate 100 m 0 0 ([] : list nat) = Done x ->
                    Maze.generate 100 m 0 0 ([] : list nat) = Done (fst x, snd x) /\
                    1 <= exit_count (fst x) (1, 0)) as Hx.
  { intros [m' r'] Hg. split; [exact Hg|].
    refine (proj1 (generate_no_walled_in_cell 100 m 0 0 [] m' r' Hwf _ Hg (1, 0) _)).
    - left. simpl. lia.
    - unfold in_bounds. simpl. lia. }
  apply Hx. vm_compute. reflexivity.
Defined.

(** ** The start cell *)

(** X14. Without wrap, [generate] raises (it dereferences the [None] that
    [get_cell] returns) exactly when the start cell, after clamping, lies
    outside the array, and it does so before the first loop iteration;
    with a symmetry active the clamping makes every non-negative start
    acceptable. *)
Theorem generate_start_outside {R} `{Random R} fuel m sx sy (r : R) :
  wf m -> wrap m = false ->
  (~ in_bounds m (adjust_start m sx sy) -> generate fuel m sx sy r = Raised) /\
  (in_bounds m (adjust_start m sx sy) ->
   (2 * (Z.to_nat (width m) * Z.to_nat (height m)) <= fuel)%nat ->
   exists mc rc, carve fuel m sx sy r = Done (mc, rc)) /\
  (symmetry m <> NONE -> 0 <= sx -> 0 <= sy -> in_bounds m (adjust_start m sx sy)).
Proof.
  intros Hwf Hr. split; [|split].
  - intros Hout. unfold generate, carve.
    destruct (adjust_start m sx sy) as [a b] eqn:Ea.
    assert (get_cell (reset_all m) a b = None) as ->; [|reflexivity].
    rewrite (get_cell_frame _ _ _ _ (reset_all_frame m)).
    apply (get_cell_cases m a b Hwf). auto.
  - intros Hin Hfuel.
    destruct (carve_invariant (fun _ _ => True) m sx sy Hwf)
      with (fuel := fuel) (r := r) as (mc & rc & Hc & _); auto.
    + now right.
    + eauto.
  - intros Hs Hx Hy. destruct Hwf as (Hw & Hh & _). unfold adjust_start.
    destruct (symmetry m); try congruence; cbn [Symmetry_eqb negb];
      pose proof (Z.div_pos (width m) 2); pose proof (Z.div_pos (height m) 2);
      pose proof (Z.div_lt_upper_bound (width m) 2 (width m));
      pose proof (Z.div_lt_upper_bound (height m) 2 (height m));
      unfold in_bounds; cbn [fst snd]; lia.
Qed.

Lemma generate_start_outside_witness :
  exists m,
    Maze.init 3 3 false NONE = Ok m /\
    Maze.generate 100 m 3 0 ([] : list nat) = Raised.
Proof.
  set (m := Maze.mk 3 3 false NONE (fresh_cells 3 3)).
  assert (wf m) as Hwf by (apply (init_wf 3 3 false NONE); [lia|lia|reflexivity]).
  exists m. split; [reflexivity|].
  apply (proj1 (generate_start_outside 100 m 3 0 [] Hwf eq_refl)).
  unfold in_bounds. simpl. lia.
Defined.

(** ** Classification flags *)

(** X15. The flags [is_intersection] and [is_dead_end] of the maze that
    [generate] returns describe the exits of the maze as carved, before
    dead-end elimination: elimination opens walls and never updates the
    flags. *)
Theorem generate_flags_describe_carving {R} `{Random R} fuel m sx sy (r : R) m' r' :
  wf m -> generate fuel m sx sy r = Done (m', r') ->
  exists mc,
    carve fuel m sx sy r = Done (mc, r') /\
    forall q, in_bounds m q ->
      Cell.is_dead_end (cell_at m' q) = (exit_count mc q =? 1) /\
      Cell.is_intersection (cell_at m' q) = (exit_count mc q >? 2) /\
      exit_count mc q <= exit_count m' q.
Proof.
  intros Hwf Hg.
  destruct (generate_phases _ _ _ _ _ _ _ Hwf Hg) as (mc & Hc & Hwfc & F & _ & _ & _ & C).
  exists mc. split; [exact Hc|]. intros q Hq.
  assert (in_bounds mc q) as Hqc by now apply (same_frame_in_bounds _ _ _ F).
  pose proof (analyze_cells_frame mc) as Fa.
  destruct (carved_flags (_analyze_cells mc) m' q) as (_ & Ei & Ed); auto;
    [now apply Fa|now apply (same_frame_in_bounds _ _ _ Fa)|].
  rewrite Ei, Ed. unfold _analyze_cells. rewrite cell_at_update_all by assumption.
  cbn [analyze_cell Cell.is_dead_end Cell.is_intersection]. unfold exit_count.
  split; [reflexivity|]. split; [reflexivity|].
  assert (forall d, has_wall m' q d = true -> has_wall mc q d = true) as Hmono
    by (intros d; now apply generate_walls_mono).
  unfold has_wall, Cell.has_wall in Hmono. unfold Cell.exit_count.
  pose proof (Hmono Direction.UP). pose proof (Hmono Direction.DOWN).
  pose proof (Hmono Direction.LEFT). pose proof (Hmono Direction.RIGHT).
  destruct (Cell.walls (cell_at m' q)) as [[] [] [] []],
           (Cell.walls (cell_at mc q)) as [[] [] [] []];
    cbn in *; try lia; intuition discriminate.
Qed.

Lemma generate_flags_describe_carving_witness :
  exists m m' r' mc,
    Maze.init 3 3 false NONE = Ok m /\
    Maze.generate 100 m 1 0 ([] : list nat) = Done (m', r') /\
    carve 100 m 1 0 ([] : list nat) = Done (mc, r') /\
    Cell.is_dead_end (cell_at m' (0, 0)) = (exit_count mc (0, 0) =? 1).
Proof.
  set (m := Maze.mk 3 3 false NONE (fresh_cells 3 3)).
  assert (wf m) as Hwf by (apply (init_wf 3 3 false NONE); [lia|lia|reflexivity]).
  assert (exists x, Maze.generate 100 m 1 0 ([] : list nat) = Done x) as [[m' r'] Hg]
    by (eexists; vm_compute; reflexivity).
  destruct (generate_flags_describe_carving 100 m 1 0 [] m' r' Hwf Hg) as (mc & Hc & Hq).
  exists m, m', r', mc. split; [reflexivity|]. split; [exact Hg|]. split; [exact Hc|].
  apply Hq. unfold in_bounds. simpl. lia.
Defined.

(** ** Termination of [generate] *)

Lemma roomy_frame m m' : same_frame m m' -> roomy m -> roomy m'.
Proof. unfold roomy. intros (-> & -> & -> & _). auto. Qed.

Lemma remove_wall_between_wall_total_roomy m p d n :
  wf m -> roomy m -> in_bounds m p ->
  get_neighbor m p d = Some n -> has_wall m p d = true ->
  (wall_total (remove_wall_between m p n) < wall_total m)%nat.
Proof.
  intros Hwf Hr Hp Hn Hw.
  pose proof (get_neighbor_in_bounds _ _ _ _ Hwf Hn) as Hnb.
  unfold wall_total. rewrite (wall_slots_frame _ _ (remove_wall_between_frame m p n)).
  apply (filter_length_lt _ _ _ (p, d)).
  - intros [q d'] Hin Hq. apply elem_of_wall_slots in Hin. cbn [fst snd] in *.
    apply (has_wall_remove_wall_between_mono m p n q d'); assumption.
  - now apply elem_of_wall_slots.
  - assumption.
  - cbn [fst snd].
    rewrite (proj1 (remove_wall_between_step m p d n p d Hwf Hr Hp Hp Hn)).
    rewrite pos_eqb_refl, Direction_eqb_refl. cbn [andb orb negb]. apply andb_false_r.
Qed.

Lemma sweep_cell_wall_total_roomy m0 st p :
  wf m0 -> roomy m0 -> in_bounds m0 p ->
  carved m0 (fst st) /\ (snd st = true -> (wall_total (fst st) < wall_total m0)%nat) ->
  carved m0 (fst (sweep_cell st p)) /\
  (snd (sweep_cell st p) = true -> (wall_total (fst (sweep_cell st p)) < wall_total m0)%nat).
Proof.
  intros Hwf Hr Hp [C Hlt]. split; [now apply sweep_cell_carved|].
  destruct st as [m ch]. unfold sweep_cell. cbn [fst snd] in *.
  pose proof (carved_frame _ _ C) as F.
  destruct (exit_count m p =? 1); [|assumption].
  destruct (find_exit m p) as [e|]; [|assumption].
  destruct (find_connection m p e Direction.all) as [n|] eqn:E; [|assumption].
  apply find_connection_Some in E as (d & _ & _ & Hw & Hn & _).
  cbn [fst snd]. intros _.
  assert (wall_total (remove_wall_between m p n) < wall_total m)%nat.
  { apply (remove_wall_between_wall_total_roomy m p d n); auto.
    - now apply F.
    - now apply (roomy_frame m0).
    - now apply (same_frame_in_bounds _ _ _ F). }
  pose proof (carved_wall_total _ _ Hwf C). lia.
Qed.

(** In a roomy maze a sweep that reports a change has removed a wall. *)
Lemma sweep_wall_total_roomy m :
  wf m -> roomy m -> snd (sweep m) = true ->
  (wall_total (fst (sweep m)) < wall_total m)%nat.
Proof.
  intros Hwf Hr. unfold sweep.
  assert (forall l st, (forall p, p ∈ l -> in_bounds m p) ->
            carved m (fst st) /\ (snd st = true -> (wall_total (fst st) < wall_total m)%nat) ->
            carved m (fst (fold_left sweep_cell l st)) /\
            (snd (fold_left sweep_cell l st) = true ->
             (wall_total (fst (fold_left sweep_cell l st)) < wall_total m)%nat)) as H.
  { induction l as [|p l IH]; intros st Hl Hst; cbn [fold_left]; [assumption|].
    apply IH; [intros q Hq; apply Hl; now right|].
    apply sweep_cell_wall_total_roomy; auto. apply Hl. left. }
  apply H.
  - intros p. apply elem_of_positions.
  - cbn [fst snd]. split; [apply carved_refl|discriminate].
Qed.

Lemma remove_dead_ends_terminates_roomy m :
  wf m -> roomy m ->
  forall fuel, (wall_total m < fuel)%nat -> exists m', _remove_dead_ends fuel m = Done m'.
Proof.
  intros Hwf Hr fuel. revert m Hwf Hr.
  induction fuel as [|fuel IH]; intros m Hwf Hr Hlt; [lia|].
  cbn [_remove_dead_ends]. pose proof (sweep_wall_total_roomy m Hwf Hr) as Hs.
  pose proof (sweep_carved m Hwf) as C.
  destruct (sweep m) as [m1 ch]. cbn [fst snd] in *. destruct ch; [|eauto].
  pose proof (carved_frame _ _ C) as F.
  apply IH.
  - now apply F.
  - now apply (roomy_frame m).
  - specialize (Hs eq_refl). lia.
Qed.

Lemma length_wall_slots m : length (wall_slots m) = (4 * length (positions m))%nat.
Proof.
  unfold wall_slots. induction (positions m) as [|p l IH]; [reflexivity|].
  cbn [mbind list_bind] in *. rewrite length_app, IH. cbn. lia.
Qed.

Lemma wall_total_bound m :
  (wall_total m <= 4 * (Z.to_nat (width m) * Z.to_nat (height m)))%nat.
Proof.
  unfold wall_total. rewrite <- length_positions, <- length_wall_slots.
  apply List.filter_length_le.
Qed.

Lemma generate_terminates_aux {R} `{Random R} fuel m sx sy (r : R) :
  wf m -> roomy m -> valid_start m sx sy ->
  (4 * (Z.to_nat (width m) * Z.to_nat (height m)) < fuel)%nat ->
  exists m' r', generate fuel m sx sy r = Done (m', r') /\ wall_consistent m'.
Proof.
  intros Hwf Hr Hstart Hfuel.
  destruct (carve_invariant (fun _ _ => True) m sx sy Hwf Hstart)
    with (fuel := fuel) (r := r) as (mc & rc & Hc & Hi & _ & F); auto; [lia|].
  pose proof (analyze_cells_frame mc) as Fa.
  assert (wf mc) as Hwfc by apply Hi.
  destruct (remove_dead_ends_terminates_roomy (_analyze_cells mc)) with (fuel := fuel)
    as [m' Hd].
  - now apply Fa.
  - apply (roomy_frame m); [|assumption]. eapply same_frame_trans; eassumption.
  - pose proof (wall_total_bound (_analyze_cells mc)) as Hb.
    destruct Fa as (Ew & Eh & _), F as (Ew' & Eh' & _). rewrite Ew, Eh, Ew', Eh' in Hb. lia.
  - assert (generate fuel m sx sy r = Done (m', rc)) as Hg.
    { unfold generate. rewrite Hc.
      rewrite (reconcile_all_visited mc (dfs_inv_all_visited mc Hi)). now rewrite Hd. }
    exists m', rc. split; [exact Hg|].
    apply (generate_consistent fuel m sx sy r m' rc Hwf Hg).
Qed.

(** X16. In a maze without wrap, or with at least three cells along each
    axis, [generate] returns once each of its loops is allowed more than
    [4 * width * height] iterations: the carving pushes every cell at most
    once, and each sweep of dead-end elimination but the last removes a
    wall.  The maze returned has a consistent wall on both sides of every
    pair of neighbours. *)
Theorem generate_terminates {R} `{Random R} fuel m sx sy (r : R) :
  wf m -> roomy m -> valid_start m sx sy ->
  (4 * (Z.to_nat (width m) * Z.to_nat (height m)) < fuel)%nat ->
  exists m' r', generate fuel m sx sy r = Done (m', r') /\ wall_consistent m'.
Proof. apply generate_terminates_aux. Qed.

Lemma generate_terminates_witness :
  exists m m' r',
    Maze.init 3 3 true NONE = Ok m /\
    Maze.generate 37 m 0 0 ([1; 0; 2] : list nat)%nat = Done (m', r') /\
    wall_consistent m'.
Proof.
  set (m := Maze.mk 3 3 true NONE (fresh_cells 3 3)).
  assert (wf m) as Hwf by (apply (init_wf 3 3 true NONE); [lia|lia|reflexivity]).
  exists m.
  destruct (generate_terminates 37 m 0 0 ([1; 0; 2] : list nat)%nat Hwf)
    as (m' & r' & Hg & Hc).
  - right. simpl. lia.
  - left. reflexivity.
  - simpl. lia.
  - exists m', r'. split; [reflexivity|]. split; assumption.
Defined.

(** ** Statistics: the cell and wall counters *)

Lemma stats_cell_counters m s p :
  let s' := stats_cell m s p in
  total_cells s' = total_cells s /\
  total_walls s' = total_walls s + Cell.wall_count (cell_at m p) /\
  intersections s' = intersections s + Z.b2z (Cell.is_intersection (cell_at m p)) /\
  dead_ends s'
  = dead_ends s
    + Z.b2z (negb (Cell.is_intersection (cell_at m p)) && Cell.is_dead_end (cell_at m p)) /\
  corridors s'
  = corridors s
    + Z.b2z (negb (Cell.is_intersection (cell_at m p))
             && negb (Cell.is_dead_end (cell_at m p))).
Proof.
  unfold stats_cell. cbv zeta. destruct (cell_at m p) as [w v i e].
  cbn [Cell.is_intersection Cell.is_dead_end].
  destruct i, e; repeat case_if; cbn; repeat split; lia.
Qed.

Lemma stats_fold_counters m l s :
  let s' := fold_left (stats_cell m) l s in
  total_cells s' = total_cells s /\
  total_walls s'
  = total_walls s + fold_right Z.add 0 (List.map (fun p => Cell.wall_count (cell_at m p)) l) /\
  intersections s'
  = intersections s
    + Z.of_nat (length (List.filter (fun p => Cell.is_intersection (cell_at m p)) l)) /\
  dead_ends s'
  = dead_ends s
    + Z.of_nat (length (List.filter
        (fun p => negb (Cell.is_intersection (cell_at m p))
                  && Cell.is_dead_end (cell_at m p)) l)) /\
  corridors s'
  = corridors s
    + Z.of_nat (length (List.filter
        (fun p => negb (Cell.is_intersection (cell_at m p))
                  && negb (Cell.is_dead_end (cell_at m p))) l)).
Proof.
  revert s. induction l as [|p l IH]; intros s.
  - cbn. repeat split; lia.
  - cbv zeta. cbn [fold_left List.map fold_right].
    destruct (IH (stats_cell m s p)) as (H1 & H2 & H3 & H4 & H5).
    destruct (stats_cell_counters m s p) as (H1' & H2' & H3' & H4' & H5').
    rewrite !filter_length_cons. repeat split; lia.
Qed.

(** The walls one cell contributes to the wall slots. *)
Lemma wall_total_sum m l :
  Z.of_nat (length (List.filter (fun pd => has_wall m (fst pd) (snd pd))
                      (p ← l; d ← Direction.all; [(p, d)])))
  = fold_right Z.add 0 (List.map (fun p => Cell.wall_count (cell_at m p)) l).
Proof.
  induction l as [|p l IH]; [reflexivity|].
  rewrite bind_cons, List.filter_app, length_app, Nat2Z.inj_add, IH.
  cbn [List.map fold_right]. f_equal.
  change (Direction.all ≫= (fun d => [(p, d)]))
    with [(p, Direction.UP); (p, Direction.DOWN); (p, Direction.LEFT); (p, Direction.RIGHT)].
  unfold has_wall, Cell.has_wall, Cell.wall_count. cbn [List.filter fst snd].
  destruct (Cell.walls (cell_at m p)) as [[] [] [] []]; reflexivity.
Qed.

Lemma count_partition {A} (f g : A -> bool) (l : list A) :
  (length (List.filter f l)
   + length (List.filter (fun a => negb (f a) && g a) l)
   + length (List.filter (fun a => negb (f a) && negb (g a)) l))%nat
  = length l.
Proof.
  induction l as [|a l IH]; [reflexivity|].
  cbn [List.filter]. destruct (f a), (g a); cbn [negb andb length]; lia.
Qed.

(** X17. The counters of [get_statistics]: every cell is counted exactly
    once as an intersection, a dead end or a corridor, so the three
    counters add up to [total_cells = width * height]; [total_walls] is the
    number of (cell, direction) pairs that hold a wall and lies between 0
    and four times the number of cells. *)
Theorem statistics_counters m :
  wf m ->
  let s := get_statistics m in
  total_cells s = width m * height m /\
  intersections s + dead_ends s + corridors s = total_cells s /\
  0 <= intersections s /\ 0 <= dead_ends s /\ 0 <= corridors s /\
  total_walls s = Z.of_nat (wall_total m) /\
  0 <= total_walls s <= 4 * total_cells s.
Proof.
  intros (Hw & Hh & _) s.
  destruct (stats_fold_counters m (positions m)
              (mk_stats (width m * height m) 0 0 0 0 0 0 0 0)) as (H1 & H2 & H3 & H4 & H5).
  fold (get_statistics m) in H1, H2, H3, H4, H5. fold s in H1, H2, H3, H4, H5.
  cbn [total_cells total_walls intersections dead_ends corridors] in H1, H2, H3, H4, H5.
  pose proof (count_partition (fun p => Cell.is_intersection (cell_at m p))
                (fun p => Cell.is_dead_end (cell_at m p)) (positions m)) as Hp.
  cbv beta in Hp.
  pose proof (length_positions m) as Hl.
  assert (total_walls s = Z.of_nat (wall_total m)) as Ht.
  { rewrite H2. unfold wall_total, wall_slots. now rewrite wall_total_sum. }
  pose proof (wall_total_bound m) as Hb.
  assert (Z.of_nat (Z.to_nat (width m) * Z.to_nat (height m)) = width m * height m) as Hwh
    by (rewrite Nat2Z.inj_mul, !Z2Nat.id; lia).
  repeat split; try lia.
Qed.

Lemma statistics_counters_witness :
  exists m m' r',
    Maze.init 3 3 false NONE = Ok m /\
    Maze.generate 100 m 1 0 ([] : list nat) = Done (m', r') /\
    intersections (get_statistics m') + dead_ends (get_statistics m')
    + corridors (get_statistics m') = total_cells (get_statistics m').
Proof.
  set (m := Maze.mk 3 3 false NONE (fresh_cells 3 3)).
  assert (wf m) as Hwf by (apply (init_wf 3 3 false NONE); [lia|lia|reflexivity]).
  assert (exists x, Maze.generate 100 m 1 0 ([] : list nat) = Done x) as [[m' r'] Hg]
    by (eexists; vm_compute; reflexivity).
  exists m, m', r'. split; [reflexivity|]. split; [exact Hg|].
  exact (proj1 (proj2 (statistics_counters m'
           (proj1 (generate_consistent 100 m 1 0 [] m' r' Hwf Hg))))).
Defined.

(** ** The cell graph *)

Lemma elem_of_open_neighbors m p q :
  q ∈ open_neighbors m p
  <-> exists d, has_wall m p d = false /\ get_neighbor m p d = Some q.
Proof.
  unfold open_neighbors. rewrite list_elem_of_In, in_flat_map. split.
  - intros (d & _ & Hd). exists d.
    destruct (has_wall m p d); [inversion Hd|]. split; [reflexivity|].
    destruct (get_neighbor m p d) as [n|]; [|inversion Hd].
    destruct Hd as [->|[]]. reflexivity.
  - intros (d & Hw & Hn). exists d. split; [destruct d; cbn; tauto|].
    rewrite Hw, Hn. now left.
Qed.

Lemma find_key {A} (f : pos -> A) (l : list pos) p :
  List.find (fun kv => pos_eqb (fst kv) p) (List.map (fun p' => (p', f p')) l)
  = if decide (p ∈ l) then Some (p, f p) else None.
Proof.
  induction l as [|a l IH]; [reflexivity|].
  cbn [List.map List.find fst]. destruct (pos_eqb a p) eqn:E.
  - apply pos_eqb_eq in E as ->. destruct (decide (p ∈ p :: l)) as [|Hn]; [reflexivity|].
    exfalso. apply Hn. left.
  - rewrite IH. apply pos_eqb_neq in E.
    destruct (decide (p ∈ l)) as [Hin|Hn], (decide (p ∈ a :: l)) as [Hin'|Hn'];
      try reflexivity.
    + exfalso. apply Hn'. now right.
    + exfalso. apply elem_of_cons in Hin' as [->|?]; [now apply E|now apply Hn].
Qed.

Lemma graph_get_cell_graph m p :
  graph_get (get_cell_graph m) p
  = if decide (p ∈ positions m) then Some (open_neighbors m p) else None.
Proof.
  unfold graph_get, get_cell_graph. rewrite find_key.
  now destruct (decide (p ∈ positions m)).
Qed.

Lemma length_open_neighbors m p :
  Z.of_nat (length (open_neighbors m p)) <= exit_count m p.
Proof.
  unfold open_neighbors, exit_count, has_wall, Cell.has_wall, Cell.exit_count.
  cbn [flat_map Direction.all].
  destruct (Cell.walls (cell_at m p)) as [[] [] [] []];
    destruct (get_neighbor m p Direction.UP), (get_neighbor m p Direction.DOWN),
             (get_neighbor m p Direction.LEFT), (get_neighbor m p Direction.RIGHT);
    apply Z.leb_le; reflexivity.
Qed.

(** The neighbours of a cell depend on the dimensions and on the wrap
    only, so what holds of them on well-formed mazes holds on every maze
    that has the cell. *)
Lemma get_neighbor_of_cell m u d v :
  in_bounds m u -> get_neighbor m u d = Some v ->
  in_bounds m v /\ get_neighbor m v (Direction.opposite d) = Some u.
Proof.
  intros Hu Hn.
  set (m1 := Maze.mk (width m) (height m) (wrap m) (symmetry m)
               (fresh_cells (width m) (height m))).
  assert (wf m1) as Hwf.
  { destruct Hu as [Hx Hy]. unfold wf, fresh_cells. cbn.
    split; [lia|]. split; [lia|]. split.
    - apply length_replicate.
    - apply Forall_replicate, length_replicate. }
  assert (same_frame m m1) as F by (unfold same_frame; cbn; auto).
  rewrite <- (get_neighbor_frame m m1 _ _ F) in Hn.
  rewrite <- (get_neighbor_frame m m1 _ _ F).
  apply (proj2 (same_frame_in_bounds m m1 u F)) in Hu.
  split.
  - apply (proj1 (same_frame_in_bounds m m1 v F)).
    exact (get_neighbor_in_bounds m1 u d v Hwf Hn).
  - exact (get_neighbor_opposite m1 u d v Hwf Hu Hn).
Qed.

(** X18. [get_cell_graph] has one item per cell of the array, in scan
    order, and looking up any other key fails.  The entry of a cell lists
    only cells of the array and has at most as many elements as the cell has
    exits.  On a maze whose walls agree on both sides, the graph is
    undirected: [q] is listed under [p] exactly when [p] is listed
    under [q]. *)
Theorem cell_graph_undirected m p :
  in_bounds m p ->
  List.map fst (get_cell_graph m) = positions m /\
  graph_get (get_cell_graph m) p = Some (open_neighbors m p) /\
  (forall k, ~ in_bounds m k -> graph_get (get_cell_graph m) k = None) /\
  (forall k, k ∈ open_neighbors m p -> in_bounds m k) /\
  Z.of_nat (length (open_neighbors m p)) <= exit_count m p /\
  (wall_consistent m ->
   forall q, in_bounds m q -> q ∈ open_neighbors m p <-> p ∈ open_neighbors m q).
Proof.
  intros Hp. split; [|split; [|split; [|split; [|split]]]].
  - unfold get_cell_graph. rewrite List.map_map. cbn [fst]. apply List.map_id.
  - rewrite graph_get_cell_graph. destruct (decide (p ∈ positions m)) as [|Hn]; [reflexivity|].
    exfalso. apply Hn. now apply elem_of_positions.
  - intros k Hk. rewrite graph_get_cell_graph.
    destruct (decide (k ∈ positions m)) as [Hin|]; [|reflexivity].
    now apply elem_of_positions in Hin.
  - intros k Hk. apply elem_of_open_neighbors in Hk as (d & _ & Hn).
    now apply (get_neighbor_of_cell m p d k).
  - apply length_open_neighbors.
  - intros Hc q Hq.
    assert (forall a b, in_bounds m a -> b ∈ open_neighbors m a -> a ∈ open_neighbors m b) as Hs.
    { intros a b Ha Hb. apply elem_of_open_neighbors in Hb as (d & Hw & Hn).
      apply elem_of_open_neighbors. exists (Direction.opposite d). split.
      - now rewrite <- (Hc a d b Ha Hn).
      - now apply (get_neighbor_of_cell m a d b). }
    split; now apply Hs.
Qed.

Lemma cell_graph_undirected_witness :
  exists m m' r',
    Maze.init 3 3 false NONE = Ok m /\
    Maze.generate 100 m 1 0 ([] : list nat) = Done (m', r') /\
    graph_get (get_cell_graph m') (1, 1) = Some (open_neighbors m' (1, 1)) /\
    (1, 0) ∈ open_neighbors m' (1, 1) /\
    ((1, 0) ∈ open_neighbors m' (1, 1) <-> (1, 1) ∈ open_neighbors m' (1, 0)).
Proof.
  set (m := Maze.mk 3 3 false NONE (fresh_cells 3 3)).
  assert (wf m) as Hwf by (apply (init_wf 3 3 false NONE); [lia|lia|reflexivity]).
  assert (exists x, Maze.generate 100 m 1 0 ([] : list nat) = Done x) as [[m' r'] Hg]
    by (eexists; vm_compute; reflexivity).
  exists m, m', r'. split; [reflexivity|]. split; [exact Hg|].
  destruct (generate_consistent 100 m 1 0 [] m' r' Hwf Hg) as (Hwf' & Hc & F).
  assert (forall x y, 0 <= x < 3 -> 0 <= y < 3 -> in_bounds m' (x, y)) as Hb
    by (intros x y Hx Hy; apply (same_frame_in_bounds _ _ _ F); unfold in_bounds; simpl; lia).
  destruct (cell_graph_undirected m' (1, 1)) as (_ & Hget & _ & _ & _ & Hsym);
    [apply Hb; lia|].
  split; [exact Hget|]. split.
  - assert (generate 100 m 1 0 ([] : list nat)
            = Done (m', r') -> (1, 0) ∈ open_neighbors m' (1, 1)) as Hin.
    { vm_compute. intros [= <- <-]. apply list_elem_of_In. vm_compute. auto. }
    exact (Hin Hg).
  - apply Hsym; [exact Hc|apply Hb; lia].
Defined.

(** [b] is listed in [graph[a]]. *)
Definition graph_edge (m : Maze.t) (a b : pos) : Prop :=
  exists l, graph_get (get_cell_graph m) a = Some l /\ b ∈ l.

Lemma graph_edge_iff m a b :
  graph_edge m a b
  <-> in_bounds m a /\ exists d, has_wall m a d = false /\ get_neighbor m a d = Some b.
Proof.
  unfold graph_edge. rewrite graph_get_cell_graph. split.
  - intros (l & Hl & Hb). destruct (decide (a ∈ positions m)) as [Hin|]; [|discriminate].
    injection Hl as <-. split; [now apply elem_of_positions|].
    now apply elem_of_open_neighbors.
  - intros (Ha & Hd). exists (open_neighbors m a).
    destruct (decide (a ∈ positions m)) as [|Hn].
    + split; [reflexivity|]. now apply elem_of_open_neighbors.
    + exfalso. apply Hn. now apply elem_of_positions.
Qed.

(** Edges survive when walls are only removed. *)
Lemma graph_edge_mono m m' a b :
  same_frame m m' ->
  (forall q d, in_bounds m q -> has_wall m q d = false -> has_wall m' q d = false) ->
  graph_edge m a b -> graph_edge m' a b.
Proof.
  intros F Hmono. rewrite !graph_edge_iff. intros (Ha & d & Hw & Hn). split.
  - now apply (same_frame_in_bounds _ _ _ F).
  - exists d. split; [now apply Hmono|]. now rewrite (get_neighbor_frame _ _ _ _ F).
Qed.

(** The invariant of the carving: every visited cell can be reached from
    the start cell along edges of the cell graph. *)
Definition reach_inv (m : Maze.t) (stack : list pos) : Prop :=
  exists s, forall q, in_bounds m q -> visited m q = true -> rtc (graph_edge m) s q.

Lemma reach_inv_push m cur rest n d :
  dfs_inv m (cur :: rest) -> reach_inv m (cur :: rest) ->
  (n, d) ∈ unvisited_neighbors m cur ->
  reach_inv (update (_apply_symmetric_wall_removal m cur d) n (Cell.set_visited true))
    (n :: cur :: rest).
Proof.
  intros Hi [s HP] Hin. exists s.
  apply elem_of_unvisited_neighbors in Hin as [Hn Hnv].
  pose proof (inv_wf _ _ Hi) as Hwf.
  destruct (inv_stack _ _ Hi cur) as [Hcur Hcv]; [left|].
  pose proof (get_neighbor_in_bounds _ _ _ _ Hwf Hn) as Hnb.
  assert (n <> cur) as Hne by (intros ->; congruence).
  pose proof (push_frame m cur d n Hwf) as F.
  destruct (push_opens_both m cur d n Hwf Hcur Hn Hne) as (D & HnD & Hoc & _).
  assert (forall a b, graph_edge m a b ->
            graph_edge (update (_apply_symmetric_wall_removal m cur d) n
                          (Cell.set_visited true)) a b) as Hmono.
  { intros a b. apply graph_edge_mono; [exact F|].
    intros q0 d0 Hq0 Hw. rewrite has_wall_after_push, Hw by assumption. reflexivity. }
  intros q Hq Hv.
  apply (same_frame_in_bounds _ _ _ F) in Hq.
  rewrite visited_after_push in Hv by assumption.
  destruct (pos_eqb n q) eqn:E.
  - apply pos_eqb_eq in E as <-.
    apply rtc_r with (y := cur); [apply (rtc_mono _ _ _ _ Hmono), HP; assumption|].
    apply graph_edge_iff. split; [now apply (same_frame_in_bounds _ _ _ F)|].
    exists D. split; [exact Hoc|]. now rewrite (get_neighbor_frame _ _ _ _ F).
  - apply (rtc_mono _ _ _ _ Hmono), HP; assumption.
Qed.

(** X19. The cell graph of the maze [generate] returns is connected, for
    every symmetry and with or without wrap: any cell can be reached from
    any other along entries of [get_cell_graph]. *)
Theorem generate_graph_connected {R} `{Random R} fuel m sx sy (r : R) m' r' :
  wf m -> generate fuel m sx sy r = Done (m', r') ->
  forall u v, in_bounds m u -> in_bounds m v -> rtc (graph_edge m') u v.
Proof.
  intros Hwf Hg u v Hu Hv.
  destruct (generate_consistent _ _ _ _ _ _ _ Hwf Hg) as (Hwf' & Hcons & Fg).
  destruct (generate_phases _ _ _ _ _ _ _ Hwf Hg) as (mc & Hc & Hwfc & F & _ & Hall & _ & C).
  apply (carve_sound reach_inv) in Hc; auto.
  - destruct Hc as (_ & [s HP] & _).
    assert (forall a b, graph_edge mc a b -> graph_edge m' a b) as Hmono.
    { intros a b. apply graph_edge_mono.
      - eapply same_frame_trans; [apply analyze_cells_frame|now apply carved_frame].
      - intros q d Hq Hw. apply not_true_is_false. intros Hw'.
        apply (generate_walls_mono mc m' q d Hwfc C Hq) in Hw'. congruence. }
    assert (forall q, in_bounds m q -> rtc (graph_edge m') s q) as Hs.
    { intros q Hq. apply (same_frame_in_bounds _ _ _ F) in Hq.
      apply (rtc_mono _ _ _ _ Hmono), HP; auto. }
    eapply rtc_trans; [|now apply Hs].
    apply rtc_sym; [|now apply Hs].
    intros a b. rewrite !graph_edge_iff. intros (Ha & d & Hw & Hn). split.
    + eapply get_neighbor_in_bounds; eassumption.
    + exists (Direction.opposite d). split.
      * now rewrite <- (Hcons a d b Ha Hn).
      * now apply get_neighbor_opposite.
  - intros s Hs. exists s. intros q Hq Hvq.
    apply (same_frame_in_bounds _ _ _ (dfs_start_frame m s)) in Hq.
    rewrite visited_dfs_start in Hvq by assumption. apply pos_eqb_eq in Hvq as <-.
    constructor.
  - apply reach_inv_push.
Qed.

Lemma generate_graph_connected_witness :
  exists m m' r',
    Maze.init 4 4 true HORIZONTAL = Ok m /\
    Maze.generate 100 m 1 0 ([1; 0; 1] : list nat)%nat = Done (m', r') /\
    rtc (graph_edge m') (0, 0) (3, 2).
Proof.
  set (m := Maze.mk 4 4 true HORIZONTAL (fresh_cells 4 4)).
  assert (wf m) as Hwf by (apply (init_wf 4 4 true HORIZONTAL); [lia|lia|reflexivity]).
  assert (exists x, Maze.generate 100 m 1 0 ([1; 0; 1] : list nat)%nat = Done x)
    as [[m' r'] Hg] by (eexists; vm_compute; reflexivity).
  exists m, m', r'. split; [reflexivity|]. split; [exact Hg|].
  apply (generate_graph_connected 100 m 1 0 [1; 0; 1]%nat m' r' Hwf Hg).
  - unfold in_bounds. simpl. lia.
  - unfold in_bounds. simpl. lia.
Defined.

(** ** The text rendering *)

Lemma append_snoc (a : string) c s :
  ((a ++ String c EmptyString) ++ s)%string = (a ++ String c s)%string.
Proof. induction a as [|c' a IH]; cbn; [reflexivity|]. now rewrite IH. Qed.

Lemma fold_append_chars {A} (f : A -> ascii) (l : list A) (acc : string) :
  fold_left (fun line x => (line ++ String (f x) EmptyString)%string) l acc
  = (acc ++ string_of_list_ascii (List.map f l))%string.
Proof.
  revert acc. induction l as [|a l IH]; intros acc; cbn [fold_left List.map string_of_list_ascii].
  - induction acc as [|c acc IHa]; cbn; [reflexivity|]. now rewrite <- IHa.
  - now rewrite IH, append_snoc.
Qed.

Lemma simple_line_eq m y :
  simple_line m y
  = string_of_list_ascii
      (List.map (fun x => simple_char (cell_at m (x, y))) (seqZ 0 (width m))).
Proof. unfold simple_line. now rewrite fold_append_chars. Qed.

Lemma string_of_list_length (l : list ascii) :
  String.length (string_of_list_ascii l) = length l.
Proof. induction l as [|c l IH]; cbn; [reflexivity|]. now rewrite IH. Qed.

Lemma string_of_list_get (l : list ascii) i :
  String.get i (string_of_list_ascii l) = l !! i.
Proof.
  revert i. induction l as [|c l IH]; intros i; [now destruct i|].
  destruct i as [|i]; cbn; [reflexivity|]. apply IH.
Qed.

Lemma lookup_map_seqZ {A} (f : Z -> A) n i :
  0 <= i < n -> List.map f (seqZ 0 n) !! Z.to_nat i = Some (f i).
Proof.
  intros Hi.
  assert (forall l k, List.map f l !! k = f <$> (l !! k)) as Hm.
  { induction l as [|a l IH]; intros [|k]; cbn; auto. }
  rewrite Hm, lookup_seqZ_lt by lia. cbn. f_equal. f_equal. lia.
Qed.

Lemma simple_lines_lookup m x y :
  in_bounds m (x, y) ->
  to_simple_string m = String.concat (String "010"%char EmptyString) (simple_lines m) /\
  length (simple_lines m) = Z.to_nat (height m) /\
  exists line,
    simple_lines m !! Z.to_nat y = Some line /\
    String.length line = Z.to_nat (width m) /\
    String.get (Z.to_nat x) line = Some (simple_char (cell_at m (x, y))).
Proof.
  intros [Hx Hy]. cbn [fst snd] in *. split; [reflexivity|]. split.
  - unfold simple_lines. now rewrite length_map, length_seqZ.
  - exists (simple_line m y). split; [|split].
    + unfold simple_lines. now apply lookup_map_seqZ.
    + rewrite simple_line_eq, string_of_list_length, length_map. apply length_seqZ.
    + rewrite simple_line_eq, string_of_list_get.
      now apply (lookup_map_seqZ (fun x => simple_char (cell_at m (x, y)))).
Qed.

(** X20. [to_simple_string] joins [height] lines of [width] characters
    each, and the character in column [x] of line [y] is the one that
    describes cell [(x, y)]: the text is the transpose of the column-major
    cell array. *)
Theorem simple_string_shape m x y :
  in_bounds m (x, y) ->
  to_simple_string m = String.concat (String "010"%char EmptyString) (simple_lines m) /\
  length (simple_lines m) = Z.to_nat (height m) /\
  exists line,
    simple_lines m !! Z.to_nat y = Some line /\
    String.length line = Z.to_nat (width m) /\
    String.get (Z.to_nat x) line = Some (simple_char (cell_at m (x, y))).
Proof. apply simple_lines_lookup. Qed.

Lemma simple_string_shape_witness :
  exists m line,
    Maze.init 3 2 false NONE = Ok m /\
    simple_lines (reset_all m) !! 1%nat = Some line /\
    String.get 2 line = Some "#"%char.
Proof.
  set (m := Maze.mk 3 2 false NONE (fresh_cells 3 2)).
  destruct (simple_string_shape (reset_all m) 2 1) as (_ & _ & line & Hl & _ & Hc).
  - unfold in_bounds. vm_compute. repeat split; discriminate.
  - exists m, line. split; [reflexivity|]. split; [exact Hl|]. exact Hc.
Defined.

(** X21. The text of a maze returned by [generate], on an array of at
    least two cells, contains no ['#']: every cell is printed as a dead
    end, an intersection or a corridor. *)
Theorem generated_text_has_no_block {R} `{Random R} fuel m sx sy (r : R) m' r' x y :
  wf m -> 2 <= width m \/ 2 <= height m ->
  generate fuel m sx sy r = Done (m', r') ->
  in_bounds m (x, y) ->
  exists line c,
    simple_lines m' !! Z.to_nat y = Some line /\
    String.get (Z.to_nat x) line = Some c /\
    (c = "D"%char \/ c = "I"%char \/ c = "."%char) /\
    (c = "D"%char <-> exit_count m' (x, y) = 1).
Proof.
  intros Hwf Hdim Hg Hq.
  destruct (generate_consistent _ _ _ _ _ _ _ Hwf Hg) as (_ & _ & F).
  destruct (generate_no_walled_in_cell_aux fuel m sx sy r m' r' Hwf Hdim Hg (x, y) Hq)
    as [_ Hw].
  destruct (simple_lines_lookup m' x y) as (_ & _ & line & Hl & _ & Hc);
    [now apply (same_frame_in_bounds _ _ _ F)|].
  exists line, (simple_char (cell_at m' (x, y))). split; [exact Hl|]. split; [exact Hc|].
  unfold simple_char, exit_count.
  destruct (Z.eqb_spec (Cell.wall_count (cell_at m' (x, y))) 4); [lia|].
  destruct (Z.eqb_spec (Cell.exit_count (cell_at m' (x, y))) 1).
  - split; [auto|]. split; auto.
  - destruct (Cell.is_intersection _); split; auto; split; try discriminate; contradiction.
Qed.

Lemma generated_text_has_no_block_witness :
  exists m m' r' line c,
    Maze.init 3 3 false NONE = Ok m /\
    Maze.generate 100 m 1 0 ([] : list nat) = Done (m', r') /\
    simple_lines m' !! 1%nat = Some line /\
    String.get 2 line = Some c /\
    (c = "D"%char \/ c = "I"%char \/ c = "."%char).
Proof.
  set (m := Maze.mk 3 3 false NONE (fresh_cells 3 3)).
  assert (wf m) as Hwf by (apply (init_wf 3 3 false NONE); [lia|lia|reflexivity]).
  assert (exists x, Maze.generate 100 m 1 0 ([] : list nat) = Done x) as [[m' r'] Hg]
    by (eexists; vm_compute; reflexivity).
  destruct (generated_text_has_no_block 100 m 1 0 [] m' r' 2 1 Hwf) as (line & c & Hl & Hc & Hs & _).
  - left. cbn. lia.
  - exact Hg.
  - unfold in_bounds. cbn. lia.
  - exists m, m', r', line, c. split; [reflexivity|]. split; [exact Hg|].
    split; [exact Hl|]. split; [exact Hc|exact Hs].
Defined.

(** ** Two-dimensional arrays with their dimensions *)

(** [g] has [w] columns of [h] entries. *)
Definition grid_dims {A} (w h : Z) (g : list (list A)) : Prop :=
  length g = Z.to_nat w /\ Forall (fun col => length col = Z.to_nat h) g.

Lemma grid_make_dims {A} w h (v : A) : grid_dims w h (grid_make w h v).
Proof.
  unfold grid_dims, grid_make. split; [apply length_replicate|].
  apply Forall_replicate, length_replicate.
Qed.

Lemma grid_set_dims {A} w h (g : list (list A)) x y v :
  grid_dims w h g -> grid_dims w h (grid_set g x y v).
Proof.
  intros [Hl HF]. unfold grid_set. split; [now rewrite length_alter|].
  apply Forall_alter; [assumption|]. intros col _ Hc. now rewrite length_insert.
Qed.

Lemma grid_get_make {A} (d v : A) w h x y :
  0 <= x < w -> 0 <= y < h -> grid_get d (grid_make w h v) x y = v.
Proof.
  intros Hx Hy. unfold grid_get, grid_make.
  rewrite lookup_replicate_2 by lia. cbn. now rewrite lookup_replicate_2 by lia.
Qed.

Lemma grid_get_set_eq {A} (d : A) w h g x y v :
  grid_dims w h g -> 0 <= x < w -> 0 <= y < h ->
  grid_get d (grid_set g x y v) x y = v.
Proof.
  intros [Hl HF] Hx Hy. unfold grid_get, grid_set. rewrite list_lookup_alter_eq.
  destruct (lookup_lt_is_Some_2 g (Z.to_nat x)) as [col Hcol]; [lia|].
  rewrite Hcol. cbn. rewrite Forall_lookup in HF.
  rewrite list_lookup_insert_eq; [reflexivity|]. rewrite (HF _ _ Hcol). lia.
Qed.

Lemma grid_get_set {A} (d : A) w h g x y v x' y' :
  grid_dims w h g -> 0 <= x < w -> 0 <= y < h -> 0 <= x' -> 0 <= y' ->
  grid_get d (grid_set g x y v) x' y'
  = if (x =? x') && (y =? y') then v else grid_get d g x' y'.
Proof.
  intros Hg Hx Hy Hx' Hy'.
  destruct (Z.eqb_spec x x') as [<-|Ex]; [destruct (Z.eqb_spec y y') as [<-|Ey]|]; cbn [andb].
  - now apply (grid_get_set_eq d w h).
  - apply grid_get_set_ne; try lia. congruence.
  - apply grid_get_set_ne; try lia. congruence.
Qed.

Lemma elem_of_range2 w h p : p ∈ range2 w h <-> 0 <= fst p < w /\ 0 <= snd p < h.
Proof.
  unfold range2. rewrite list_elem_of_bind. split.
  - intros (x & Hy & Hx). apply list_elem_of_bind in Hy as (y & Hp & Hy).
    apply list_elem_of_singleton in Hp as ->. cbn [fst snd].
    apply elem_of_seqZ in Hx, Hy. lia.
  - intros [Hx Hy]. exists (fst p). split; [|apply elem_of_seqZ; lia].
    apply list_elem_of_bind. exists (snd p). split; [|apply elem_of_seqZ; lia].
    destruct p. apply list_elem_of_singleton. reflexivity.
Qed.

Lemma elem_of_offsets o :
  o ∈ TetrisMaze.offsets <-> -1 <= fst o <= 1 /\ -1 <= snd o <= 1.
Proof.
  destruct o as [a b]. unfold TetrisMaze.offsets. cbn. list_mem. lia.
Qed.

(** ** The last stage of the tile pipeline *)

(** Body of the innermost loop of [convert_to_walls]: the neighbours of
    [(x, y)] that lie in the grid become walls. *)
Definition mark_neighbour (w h x y : Z) (wg : list (list Z)) (o : Z * Z) : list (list Z) :=
  if negb ((fst o =? 0) && (snd o =? 0)) && TetrisMaze.inside w h (x + fst o) (y + snd o)
  then grid_set wg (x + fst o) (y + snd o) 1
  else wg.

Lemma inside_iff w h a b : TetrisMaze.inside w h a b = true <-> 0 <= a < w /\ 0 <= b < h.
Proof.
  unfold TetrisMaze.inside. rewrite !andb_true_iff, !Z.leb_le, !Z.ltb_lt. lia.
Qed.

Lemma fold_mark_dims w h x y os wg :
  grid_dims w h wg -> grid_dims w h (fold_left (mark_neighbour w h x y) os wg).
Proof.
  revert wg. induction os as [|o os IH]; intros wg Hg; [assumption|].
  cbn [fold_left]. apply IH. unfold mark_neighbour.
  case_if; [now apply grid_set_dims|assumption].
Qed.

Lemma fold_mark_hit w h x y os wg a b :
  grid_dims w h wg -> 0 <= a < w -> 0 <= b < h ->
  (exists o, o ∈ os /\ (fst o <> 0 \/ snd o <> 0) /\ x + fst o = a /\ y + snd o = b) ->
  grid_get 0 (fold_left (mark_neighbour w h x y) os wg) a b = 1.
Proof.
  intros Hg Ha Hb. revert wg Hg.
  assert (forall os wg, grid_dims w h wg -> grid_get 0 wg a b = 1 ->
            grid_get 0 (fold_left (mark_neighbour w h x y) os wg) a b = 1) as Hkeep.
  { induction os0 as [|o os0 IH]; intros wg Hg H1; [assumption|].
    cbn [fold_left]. apply IH.
    - unfold mark_neighbour. case_if; [now apply grid_set_dims|assumption].
    - unfold mark_neighbour. case_if; [|assumption]. bool_hyps.
      match goal with H : TetrisMaze.inside _ _ _ _ = true |- _ => apply inside_iff in H end.
      rewrite (grid_get_set 0 w h) by (auto; lia). now case_if. }
  induction os as [|o os IH]; intros wg Hg (o' & Hin & Hnz & Ea & Eb); [inversion Hin|].
  cbn [fold_left]. apply elem_of_cons in Hin as [->|Hin].
  - apply Hkeep.
    + unfold mark_neighbour. case_if; [now apply grid_set_dims|assumption].
    + unfold mark_neighbour.
      assert (negb ((fst o =? 0) && (snd o =? 0)) = true) as ->.
      { apply negb_true_iff, andb_false_iff. rewrite !Z.eqb_neq. exact Hnz. }
      assert (TetrisMaze.inside w h (x + fst o) (y + snd o) = true) as ->
        by (apply inside_iff; lia).
      cbn [andb]. rewrite Ea, Eb. now apply (grid_get_set_eq 0 w h).
  - apply IH; [|eauto].
    unfold mark_neighbour. case_if; [now apply grid_set_dims|assumption].
Qed.

Lemma fold_mark_miss w h x y os wg a b :
  grid_dims w h wg -> 0 <= a -> 0 <= b ->
  (forall o, o ∈ os -> (fst o <> 0 \/ snd o <> 0) -> ~ (x + fst o = a /\ y + snd o = b)) ->
  grid_get 0 (fold_left (mark_neighbour w h x y) os wg) a b = grid_get 0 wg a b.
Proof.
  intros Hg Ha Hb. revert wg Hg.
  induction os as [|o os IH]; intros wg Hg Hmiss; [reflexivity|].
  cbn [fold_left]. rewrite IH.
  - unfold mark_neighbour. case_if; [|reflexivity]. bool_hyps.
    match goal with H : TetrisMaze.inside _ _ _ _ = true |- _ => apply inside_iff in H end.
    rewrite (grid_get_set 0 w h) by (auto; lia).
    case_if; [|reflexivity]. exfalso. bool_hyps.
    apply (Hmiss o); [left| |lia].
    match goal with H : _ && _ = false |- _ => apply andb_false_iff in H end.
    rewrite !Z.eqb_neq in *. assumption.
  - unfold mark_neighbour. case_if; [now apply grid_set_dims|assumption].
  - intros o' Hin. apply Hmiss. now right.
Qed.

(** Two distinct tiles that touch, by a side or by a corner. *)
Definition touching (p q : Z * Z) : Prop :=
  -1 <= fst q - fst p <= 1 /\ -1 <= snd q - snd p <= 1 /\ p <> q.

(** No two touching tiles of the grid are both empty. *)
Definition isolated_openings (w h : Z) (g : list (list Z)) : Prop :=
  forall p q,
    0 <= fst p < w -> 0 <= snd p < h -> 0 <= fst q < w -> 0 <= snd q < h ->
    touching p q -> grid_get 0 g (fst p) (snd p) = 0 -> grid_get 0 g (fst q) (snd q) <> 0.

(** One iteration of the last double loop of [convert_to_walls]. *)
Definition mark_tile (w h : Z) (final_grid : list (list Z)) (wg : list (list Z))
    (p : Z * Z) : list (list Z) :=
  let '(x, y) := p in
  if grid_get 0 final_grid x y =? 0 then
    fold_left (mark_neighbour w h x y) TetrisMaze.offsets (grid_set wg x y 0)
  else wg.

Lemma mark_tile_isolated w h fg wg p :
  0 <= fst p < w -> 0 <= snd p < h ->
  grid_dims w h wg /\ isolated_openings w h wg ->
  grid_dims w h (mark_tile w h fg wg p) /\ isolated_openings w h (mark_tile w h fg wg p).
Proof.
  intros Hx Hy [Hg Hiso]. destruct p as [x y]. cbn [fst snd] in *. unfold mark_tile.
  case_if; [|auto].
  pose proof (grid_set_dims w h wg x y 0 Hg) as Hg0.
  split; [now apply fold_mark_dims|].
  (* the value of every tile after the iteration *)
  assert (forall a b, 0 <= a < w -> 0 <= b < h -> touching (x, y) (a, b) ->
            grid_get 0 (fold_left (mark_neighbour w h x y) TetrisMaze.offsets
                          (grid_set wg x y 0)) a b = 1) as Hnear.
  { intros a b Ha Hb (H1 & H2 & Hne). cbn [fst snd] in *.
    apply fold_mark_hit; auto.
    exists (a - x, b - y). cbn [fst snd]. split; [apply elem_of_offsets; cbn [fst snd]; lia|].
    split; [|lia].
    destruct (Z.eq_dec a x) as [->|]; [|lia]. destruct (Z.eq_dec b y) as [->|]; [|lia].
    now contradiction Hne. }
  assert (forall a b, 0 <= a < w -> 0 <= b < h -> ~ touching (x, y) (a, b) ->
            grid_get 0 (fold_left (mark_neighbour w h x y) TetrisMaze.offsets
                          (grid_set wg x y 0)) a b
            = if (x =? a) && (y =? b) then 0 else grid_get 0 wg a b) as Hfar.
  { intros a b Ha Hb Hnt. rewrite fold_mark_miss; auto; try lia.
    - apply (grid_get_set 0 w h); auto; lia.
    - intros o Hin Hnz [Ea Eb]. apply Hnt. apply elem_of_offsets in Hin.
      split; [|split]; cbn [fst snd]; try lia. intros [= -> ->]. lia. }
  intros [a b] [a' b'] Ha Hb Ha' Hb' Ht H0. cbn [fst snd] in *.
  assert (forall u v, touching (x, y) (u, v) \/ ~ touching (x, y) (u, v)) as Hdec.
  { intros u v. unfold touching. cbn [fst snd].
    destruct (decide ((x, y) = (u, v))) as [E|E]; [right; tauto|].
    destruct (decide (-1 <= u - x <= 1 /\ -1 <= v - y <= 1)); [left|right]; tauto. }
  destruct (Hdec a b) as [Hab|Hab]; [rewrite Hnear in H0 by assumption; discriminate|].
  rewrite Hfar in H0 by assumption.
  destruct (Hdec a' b') as [Hab'|Hab']; [rewrite Hnear by assumption; discriminate|].
  rewrite Hfar by assumption.
  destruct ((x =? a) && (y =? b)) eqn:E.
  - bool_hyps. subst. contradiction.
  - destruct ((x =? a') && (y =? b')) eqn:E'.
    + bool_hyps. subst. exfalso. apply Hab.
      destruct Ht as (H1 & H2 & Hne). cbn [fst snd] in *.
      split; [|split]; cbn [fst snd]; try lia. congruence.
    + apply (Hiso (a, b) (a', b')); auto.
Qed.

Lemma convert_to_walls_eq s :
  TetrisMaze.tile_grid (TetrisMaze.convert_to_walls s)
  = fold_left
      (mark_tile (TetrisMaze.width s) (TetrisMaze.height s)
         (fold_left
            (fun fg p =>
               if grid_get 0 (TetrisMaze.tile_grid s) (fst p) (snd p) =? 1
               then grid_set fg (fst p) (snd p) 0 else fg)
            (range2 (TetrisMaze.width s) (TetrisMaze.height s))
            (grid_make (TetrisMaze.width s) (TetrisMaze.height s) 1)))
      (range2 (TetrisMaze.width s) (TetrisMaze.height s))
      (grid_make (TetrisMaze.width s) (TetrisMaze.height s) 1).
Proof.
  unfold TetrisMaze.convert_to_walls. cbn [TetrisMaze.tile_grid TetrisMaze.with_tile_grid].
  reflexivity.
Qed.

Lemma convert_to_walls_isolated s :
  grid_dims (TetrisMaze.width s) (TetrisMaze.height s)
    (TetrisMaze.tile_grid (TetrisMaze.convert_to_walls s)) /\
  isolated_openings (TetrisMaze.width s) (TetrisMaze.height s)
    (TetrisMaze.tile_grid (TetrisMaze.convert_to_walls s)).
Proof.
  rewrite convert_to_walls_eq.
  set (w := TetrisMaze.width s). set (h := TetrisMaze.height s).
  generalize (fold_left
    (fun fg p =>
       if grid_get 0 (TetrisMaze.tile_grid s) (fst p) (snd p) =? 1
       then grid_set fg (fst p) (snd p) 0 else fg) (range2 w h) (grid_make w h 1)) as fg.
  intros fg.
  assert (forall l wg, (forall p, p ∈ l -> 0 <= fst p < w /\ 0 <= snd p < h) ->
            grid_dims w h wg /\ isolated_openings w h wg ->
            grid_dims w h (fold_left (mark_tile w h fg) l wg) /\
            isolated_openings w h (fold_left (mark_tile w h fg) l wg)) as Hfold.
  { induction l as [|p l IH]; intros wg Hl Hwg; [assumption|].
    cbn [fold_left]. apply IH; [intros q Hq; apply Hl; now right|].
    destruct (Hl p) as [Hx Hy]; [left|]. now apply mark_tile_isolated. }
  apply Hfold.
  - intros p. apply elem_of_range2.
  - split; [apply grid_make_dims|].
    intros p q Hpx Hpy _ _ _ H0. rewrite grid_get_make in H0 by assumption. discriminate.
Qed.

(** ** The bridge on a grid of isolated openings *)

Lemma open_tile_isolated tiles m p :
  wf m -> isolated_openings (width m) (height m) tiles -> in_bounds m p ->
  TetrisMaze.open_tile tiles m p = m.
Proof.
  intros Hwf Hiso Hp. destruct p as [x y]. unfold TetrisMaze.open_tile.
  destruct (Z.eqb_spec (grid_get 0 tiles x y) 0) as [H0|]; [|reflexivity].
  pose proof (get_cell_of_in_bounds m (x, y) Hp) as Hc. cbn [fst snd] in Hc. rewrite Hc. clear Hc.
  assert (forall d,
            (let '(dx, dy) := Direction.value d in
             if TetrisMaze.inside (width m) (height m) (x + dx) (y + dy) then
               match get_cell m (x + dx) (y + dy) with
               | Some neighbor =>
                   if grid_get 0 tiles (x + dx) (y + dy) =? 0
                   then remove_wall_between m (x, y) neighbor else m
               | None => m
               end
             else m) = m) as Hstep.
  { intros d. destruct (Direction.value d) as [dx dy] eqn:Ed.
    destruct (TetrisMaze.inside _ _ _ _) eqn:Ei; [|reflexivity].
    apply inside_iff in Ei. destruct (get_cell m (x + dx) (y + dy)); [|reflexivity].
    destruct (Z.eqb_spec (grid_get 0 tiles (x + dx) (y + dy)) 0) as [H1|]; [|reflexivity].
    exfalso. destruct Hp as [Hx Hy]. cbn [fst snd] in *.
    apply (Hiso (x, y) (x + dx, y + dy)); cbn [fst snd]; auto; try lia.
    destruct d; injection Ed as <- <-; (split; [|split]); cbn [fst snd]; try lia;
      intros [= E]; lia. }
  cbn [fold_left Direction.all]. now rewrite !Hstep.
Qed.

Lemma bridge_isolated tiles m :
  wf m -> wrap m = false -> isolated_openings (width m) (height m) tiles ->
  TetrisMaze.bridge tiles m = TetrisMaze.wall_all m.
Proof.
  intros Hwf Hr Hiso. pose proof (wall_all_frame m) as F.
  unfold TetrisMaze.bridge, TetrisMaze.stitch_wrap, TetrisMaze.open_tiles.
  set (m1 := TetrisMaze.wall_all m) in *.
  assert (wf m1) as Hwf1 by now apply F.
  assert (forall l, (forall p, p ∈ l -> in_bounds m1 p) ->
                    fold_left (TetrisMaze.open_tile tiles) l m1 = m1) as Hfold.
  { induction l as [|p l IH]; intros Hl; [reflexivity|].
    cbn [fold_left]. rewrite open_tile_isolated; auto.
    - apply IH. intros q Hq. apply Hl. now right.
    - destruct F as (-> & -> & _). assumption.
    - apply Hl. left. }
  rewrite Hfold by (intros p; apply elem_of_positions).
  destruct F as (_ & _ & -> & _). now rewrite Hr.
Qed.

(** The maze and the tile grid left by the piece pipeline. *)
Lemma tetris_generate_tiles {R} `{Random R} s (r : R) :
  exists s',
    TetrisMaze.maze s' = TetrisMaze.maze s /\
    TetrisMaze.tile_grid (fst (TetrisMaze.generate s r))
    = TetrisMaze.tile_grid (TetrisMaze.convert_to_walls s') /\
    TetrisMaze.maze (fst (TetrisMaze.generate s r))
    = _analyze_cells
        (TetrisMaze.bridge (TetrisMaze.tile_grid (TetrisMaze.convert_to_walls s'))
           (TetrisMaze.maze s)).
Proof.
  unfold TetrisMaze.generate.
  pose proof (generate_tetris_grid_maze s r) as E1.
  destruct (TetrisMaze.generate_tetris_grid s r) as [s1 r1]. cbn [fst] in E1.
  destruct (TetrisMaze.tetris_to_tiles s1 r1) as [[[tg tw] th] r2].
  pose proof (create_tunnels_maze (TetrisMaze.apply_size_adjustments s1 tg tw th) r2) as E2.
  destruct (TetrisMaze.create_tunnels _ r2) as [s4 r4]. cbn [fst] in E2.
  exists (TetrisMaze.convert_to_paths s4). cbn. rewrite E2. cbn. rewrite E1. auto.
Qed.

(** X22. [convert_to_walls] never leaves two touching tiles empty: each
    empty tile it writes is walled again by a later empty neighbour, so in
    its result no tile equal to 0 has another 0 among its eight
    neighbours, whatever the grid it starts from. *)
Theorem convert_to_walls_isolates_openings (s : TetrisMaze.t) x y x' y' :
  let g := TetrisMaze.tile_grid (TetrisMaze.convert_to_walls s) in
  0 <= x < TetrisMaze.width s -> 0 <= y < TetrisMaze.height s ->
  0 <= x' < TetrisMaze.width s -> 0 <= y' < TetrisMaze.height s ->
  -1 <= x' - x <= 1 -> -1 <= y' - y <= 1 -> (x, y) <> (x', y') ->
  grid_get 0 g x y = 0 -> grid_get 0 g x' y' = 1.
Proof.
  intros g Hx Hy Hx' Hy' Hdx Hdy Hne H0.
  destruct (convert_to_walls_isolated s) as [_ Hiso].
  assert (grid_get 0 g x' y' <> 0) as Hnz
    by (apply (Hiso (x, y) (x', y')); cbn [fst snd]; auto;
        split; [|split]; cbn [fst snd]; auto).
  (* every tile of the result is 0 or 1 *)
  assert (forall a b, 0 <= a < TetrisMaze.width s -> 0 <= b < TetrisMaze.height s ->
                      grid_get 0 g a b = 0 \/ grid_get 0 g a b = 1) as Hbin.
  { unfold g. rewrite convert_to_walls_eq.
    set (w := TetrisMaze.width s). set (h := TetrisMaze.height s).
    generalize (fold_left
      (fun fg p =>
         if grid_get 0 (TetrisMaze.tile_grid s) (fst p) (snd p) =? 1
         then grid_set fg (fst p) (snd p) 0 else fg) (range2 w h) (grid_make w h 1)) as fg.
    intros fg.
    assert (forall l wg, (forall p, p ∈ l -> 0 <= fst p < w /\ 0 <= snd p < h) ->
              grid_dims w h wg /\
              (forall a b, 0 <= a < w -> 0 <= b < h ->
                           grid_get 0 wg a b = 0 \/ grid_get 0 wg a b = 1) ->
              forall a b, 0 <= a < w -> 0 <= b < h ->
                grid_get 0 (fold_left (mark_tile w h fg) l wg) a b = 0 \/
                grid_get 0 (fold_left (mark_tile w h fg) l wg) a b = 1) as Hfold.
    { induction l as [|p l IH]; intros wg Hl [Hg Hwg]; [assumption|].
      cbn [fold_left]. apply IH; [intros q Hq; apply Hl; now right|].
      destruct (Hl p) as [Hpx Hpy]; [left|]. destruct p as [px py]. cbn [fst snd] in *.
      unfold mark_tile. case_if; [|auto].
      pose proof (grid_set_dims w h wg px py 0 Hg) as Hg0.
      split; [now apply fold_mark_dims|].
      assert (forall os wg0, grid_dims w h wg0 ->
                (forall a b, 0 <= a < w -> 0 <= b < h ->
                             grid_get 0 wg0 a b = 0 \/ grid_get 0 wg0 a b = 1) ->
                forall a b, 0 <= a < w -> 0 <= b < h ->
                  grid_get 0 (fold_left (mark_neighbour w h px py) os wg0) a b = 0 \/
                  grid_get 0 (fold_left (mark_neighbour w h px py) os wg0) a b = 1) as Hin.
      { induction os as [|o os IHo]; intros wg0 Hg1 Hb; [assumption|].
        cbn [fold_left]. apply IHo.
        - unfold mark_neighbour. case_if; [now apply grid_set_dims|assumption].
        - intros a b Ha Hb'. unfold mark_neighbour. case_if; [|auto]. bool_hyps.
          match goal with H : TetrisMaze.inside _ _ _ _ = true |- _ => apply inside_iff in H end.
          rewrite (grid_get_set 0 w h) by (auto; lia). case_if; auto. }
      apply Hin; [assumption|].
      intros a b Ha Hb. rewrite (grid_get_set 0 w h) by (auto; lia). case_if; auto. }
    apply Hfold.
    - intros p. apply elem_of_range2.
    - split; [apply grid_make_dims|]. intros a b Ha Hb. right. now apply grid_get_make. }
  destruct (Hbin x' y' Hx' Hy'); [contradiction|assumption].
Qed.

Lemma convert_to_walls_isolates_openings_witness :
  exists s0 s,
    TetrisMaze.init = Ok s0 /\
    s = TetrisMaze.with_tile_grid s0
          (grid_set (grid_set (TetrisMaze.tile_grid s0) 3 3 1) 4 3 1) /\
    grid_get 0 (TetrisMaze.tile_grid (TetrisMaze.convert_to_walls s)) 4 3 = 0 /\
    grid_get 0 (TetrisMaze.tile_grid (TetrisMaze.convert_to_walls s)) 3 3 = 1.
Proof.
  eexists. eexists. split; [reflexivity|]. split; [reflexivity|].
  match goal with
  | |- ?a = 0 /\ _ => assert (a = 0) as H0 by (vm_compute; reflexivity)
  end.
  split; [exact H0|].
  refine (convert_to_walls_isolates_openings _ 4 3 3 3 _ _ _ _ _ _ _ H0);
    try (cbn; lia). discriminate.
Defined.

(** ** The maze of the piece pipeline *)

(** A maze in which every cell has its four walls and no flag set. *)
Definition fully_walled (m : Maze.t) : Prop :=
  forall q, in_bounds m q ->
    Cell.walls (cell_at m q) = DirSet.of_list Direction.all /\
    Cell.is_intersection (cell_at m q) = false /\
    Cell.is_dead_end (cell_at m q) = false.

Lemma tetris_generate_fully_walled {R} `{Random R} (s : TetrisMaze.t) (r : R) :
  TetrisMaze.init = Ok s ->
  let m := TetrisMaze.maze (fst (TetrisMaze.generate s r)) in
  wf m /\ width m = 28 /\ height m = 31 /\ fully_walled m.
Proof.
  intros Hs m. destruct (tetris_init_Ok s Hs) as (Hwf & Hw & Hh & Hwrap & _).
  destruct (tetris_generate_tiles s r) as (s' & Em & _ & Hm). fold m in Hm.
  destruct (convert_to_walls_isolated s') as [_ Hiso].
  unfold TetrisMaze.width, TetrisMaze.height in Hiso. rewrite Em in Hiso.
  rewrite (bridge_isolated _ _ Hwf Hwrap Hiso) in Hm.
  pose proof (wall_all_frame (TetrisMaze.maze s)) as F1.
  pose proof (analyze_cells_frame (TetrisMaze.wall_all (TetrisMaze.maze s))) as F2.
  rewrite <- Hm in F2. pose proof (same_frame_trans _ _ _ F1 F2) as F.
  assert (wf (TetrisMaze.wall_all (TetrisMaze.maze s))) as Hwf1 by now apply F1.
  split; [now apply F|]. destruct F as (Fw & Fh & _).
  split; [congruence|]. split; [congruence|].
  intros q Hq.
  assert (in_bounds (TetrisMaze.wall_all (TetrisMaze.maze s)) q) as Hq1.
  { apply (same_frame_in_bounds _ _ _ F1). unfold in_bounds in *. now rewrite <- Fw, <- Fh. }
  assert (Cell.walls (cell_at (TetrisMaze.wall_all (TetrisMaze.maze s)) q)
          = DirSet.of_list Direction.all) as Ew.
  { apply DirSet_ext. intros d. rewrite mem_full.
    apply (has_wall_wall_all (TetrisMaze.maze s) q d Hwf).
    now apply (same_frame_in_bounds _ _ _ F1). }
  rewrite Hm. unfold _analyze_cells. rewrite cell_at_update_all by assumption.
  unfold analyze_cell, Cell.exit_count. rewrite Ew. auto.
Qed.

(** X23. The maze [TetrisMaze.generate] returns has every wall of every
    cell in place, whatever the random draws: the tile grid that reaches
    the conversion never has two adjacent empty tiles, so no wall between
    two cells is ever removed.  No cell is classified as intersection or
    dead end and the cell graph has no edge. *)
Theorem tetris_maze_fully_walled {R} `{Random R} (s : TetrisMaze.t) (r : R) x y d :
  TetrisMaze.init = Ok s ->
  0 <= x < 28 -> 0 <= y < 31 ->
  let m := TetrisMaze.maze (fst (TetrisMaze.generate s r)) in
  has_wall m (x, y) d = true /\
  exit_count m (x, y) = 0 /\
  Cell.is_intersection (cell_at m (x, y)) = false /\
  Cell.is_dead_end (cell_at m (x, y)) = false /\
  graph_get (get_cell_graph m) (x, y) = Some [].
Proof.
  intros Hs Hx Hy m.
  destruct (tetris_generate_fully_walled s r Hs) as (Hwf & Hw & Hh & Hfull). fold m in Hwf, Hw, Hh, Hfull.
  assert (in_bounds m (x, y)) as Hb by (unfold in_bounds; cbn [fst snd]; lia).
  destruct (Hfull (x, y) Hb) as (Ew & Ei & Ed).
  split; [unfold has_wall, Cell.has_wall; rewrite Ew; apply mem_full|].
  split; [unfold exit_count, Cell.exit_count; now rewrite Ew|].
  split; [assumption|]. split; [assumption|].
  rewrite graph_get_cell_graph.
  destruct (decide ((x, y) ∈ positions m)) as [|Hn];
    [|exfalso; apply Hn; now apply elem_of_positions].
  f_equal. unfold open_neighbors, has_wall, Cell.has_wall. rewrite Ew. reflexivity.
Qed.

Lemma tetris_maze_fully_walled_witness :
  exists s,
    TetrisMaze.init = Ok s /\
    has_wall (TetrisMaze.maze (fst (TetrisMaze.generate s ([1; 0; 2; 0; 0; 3] : list nat)%nat)))
      (13, 14) Direction.RIGHT = true.
Proof.
  eexists. split; [reflexivity|].
  refine (proj1 (tetris_maze_fully_walled _ [1; 0; 2; 0; 0; 3]%nat 13 14 Direction.RIGHT
                   eq_refl _ _)); lia.
Defined.

Lemma stats_cell_walled m s p :
  Cell.walls (cell_at m p) = DirSet.of_list Direction.all ->
  Cell.is_intersection (cell_at m p) = false ->
  Cell.is_dead_end (cell_at m p) = false ->
  stats_cell m s p
  = mk_stats (total_cells s) (intersections s) (dead_ends s) (corridors s + 1)
      (total_walls s + 4) (walls_i s + 1) (walls_l s) (walls_t s) (walls_plus s).
Proof.
  unfold stats_cell. destruct (cell_at m p) as [w v i e].
  cbn [Cell.walls Cell.is_intersection Cell.is_dead_end]. intros -> -> ->. reflexivity.
Qed.

Lemma stats_fold_walled m l s :
  fully_walled m -> (forall p, p ∈ l -> in_bounds m p) ->
  fold_left (stats_cell m) l s
  = mk_stats (total_cells s) (intersections s) (dead_ends s)
      (corridors s + Z.of_nat (length l)) (total_walls s + 4 * Z.of_nat (length l))
      (walls_i s + Z.of_nat (length l)) (walls_l s) (walls_t s) (walls_plus s).
Proof.
  intros Hfull. revert s. induction l as [|p l IH]; intros s Hl.
  - destruct s. cbn. f_equal; lia.
  - cbn [fold_left]. rewrite IH by (intros q Hq; apply Hl; now right).
    destruct (Hfull p) as (Ew & Ei & Ed); [apply Hl; left|].
    rewrite stats_cell_walled by assumption. cbn [length].
    cbn [total_cells intersections dead_ends corridors total_walls walls_i walls_l
         walls_t walls_plus].
    f_equal; lia.
Qed.

Lemma simple_line_walled m y :
  fully_walled m -> 0 <= y < height m ->
  simple_line m y = string_of_list_ascii (replicate (Z.to_nat (width m)) "#"%char).
Proof.
  intros Hfull Hy. rewrite simple_line_eq. f_equal.
  assert (forall l, (forall x, x ∈ l -> 0 <= x < width m) ->
            List.map (fun x => simple_char (cell_at m (x, y))) l
            = replicate (length l) "#"%char) as Hl.
  { induction l as [|x l IH]; intros Hin; [reflexivity|].
    cbn [List.map length replicate]. rewrite IH by (intros x' Hx'; apply Hin; now right).
    f_equal. destruct (Hfull (x, y)) as (Ew & _).
    - split; cbn [fst snd]; [apply Hin; left|assumption].
    - unfold simple_char, Cell.wall_count. now rewrite Ew. }
  rewrite Hl, length_seqZ; [reflexivity|].
  intros x Hx. apply elem_of_seqZ in Hx. lia.
Qed.

(** X24. What the observers report on the maze of the piece pipeline: for
    every random source, [get_statistics] counts 868 cells, all of them
    corridors with four walls (3472 walls, no intersection, no dead end,
    868 cells of shape I), and every line of [to_simple_string] is a row
    of 28 ['#']. *)
Theorem tetris_maze_observers {R} `{Random R} (s : TetrisMaze.t) (r : R) y :
  TetrisMaze.init = Ok s -> 0 <= y < 31 ->
  let m := TetrisMaze.maze (fst (TetrisMaze.generate s r)) in
  get_statistics m = mk_stats 868 0 0 868 3472 868 0 0 0 /\
  length (simple_lines m) = 31%nat /\
  simple_lines m !! Z.to_nat y = Some (string_of_list_ascii (replicate 28 "#"%char)).
Proof.
  intros Hs Hy m.
  destruct (tetris_generate_fully_walled s r Hs) as (Hwf & Hw & Hh & Hfull).
  fold m in Hwf, Hw, Hh, Hfull. split; [|split].
  - unfold get_statistics. rewrite stats_fold_walled;
      [|assumption|intros p; apply elem_of_positions].
    rewrite length_positions, Hw, Hh. reflexivity.
  - unfold simple_lines. now rewrite length_map, length_seqZ, Hh.
  - unfold simple_lines. rewrite lookup_map_seqZ by lia.
    rewrite simple_line_walled by (auto; lia). now rewrite Hw.
Qed.

Lemma tetris_maze_observers_witness :
  exists s,
    TetrisMaze.init = Ok s /\
    total_walls (get_statistics
      (TetrisMaze.maze (fst (TetrisMaze.generate s ([1; 0; 2; 0; 0; 3] : list nat)%nat))))
    = 3472.
Proof.
  eexists. split; [reflexivity|].
  refine (f_equal total_walls
            (proj1 (tetris_maze_observers _ [1; 0; 2; 0; 0; 3]%nat 0 eq_refl _))); lia.
Defined.

(** ** From pieces to tiles *)

(** Guarded writes of one value, as the loops of [tetris_to_tiles] make. *)
Definition write_all {A} (c : A -> bool) (fx fy : A -> Z) (v : Z) (l : list A)
    (g : list (list Z)) : list (list Z) :=
  fold_left (fun g q => TetrisMaze.set_when (c q) g (fx q) (fy q) v) l g.

Lemma set_when_dims w h (c : bool) g x y v :
  grid_dims w h g -> grid_dims w h (TetrisMaze.set_when c g x y v).
Proof. intros Hg. unfold TetrisMaze.set_when. destruct c; [now apply grid_set_dims|assumption]. Qed.

Lemma write_all_dims {A} w h (c : A -> bool) fx fy v l g :
  grid_dims w h g -> grid_dims w h (write_all c fx fy v l g).
Proof.
  revert g. induction l as [|q l IH]; intros g Hg; [assumption|].
  cbn [write_all fold_left]. apply IH. now apply set_when_dims.
Qed.

Lemma write_all_cases {A} w h (c : A -> bool) fx fy v l g a b :
  (forall q, q ∈ l -> c q = true -> 0 <= fx q < w /\ 0 <= fy q < h) ->
  grid_dims w h g -> 0 <= a -> 0 <= b ->
  grid_get 0 (write_all c fx fy v l g) a b = grid_get 0 g a b \/
  ((exists q, q ∈ l /\ c q = true /\ fx q = a /\ fy q = b) /\
   grid_get 0 (write_all c fx fy v l g) a b = v).
Proof.
  intros Hl Hg Ha Hb. revert g Hg. induction l as [|q l IH]; intros g Hg; [now left|].
  cbn [write_all fold_left].
  fold (write_all c fx fy v l (TetrisMaze.set_when (c q) g (fx q) (fy q) v)).
  pose proof (set_when_dims w h (c q) g (fx q) (fy q) v Hg) as Hg'.
  assert (forall q', q' ∈ l -> c q' = true -> 0 <= fx q' < w /\ 0 <= fy q' < h) as Hl'
    by (intros q0 Hq0; apply Hl; now right).
  assert (c q = true -> 0 <= fx q < w /\ 0 <= fy q < h) as Hq by (apply Hl; left).
  destruct (IH Hl' _ Hg') as [E|[(q' & Hin & Hq') E]].
  - rewrite E. unfold TetrisMaze.set_when. destruct (c q) eqn:Ec; [|now left].
    destruct (Hq eq_refl) as [Hx Hy].
    rewrite (grid_get_set 0 w h) by (auto; lia).
    destruct ((fx q =? a) && (fy q =? b)) eqn:E'; [|now left].
    right. bool_hyps. split; [|reflexivity]. exists q. split; [left|auto].
  - right. split; [|assumption]. exists q'. split; [now right|assumption].
Qed.

Lemma write_all_hit {A} w h (c : A -> bool) fx fy v l g a b :
  (forall q, q ∈ l -> c q = true -> 0 <= fx q < w /\ 0 <= fy q < h) ->
  grid_dims w h g -> 0 <= a -> 0 <= b ->
  (exists q, q ∈ l /\ c q = true /\ fx q = a /\ fy q = b) ->
  grid_get 0 (write_all c fx fy v l g) a b = v.
Proof.
  intros Hl Hg Ha Hb. revert g Hg.
  induction l as [|q l IH]; intros g Hg (q' & Hin & Hc & Ea & Eb); [inversion Hin|].
  cbn [write_all fold_left].
  fold (write_all c fx fy v l (TetrisMaze.set_when (c q) g (fx q) (fy q) v)).
  pose proof (set_when_dims w h (c q) g (fx q) (fy q) v Hg) as Hg'.
  assert (forall q', q' ∈ l -> c q' = true -> 0 <= fx q' < w /\ 0 <= fy q' < h) as Hl'
    by (intros q0 Hq0; apply Hl; now right).
  apply elem_of_cons in Hin as [->|Hin]; [|apply IH; eauto].
  destruct (write_all_cases w h c fx fy v l _ a b Hl' Hg' Ha Hb) as [E|[_ E]]; [|assumption].
  rewrite E. unfold TetrisMaze.set_when. rewrite Hc.
  destruct (Hl q) as [Hx Hy]; [left|assumption|]. rewrite <- Ea, <- Eb.
  now apply (grid_get_set_eq 0 w h).
Qed.

(** [(a, b)] is one of the nine tiles of piece [(tx, ty)]. *)
Definition in_block (tx ty a b : Z) : Prop :=
  3 * tx <= a < 3 * tx + 3 /\ 3 * ty <= b < 3 * ty + 3.

(** [g'] is [g] with some tiles of a block set to 0. *)
Definition zeroes_in (w h tx ty : Z) (g g' : list (list Z)) : Prop :=
  grid_dims w h g' /\
  forall a b, 0 <= a < w -> 0 <= b < h ->
    grid_get 0 g' a b = grid_get 0 g a b \/ (in_block tx ty a b /\ grid_get 0 g' a b = 0).

Lemma zeroes_in_refl w h tx ty g : grid_dims w h g -> zeroes_in w h tx ty g g.
Proof. intros Hg. split; [assumption|]. now left. Qed.

Lemma zeroes_in_trans w h tx ty g1 g2 g3 :
  zeroes_in w h tx ty g1 g2 -> zeroes_in w h tx ty g2 g3 -> zeroes_in w h tx ty g1 g3.
Proof.
  intros [_ H12] [Hg H23]. split; [assumption|]. intros a b Ha Hb.
  destruct (H23 a b Ha Hb) as [E|?]; [|now right]. rewrite E. now apply H12.
Qed.

Lemma zeroes_in_write {A} w h tx ty (c : A -> bool) fx fy l g :
  grid_dims w h g ->
  (forall q, q ∈ l -> c q = true ->
     (0 <= fx q < w /\ 0 <= fy q < h) /\ in_block tx ty (fx q) (fy q)) ->
  zeroes_in w h tx ty g
    (fold_left (fun g q => TetrisMaze.set_when (c q) g (fx q) (fy q) 0) l g).
Proof.
  intros Hg. revert g Hg. induction l as [|q l IH]; intros g Hg Hl.
  - now apply zeroes_in_refl.
  - cbn [fold_left]. eapply zeroes_in_trans; [|apply IH].
    + unfold TetrisMaze.set_when. destruct (c q) eqn:Ec; [|now apply zeroes_in_refl].
      destruct (Hl q) as [[Hx Hy] Hb]; [left|assumption|].
      split; [now apply grid_set_dims|]. intros a b Ha Hb'.
      rewrite (grid_get_set 0 w h) by (auto; lia).
      destruct ((fx q =? a) && (fy q =? b)) eqn:E; [|now left].
      right. bool_hyps. subst. auto.
    + unfold TetrisMaze.set_when. destruct (c q); [now apply grid_set_dims|assumption].
    + intros q' Hq'. apply Hl. now right.
Qed.

Lemma zeroes_in_set_when w h tx ty (c : bool) g x y :
  grid_dims w h g ->
  (c = true -> (0 <= x < w /\ 0 <= y < h) /\ in_block tx ty x y) ->
  zeroes_in w h tx ty g (TetrisMaze.set_when c g x y 0).
Proof.
  intros Hg Hc.
  apply (zeroes_in_write w h tx ty (fun _ : unit => c) (fun _ => x) (fun _ => y) [tt] g Hg).
  intros _ _. exact Hc.
Qed.

(** The piece at [(tx, ty)] is the solid one. *)
Definition is_square (pieces : list (list (option TetrisPiece.t))) (p : Z * Z) : bool :=
  match grid_get None pieces (fst p) (snd p) with
  | Some TetrisPiece.SQUARE => true
  | _ => false
  end.

Lemma zeroes_in_then_write {A} w h tx ty (c : A -> bool) fx fy l g g1 :
  zeroes_in w h tx ty g g1 ->
  (forall q, q ∈ l -> c q = true ->
     (0 <= fx q < w /\ 0 <= fy q < h) /\ in_block tx ty (fx q) (fy q)) ->
  zeroes_in w h tx ty g
    (fold_left (fun g q => TetrisMaze.set_when (c q) g (fx q) (fy q) 0) l g1).
Proof.
  intros H01 Hl. eapply zeroes_in_trans; [exact H01|].
  apply zeroes_in_write; [apply H01|assumption].
Qed.

Lemma zeroes_in_then_set w h tx ty (c : bool) g g1 x y :
  zeroes_in w h tx ty g g1 ->
  (c = true -> (0 <= x < w /\ 0 <= y < h) /\ in_block tx ty x y) ->
  zeroes_in w h tx ty g (TetrisMaze.set_when c g1 x y 0).
Proof.
  intros H01 Hc. eapply zeroes_in_trans; [exact H01|].
  apply zeroes_in_set_when; [apply H01|assumption].
Qed.

Ltac block_side :=
  unfold in_block; cbn [fst snd]; intros;
  repeat match goal with
    | H : _ ∈ seqZ _ _ |- _ => apply elem_of_seqZ in H
    end;
  bool_hyps; lia.

(** Peel the writes of a piece, last one first. *)
Ltac peel :=
  lazymatch goal with
  | |- zeroes_in _ _ _ _ ?g ?g => apply zeroes_in_refl; assumption
  | |- zeroes_in _ _ _ _ _ (fold_left _ _ _) =>
      apply zeroes_in_then_write; [peel|block_side]
  | |- zeroes_in _ _ _ _ _ (TetrisMaze.set_when _ _ _ _ _) =>
      apply zeroes_in_then_set; [peel|block_side]
  end.

(** A piece other than the solid one only writes 0, inside its block. *)
Lemma expand_piece_open {R} `{Random R} bw bh pieces g (r : R) tx ty :
  0 <= tx < bw -> 0 <= ty < bh -> grid_dims (bw * 3) (bh * 3) g ->
  is_square pieces (tx, ty) = false ->
  zeroes_in (bw * 3) (bh * 3) tx ty g
    (fst (TetrisMaze.expand_piece (bw * 3) (bh * 3) pieces (g, r) (tx, ty))).
Proof.
  intros Hx Hy Hg Hsq. unfold is_square in Hsq. cbn [fst snd] in Hsq.
  unfold TetrisMaze.expand_piece.
  destruct (grid_get None pieces tx ty) as [[| | | |]|]; try discriminate.
  - (* I *)
    destruct (random_lt_05 r) as [[] r']; cbn [fst]; peel.
  - (* L *)
    destruct (random_choice_of _ _ _) as [o r'].
    destruct o; cbv beta iota zeta; cbn [fst]; peel.
  - (* T *)
    destruct (random_choice_of _ _ _) as [dirs r'].
    cbv beta iota zeta; cbn [fst]; peel.
  - (* PLUS *)
    cbv beta iota zeta; cbn [fst]; peel.
  - (* no piece *)
    cbn [fst]. now apply zeroes_in_refl.
Qed.

(** The solid piece writes 1 over its whole block and nothing else. *)
Lemma expand_piece_square {R} `{Random R} bw bh pieces g (r : R) tx ty :
  0 <= tx < bw -> 0 <= ty < bh -> grid_dims (bw * 3) (bh * 3) g ->
  is_square pieces (tx, ty) = true ->
  let g' := fst (TetrisMaze.expand_piece (bw * 3) (bh * 3) pieces (g, r) (tx, ty)) in
  grid_dims (bw * 3) (bh * 3) g' /\
  forall a b, 0 <= a < bw * 3 -> 0 <= b < bh * 3 ->
    (in_block tx ty a b /\ grid_get 0 g' a b = 1) \/
    (~ in_block tx ty a b /\ grid_get 0 g' a b = grid_get 0 g a b).
Proof.
  intros Hx Hy Hg Hsq. unfold is_square in Hsq. cbn [fst snd] in Hsq.
  unfold TetrisMaze.expand_piece.
  destruct (grid_get None pieces tx ty) as [[| | | |]|]; try discriminate.
  cbn [fst].
  change (fold_left _ (range2 3 3) g)
    with (write_all (fun q => (tx * 3 + fst q <? bw * 3) && (ty * 3 + snd q <? bh * 3))
            (fun q => tx * 3 + fst q) (fun q => ty * 3 + snd q) 1 (range2 3 3) g).
  assert (forall q, q ∈ range2 3 3 ->
            (tx * 3 + fst q <? bw * 3) && (ty * 3 + snd q <? bh * 3) = true ->
            0 <= tx * 3 + fst q < bw * 3 /\ 0 <= ty * 3 + snd q < bh * 3) as Hl.
  { intros q Hq Hc. apply elem_of_range2 in Hq. bool_hyps. lia. }
  split; [now apply write_all_dims|]. intros a b Ha Hb.
  assert (in_block tx ty a b \/ ~ in_block tx ty a b) as [Hin|Hout]
    by (unfold in_block; lia).
  - left. split; [assumption|].
    apply (write_all_hit (bw * 3) (bh * 3)); auto; try lia.
    exists (a - tx * 3, b - ty * 3). cbn [fst snd]. unfold in_block in Hin.
    split; [apply elem_of_range2; cbn [fst snd]; lia|].
    split; [|lia]. apply andb_true_iff. rewrite !Z.ltb_lt. lia.
  - right. split; [assumption|].
    destruct (write_all_cases (bw * 3) (bh * 3) _ _ _ 1 (range2 3 3) g a b Hl Hg
                ltac:(lia) ltac:(lia))
      as [E|[(q & Hq & _ & Ea & Eb) _]]; [exact E|].
    exfalso. apply Hout. apply elem_of_range2 in Hq. unfold in_block. lia.
Qed.

(** The invariant of [tetris_to_tiles]: a tile is 1 when its piece has been
    expanded and is the solid one, and 0 otherwise. *)
Definition tiles_inv (bw bh : Z) (pieces : list (list (option TetrisPiece.t)))
    (g : list (list Z)) (D : Z * Z -> Prop) : Prop :=
  grid_dims (bw * 3) (bh * 3) g /\
  forall a b, 0 <= a < bw * 3 -> 0 <= b < bh * 3 ->
    (grid_get 0 g a b = 1 /\
     exists p, D p /\ in_block (fst p) (snd p) a b /\ is_square pieces p = true) \/
    (grid_get 0 g a b = 0 /\
     forall p, D p -> in_block (fst p) (snd p) a b -> is_square pieces p = false).

Lemma tiles_inv_step {R} `{Random R} bw bh pieces g (r : R) (D : Z * Z -> Prop) p :
  0 <= fst p < bw -> 0 <= snd p < bh -> ~ D p ->
  tiles_inv bw bh pieces g D ->
  tiles_inv bw bh pieces
    (fst (TetrisMaze.expand_piece (bw * 3) (bh * 3) pieces (g, r) p))
    (fun q => q = p \/ D q).
Proof.
  intros Hx Hy Hnew [Hg Hinv]. destruct p as [tx ty]. cbn [fst snd] in *.
  assert (forall q a b, in_block (fst q) (snd q) a b -> in_block tx ty a b -> q = (tx, ty))
    as Huniq.
  { intros [qx qy] a b. unfold in_block. cbn [fst snd]. intros H1 H2. f_equal; lia. }
  destruct (is_square pieces (tx, ty)) eqn:Hsq.
  - destruct (expand_piece_square bw bh pieces g r tx ty Hx Hy Hg Hsq) as [Hg' Hsp].
    split; [assumption|]. intros a b Ha Hb.
    destruct (Hsp a b Ha Hb) as [[Hin E]|[Hout E]].
    + left. split; [assumption|]. exists (tx, ty). auto.
    + rewrite E. destruct (Hinv a b Ha Hb) as [[E1 (q & Hq & Hb1 & Hs)]|[E0 Hall]].
      * left. split; [assumption|]. exists q. auto.
      * right. split; [assumption|]. intros q [->|Hq] Hb1; [contradiction|].
        now apply Hall.
  - destruct (expand_piece_open bw bh pieces g r tx ty Hx Hy Hg Hsq) as [Hg' Hsp].
    split; [assumption|]. intros a b Ha Hb.
    destruct (Hsp a b Ha Hb) as [E|[Hin E]].
    + rewrite E. destruct (Hinv a b Ha Hb) as [[E1 (q & Hq & Hb1 & Hs)]|[E0 Hall]].
      * left. split; [assumption|]. exists q. auto.
      * right. split; [assumption|]. intros q [->|Hq] Hb1; [assumption|].
        now apply Hall.
    + right. split; [assumption|]. intros q [->|Hq] Hb1; [assumption|].
      exfalso. apply Hnew. now rewrite <- (Huniq q a b Hb1 Hin).
Qed.

Lemma tiles_inv_equiv bw bh pieces g (D D' : Z * Z -> Prop) :
  (forall p, D p <-> D' p) -> tiles_inv bw bh pieces g D -> tiles_inv bw bh pieces g D'.
Proof.
  intros HD [Hg Hinv]. split; [assumption|]. intros a b Ha Hb.
  destruct (Hinv a b Ha Hb) as [[E (q & Hq & Hr)]|[E Hall]].
  - left. split; [assumption|]. exists q. split; [now apply HD|assumption].
  - right. split; [assumption|]. intros q Hq. apply Hall. now apply HD.
Qed.

Lemma tiles_inv_fold {R} `{Random R} bw bh pieces l g (r : R) (D : Z * Z -> Prop) :
  NoDup l -> (forall p, p ∈ l -> 0 <= fst p < bw /\ 0 <= snd p < bh /\ ~ D p) ->
  tiles_inv bw bh pieces g D ->
  tiles_inv bw bh pieces
    (fst (fold_left (TetrisMaze.expand_piece (bw * 3) (bh * 3) pieces) l (g, r)))
    (fun q => q ∈ l \/ D q).
Proof.
  intros Hnd. revert g r D. induction Hnd as [|p l Hp Hnd IH]; intros g r D Hl Hinv.
  - cbn [fold_left fst]. eapply tiles_inv_equiv; [|exact Hinv].
    intros q. split; [now right|]. intros [Hq|?]; [inversion Hq|assumption].
  - cbn [fold_left].
    destruct (Hl p) as (Hx & Hy & Hnew); [left|].
    pose proof (tiles_inv_step bw bh pieces g r D p Hx Hy Hnew Hinv) as Hstep.
    destruct (TetrisMaze.expand_piece _ _ _ (g, r) p) as [g' r']. cbn [fst] in Hstep.
    eapply tiles_inv_equiv; [|apply (IH g' r' (fun q => q = p \/ D q))].
    + intros q. rewrite elem_of_cons. tauto.
    + intros q Hq. destruct (Hl q) as (Hqx & Hqy & HqD); [now right|].
      split; [assumption|]. split; [assumption|]. intros [->|?]; [contradiction|contradiction].
    + exact Hstep.
Qed.

Lemma NoDup_range2 w h : NoDup (range2 w h).
Proof.
  unfold range2. apply NoDup_bind.
  - intros x1 x2 p _ _ H1 H2.
    apply list_elem_of_bind in H1 as (y1 & E1 & _), H2 as (y2 & E2 & _).
    apply list_elem_of_singleton in E1, E2. congruence.
  - intros x _. apply NoDup_bind.
    + intros y1 y2 p _ _ H1 H2. apply list_elem_of_singleton in H1, H2. congruence.
    + intros. apply NoDup_singleton.
    + apply NoDup_seqZ.
  - apply NoDup_seqZ.
Qed.

(** X25. [tetris_to_tiles] ignores the random orientation of the pieces:
    the grid it returns has [3 * base_width] by [3 * base_height] tiles, and
    a tile is 1 exactly when the piece of its 3 x 3 block is [SQUARE] and 0
    for every other piece, the draws made for the pieces I, L and T
    notwithstanding. *)
Theorem tetris_to_tiles_ignores_orientation {R} `{Random R} (s : TetrisMaze.t) (r : R)
    tx ty dx dy :
  0 <= tx < TetrisMaze.base_width s -> 0 <= ty < TetrisMaze.base_height s ->
  0 <= dx < 3 -> 0 <= dy < 3 ->
  let '(temp_grid, temp_width, temp_height, _) := TetrisMaze.tetris_to_tiles s r in
  temp_width = TetrisMaze.base_width s * 3 /\
  temp_height = TetrisMaze.base_height s * 3 /\
  grid_dims temp_width temp_height temp_grid /\
  grid_get 0 temp_grid (3 * tx + dx) (3 * ty + dy)
  = match grid_get None (TetrisMaze.tetris_grid s) tx ty with
    | Some TetrisPiece.SQUARE => 1
    | _ => 0
    end.
Proof.
  intros Hx Hy Hdx Hdy. unfold TetrisMaze.tetris_to_tiles.
  set (bw := TetrisMaze.base_width s) in *. set (bh := TetrisMaze.base_height s) in *.
  pose proof (tiles_inv_fold bw bh (TetrisMaze.tetris_grid s) (range2 bw bh)
                (grid_make (bw * 3) (bh * 3) 0) r (fun _ => False)) as Hfold.
  destruct (fold_left _ (range2 bw bh) (_, r)) as [g r'].
  cbn [fst] in Hfold. split; [reflexivity|]. split; [reflexivity|].
  destruct Hfold as [Hg Hinv].
  - apply NoDup_range2.
  - intros p Hp. apply elem_of_range2 in Hp. tauto.
  - split; [apply grid_make_dims|]. intros a b Ha Hb. right.
    split; [now apply grid_get_make|]. intros p [].
  - split; [assumption|].
    assert (in_block tx ty (3 * tx + dx) (3 * ty + dy)) as Hb by (unfold in_block; lia).
    fold (is_square (TetrisMaze.tetris_grid s) (tx, ty)).
    assert (match grid_get None (TetrisMaze.tetris_grid s) tx ty with
            | Some TetrisPiece.SQUARE => 1
            | _ => 0
            end = if is_square (TetrisMaze.tetris_grid s) (tx, ty) then 1 else 0) as ->.
    { unfold is_square. cbn [fst snd].
      now destruct (grid_get None (TetrisMaze.tetris_grid s) tx ty) as [[]|]. }
    destruct (Hinv (3 * tx + dx) (3 * ty + dy)) as [[E (q & _ & Hq & Hs)]|[E Hall]];
      try lia.
    + assert (q = (tx, ty)) as ->.
      { destruct q as [qx qy]. unfold in_block in *. cbn [fst snd] in *. f_equal; lia. }
      now rewrite Hs.
    + rewrite (Hall (tx, ty)); auto. left. apply elem_of_range2. cbn [fst snd]. lia.
Qed.

Lemma tetris_to_tiles_ignores_orientation_witness :
  exists s0 s,
    TetrisMaze.init = Ok s0 /\
    s = TetrisMaze.with_tetris_grid s0
          (grid_set (grid_make 5 9 (Some TetrisPiece.SQUARE)) 0 0 (Some TetrisPiece.L)) /\
    grid_get 0 (fst (fst (fst (TetrisMaze.tetris_to_tiles s ([3] : list nat)%nat)))) 1 2 = 0 /\
    grid_get 0 (fst (fst (fst (TetrisMaze.tetris_to_tiles s ([3] : list nat)%nat)))) 3 2 = 1.
Proof.
  eexists. eexists. split; [reflexivity|]. split; [reflexivity|].
  match goal with
  | |- grid_get 0 (fst (fst (fst (TetrisMaze.tetris_to_tiles ?s ?r)))) _ _ = _ /\ _ =>
      pose proof (tetris_to_tiles_ignores_orientation s r 0 0 1 2) as Hw;
      pose proof (tetris_to_tiles_ignores_orientation s r 1 0 0 2) as Hw';
      destruct (TetrisMaze.tetris_to_tiles s r) as [[[g tw] th] r']
  end.
  cbn [fst]. split.
  - refine (proj2 (proj2 (proj2 (Hw _ _ _ _)))); cbn; lia.
  - refine (proj2 (proj2 (proj2 (Hw' _ _ _ _)))); cbn; lia.
Defined.

(** ** The seed grid of pieces *)

Lemma place_piece_dims {R} `{Random R} (st : list (list (option TetrisPiece.t)) * R) p :
  grid_dims 5 9 (fst st) -> grid_dims 5 9 (fst (TetrisMaze.place_piece 5 st p)).
Proof.
  destruct st as [g r], p as [x y]. cbn [fst]. intros Hg. unfold TetrisMaze.place_piece.
  case_if; [assumption|]. destruct (TetrisMaze.draw_piece r) as [piece r'].
  case_if; cbn [fst]; repeat apply grid_set_dims; assumption.
Qed.

(** A cell handled by the random loop holds a piece afterwards, and left
    of the middle column its mirror image holds the same piece. *)
Lemma place_piece_mirrored {R} `{Random R} l
    (st : list (list (option TetrisPiece.t)) * R) x0 y0 :
  NoDup l -> (x0, y0) ∈ l ->
  (forall p, p ∈ l -> 0 <= fst p < 3 /\ 0 <= snd p < 9) ->
  ~ (x0 = 1 /\ (y0 = 6 \/ y0 = 7)) ->
  grid_dims 5 9 (fst st) ->
  let g := fst (fold_left (TetrisMaze.place_piece 5) l st) in
  (exists piece, grid_get None g x0 y0 = Some piece) /\
  grid_get None g (4 - x0) y0 = grid_get None g x0 y0.
Proof.
  intros Hnd. revert st. induction Hnd as [|p l Hp Hnd IH]; intros st Hin Hl Hfix Hg;
    [inversion Hin|].
  cbn [fold_left]. cbv zeta.
  pose proof (place_piece_dims st p Hg) as Hg1.
  assert (forall q, q ∈ l -> 0 <= fst q < 3 /\ 0 <= snd q < 9) as Hl'
    by (intros q Hq; apply Hl; now right).
  apply elem_of_cons in Hin as [<-|Hin]; [|now apply IH].
  destruct (Hl (x0, y0)) as [Hx Hy]; [left|]. cbn [fst snd] in Hx, Hy.
  (* the later iterations leave the cell and its mirror image alone *)
  assert (forall q, (q = (x0, y0) \/ q = (4 - x0, y0)) ->
            forallb (fun p => (0 <=? fst p) && (fst p <? 5) && (0 <=? snd p)
                              && untouched_by 5 q p) l = true) as Hun.
  { intros q Hq. apply forallb_forall. intros [px py] Hpin.
    apply list_elem_of_In in Hpin.
    destruct (Hl' _ Hpin) as [Hpx Hpy]. cbn [fst snd] in *.
    assert ((px, py) <> (x0, y0)) as Hne by (intros E; rewrite E in Hpin; contradiction).
    unfold untouched_by. cbn [fst snd]. change (5 / 2) with 2.
    apply andb_true_iff. split.
    { repeat (apply andb_true_iff; split); first [apply Z.leb_le|apply Z.ltb_lt]; lia. }
    apply orb_true_iff. right. apply andb_true_iff. split.
    - apply negb_true_iff, pos_eqb_neq. destruct Hq as [->| ->]; [assumption|].
      intros [= E1 E2]. apply Hne. f_equal; lia.
    - destruct (px <? 2) eqn:Epx; [|reflexivity]. cbn [negb orb].
      apply negb_true_iff, pos_eqb_neq. change (5 - 1 - px) with (4 - px).
      destruct Hq as [->| ->]; intros [= E1 E2]; [bool_hyps; lia|].
      apply Hne. f_equal; lia. }
  pose proof (fold_place_piece_untouched 5 l (TetrisMaze.place_piece 5 st (x0, y0)) (x0, y0))
    as E1.
  pose proof (fold_place_piece_untouched 5 l (TetrisMaze.place_piece 5 st (x0, y0))
                (4 - x0, y0)) as E2.
  cbn [fst snd] in E1, E2.
  rewrite E1, E2 by (first [lia|apply Hun; auto]). clear E1 E2.
  (* the iteration for the cell itself *)
  destruct st as [g r]. cbn [fst] in Hg. unfold TetrisMaze.place_piece.
  assert ((x0 =? 1) && ((y0 =? 6) || (y0 =? 7)) = false) as ->.
  { apply not_true_is_false. intros E. apply Hfix.
    apply andb_true_iff in E as [E1 E2]. apply orb_true_iff in E2.
    rewrite !Z.eqb_eq in *. auto. }
  destruct (TetrisMaze.draw_piece r) as [piece r']. change (5 / 2) with 2.
  change (5 - 1 - x0) with (4 - x0).
  pose proof (grid_set_dims 5 9 g x0 y0 (Some piece) Hg) as Hg2.
  destruct (x0 <? 2) eqn:Ex; cbn [fst]; bool_hyps.
  - rewrite !(grid_get_set None 5 9) by (auto; lia).
    rewrite Z.eqb_refl, !Z.eqb_refl. cbn [andb].
    destruct (Z.eqb_spec (4 - x0) x0); [lia|]. cbn [andb]. eauto.
  - assert (x0 = 2) as -> by lia. change (4 - 2) with 2.
    rewrite !(grid_get_set None 5 9) by (auto; lia).
    rewrite !Z.eqb_refl. cbn [andb]. eauto.
Qed.

(** X26. The seed grid [generate_tetris_grid] builds from a fresh
    [TetrisMaze] has a piece in each of its 5 x 9 cells, and is
    horizontally symmetric outside the two fixed cells of column 1 and
    their mirror images: the piece at [(4 - x, y)] is the piece at
    [(x, y)]. *)
Theorem seed_grid_filled_and_mirrored {R} `{Random R} (s : TetrisMaze.t) (r : R) x y :
  TetrisMaze.init = Ok s -> 0 <= x < 5 -> 0 <= y < 9 ->
  let g := TetrisMaze.tetris_grid (fst (TetrisMaze.generate_tetris_grid s r)) in
  (exists piece, grid_get None g x y = Some piece) /\
  (~ (y = 6 \/ y = 7) \/ (x <> 1 /\ x <> 3) ->
   grid_get None g (4 - x) y = grid_get None g x y).
Proof.
  intros [= <-] Hx Hy. unfold TetrisMaze.generate_tetris_grid.
  cbn [TetrisMaze.base_width TetrisMaze.base_height TetrisMaze.tetris_grid].
  change (5 / 2 + 1) with 3.
  match goal with
  | |- context [fold_left (TetrisMaze.place_piece 5) (range2 3 9) (?g1, r)] =>
      set (g0 := g1)
  end.
  assert (grid_dims 5 9 g0) as Hg0 by (split; [reflexivity|]; repeat constructor).
  assert (forall x0 y0, 0 <= x0 < 3 -> 0 <= y0 < 9 -> ~ (x0 = 1 /\ (y0 = 6 \/ y0 = 7)) ->
            let g := fst (fold_left (TetrisMaze.place_piece 5) (range2 3 9) (g0, r)) in
            (exists piece, grid_get None g x0 y0 = Some piece) /\
            grid_get None g (4 - x0) y0 = grid_get None g x0 y0) as Hrand.
  { intros x0 y0 Hx0 Hy0 Hfix. apply place_piece_mirrored; auto.
    - apply NoDup_range2.
    - apply elem_of_range2. cbn [fst snd]. lia.
    - intros p Hp. now apply elem_of_range2 in Hp. }
  assert (forall q, (fst q = 1 \/ fst q = 3) -> (snd q = 6 \/ snd q = 7) ->
            grid_get None (fst (fold_left (TetrisMaze.place_piece 5) (range2 3 9) (g0, r)))
              (fst q) (snd q)
            = grid_get None g0 (fst q) (snd q)) as Hfixed.
  { intros [qx qy] Hqx Hqy. cbn [fst snd] in *.
    apply (fold_place_piece_untouched 5 (range2 3 9) (g0, r) (qx, qy));
      cbn [fst snd]; try lia.
    destruct Hqx as [-> | ->], Hqy as [-> | ->]; vm_compute; reflexivity. }
  destruct (fold_left (TetrisMaze.place_piece 5) (range2 3 9) (g0, r)) as [g r'] eqn:E.
  cbn [fst TetrisMaze.with_tetris_grid TetrisMaze.tetris_grid] in *.
  assert (x = 1 /\ (y = 6 \/ y = 7) \/ x = 3 /\ (y = 6 \/ y = 7)
          \/ (x < 3 /\ ~ (x = 1 /\ (y = 6 \/ y = 7)))
          \/ (3 <= x /\ ~ (x = 3 /\ (y = 6 \/ y = 7)))) as Hcases by lia.
  destruct Hcases as [[-> Hy6]|[[-> Hy6]|[[Hlt Hfix]|[Hge Hfix]]]].
  - split; [|intros [?|[? _]]; [contradiction|congruence]].
    pose proof (Hfixed (1, y)) as Ef. cbn [fst snd] in Ef. rewrite Ef by auto.
    destruct Hy6 as [-> | ->]; eexists; vm_compute; reflexivity.
  - split; [|intros [?|[_ ?]]; [contradiction|congruence]].
    pose proof (Hfixed (3, y)) as Ef. cbn [fst snd] in Ef. rewrite Ef by auto.
    destruct Hy6 as [-> | ->]; eexists; vm_compute; reflexivity.
  - destruct (Hrand x y) as [Hp Hm]; [lia|lia|assumption|]. split; [exact Hp|]. intros _. exact Hm.
  - destruct (Hrand (4 - x) y) as [[piece Hp] Hm]; [lia|lia|lia|].
    replace (4 - (4 - x)) with x in Hm by lia. split.
    + exists piece. now rewrite Hm.
    + intros _. now rewrite Hm.
Qed.

Lemma seed_grid_filled_and_mirrored_witness :
  exists s,
    TetrisMaze.init = Ok s /\
    grid_get None
      (TetrisMaze.tetris_grid (fst (TetrisMaze.generate_tetris_grid s ([0; 1] : list nat)%nat)))
      (4 - 0) 3
    = grid_get None
        (TetrisMaze.tetris_grid (fst (TetrisMaze.generate_tetris_grid s ([0; 1] : list nat)%nat)))
        0 3.
Proof.
  eexists. split; [reflexivity|].
  refine (proj2 (seed_grid_filled_and_mirrored _ [0; 1]%nat 0 3 eq_refl _ _) _);
    [lia|lia|left; lia].
Defined.

(** ** main.py: building a maze *)

Lemma even_after_adjust a : (if negb (a mod 2 =? 0) then a + 1 else a) mod 2 = 0.
Proof.
  destruct (Z.eqb_spec (a mod 2) 0) as [E|E]; cbn [negb]; [assumption|].
  pose proof (Z.div_mod a 2). pose proof (Z.div_mod (a + 1) 2).
  pose proof (Z.mod_pos_bound a 2). pose proof (Z.mod_pos_bound (a + 1) 2). lia.
Qed.

Lemma init_even w h wr s :
  (Maze.needs_even_width s = true -> w mod 2 = 0) ->
  (Maze.needs_even_height s = true -> h mod 2 = 0) ->
  Maze.init w h wr s = Ok (Maze.mk w h wr s (fresh_cells w h)).
Proof.
  intros Hw Hh. unfold Maze.init.
  destruct (Maze.needs_even_width s); [rewrite Hw by reflexivity|]; cbn [andb negb];
    (destruct (Maze.needs_even_height s); [rewrite Hh by reflexivity|]); reflexivity.
Qed.

Lemma main_dimensions_shape symmetry width height wrap :
  let '(w, h) := Main.adjust_dimensions symmetry width height in
  Maze.init w h wrap symmetry = Ok (Maze.mk w h wrap symmetry (fresh_cells w h)) /\
  (w = width \/ w = width + 1) /\ (h = height \/ h = height + 1).
Proof.
  unfold Main.adjust_dimensions. split; [|split].
  - apply init_even.
    + intros ->. cbn [andb]. apply even_after_adjust.
    + intros ->. cbn [andb]. apply even_after_adjust.
  - destruct (_ && _); auto.
  - destruct (_ && _); auto.
Qed.

(** X27. The dimension adjustment of [main] makes the constructor succeed
    for every width, height and symmetry given on the command line: an odd
    dimension on a constrained axis is raised by one, the others are kept,
    and [Maze(...)] never raises [ValueError]. *)
Theorem main_dimensions_accepted symmetry width height wrap :
  let '(w, h) := Main.adjust_dimensions symmetry width height in
  Maze.init w h wrap symmetry = Ok (Maze.mk w h wrap symmetry (fresh_cells w h)) /\
  (w = width \/ w = width + 1 /\ width mod 2 <> 0) /\
  (h = height \/ h = height + 1 /\ height mod 2 <> 0) /\
  (Maze.init width height wrap symmetry <> ValueError -> w = width /\ h = height).
Proof.
  unfold Main.adjust_dimensions. split; [|split; [|split]].
  - apply init_even.
    + intros ->. cbn [andb]. apply even_after_adjust.
    + intros ->. cbn [andb]. apply even_after_adjust.
  - destruct (Maze.needs_even_width symmetry); cbn [andb]; [|now left].
    destruct (Z.eqb_spec (width mod 2) 0); cbn [negb]; auto.
  - destruct (Maze.needs_even_height symmetry); cbn [andb]; [|now left].
    destruct (Z.eqb_spec (height mod 2) 0); cbn [negb]; auto.
  - unfold Maze.init.
    destruct (Maze.needs_even_width symmetry && negb (width mod 2 =? 0));
      [intros Hn; now contradiction Hn|].
    destruct (Maze.needs_even_height symmetry && negb (height mod 2 =? 0));
      [intros Hn; now contradiction Hn|]. auto.
Qed.

Lemma random_choice_of_elem {R} `{Random R} {A} (d : A) (r : R) (l : list A) :
  l <> [] -> fst (random_choice_of d r l) ∈ l.
Proof.
  intros Hne. unfold random_choice_of, random_choice.
  destruct (randbelow r (length l)) as [i r']. cbn [fst].
  assert (i mod length l < length l)%nat as Hlt.
  { apply Nat.mod_upper_bound. destruct l; [contradiction|cbn; lia]. }
  destruct (lookup_lt_is_Some_2 l _ Hlt) as [a Ha]. rewrite Ha. cbn.
  eapply list_elem_of_lookup_2. exact Ha.
Qed.

(** X28. [generate_random_maze] always returns a maze: the dimensions it
    draws are even numbers between 10 and 24, so the constructor accepts
    them for every symmetry, and the generation terminates with or without
    wrap.  The maze returned has even dimensions between 10 and 24 and
    consistent walls. *)
Theorem generate_random_maze_returns {R} `{Random R} fuel (r : R) :
  (2304 < fuel)%nat ->
  exists m r',
    Main.generate_random_maze fuel r = Done (m, r') /\
    (10 <= width m <= 24 /\ width m mod 2 = 0) /\
    (10 <= height m <= 24 /\ height m mod 2 = 0) /\
    wf m /\ wall_consistent m.
Proof.
  intros Hfuel. unfold Main.generate_random_maze.
  assert (forall a, a ∈ [10; 12; 14; 16; 18; 20; 22; 24] ->
                    10 <= a <= 24 /\ a mod 2 = 0 /\ a / 2 * 2 = a) as Hsize.
  { intros a Ha. repeat (apply elem_of_cons in Ha as [->|Ha]; [now vm_compute|]).
    inversion Ha. }
  pose proof (random_choice_of_elem 10 r [10; 12; 14; 16; 18; 20; 22; 24]) as Hw.
  destruct (random_choice_of 10 r _) as [w r1]. cbn [fst] in Hw.
  pose proof (random_choice_of_elem 10 r1 [10; 12; 14; 16; 18; 20; 22; 24]) as Hh.
  destruct (random_choice_of 10 r1 _) as [h r2]. cbn [fst] in Hh.
  destruct (random_choice_of true r2 _) as [wr r3].
  destruct (random_choice_of NONE r3 _) as [s r4].
  destruct (Hsize w (Hw ltac:(discriminate))) as (Hw1 & Hw2 & Hw3).
  destruct (Hsize h (Hh ltac:(discriminate))) as (Hh1 & Hh2 & Hh3).
  assert ((if Maze.needs_even_width s then w / 2 * 2 else w) = w) as ->
    by (destruct (Maze.needs_even_width s); auto).
  assert ((if Maze.needs_even_height s then h / 2 * 2 else h) = h) as ->
    by (destruct (Maze.needs_even_height s); auto).
  rewrite init_even by auto.
  set (m := Maze.mk w h wr s (fresh_cells w h)).
  assert (wf m) as Hwf by (apply (init_wf w h wr s); [lia|lia|now apply init_even]).
  destruct (generate_terminates_aux fuel m 0 0 r4 Hwf) as (m' & r' & Hg & Hc).
  - right. cbn. lia.
  - right. unfold adjust_start, in_bounds.
    pose proof (Z.div_pos w 2). pose proof (Z.div_pos h 2).
    destruct (negb _); cbn [fst snd width height m]; lia.
  - cbn [width height m].
    assert (Z.to_nat w * Z.to_nat h <= 24 * 24)%nat by (apply Nat.mul_le_mono; lia). lia.
  - exists m', r'. split; [exact Hg|].
    destruct (generate_consistent fuel m 0 0 r4 m' r' Hwf Hg) as (Hwf' & _ & (Fw & Fh & _)).
    rewrite Fw, Fh. cbn [width height m]. auto.
Qed.

Lemma generate_random_maze_returns_witness :
  exists m r',
    Main.generate_random_maze 2305 ([3; 1; 0; 2] : list nat)%nat = Done (m, r') /\
    wall_consistent m.
Proof.
  destruct (generate_random_maze_returns 2305 ([3; 1; 0; 2] : list nat)%nat)
    as (m & r' & Hg & _ & _ & _ & Hc); [lia|].
  exists m, r'. split; assumption.
Defined.

(** X29. The default branch of [main] returns a maze for every positive
    width and height without wrap, and with wrap when both are at least 3:
    after the adjustment the constructor accepts the dimensions, the start
    cell (0, 0) is valid, and the generation terminates.  The maze has the
    adjusted dimensions and consistent walls. *)
Theorem main_maze_returns {R} `{Random R} fuel width height wrap symmetry (r : R) :
  0 < width -> 0 < height ->
  (wrap = false \/ (3 <= width /\ 3 <= height)) ->
  (4 * (Z.to_nat (width + 1) * Z.to_nat (height + 1)) < fuel)%nat ->
  exists m r',
    Main.main_maze fuel width height wrap symmetry r = Done (m, r') /\
    (Maze.width m, Maze.height m) = Main.adjust_dimensions symmetry width height /\
    wf m /\ wall_consistent m.
Proof.
  intros Hw Hh Hroomy Hfuel. unfold Main.main_maze.
  pose proof (main_dimensions_shape symmetry width height wrap) as Ha.
  destruct (Main.adjust_dimensions symmetry width height) as [w h].
  destruct Ha as (Hi & Hw' & Hh').
  rewrite Hi. set (m := Maze.mk w h wrap symmetry (fresh_cells w h)).
  assert (wf m) as Hwf by (apply (init_wf w h wrap symmetry); [lia|lia|exact Hi]).
  destruct (generate_terminates_aux fuel m 0 0 r Hwf) as (m' & r' & Hg & Hc).
  - destruct Hroomy as [->|?]; [now left|right]. cbn. lia.
  - right. unfold adjust_start, in_bounds.
    pose proof (Z.div_pos w 2). pose proof (Z.div_pos h 2).
    destruct (negb _); cbn [fst snd Maze.width Maze.height m]; lia.
  - cbn [Maze.width Maze.height m].
    assert (Z.to_nat w * Z.to_nat h <= Z.to_nat (width + 1) * Z.to_nat (height + 1))%nat
      by (apply Nat.mul_le_mono; lia). lia.
  - exists m', r'. split; [exact Hg|].
    destruct (generate_consistent fuel m 0 0 r m' r' Hwf Hg) as (Hwf' & _ & (Fw & Fh & _)).
    rewrite Fw, Fh. cbn [Maze.width Maze.height m]. auto.
Qed.

Lemma main_maze_returns_witness :
  exists m r',
    Main.main_maze 65 3 3 false HORIZONTAL ([2; 0; 1] : list nat)%nat = Done (m, r') /\
    Maze.width m = 4 /\ Maze.height m = 3.
Proof.
  destruct (main_maze_returns 65 3 3 false HORIZONTAL ([2; 0; 1] : list nat)%nat)
    as (m & r' & Hg & Hd & _); [lia|lia|now left|cbn; lia|].
  exists m, r'. split; [exact Hg|]. vm_compute in Hd. injection Hd as Hx Hy. split; assumption.
Defined.
